(** * realm-core: the bit-packed integer array node ([src/realm/array.hpp])

    A shallow embedding of the accessor's query kernel, its width-parameterized
    getter, the [RefOrTagged] slot encoding, and the guards of [write] and
    [erase], together with the properties proved about them.

    Conventions.
    - [size_t], [uint64_t] values are [Z] in [[0, 2^64)]; every operation that
      can wrap is written through [to_size_t] (reduction modulo 2^64).
    - [int64_t] values are [Z] in [[-2^63, 2^63)]; arithmetic on them is written
      through [to_int64] (two's-complement wrap).
    - Payload memory is a [list byte]; multi-byte loads are little-endian, as on
      the x86 hosts the SSE paths of the source are written for.
    - Loop counters that are bounded by the array size are plain [Z]. *)

From Stdlib Require Import ZArith List Bool Lia.
From Stdlib Require Import Strings.Byte.
Import ListNotations.
Local Open Scope Z_scope.

(** ** Machine integers *)

Definition two64 : Z := 2 ^ 64.

(** Conversion to [size_t] / [uint64_t]. *)
Definition to_size_t (x : Z) : Z := x mod 2 ^ 64.

(** Conversion to a signed integer of [w] bits (two's complement). *)
Definition to_signed (w : Z) (x : Z) : Z := (x + 2 ^ (w - 1)) mod 2 ^ w - 2 ^ (w - 1).

(** Conversion to [int64_t]. *)
Definition to_int64 (x : Z) : Z := to_signed 64 x.

(** [const size_t npos = size_t(-1)]. *)
Definition npos : Z := to_size_t (-1).
Definition not_found : Z := npos.

(** [template <class T> inline T no0(T v)]. *)
Definition no0 (v : Z) : Z := if v =? 0 then 1 else v.

(** ** RefOrTagged *)

Module RefOrTagged.

(** Modelled from the spec: [to_ref] and [from_ref] live in [alloc.hpp], which is
    not part of the sources at hand.  A ref is "an opaque integer identifier"
    ([ref_type] is [size_t]) kept in a signed 64-bit slot, so the two functions
    are the casts between [size_t] and [int_fast64_t]. *)
Definition to_ref (v : Z) : Z := to_size_t v.
Definition from_ref (r : Z) : Z := to_int64 r.

(** Modelled from the spec: [util::from_twos_compl<int_fast64_t>] reinterprets an
    unsigned 64-bit pattern as the signed value with the same bits. *)
Definition from_twos_compl (u : Z) : Z := to_int64 u.

Record t : Type := mk { m_value : Z }.

Definition is_ref (r : t) : bool := Z.land (m_value r) 1 =? 0.

Definition is_tagged (r : t) : bool := negb (is_ref r).

Definition get_as_ref (r : t) : Z := to_ref (m_value r).

Definition get_as_int (r : t) : Z :=
  Z.shiftr (Z.land (to_size_t (m_value r)) 0xFFFFFFFFFFFFFFFF) 1.

Definition make_ref (ref : Z) : t := mk (from_ref ref).

(** [REALM_ASSERT(i < (1ULL << 63))] is checked in every build; a failed
    assertion is [None]. *)
Definition make_tagged (i : Z) : option t :=
  if i <? Z.shiftl 1 63
  then Some (mk (from_twos_compl (Z.lor (to_size_t (Z.shiftl i 1)) 1)))
  else None.

End RefOrTagged.

(** ** Actions and the integer query state *)

Inductive Action : Type :=
| act_ReturnFirst
| act_Sum
| act_Max
| act_Min
| act_Count
| act_FindAll
| act_CallIdx
| act_CallbackIdx
| act_CallbackVal
| act_CallbackNone
| act_CallbackBoth
| act_Average.

Definition Action_eqb (a b : Action) : bool :=
  match a, b with
  | act_ReturnFirst, act_ReturnFirst | act_Sum, act_Sum | act_Max, act_Max
  | act_Min, act_Min | act_Count, act_Count | act_FindAll, act_FindAll
  | act_CallIdx, act_CallIdx | act_CallbackIdx, act_CallbackIdx
  | act_CallbackVal, act_CallbackVal | act_CallbackNone, act_CallbackNone
  | act_CallbackBoth, act_CallbackBoth | act_Average, act_Average => true
  | _, _ => false
  end.

(** [QueryState<int64_t>]: the four data members. *)
Record QueryState : Type := mkQueryState {
  m_state : Z;          (* int64_t *)
  m_match_count : Z;    (* size_t *)
  m_limit : Z;          (* size_t *)
  m_minmax_index : Z    (* size_t *)
}.

(** Modelled from the spec: [fast_popcount64] ([utilities.hpp]) is the number of
    set bits of a 64-bit word ("the state can popcount an entire chunk"). *)
Fixpoint popcount_bits (n : nat) (x : Z) : Z :=
  match n with
  | O => 0
  | S n' => Z.b2z (Z.testbit x 0) + popcount_bits n' (Z.shiftr x 1)
  end.

Definition fast_popcount64 (x : Z) : Z := popcount_bits 64 x.

(** ** The state a query runs in

    [qs] is the [QueryState<int64_t>] object; [column] is the contents of the
    [IntegerColumn] that [m_state] points to under [act_FindAll] (the object
    [Array::add_to_column] appends to); [cb] is whatever state the [Callback]
    functor carries.  [calls] is a ghost log, absent from the source: it records,
    for every invocation of [find_action], the index passed and the value
    returned, so that statements about invocations can be written down. *)
Record World (C : Type) : Type := mkWorld {
  qs : QueryState;
  column : list Z;
  cb : C;
  calls : list (Z * bool)
}.
Arguments mkWorld {C}.
Arguments qs {C}.
Arguments column {C}.
Arguments cb {C}.
Arguments calls {C}.

Definition set_qs {C} (w : World C) (s : QueryState) : World C :=
  mkWorld s (column w) (cb w) (calls w).

Definition log_call {C} (w : World C) (index : Z) (r : bool) : World C :=
  mkWorld (qs w) (column w) (cb w) (calls w ++ [(index, r)]).

(** Modelled from the spec: [Array::add_to_column(IntegerColumn*, int64_t)]
    ([array.cpp]) appends the value to the destination column ("a pointer/handle
    to a FindAll destination"). *)
Definition add_to_column {C} (w : World C) (value : Z) : World C :=
  mkWorld (qs w) (column w ++ [value]) (cb w) (calls w).

(** [QueryState<int64_t>::init]. *)
Definition QueryState_init (action : Action) (akku : Z) (limit : Z) : QueryState :=
  mkQueryState
    (match action with
     | act_Max => -0x7fffffffffffffff - 1
     | act_Min => 0x7fffffffffffffff
     | act_ReturnFirst => to_int64 not_found
     | act_Sum => 0
     | act_Count => 0
     | act_FindAll => akku
     | _ => 0
     end)
    0 limit not_found.

(** [template <Action action, bool pattern> bool match(size_t index,
    uint64_t indexpattern, int64_t value)]. *)
Definition QueryState_match {C} (action : Action) (pattern : bool)
    (index indexpattern value : Z) (w : World C) : bool * World C :=
  let s := qs w in
  if pattern then
    match action with
    | act_Count =>
        if to_size_t (m_match_count s + 64) >=? m_limit s then (false, w)
        else
          let st := to_int64 (m_state s + fast_popcount64 indexpattern) in
          (true, set_qs w (mkQueryState st (to_size_t st) (m_limit s) (m_minmax_index s)))
    | _ => (false, w)
    end
  else
    let mc := to_size_t (m_match_count s + 1) in
    match action with
    | act_Max =>
        let s' := if value >? m_state s
                  then mkQueryState value mc (m_limit s) index
                  else mkQueryState (m_state s) mc (m_limit s) (m_minmax_index s) in
        (m_limit s' >? m_match_count s', set_qs w s')
    | act_Min =>
        let s' := if value <? m_state s
                  then mkQueryState value mc (m_limit s) index
                  else mkQueryState (m_state s) mc (m_limit s) (m_minmax_index s) in
        (m_limit s' >? m_match_count s', set_qs w s')
    | act_Sum =>
        let s' := mkQueryState (to_int64 (m_state s + value)) mc (m_limit s) (m_minmax_index s) in
        (m_limit s' >? m_match_count s', set_qs w s')
    | act_Count =>
        let st := to_int64 (m_state s + 1) in
        let s' := mkQueryState st (to_size_t st) (m_limit s) (m_minmax_index s) in
        (m_limit s' >? m_match_count s', set_qs w s')
    | act_FindAll =>
        let s' := mkQueryState (m_state s) mc (m_limit s) (m_minmax_index s) in
        (m_limit s' >? m_match_count s', add_to_column (set_qs w s') (to_int64 index))
    | act_ReturnFirst =>
        (false, set_qs w (mkQueryState (to_int64 index) mc (m_limit s) (m_minmax_index s)))
    | _ =>
        let s' := mkQueryState (m_state s) mc (m_limit s) (m_minmax_index s) in
        (m_limit s' >? m_match_count s', set_qs w s')
    end.

(** The overload taking [util::Optional<int64_t>]. *)
Definition QueryState_match_opt {C} (action : Action) (pattern : bool)
    (index indexpattern : Z) (value : option Z) (w : World C) : bool * World C :=
  match value with
  | Some v => QueryState_match action pattern index indexpattern v w
  | None =>
      let s := qs w in
      match action with
      | act_Count =>
          let st := to_int64 (m_state s + 1) in
          let s' := mkQueryState st (to_size_t st) (m_limit s) (m_minmax_index s) in
          (m_limit s' >? m_match_count s', set_qs w s')
      | act_FindAll =>
          (m_limit s >? m_match_count s, add_to_column w (to_int64 index))
      | act_ReturnFirst =>
          (false, set_qs w (mkQueryState (to_int64 index) (to_size_t (m_match_count s + 1))
                                         (m_limit s) (m_minmax_index s)))
      | _ => (m_limit s >? m_match_count s, w)
      end
  end.

(** [Array::find_action]: called for each search result. *)
Definition find_action {C} (action : Action) (callback : Z -> C -> bool * C)
    (index : Z) (value : option Z) (w : World C) : bool * World C :=
  let (r, w') :=
    match action with
    | act_CallbackIdx =>
        let (r, c') := callback index (cb w) in
        (r, mkWorld (qs w) (column w) c' (calls w))
    | _ => QueryState_match_opt action false index 0 value w
    end in
  (r, log_call w' index r).

(** [Array::find_action_pattern]. *)
Definition find_action_pattern {C} (action : Action) (callback : Z -> C -> bool * C)
    (index pattern : Z) (w : World C) : bool * World C :=
  match action with
  | act_CallbackIdx => (false, w)
  | _ => QueryState_match action true index pattern 0 w
  end.

(** ** Outcomes and the control monad of the kernel

    Every kernel routine returns [bool]; a callee's [false] is always passed on
    by [if (!f(...)) return false;].  A routine is therefore a computation that
    either runs to its end ([Done]) or leaves through [return false]
    ([ReturnFalse]).  [Aborted] is a failed [REALM_ASSERT] (checked in release
    builds too), or a vector load off its 16-byte boundary in
    [compare_leafs_4]; [OutOfFuel] is reported when a loop of the model exhausts the
    iteration bound it was given, and never stands for a result. *)
Inductive outcome (A : Type) : Type :=
| Done (a : A)
| ReturnFalse
| Aborted
| OutOfFuel.
Arguments Done {A}.
Arguments ReturnFalse {A}.
Arguments Aborted {A}.
Arguments OutOfFuel {A}.

Definition M (C A : Type) : Type := World C -> outcome A * World C.

Definition ret {C A} (a : A) : M C A := fun w => (Done a, w).

Definition bind {C A B} (m : M C A) (f : A -> M C B) : M C B :=
  fun w =>
    match m w with
    | (Done a, w') => f a w'
    | (ReturnFalse, w') => (ReturnFalse, w')
    | (Aborted, w') => (Aborted, w')
    | (OutOfFuel, w') => (OutOfFuel, w')
    end.

Declare Scope kernel_scope.
Delimit Scope kernel_scope with kernel.
Notation "x <- m ;; k" := (bind m (fun x => k))
  (at level 61, m at next level, right associativity) : kernel_scope.
Notation "m ;; k" := (bind m (fun _ => k))
  (at level 61, right associativity) : kernel_scope.
Local Open Scope kernel_scope.

(** [if (!f(...)) return false;] *)
Definition check {C} (f : World C -> bool * World C) : M C unit :=
  fun w => let (r, w') := f w in (if r then Done tt else ReturnFalse, w').

(** A call whose [bool] result is inspected by the caller. *)
Definition call {C} (f : World C -> bool * World C) : M C bool :=
  fun w => let (r, w') := f w in (Done r, w').

(** [REALM_ASSERT(b)]. *)
Definition assert_ {C} (b : bool) : M C unit :=
  fun w => (if b then Done tt else Aborted, w).

(** A write to the members of the query state. *)
Definition modify_qs {C} (f : QueryState -> QueryState) : M C unit :=
  fun w => (Done tt, set_qs w (f (qs w))).

Definition read_qs {C} : M C QueryState := fun w => (Done (qs w), w).

(** [while (cond) { body }], where the body says whether the loop goes on
    ([true]) or was left by [break] ([false]). *)
Fixpoint while_ {C S} (fuel : nat) (cond : S -> bool) (body : S -> M C (bool * S))
    (s : S) : M C S :=
  if cond s then
    match fuel with
    | O => fun w => (OutOfFuel, w)
    | S fuel' =>
        r <- body s ;;
        if fst r then while_ fuel' cond body (snd r) else ret (snd r)
    end
  else ret s.

(** [for (; i < stop; ++i) { body }]; yields the final value of [i]. *)
Definition for_ {C} (start stop : Z) (body : Z -> M C unit) : M C Z :=
  while_ (Z.to_nat (stop - start)) (fun i => i <? stop)
         (fun i => body i ;; ret (true, i + 1)) start.

(** The value a routine hands to its caller. *)
Definition returns {C} (m : M C unit) : World C -> outcome bool * World C :=
  fun w =>
    match m w with
    | (Done _, w') => (Done true, w')
    | (ReturnFalse, w') => (Done false, w')
    | (Aborted, w') => (Aborted, w')
    | (OutOfFuel, w') => (OutOfFuel, w')
    end.

(** ** Payload memory and the accessor *)

(** What the build and the host decide: whether plain [char] is signed, whether
    the SSE code is compiled in ([REALM_COMPILER_SSE]), what [sseavx<42>()] and
    [sseavx<30>()] report, and what a 64-bit right shift by 64 does where the
    source leaves it undefined (x86 masks the count, other targets clear the
    register). *)
Record Platform : Type := mkPlatform {
  char_is_signed : bool;
  compiler_sse : bool;
  sseavx42 : bool;
  sseavx30 : bool;
  shift_count_masked : bool
}.

(** The members of the accessor the kernel reads.  [m_data] is the payload as
    found at address [m_data_addr]. *)
Record Array : Type := mkArray {
  m_data : list byte;
  m_data_addr : Z;
  m_width : Z;
  m_size : Z;
  m_lbound : Z;
  m_ubound : Z
}.

Definition byte_val (b : byte) : Z := Z.of_N (Byte.to_N b).

(** [reinterpret_cast<const unsigned char*>(data)[off]]. *)
Definition byte_at (data : list byte) (off : Z) : Z :=
  byte_val (nth (Z.to_nat off) data x00).

(** [data[off]] for [const char* data], promoted to [int]. *)
Definition char_at (pf : Platform) (data : list byte) (off : Z) : Z :=
  if char_is_signed pf then to_signed 8 (byte_at data off) else byte_at data off.

(** The unsigned value of the [n] bytes at [off], least significant first. *)
Fixpoint load_le (data : list byte) (off : Z) (n : nat) : Z :=
  match n with
  | O => 0
  | S n' => byte_at data off + 256 * load_le data (off + 1) n'
  end.

(** [template <size_t w> int64_t Array::get_universal(const char* data, size_t
    ndx)]; [base] is the offset of [data] within the payload. *)
Definition get_universal (pf : Platform) (w : Z) (data : list byte) (base : Z) (ndx : Z) : Z :=
  if w =? 0 then 0
  else if w =? 1 then
    let offset := Z.shiftr ndx 3 in
    Z.land (Z.shiftr (char_at pf data (base + offset)) (Z.land ndx 7)) 0x01
  else if w =? 2 then
    let offset := Z.shiftr ndx 2 in
    Z.land (Z.shiftr (char_at pf data (base + offset)) (Z.shiftl (Z.land ndx 3) 1)) 0x03
  else if w =? 4 then
    let offset := Z.shiftr ndx 1 in
    Z.land (Z.shiftr (char_at pf data (base + offset)) (Z.shiftl (Z.land ndx 1) 2)) 0x0F
  else if w =? 8 then
    to_signed 8 (byte_at data (base + ndx))
  else if w =? 16 then
    let offset := ndx * 2 in
    to_signed 16 (load_le data (base + offset) 2)
  else if w =? 32 then
    let offset := ndx * 4 in
    to_signed 32 (load_le data (base + offset) 4)
  else if w =? 64 then
    let offset := ndx * 8 in
    to_signed 64 (load_le data (base + offset) 8)
  else -1.

(** [template <size_t w> int64_t Array::get(size_t ndx)]. *)
Definition get (pf : Platform) (w : Z) (a : Array) (ndx : Z) : Z :=
  get_universal pf w (m_data a) 0 ndx.

(** [int64_t Array::get(size_t ndx)], through [m_getter]. *)
Definition get_dyn (pf : Platform) (a : Array) (ndx : Z) : Z :=
  get pf (m_width a) a ndx.

(** ** Conditions *)

Inductive CondKind : Type :=
| cond_Equal
| cond_NotEqual
| cond_Greater
| cond_Less
| cond_Other.

(** What the kernel uses of a condition class: its identity (for the
    [std::is_same] dispatch), [operator()] with its two null flags, [can_match]
    and [will_match]. *)
Record Cond : Type := mkCond {
  cond_kind : CondKind;
  cond_op : Z -> Z -> bool -> bool -> bool;
  can_match : Z -> Z -> Z -> bool;
  will_match : Z -> Z -> Z -> bool
}.

(** [c(v1, v2)]: both null flags default to [false]. *)
Definition cond_c (cd : Cond) (v1 v2 : Z) : bool := cond_op cd v1 v2 false false.

(** Modelled from the spec: the condition classes are declared in
    [query_conditions.hpp], which is not among the sources.  Each provides
    [c(v, target)], [can_match(target, lb, ub)] ("prunes when node range cannot
    contain any match") and [will_match(target, lb, ub)] ("entire node
    matches"); a null operand equals only another null and is never ordered. *)
Definition Equal : Cond :=
  mkCond cond_Equal
    (fun v1 v2 v1null v2null => (v1null && v2null) || (negb v1null && negb v2null && (v1 =? v2)))
    (fun v lbound ubound => (v >=? lbound) && (v <=? ubound))
    (fun v lbound ubound => (v =? 0) && (ubound =? 0) && (lbound =? 0)).

Definition NotEqual : Cond :=
  mkCond cond_NotEqual
    (fun v1 v2 v1null v2null =>
       if negb v1null && negb v2null then negb (v1 =? v2)
       else if v1null && v2null then false else true)
    (fun v lbound ubound => negb ((v =? 0) && (ubound =? 0) && (lbound =? 0)))
    (fun v lbound ubound => (v >? ubound) || (v <? lbound)).

Definition Greater : Cond :=
  mkCond cond_Greater
    (fun v1 v2 v1null v2null => if v1null || v2null then false else v1 >? v2)
    (fun v lbound ubound => ubound >? v)
    (fun v lbound ubound => lbound >? v).

Definition Less : Cond :=
  mkCond cond_Less
    (fun v1 v2 v1null v2null => if v1null || v2null then false else v1 <? v2)
    (fun v lbound ubound => lbound <? v)
    (fun v lbound ubound => ubound <? v).

Definition is_same (cd : Cond) (k : CondKind) : bool :=
  match cond_kind cd, k with
  | cond_Equal, cond_Equal | cond_NotEqual, cond_NotEqual
  | cond_Greater, cond_Greater | cond_Less, cond_Less => true
  | _, _ => false
  end.

(** Modelled from the spec: [lbound_for_width] and [ubound_for_width] are defined
    in [array.cpp].  Widths 8 to 64 hold "native two's-complement signed
    integers", widths 1, 2 and 4 hold "unsigned fields", and at width 0 "every
    element is implicitly 0". *)
Definition lbound_for_width (width : Z) : Z :=
  if width <=? 4 then 0 else - 2 ^ (width - 1).

Definition ubound_for_width (width : Z) : Z :=
  if width =? 0 then 0
  else if width <=? 4 then 2 ^ width - 1
  else 2 ^ (width - 1) - 1.

(** ** Bit tricks on 64-bit chunks *)

Definition ones64 : Z := 0xFFFFFFFFFFFFFFFF.

(** [~x] on [uint64_t]. *)
Definition u64_not (x : Z) : Z := Z.lxor (to_size_t x) ones64.

(** [x >> n] on [uint64_t] for a count that may reach 64 (undefined in the
    source language when it does). *)
Definition u64_shr (pf : Platform) (x n : Z) : Z :=
  if n >=? 64
  then (if shift_count_masked pf then Z.shiftr x (n mod 64) else 0)
  else Z.shiftr x n.

(** Modelled from the spec: [round_up] and [round_down] ([utilities.hpp]) round
    to a multiple of a power-of-two alignment. *)
Definition round_up (p align : Z) : Z :=
  let r := if p mod align =? 0 then 0 else align - p mod align in p + r.

Definition round_down (p align : Z) : Z := p - p mod align.

(** Modelled from the spec: [first_set_bit64] and [first_set_bit] ([array.cpp])
    give the position of the lowest set bit ("isolate the lowest zero field,
    compute its offset via [first_set_bit64]"). *)
Fixpoint lowest_set_bit (n : nat) (pos : Z) (v : Z) : Z :=
  match n with
  | O => pos
  | S n' => if Z.testbit v 0 then pos else lowest_set_bit n' (pos + 1) (Z.shiftr v 1)
  end.

Definition first_set_bit64 (v : Z) : Z := lowest_set_bit 64 0 (to_size_t v).

Definition first_set_bit (v : Z) : Z := lowest_set_bit 32 0 (v mod 2 ^ 32).

(** [template <size_t width> inline int64_t Array::lower_bits()]. *)
Definition lower_bits (width : Z) : Z :=
  if width =? 1 then to_int64 0xFFFFFFFFFFFFFFFF
  else if width =? 2 then to_int64 0x5555555555555555
  else if width =? 4 then to_int64 0x1111111111111111
  else if width =? 8 then to_int64 0x0101010101010101
  else if width =? 16 then to_int64 0x0001000100010001
  else if width =? 32 then to_int64 0x0000000100000001
  else if width =? 64 then to_int64 0x0000000000000001
  else -1.

(** The mask [(1ULL << width) - 1], computed warning-free in the source. *)
Definition width_mask (width : Z) : Z :=
  if width =? 64 then ones64
  else to_size_t (Z.shiftl 1 (if width =? 64 then 0 else width) - 1).

(** [template <size_t width, bool zero> uint64_t Array::cascade(uint64_t a)]. *)
Definition cascade (width : Z) (zero : bool) (a : Z) : Z :=
  let m1 := 0x5555555555555555 in
  if width =? 1 then (if zero then u64_not a else a)
  else if width =? 2 then
    let c1 := ones64 / 0x3 * 0x1 in
    let a := Z.lor a (Z.land (Z.shiftr a 1) c1) in
    let a := Z.land a m1 in
    if zero then Z.lxor a m1 else a
  else if width =? 4 then
    let m := ones64 / 0xF * 0x1 in
    let c1 := ones64 / 0xF * 0x7 in
    let c2 := ones64 / 0xF * 0x3 in
    let a := Z.lor a (Z.land (Z.shiftr a 1) c1) in
    let a := Z.lor a (Z.land (Z.shiftr a 2) c2) in
    let a := Z.land a m in
    if zero then Z.lxor a m else a
  else if width =? 8 then
    let m := ones64 / 0xFF * 0x1 in
    let c1 := ones64 / 0xFF * 0x7F in
    let c2 := ones64 / 0xFF * 0x3F in
    let c3 := ones64 / 0xFF * 0x0F in
    let a := Z.lor a (Z.land (Z.shiftr a 1) c1) in
    let a := Z.lor a (Z.land (Z.shiftr a 2) c2) in
    let a := Z.lor a (Z.land (Z.shiftr a 4) c3) in
    let a := Z.land a m in
    if zero then Z.lxor a m else a
  else if width =? 16 then
    let m := ones64 / 0xFFFF * 0x1 in
    let c1 := ones64 / 0xFFFF * 0x7FFF in
    let c2 := ones64 / 0xFFFF * 0x3FFF in
    let c3 := ones64 / 0xFFFF * 0x0FFF in
    let c4 := ones64 / 0xFFFF * 0x00FF in
    let a := Z.lor a (Z.land (Z.shiftr a 1) c1) in
    let a := Z.lor a (Z.land (Z.shiftr a 2) c2) in
    let a := Z.lor a (Z.land (Z.shiftr a 4) c3) in
    let a := Z.lor a (Z.land (Z.shiftr a 8) c4) in
    let a := Z.land a m in
    if zero then Z.lxor a m else a
  else if width =? 32 then
    let m := ones64 / 0xFFFFFFFF * 0x1 in
    let c1 := ones64 / 0xFFFFFFFF * 0x7FFFFFFF in
    let c2 := ones64 / 0xFFFFFFFF * 0x3FFFFFFF in
    let c3 := ones64 / 0xFFFFFFFF * 0x0FFFFFFF in
    let c4 := ones64 / 0xFFFFFFFF * 0x00FFFFFF in
    let c5 := ones64 / 0xFFFFFFFF * 0x0000FFFF in
    let a := Z.lor a (Z.land (Z.shiftr a 1) c1) in
    let a := Z.lor a (Z.land (Z.shiftr a 2) c2) in
    let a := Z.lor a (Z.land (Z.shiftr a 4) c3) in
    let a := Z.lor a (Z.land (Z.shiftr a 8) c4) in
    let a := Z.lor a (Z.land (Z.shiftr a 16) c5) in
    let a := Z.land a m in
    if zero then Z.lxor a m else a
  else if width =? 64 then
    Z.b2z (Bool.eqb (a =? 0) zero)
  else ones64.

(** [template <size_t width> inline bool Array::test_zero(uint64_t value)]. *)
Definition test_zero (width : Z) (value : Z) : bool :=
  let lower := to_size_t (lower_bits width) in
  let upper := to_size_t (Z.shiftl (to_size_t (lower_bits width) * 1)
                                   (if width =? 0 then 0 else width - 1)) in
  let hasZeroByte := Z.land (Z.land (to_size_t (value - lower)) (u64_not value)) upper in
  negb (hasZeroByte =? 0).

(** The closing [while] of [find_zero]; [None] when [REALM_ASSERT_3(start, <=,
    8 * sizeof(v))] fails. *)
Fixpoint find_zero_loop (fuel : nat) (eq : bool) (width mask v start : Z) : option Z :=
  if Bool.eqb eq (negb (Z.land (Z.shiftr v (width * start)) mask =? 0)) then
    if start <=? 64 then
      match fuel with
      | O => None
      | S fuel' => find_zero_loop fuel' eq width mask v (start + 1)
      end
    else None
  else Some start.

(** [template <bool eq, size_t width> size_t Array::find_zero(uint64_t v)]. *)
Definition find_zero (eq : bool) (width : Z) (v : Z) : option Z :=
  let start := 0 in
  let mask := width_mask width in
  if Bool.eqb eq (Z.land (Z.shiftr v (width * start)) mask =? 0) then Some 0
  else
    let start :=
      if width <=? 8 then
        let hasZeroByte := test_zero width (Z.lor v 0xffffffff00000000) in
        if (if eq then negb hasZeroByte else Z.land v 0x00000000ffffffff =? 0) then
          let start := start + 64 / no0 width / 2 in
          if width <=? 4 then
            let hasZeroByte := test_zero width (Z.lor v 0xffff000000000000) in
            if (if eq then negb hasZeroByte else Z.land v 0x0000ffffffffffff =? 0)
            then start + 64 / no0 width / 4
            else start
          else start
        else
          if width <=? 4 then
            let hasZeroByte := test_zero width (Z.lor v 0xffffffffffff0000) in
            if (if eq then negb hasZeroByte else Z.land v 0x000000000000ffff =? 0)
            then start + 64 / no0 width / 4
            else start
          else start
      else start in
    find_zero_loop 66 eq width mask v start.

(** [template <bool gt, size_t width> int64_t Array::find_gtlt_magic(int64_t v)]. *)
Definition find_gtlt_magic (gt : bool) (width : Z) (v : Z) : Z :=
  let mask1 := width_mask width in
  let mask2 := Z.shiftr mask1 1 in
  let magic :=
    if gt then to_size_t (ones64 / no0 mask1 * to_size_t (mask2 - to_size_t v))
    else to_size_t (ones64 / no0 mask1 * to_size_t v) in
  to_int64 magic.

(** ** The search routines *)

Section Finder.

Context {C : Type}.
Variable pf : Platform.
Variable callback : Z -> C -> bool * C.
Variable action : Action.

Local Abbreviation find_action_ := (find_action action callback).
Local Abbreviation find_action_pattern_ := (find_action_pattern action callback).

(** [template <bool gt, Action action, size_t width, class Callback> bool
    Array::find_gtlt_fast(uint64_t chunk, uint64_t magic, ...)]. *)
Definition find_gtlt_fast (gt : bool) (width : Z) (chunk magic : Z) (baseindex : Z) : M C unit :=
  let mask1 := width_mask width in
  let mask2 := Z.shiftr mask1 1 in
  let m :=
    if gt
    then Z.land (Z.lor (to_size_t (chunk + magic)) chunk)
                (to_size_t (ones64 / no0 mask1 * to_size_t (mask2 + 1)))
    else Z.land (Z.land (to_size_t (chunk - magic)) (u64_not chunk))
                (to_size_t (ones64 / no0 mask1 * to_size_t (mask2 + 1))) in
  let p := 0 in
  while_ 65 (fun mp : Z * Z => negb (fst mp =? 0))
    (fun mp =>
       let (m, p) := mp in
       consumed <- call (find_action_pattern_ baseindex (Z.shiftr m (no0 width - 1))) ;;
       if consumed then ret (false, (m, p))
       else
         let t := first_set_bit64 m / no0 width in
         let p := p + t in
         check (find_action_ (to_size_t (p + baseindex))
                             (Some (to_int64 (Z.land (Z.shiftr chunk (p * width)) mask1)))) ;;
         let m := if (t + 1) * width =? 64 then 0 else Z.shiftr m ((t + 1) * width) in
         ret (true, (m, p + 1)))
    (m, p) ;;
  ret tt.

(** One of the unrolled blocks of [find_gtlt]: test the low field of [chunk]
    as [elem] reads it, report index [t + baseindex]. *)
Definition gtlt_step (gt : bool) (v : Z) (elem : Z) (t baseindex : Z) : M C unit :=
  if (if gt then elem >? v else elem <? v)
  then check (find_action_ (to_size_t (t + baseindex)) (Some elem))
  else ret tt.

(** [n] consecutive blocks, each followed by [chunk >>= width]. *)
Fixpoint gtlt_blocks (gt : bool) (v : Z) (width : Z) (elem : Z -> Z) (n : nat)
    (t : Z) (chunk baseindex : Z) : M C unit :=
  match n with
  | O => ret tt
  | S n' =>
      gtlt_step gt v (elem chunk) t baseindex ;;
      gtlt_blocks gt v width elem n' (t + 1) (Z.shiftr chunk width) baseindex
  end.

(** [template <bool gt, Action action, size_t width, class Callback> bool
    Array::find_gtlt(int64_t v, uint64_t chunk, ...)]. *)
Definition find_gtlt (gt : bool) (width : Z) (v : Z) (chunk : Z) (baseindex : Z) : M C unit :=
  if width =? 1 then
    gtlt_blocks gt v 1 (fun chunk => Z.land chunk 0x1) 64 0 chunk baseindex
  else if width =? 2 then
    gtlt_blocks gt v 2 (fun chunk => Z.land chunk 0x3) 32 0 chunk baseindex
  else if width =? 4 then
    gtlt_blocks gt v 4 (fun chunk => Z.land chunk 0xf) 16 0 chunk baseindex
  else if width =? 8 then
    gtlt_blocks gt v 8 (fun chunk => to_signed 8 chunk) 8 0 chunk baseindex
  else if width =? 16 then
    gtlt_step gt v (to_signed 16 (Z.shiftr chunk (0 * 16))) 0 baseindex ;;
    gtlt_step gt v (to_signed 16 (Z.shiftr chunk (1 * 16))) 1 baseindex ;;
    gtlt_step gt v (to_signed 16 (Z.shiftr chunk (2 * 16))) 2 baseindex ;;
    gtlt_step gt v (to_signed 16 (Z.shiftr chunk (3 * 16))) 3 baseindex
  else if width =? 32 then
    gtlt_blocks gt v 32 (fun chunk => to_signed 32 chunk) 2 0 chunk baseindex
  else if width =? 64 then
    (* the element tested and reported is [v] itself, not [chunk] *)
    gtlt_step gt v v 0 baseindex
  else ret tt.

(** The 64-bit word at byte offset [off] of the payload ([*p]). *)
Definition read_chunk (a : Array) (off : Z) : Z := load_le (m_data a) off 8.

(** The scalar loops of [compare_equality]. *)
Definition equality_scalar (eq : bool) (width : Z) (a : Array) (value start stop baseindex : Z)
  : M C Z :=
  for_ start stop (fun i =>
    if (if eq then get pf width a i =? value else negb (get pf width a i =? value))
    then check (find_action_ (to_size_t (i + baseindex)) (Some (get pf width a i)))
    else ret tt).

(** [template <bool eq, Action action, size_t width, class Callback> inline bool
    Array::compare_equality(int64_t value, size_t start, size_t end, ...)].
    Pointers [p] and [e] are byte offsets from [m_data]. *)
Definition compare_equality (eq : bool) (width : Z) (a : Array)
    (value start end_ baseindex : Z) : M C unit :=
  let ee := round_up start (64 / no0 width) in
  let ee := if ee >? end_ then end_ else ee in
  start <- equality_scalar eq width a value start ee baseindex ;;
  if start >=? end_ then ret tt
  else
    start <-
      (if negb (width =? 32) && negb (width =? 64) then
         let p := start * width / 8 in
         let e := end_ * width / 8 - 8 in
         let mask := width_mask width in
         let valuemask := to_size_t (ones64 / no0 mask * Z.land (to_size_t value) mask) in
         p <- while_ (Z.to_nat end_) (fun p => p <? e)
                (fun p =>
                   let chunk := read_chunk a p in
                   let v2 := Z.lxor chunk valuemask in
                   let start := p / 8 * 8 * 8 / no0 width in
                   while_ 66 (fun av : Z * Z => if eq then test_zero width (snd av)
                                                else negb (snd av =? 0))
                     (fun av =>
                        let (a', v2) := av in
                        consumed <- call (find_action_pattern_ (to_size_t (start + baseindex))
                                                               (cascade width eq v2)) ;;
                        if consumed then ret (false, (a', v2))
                        else
                          match find_zero eq width v2 with
                          | None => fun w => (Aborted, w)
                          | Some t =>
                              let a' := a' + t in
                              if a' >=? 64 / no0 width then ret (false, (a', v2))
                              else
                                check (find_action_ (to_size_t (a' + start + baseindex))
                                                    (Some (get pf width a (start + t)))) ;;
                                ret (true, (a' + 1, u64_shr pf v2 ((t + 1) * width)))
                          end)
                     (0, v2) ;;
                   ret (true, p + 8))
                p ;;
         ret (p / 8 * 8 * 8 / no0 width)
       else ret start) ;;
    equality_scalar eq width a value start end_ baseindex ;;
    ret tt.

(** The scalar loops of [compare_relation]. *)
Definition relation_scalar (gt : bool) (bitwidth : Z) (a : Array)
    (value start stop baseindex : Z) : M C Z :=
  for_ start stop (fun i =>
    if (if gt then get pf bitwidth a i >? value else get pf bitwidth a i <? value)
    then check (find_action_ (to_size_t (i + baseindex)) (Some (get pf bitwidth a i)))
    else ret tt).

(** [template <bool gt, Action action, size_t bitwidth, class Callback> bool
    Array::compare_relation(int64_t value, size_t start, size_t end, ...)]. *)
Definition compare_relation (gt : bool) (bitwidth : Z) (a : Array)
    (value start end_ baseindex : Z) : M C unit :=
  assert_ ((start <=? m_size a) && ((end_ <=? m_size a) || (end_ =? npos)) && (start <=? end_)) ;;
  let mask := width_mask bitwidth in
  let ee := round_up start (64 / no0 bitwidth) in
  let ee := if ee >? end_ then end_ else ee in
  start <- relation_scalar gt bitwidth a value start ee baseindex ;;
  if start >=? end_ then ret tt
  else
    let p := start * bitwidth / 8 in
    let e := end_ * bitwidth / 8 - 8 in
    start <-
      (if (bitwidth =? 1) || (bitwidth =? 2) || (bitwidth =? 4) || (bitwidth =? 8)
          || (bitwidth =? 16) then
         let magic := to_size_t (find_gtlt_magic gt bitwidth value) in
         p <-
           (if negb (value =? to_int64 (Z.land magic mask)) && (value >=? 0) && (bitwidth >=? 2)
               && (value <=? to_int64 (to_size_t (Z.shiftr mask 1 - (if gt then 1 else 0))))
            then
              while_ (Z.to_nat end_) (fun p => p <? e)
                (fun p =>
                   let upper := to_size_t (Z.shiftl (lower_bits bitwidth) (no0 bitwidth - 1)) in
                   let v := read_chunk a p in
                   let upper := Z.land upper v in
                   (if upper =? 0
                    then find_gtlt_fast gt bitwidth v magic
                           (to_size_t (p / 8 * 8 * 8 / no0 bitwidth + baseindex))
                    else find_gtlt gt bitwidth value v
                           (to_size_t (p / 8 * 8 * 8 / no0 bitwidth + baseindex))) ;;
                   ret (true, p + 8))
                p
            else
              while_ (Z.to_nat end_) (fun p => p <? e)
                (fun p =>
                   let v := read_chunk a p in
                   find_gtlt gt bitwidth value v
                     (to_size_t (p / 8 * 8 * 8 / no0 bitwidth + baseindex)) ;;
                   ret (true, p + 8))
                p) ;;
         ret (p / 8 * 8 * 8 / no0 bitwidth)
       else ret start) ;;
    relation_scalar gt bitwidth a value start end_ baseindex ;;
    ret tt.

(** [template <class cond, Action action, size_t bitwidth, class Callback> bool
    Array::compare(...)].  For any other condition the routine returns its
    initial [ret = false]. *)
Definition compare (cd : Cond) (bitwidth : Z) (a : Array)
    (value start end_ baseindex : Z) : M C unit :=
  if is_same cd cond_Equal then compare_equality true bitwidth a value start end_ baseindex
  else if is_same cd cond_NotEqual then compare_equality false bitwidth a value start end_ baseindex
  else if is_same cd cond_Greater then compare_relation true bitwidth a value start end_ baseindex
  else if is_same cd cond_Less then compare_relation false bitwidth a value start end_ baseindex
  else fun w => (ReturnFalse, w).

End Finder.

(** ** SSE

    An [__m128i] is its 128-bit pattern.  The intrinsics are those of
    [<emmintrin.h>] and [<nmmintrin.h>], with the lane semantics Intel documents
    for them. *)

(** Lane [e] of [x], for lanes of [bits] bits. *)
Definition m128_lane (bits : Z) (x : Z) (e : Z) : Z :=
  Z.land (Z.shiftr x (bits * e)) (2 ^ bits - 1).

(** The vector whose lanes [e], [e+1], ... are [f e], [f (e+1)], ... *)
Fixpoint m128_build (bits : Z) (n : nat) (f : Z -> Z) (e : Z) : Z :=
  match n with
  | O => 0
  | S n' => f e + 2 ^ bits * m128_build bits n' f (e + 1)
  end.

(** [_mm_cmpeq_epi*], [_mm_cmpgt_epi*], [_mm_cmplt_epi*]: a lane of ones where
    the signed lanes are in relation [rel], a lane of zeros elsewhere. *)
Definition mm_cmp (rel : Z -> Z -> bool) (bits : Z) (x y : Z) : Z :=
  m128_build bits (Z.to_nat (128 / bits))
    (fun e => if rel (to_signed bits (m128_lane bits x e)) (to_signed bits (m128_lane bits y e))
              then 2 ^ bits - 1 else 0) 0.

(** [_mm_movemask_epi8]: the top bit of each of the 16 bytes. *)
Definition mm_movemask_epi8 (x : Z) : Z :=
  m128_build 1 16 (fun j => Z.b2z (Z.testbit x (8 * j + 7))) 0.

(** [_mm_set1_epi8], [_mm_set1_epi16], [_mm_set1_epi32], [_mm_set_epi64x(v, v)]. *)
Definition mm_set1 (bits : Z) (v : Z) : Z :=
  m128_build bits (Z.to_nat (128 / bits)) (fun _ => v mod 2 ^ bits) 0.

Section FinderSSE.

Context {C : Type}.
Variable pf : Platform.
Variable callback : Z -> C -> bool * C.
Variable action : Action.

Local Abbreviation find_action_ := (find_action action callback).
Local Abbreviation find_action_pattern_ := (find_action_pattern action callback).

(** The comparison [find_sse_intern] selects for one vector; [None] is the
    [REALM_ASSERT(false)] of [Less] at a width other than 8, 16, 32. *)
Definition sse_compare (cd : Cond) (width : Z) (compare_result x y : Z) : option Z :=
  if is_same cd cond_Equal || is_same cd cond_NotEqual then
    Some (if width =? 8 then mm_cmp Z.eqb 8 x y
          else if width =? 16 then mm_cmp Z.eqb 16 x y
          else if width =? 32 then mm_cmp Z.eqb 32 x y
          else if width =? 64 then mm_cmp Z.eqb 64 x y
          else compare_result)
  else if is_same cd cond_Greater then
    Some (if width =? 8 then mm_cmp Z.gtb 8 x y
          else if width =? 16 then mm_cmp Z.gtb 16 x y
          else if width =? 32 then mm_cmp Z.gtb 32 x y
          else if width =? 64 then mm_cmp Z.gtb 64 x y
          else compare_result)
  else if is_same cd cond_Less then
    if width =? 8 then Some (mm_cmp Z.ltb 8 x y)
    else if width =? 16 then Some (mm_cmp Z.ltb 16 x y)
    else if width =? 32 then Some (mm_cmp Z.ltb 32 x y)
    else None
  else Some compare_result.

(** [template <class cond, Action action, size_t width, class Callback> bool
    Array::find_sse_intern(__m128i* action_data, __m128i* data, size_t items,
    ...)].  [action_data] is a byte offset into the payload of [a]; [data] is
    the vector [*data]. *)
Definition find_sse_intern (cd : Cond) (width : Z) (a : Array) (action_data : Z) (data : Z)
    (items : Z) (baseindex : Z) : M C unit :=
  while_ (Z.to_nat items) (fun ic : Z * Z => fst ic <? items)
    (fun ic =>
       let (i, compare_result) := ic in
       match sse_compare cd width compare_result
               (load_le (m_data a) (action_data + 16 * i) 16) data with
       | None => fun w => (Aborted, w)
       | Some compare_result =>
           let resmask := mm_movemask_epi8 compare_result in
           let resmask :=
             if is_same cd cond_NotEqual
             then Z.land (Z.lxor resmask 0xFFFFFFFF) 0x0000ffff else resmask in
           let s := i * 16 * 8 / no0 width in
           while_ 17 (fun rs : Z * Z => negb (fst rs =? 0))
             (fun rs =>
                let (resmask, s) := rs in
                let upper := to_size_t (Z.shiftl (lower_bits (width / 8)) (no0 (width / 8) - 1)) in
                let pattern := Z.land resmask upper in
                consumed <- call (find_action_pattern_ (to_size_t (s + baseindex)) pattern) ;;
                if consumed then ret (false, (resmask, s))
                else
                  let idx := first_set_bit resmask * 8 / no0 width in
                  let s := s + idx in
                  check (find_action_ (to_size_t (s + baseindex))
                           (Some (get_universal pf width (m_data a) action_data s))) ;;
                  ret (true, (Z.shiftr resmask ((idx + 1) * no0 width / 8), s + 1)))
             (resmask, s) ;;
           ret (true, (i + 1, compare_result))
       end)
    (0, 0) ;;
  ret tt.

(** [template <class cond, Action action, size_t width, class Callback> bool
    Array::find_sse(int64_t value, __m128i* data, size_t items, ...)]. *)
Definition find_sse (cd : Cond) (width : Z) (a : Array) (value : Z) (data : Z) (items : Z)
    (baseindex : Z) : M C unit :=
  search <-
    (if width =? 8 then ret (mm_set1 8 value)
     else if width =? 16 then ret (mm_set1 16 value)
     else if width =? 32 then ret (mm_set1 32 value)
     else if width =? 64 then
       (if is_same cd cond_Less then fun w => (Aborted, w) else ret (mm_set1 64 value))
     else ret 0) ;;
  find_sse_intern cd width a data search items baseindex.

End FinderSSE.

(** ** Aggregates over a range *)

(** Modelled from the spec: [Array::sum], [Array::maximum] and [Array::minimum]
    are defined in [array.cpp]; they are the "sum, maximum, minimum intrinsics
    over the range".  [maximum] and [minimum] also yield the index of the first
    element that attains the result. *)
Definition Array_sum (pf : Platform) (a : Array) (start end_ : Z) : Z :=
  fold_left (fun acc i => to_int64 (acc + get_dyn pf a (start + Z.of_nat i)))
            (seq 0 (Z.to_nat (end_ - start))) 0.

Definition Array_minmax (pf : Platform) (max : bool) (a : Array) (start end_ : Z) : Z * Z :=
  fold_left (fun (best : Z * Z) i =>
               let v := get_dyn pf a (start + Z.of_nat i) in
               if (if max then v >? fst best else v <? fst best)
               then (v, start + Z.of_nat i) else best)
            (seq 1 (Z.to_nat (end_ - start) - 1)) (get_dyn pf a start, start).

Section FindOptimized.

Context {C : Type}.
Variable pf : Platform.
Variable callback : Z -> C -> bool * C.
Variable action : Action.

Local Abbreviation find_action_ := (find_action action callback).

(** One of the four leading tests of [find_optimized]. *)
Definition leading_test (cd : Cond) (bitwidth : Z) (a : Array)
    (value start2 end_ baseindex : Z) : M C unit :=
  if (m_size a >? start2) && cond_c cd (get pf bitwidth a start2) value && (start2 <? end_)
  then check (find_action_ (to_size_t (start2 + baseindex)) (Some (get pf bitwidth a start2)))
  else ret tt.

(** [template <class cond, Action action, size_t bitwidth, class Callback> bool
    Array::find_optimized(int64_t value, size_t start, size_t end, size_t
    baseindex, QueryState<int64_t>* state, Callback callback, bool
    nullable_array, bool find_null)]. *)
Definition find_optimized (cd : Cond) (bitwidth : Z) (a : Array)
    (value start end_ baseindex : Z) (nullable_array find_null : bool) : M C unit :=
  assert_ (negb (find_null && negb nullable_array)) ;;
  let start2 := start in
  let end_ :=
    if end_ =? npos
    then (if nullable_array then to_size_t (m_size a - 1) else m_size a)
    else end_ in
  if nullable_array then
    for_ start2 end_ (fun start2 =>
      let v := get pf bitwidth a (start2 + 1) in
      if cond_op cd v value (v =? get_dyn pf a 0) find_null then
        let v2 := if v =? get_dyn pf a 0 then None else Some v in
        check (find_action_ (to_size_t (start2 + baseindex)) v2)
      else ret tt) ;;
    ret tt
  else
    start2 <-
      (if start2 >? 0 then
         leading_test cd bitwidth a value start2 end_ baseindex ;;
         let start2 := start2 + 1 in
         leading_test cd bitwidth a value start2 end_ baseindex ;;
         let start2 := start2 + 1 in
         leading_test cd bitwidth a value start2 end_ baseindex ;;
         let start2 := start2 + 1 in
         leading_test cd bitwidth a value start2 end_ baseindex ;;
         let start2 := start2 + 1 in
         ret start2
       else ret start2) ;;
    if negb ((m_size a >? start2) && (start2 <? end_)) then ret tt
    else
      let end_ := if end_ =? npos then m_size a else end_ in
      if negb (can_match cd value (m_lbound a) (m_ubound a)) then ret tt
      else if will_match cd value (m_lbound a) (m_ubound a) then
        end2 <-
          (match action with
           | act_CallbackIdx => ret end_
           | _ =>
               s <- read_qs ;;
               let process := to_size_t (m_limit s - m_match_count s) in
               ret (if end_ - start2 >? process then start2 + process else end_)
           end) ;;
        match action with
        | act_Sum | act_Max | act_Min =>
            let '(res, res_ndx) :=
              match action with
              | act_Sum => (Array_sum pf a start2 end2, 0)
              | act_Max => Array_minmax pf true a start2 end2
              | _ => Array_minmax pf false a start2 end2
              end in
            _ <- call (find_action_ (to_size_t (res_ndx + baseindex)) (Some res)) ;;
            modify_qs (fun s =>
              mkQueryState (m_state s)
                           (to_size_t (m_match_count s + to_size_t (end2 - start2 - 1)))
                           (m_limit s) (m_minmax_index s))
        | act_Count =>
            modify_qs (fun s =>
              mkQueryState (to_int64 (m_state s + (end2 - start2)))
                           (m_match_count s) (m_limit s) (m_minmax_index s))
        | _ =>
            for_ start2 end2 (fun start2 =>
              check (find_action_ (to_size_t (start2 + baseindex))
                                  (Some (get pf bitwidth a start2)))) ;;
            ret tt
        end
      else
        assert_ (negb (m_width a =? 0)) ;;
        if compiler_sse pf
           && (negb (is_same cd cond_Less && (m_width a =? 64))
               && (end_ - start2 >=? 16) && (m_width a >=? 8)
               && (sseavx42 pf || (sseavx30 pf && is_same cd cond_Equal && (m_width a <? 64))))
        then
          let a_ := round_up (m_data_addr a + start2 * bitwidth / 8) 16 in
          let b_ := round_down (m_data_addr a + end_ * bitwidth / 8) 16 in
          compare pf callback action cd bitwidth a value start2
                  ((a_ - m_data_addr a) * 8 / no0 bitwidth) baseindex ;;
          (if b_ >? a_ then
             if sseavx42 pf then
               find_sse pf callback action cd bitwidth a value (a_ - m_data_addr a)
                        ((b_ - a_) / 16)
                        (to_size_t (baseindex + (a_ - m_data_addr a) * 8 / no0 bitwidth))
             else if sseavx30 pf then
               find_sse pf callback action Equal bitwidth a value (a_ - m_data_addr a)
                        ((b_ - a_) / 16)
                        (to_size_t (baseindex + (a_ - m_data_addr a) * 8 / no0 bitwidth))
             else ret tt
           else ret tt) ;;
          compare pf callback action cd bitwidth a value
                  ((b_ - m_data_addr a) * 8 / no0 bitwidth) end_ baseindex
        else
          compare pf callback action cd bitwidth a value start2 end_ baseindex.

(** [template <class cond, Action action, size_t bitwidth, class Callback> bool
    Array::find(...)], reached from the width dispatch ([REALM_TEMPEX]) with
    [bitwidth == m_width]. *)
Definition find (cd : Cond) (a : Array) (value start end_ baseindex : Z)
    (nullable_array find_null : bool) : World C -> outcome bool * World C :=
  returns (find_optimized cd (m_width a) a value start end_ baseindex nullable_array find_null).

End FindOptimized.

(** ** Comparing two leaves element by element *)

Section CompareLeafs.

Context {C : Type}.
Variable pf : Platform.
Variable callback : Z -> C -> bool * C.
Variable action : Action.

Local Abbreviation find_action_ := (find_action action callback).

(** [if (c(v, fv)) if (!find_action(index, v, state, callback)) return false;] *)
Definition leafs_test (cd : Cond) (v fv : Z) (index : Z) : M C unit :=
  if cond_c cd v fv then check (find_action_ (to_size_t index) (Some v)) else ret tt.

(** The closing loop of [compare_leafs_4]: the elements the vector code left. *)
Definition leafs_closing (cd : Cond) (width foreign_width : Z) (a foreign : Array)
    (start end_ baseindex : Z) : M C unit :=
  for_ start end_ (fun start =>
    let v := get_universal pf width (m_data a) 0 start in
    let fv := get_universal pf foreign_width (m_data foreign) 0 start in
    leafs_test cd v fv (start + baseindex)) ;;
  ret tt.

(** The part of [compare_leafs_4] under [#if defined(REALM_COMPILER_SSE)], and
    the closing loop after it.  The pointer [a] handed to [find_sse_intern] is
    a byte offset into this payload; [b] is the same offset into the foreign
    payload.  [find_sse_intern] reads [action_data[i]] and [*data] through
    [__m128i*]: such a load is defined on a 16-byte boundary only.  The first
    loop brings [a] to a boundary; nothing does so for [b], and a run that
    would load off a boundary ends as [Aborted]. *)
Definition leafs_vectors (cd : Cond) (width foreign_width : Z) (a foreign : Array)
    (start end_ baseindex : Z) : M C unit :=
  if compiler_sse pf && sseavx42 pf && (width =? foreign_width)
     && ((width =? 8) || (width =? 16) || (width =? 32))
  then
    start <-
      while_ (Z.to_nat (end_ - start))
        (fun start =>
           (start <? end_)
           && negb (to_size_t (Z.land (m_data_addr a) 0xf * 8 + start * width) mod 128 =? 0))
        (fun start =>
           let v := get_universal pf width (m_data a) 0 start in
           let fv := get_universal pf foreign_width (m_data foreign) 0 start in
           leafs_test cd v fv (start + baseindex) ;;
           ret (true, start + 1))
        start ;;
    if start =? end_ then ret tt
    else
      let sse_items := (end_ - start) * width / 128 in
      let sse_end := start + sse_items * 128 / no0 width in
      start <-
        while_ (Z.to_nat (end_ - start)) (fun start => start <? sse_end)
          (fun start =>
             let a_ := start * width / 8 in
             let b_ := start * width / 8 in
             if ((m_data_addr a + a_) mod 16 =? 0) && ((m_data_addr foreign + b_) mod 16 =? 0)
             then
               find_sse_intern pf callback action cd width a a_
                               (load_le (m_data foreign) b_ 16) 1
                               (to_size_t (baseindex + start)) ;;
               ret (true, start + 128 / no0 width)
             else fun w => (Aborted, w))
          start ;;
      leafs_closing cd width foreign_width a foreign start end_ baseindex
  else leafs_closing cd width foreign_width a foreign start end_ baseindex.

(** [template <class cond, Action action, size_t width, class Callback, size_t
    foreign_width> bool Array::compare_leafs_4(const Array* foreign, size_t
    start, size_t end, size_t baseindex, ...)]. *)
Definition compare_leafs_4 (cd : Cond) (width foreign_width : Z) (a foreign : Array)
    (start end_ baseindex : Z) : M C unit :=
  if (width =? 0) && (foreign_width =? 0) then
    if cond_c cd 0 0 then
      start <- for_ start end_ (fun start =>
                 check (find_action_ (to_size_t (start + baseindex)) (Some 0))) ;;
      leafs_vectors cd width foreign_width a foreign start end_ baseindex
    else ret tt
  else leafs_vectors cd width foreign_width a foreign start end_ baseindex.

(** [template <class cond, Action action, class Callback> bool
    Array::compare_leafs(const Array* foreign, size_t start, size_t end, size_t
    baseindex, ...)], with the two width dispatches ([REALM_TEMPEX4],
    [REALM_TEMPEX5]) that lead to [compare_leafs_4]. *)
Definition compare_leafs (cd : Cond) (a foreign : Array) (start end_ baseindex : Z)
  : M C unit :=
  assert_ (start <=? end_) ;;
  if start =? end_ then ret tt
  else
    leafs_test cd (get_dyn pf a start) (get_dyn pf foreign start) (start + baseindex) ;;
    let start := start + 1 in
    if start + 3 <? end_ then
      leafs_test cd (get_dyn pf a start) (get_dyn pf foreign start) (start + baseindex) ;;
      leafs_test cd (get_dyn pf a (start + 1)) (get_dyn pf foreign (start + 1))
                 (start + 1 + baseindex) ;;
      leafs_test cd (get_dyn pf a (start + 2)) (get_dyn pf foreign (start + 2))
                 (start + 2 + baseindex) ;;
      let start := start + 3 in
      compare_leafs_4 cd (m_width a) (m_width foreign) a foreign start end_ baseindex
    else if start =? end_ then ret tt
    else compare_leafs_4 cd (m_width a) (m_width foreign) a foreign start end_ baseindex.

End CompareLeafs.

(** [CallbackDummy()]: a null function pointer.  [find_action] calls the
    callback under [act_CallbackIdx] only. *)
Definition CallbackDummy : Z -> unit -> bool * unit := fun _ c => (true, c).

(** [template <class cond> size_t Array::find_first(int64_t value, size_t start,
    size_t end) const].  The finder in the vtable slot of [cond] is
    [find<cond, act_ReturnFirst, bitwidth>] for the array's width, "the one
    installed into the m_vtable->finder slots". *)
Definition find_first (pf : Platform) (cd : Cond) (a : Array) (value start end_ : Z)
  : outcome Z :=
  if negb ((start <=? m_size a) && ((end_ <=? m_size a) || (end_ =? to_size_t (-1)))
           && (start <=? end_))
  then Aborted
  else
    let state := QueryState_init act_ReturnFirst 0 1 in
    match find pf CallbackDummy act_ReturnFirst cd a value start end_ 0 false false
               (mkWorld state [] tt []) with
    | (Done _, w) => Done (to_size_t (m_state (qs w)))
    | (ReturnFalse, _) => ReturnFalse
    | (Aborted, _) => Aborted
    | (OutOfFuel, _) => OutOfFuel
    end.

(** ** Serialization and erasure

    [DbElement] (ref, attachment, header flags), the allocator, the writer and
    the routines of [array.cpp] are not among the sources; what [write] and
    [erase] use of them is taken as given. *)

Inductive result (A : Type) : Type :=
| Ok (a : A)
| Throws
| AssertFails.
Arguments Ok {A}.
Arguments Throws {A}.
Arguments AssertFails {A}.

Section Write.

Variable Allocator : Type.
Variable is_read_only : Allocator -> Z -> bool.
(** The accessor: [is_attached()], [get_ref()], [has_refs()], [get_alloc()]. *)
Variable Accessor : Type.
Variable is_attached : Accessor -> bool.
Variable get_ref : Accessor -> Z.
Variable has_refs : Accessor -> bool.
Variable get_alloc : Accessor -> Allocator.
(** [Array array(alloc); array.init_from_ref(ref);] *)
Variable init_from_ref : Allocator -> Z -> Accessor.
(** The output stream behind [_impl::ArrayWriterBase& out]. *)
Variable Writer : Type.
Variable do_write_shallow : Accessor -> Writer -> result (Z * Writer).
Variable do_write_deep : Accessor -> Writer -> bool -> result (Z * Writer).

(** [ref_type Array::write(_impl::ArrayWriterBase& out, bool deep, bool
    only_if_modified) const]. *)
Definition write (a : Accessor) (out : Writer) (deep only_if_modified : bool)
  : result (Z * Writer) :=
  if negb (is_attached a) then AssertFails
  else if only_if_modified && is_read_only (get_alloc a) (get_ref a) then Ok (get_ref a, out)
  else if negb deep || negb (has_refs a) then do_write_shallow a out
  else do_write_deep a out only_if_modified.

(** [ref_type Array::write(ref_type ref, Allocator& alloc,
    _impl::ArrayWriterBase& out, bool only_if_modified)] (static). *)
Definition write_static (ref : Z) (alloc : Allocator) (out : Writer) (only_if_modified : bool)
  : result (Z * Writer) :=
  if only_if_modified && is_read_only alloc ref then Ok (ref, out)
  else
    let array := init_from_ref alloc ref in
    if negb (has_refs array) then do_write_shallow array out
    else do_write_deep array out only_if_modified.

End Write.

Section Erase.

(** Everything a mutation can touch: the accessor's members, the node's bytes
    and header, the allocator's bookkeeping. *)
Variable Node : Type.
Variable size : Node -> Z.
Variable set_m_size : Z -> Node -> Node.
(** [void Array::move(size_t begin, size_t end, size_t dest_begin)]: copies on
    write and may throw. *)
Variable move : Z -> Z -> Z -> Node -> result Node.
Variable set_header_size : Z -> Node -> Node.

(** [void Array::erase(size_t begin, size_t end)]. *)
Definition erase (begin end_ : Z) (n : Node) : result Node :=
  if negb (begin =? end_) then
    match move end_ (size n) begin n with
    | Ok n1 =>
        let n2 := set_m_size (to_size_t (size n1 - to_size_t (end_ - begin))) n1 in
        Ok (set_header_size (size n2) n2)
    | Throws => Throws
    | AssertFails => AssertFails
    end
  else Ok n.

End Erase.

(** * Properties *)

(** ** Machine integers *)

Lemma two_p_64 : 2 ^ 64 = 18446744073709551616.
Proof. reflexivity. Qed.

Lemma two_p_63 : 2 ^ 63 = 9223372036854775808.
Proof. reflexivity. Qed.

Lemma to_size_t_range x : 0 <= to_size_t x < 2 ^ 64.
Proof. unfold to_size_t. apply Z.mod_pos_bound. reflexivity. Qed.

Lemma to_size_t_small x : 0 <= x < 2 ^ 64 -> to_size_t x = x.
Proof. intros H. unfold to_size_t. apply Z.mod_small. exact H. Qed.

Lemma to_int64_range x : - 2 ^ 63 <= to_int64 x < 2 ^ 63.
Proof.
  unfold to_int64, to_signed. change (64 - 1) with 63.
  pose proof (Z.mod_pos_bound (x + 2 ^ 63) (2 ^ 64) eq_refl) as H.
  rewrite ?two_p_64, ?two_p_63 in *. lia.
Qed.

Lemma to_int64_small x : - 2 ^ 63 <= x < 2 ^ 63 -> to_int64 x = x.
Proof.
  intros H. unfold to_int64, to_signed. change (64 - 1) with 63.
  rewrite Z.mod_small; rewrite ?two_p_64, ?two_p_63 in *; lia.
Qed.

Lemma to_size_t_to_int64 x : to_size_t (to_int64 x) = to_size_t x.
Proof.
  unfold to_size_t, to_int64, to_signed. change (64 - 1) with 63.
  rewrite two_p_64, two_p_63.
  pose proof (Z.div_mod (x + 9223372036854775808) 18446744073709551616 ltac:(lia)) as H.
  replace ((x + 9223372036854775808) mod 18446744073709551616 - 9223372036854775808)
    with (x + (- ((x + 9223372036854775808) / 18446744073709551616)) * 18446744073709551616) by lia.
  apply Z.mod_add. lia.
Qed.

Lemma to_int64_to_size_t x : to_int64 (to_size_t x) = to_int64 x.
Proof.
  unfold to_size_t, to_int64, to_signed. change (64 - 1) with 63.
  f_equal. rewrite Z.add_mod_idemp_l by (rewrite two_p_64; lia). reflexivity.
Qed.

Lemma land_1_mod2 x : Z.land x 1 = x mod 2.
Proof. change 1 with (Z.ones 1) at 1. rewrite Z.land_ones by lia. reflexivity. Qed.

Lemma add_nocarry_lor a b : Z.land a b = 0 -> a + b = Z.lor a b.
Proof.
  intros H. rewrite Z.add_nocarry_lxor by exact H. apply Z.lxor_lor. exact H.
Qed.

(** ** RefOrTagged *)

(** C3.  A ref survives [make_ref] followed by [get_as_ref]; an integer below
    2^63 survives [make_tagged] followed by [get_as_int] and the slot it makes
    is tagged; [make_tagged] fails its assertion from 2^63 on; and [is_ref]
    holds exactly when bit 0 of the stored slot is clear. *)
Theorem RefOrTagged_round_trip :
  forall r i : Z,
    (0 <= r < 2 ^ 64 ->
       RefOrTagged.get_as_ref (RefOrTagged.make_ref r) = r) /\
    (0 <= i < 2 ^ 63 ->
       exists t, RefOrTagged.make_tagged i = Some t /\
                 RefOrTagged.get_as_int t = i /\
                 RefOrTagged.is_tagged t = true /\ RefOrTagged.is_ref t = false) /\
    (2 ^ 63 <= i -> RefOrTagged.make_tagged i = None) /\
    (forall t, RefOrTagged.is_ref t = true <-> Z.testbit (RefOrTagged.m_value t) 0 = false).
Proof.
  intros r i. repeat split.
  - intros Hr. unfold RefOrTagged.get_as_ref, RefOrTagged.make_ref, RefOrTagged.to_ref,
      RefOrTagged.from_ref. cbn [RefOrTagged.m_value].
    rewrite to_size_t_to_int64. apply to_size_t_small. exact Hr.
  - intros Hi. unfold RefOrTagged.make_tagged.
    change (Z.shiftl 1 63) with (2 ^ 63).
    destruct (Z.ltb_spec i (2 ^ 63)) as [_ | Hc]; [ | lia ].
    eexists. split; [ reflexivity | ].
    assert (Hv : Z.lor (to_size_t (Z.shiftl i 1)) 1 = 2 * i + 1).
    { rewrite Z.shiftl_mul_pow2 by lia. change (2 ^ 1) with 2.
      rewrite to_size_t_small by (rewrite ?two_p_64, ?two_p_63 in *; lia).
      rewrite <- add_nocarry_lor; [ lia | ].
      rewrite land_1_mod2. rewrite Z.mod_mul by lia. reflexivity. }
    assert (Hs : to_size_t (RefOrTagged.from_twos_compl (2 * i + 1)) = 2 * i + 1).
    { unfold RefOrTagged.from_twos_compl. rewrite to_size_t_to_int64.
      apply to_size_t_small. rewrite ?two_p_64, ?two_p_63 in *. lia. }
    unfold RefOrTagged.get_as_int, RefOrTagged.is_tagged, RefOrTagged.is_ref.
    cbn [RefOrTagged.m_value]. rewrite Hv, Hs.
    assert (Hodd : Z.land (RefOrTagged.from_twos_compl (2 * i + 1)) 1 = 1).
    { rewrite land_1_mod2. unfold RefOrTagged.from_twos_compl, to_int64, to_signed.
      change (64 - 1) with 63. rewrite ?two_p_64, ?two_p_63 in *.
      pose proof (Z.div_mod (2 * i + 1 + 9223372036854775808) 18446744073709551616 ltac:(lia)).
      replace ((2 * i + 1 + 9223372036854775808) mod 18446744073709551616 - 9223372036854775808)
        with (1 + (i - ((2 * i + 1 + 9223372036854775808) / 18446744073709551616)
                        * 9223372036854775808) * 2) by lia.
      rewrite Z.mod_add by lia. reflexivity. }
    rewrite Hodd. repeat split.
    change 0xFFFFFFFFFFFFFFFF with (Z.ones 64). rewrite Z.land_ones by lia.
    rewrite Z.mod_small by (rewrite ?two_p_64, ?two_p_63 in *; lia).
    rewrite Z.shiftr_div_pow2 by lia. change (2 ^ 1) with 2.
    replace (2 * i + 1) with (i * 2 + 1) by lia. rewrite Z.div_add_l by lia.
    change (1 / 2) with 0. lia.
  - intros Hi. unfold RefOrTagged.make_tagged. change (Z.shiftl 1 63) with (2 ^ 63).
    destruct (Z.ltb_spec i (2 ^ 63)); [ lia | reflexivity ].
  - unfold RefOrTagged.is_ref. rewrite land_1_mod2, <- Z.bit0_mod.
    intros H. apply Z.eqb_eq in H. destruct (Z.testbit _ 0); [ discriminate | reflexivity ].
  - unfold RefOrTagged.is_ref. rewrite land_1_mod2, <- Z.bit0_mod.
    intros H. rewrite H. reflexivity.
Qed.

Lemma RefOrTagged_round_trip_witness :
  (0 <= 4096 < 2 ^ 64 -> RefOrTagged.get_as_ref (RefOrTagged.make_ref 4096) = 4096) /\
  (0 <= 42 < 2 ^ 63 ->
     exists t, RefOrTagged.make_tagged 42 = Some t /\
               RefOrTagged.get_as_int t = 42 /\
               RefOrTagged.is_tagged t = true /\ RefOrTagged.is_ref t = false) /\
  (2 ^ 63 <= 42 -> RefOrTagged.make_tagged 42 = None) /\
  (forall t, RefOrTagged.is_ref t = true <-> Z.testbit (RefOrTagged.m_value t) 0 = false).
Proof. exact (RefOrTagged_round_trip 4096 42). Defined.

(** ** The query state *)



Lemma popcount_bits_range n x : 0 <= popcount_bits n x <= Z.of_nat n.
Proof.
  revert x. induction n as [ | n IH ]; intros x.
  - simpl. lia.
  - cbn [popcount_bits]. specialize (IH (Z.shiftr x 1)).
    destruct (Z.testbit x 0); cbn [Z.b2z]; lia.
Qed.

Lemma fast_popcount64_range x : 0 <= fast_popcount64 x <= 64.
Proof. unfold fast_popcount64. pose proof (popcount_bits_range 64 x). lia. Qed.


Lemma to_size_t_add_l x y : to_size_t (to_size_t x + y) = to_size_t (x + y).
Proof. unfold to_size_t. apply Z.add_mod_idemp_l. rewrite two_p_64. lia. Qed.


(** C9.  With [pattern == true] every action but [act_Count] declines the chunk:
    [match] returns [false] and nothing in the state changes. *)
Theorem match_pattern_declined :
  forall (C : Type) (action : Action) (index indexpattern value : Z) (w : World C),
    action <> act_Count ->
    QueryState_match action true index indexpattern value w = (false, w).
Proof.
  intros C action index indexpattern value w Hne.
  unfold QueryState_match. destruct action; try reflexivity. congruence.
Qed.

Lemma match_pattern_declined_witness :
  QueryState_match act_Sum true 7 0xFF 3
    (mkWorld (mkQueryState 10 2 100 5) [1; 2] tt []) =
  (false, mkWorld (mkQueryState 10 2 100 5) [1; 2] tt []).
Proof. apply (match_pattern_declined unit act_Sum). discriminate. Defined.



(** ** find_gtlt at width 64 *)



(** ** write *)

(** C7.  With [only_if_modified] set and the node's ref reported read-only,
    [write] on an attached accessor returns the accessor's own ref and hands
    back the output stream as it received it; so does the static overload. *)
Theorem write_shares_unmodified :
  forall (Allocator : Type) (is_read_only : Allocator -> Z -> bool)
         (Accessor : Type) (is_attached : Accessor -> bool) (get_ref : Accessor -> Z)
         (has_refs : Accessor -> bool) (get_alloc : Accessor -> Allocator)
         (init_from_ref : Allocator -> Z -> Accessor)
         (Writer : Type)
         (do_write_shallow : Accessor -> Writer -> result (Z * Writer))
         (do_write_deep : Accessor -> Writer -> bool -> result (Z * Writer))
         (a : Accessor) (alloc : Allocator) (ref : Z) (out : Writer) (deep : bool),
    (is_attached a = true ->
     is_read_only (get_alloc a) (get_ref a) = true ->
     write Allocator is_read_only Accessor is_attached get_ref has_refs get_alloc
           Writer do_write_shallow do_write_deep a out deep true
     = Ok (get_ref a, out)) /\
    (is_read_only alloc ref = true ->
     write_static Allocator is_read_only Accessor has_refs init_from_ref
                  Writer do_write_shallow do_write_deep ref alloc out true
     = Ok (ref, out)).
Proof.
  intros. split.
  - intros Ha Hro. unfold write. rewrite Ha, Hro. reflexivity.
  - intros Hro. unfold write_static. rewrite Hro. reflexivity.
Qed.

Lemma write_shares_unmodified_witness :
  let is_read_only := fun (_ : unit) (r : Z) => r <? 4096 in
  let shallow := fun (_ : Z) (out : list Z) => Ok (Z.of_nat (length out), out ++ [0]) in
  let deep_ := fun (_ : Z) (out : list Z) (_ : bool) => Ok (Z.of_nat (length out), out ++ [1]) in
  (true = true ->
   is_read_only tt 1024 = true ->
   write unit is_read_only Z (fun _ => true) (fun r => r) (fun _ => true) (fun _ => tt)
         (list Z) shallow deep_ 1024 [7; 7] true true
   = Ok (1024, [7; 7])) /\
  (is_read_only tt 2048 = true ->
   write_static unit is_read_only Z (fun _ => true) (fun _ r => r)
                (list Z) shallow deep_ 2048 tt [7; 7] true
   = Ok (2048, [7; 7])).
Proof.
  exact (write_shares_unmodified unit (fun _ r => r <? 4096) Z (fun _ => true) (fun r => r)
           (fun _ => true) (fun _ => tt) (fun _ r => r) (list Z)
           (fun _ out => Ok (Z.of_nat (length out), out ++ [0]))
           (fun _ out _ => Ok (Z.of_nat (length out), out ++ [1]))
           1024 tt 2048 [7; 7] true).
Defined.

(** ** erase *)

(** C10.  [erase(b, b)] does nothing at all: [move] is not called, the size is
    not written, and the node (accessor members, bytes, header, allocator
    state) is handed back unchanged. *)
Theorem erase_empty_range :
  forall (Node : Type) (size : Node -> Z) (set_m_size : Z -> Node -> Node)
         (move : Z -> Z -> Z -> Node -> result Node)
         (set_header_size : Z -> Node -> Node) (b : Z) (n : Node),
    erase Node size set_m_size move set_header_size b b n = Ok n.
Proof.
  intros. unfold erase. rewrite Z.eqb_refl. reflexivity.
Qed.

(** ** Bits of the payload *)

(** Bits [a], ..., [a + n - 1] of [x], as a number below [2^n]. *)
Definition slice (x a n : Z) : Z := (x / 2 ^ a) mod 2 ^ n.

(** The payload read as one little-endian number: bit [8 * k + j] is bit [j] of
    byte [k]. *)
Definition payload_bits (data : list byte) : Z := load_le data 0 (length data).

(** The [i]-th field of [w] bits of the payload, "packed little-end-first
    within bytes": it occupies bits [w * i], ..., [w * i + w - 1]. *)
Definition packed_field (w : Z) (data : list byte) (i : Z) : Z :=
  slice (payload_bits data) (w * i) w.

Lemma byte_val_range b : 0 <= byte_val b < 256.
Proof.
  unfold byte_val. pose proof (Byte.to_N_bounded b) as H.
  split; [ lia | ]. apply N2Z.inj_le in H. change (Z.of_N 255) with 255 in H. lia.
Qed.

Lemma byte_at_range data off : 0 <= byte_at data off < 256.
Proof. unfold byte_at. apply byte_val_range. Qed.

Lemma testbit_add_shift b r n k :
  0 <= n -> 0 <= b < 2 ^ n -> 0 <= k ->
  Z.testbit (b + 2 ^ n * r) k = if k <? n then Z.testbit b k else Z.testbit r (k - n).
Proof.
  intros Hn Hb Hk. destruct (Z.ltb_spec k n) as [Hlt | Hge].
  - rewrite <- (Z.mod_pow2_bits_low (b + 2 ^ n * r) n k) by lia.
    rewrite Z.mul_comm, Z.mod_add by lia.
    rewrite Z.mod_small by lia. reflexivity.
  - replace k with ((k - n) + n) at 1 by lia.
    rewrite <- Z.div_pow2_bits by lia.
    rewrite Z.mul_comm, Z.div_add by lia.
    rewrite Z.div_small by lia. reflexivity.
Qed.

Lemma slice_range x a n : 0 <= n -> 0 <= slice x a n < 2 ^ n.
Proof. intros Hn. unfold slice. apply Z.mod_pos_bound. lia. Qed.

Lemma slice_testbit x a n k :
  0 <= a -> 0 <= n -> 0 <= k ->
  Z.testbit (slice x a n) k = (k <? n) && Z.testbit x (a + k).
Proof.
  intros Ha Hn Hk. unfold slice. destruct (Z.ltb_spec k n) as [Hlt | Hge]; cbn [andb].
  - rewrite Z.mod_pow2_bits_low by lia. rewrite Z.div_pow2_bits by lia.
    f_equal. lia.
  - apply Z.mod_pow2_bits_high. lia.
Qed.

Lemma ones_minus n : 2 ^ n - 1 = Z.ones n.
Proof. rewrite Z.ones_equiv. lia. Qed.

Lemma slice_land_shiftr x a n :
  0 <= a -> 0 <= n -> Z.land (Z.shiftr x a) (2 ^ n - 1) = slice x a n.
Proof.
  intros Ha Hn. unfold slice. rewrite ones_minus, Z.land_ones by lia.
  rewrite Z.shiftr_div_pow2 by lia. reflexivity.
Qed.

Lemma slice_slice x a n b m :
  0 <= a -> 0 <= b -> 0 <= m -> b + m <= n ->
  slice (slice x a n) b m = slice x (a + b) m.
Proof.
  intros Ha Hb Hm Hle. apply Z.bits_inj'. intros k Hk.
  rewrite !slice_testbit by lia.
  destruct (Z.ltb_spec k m); cbn [andb]; [ | reflexivity ].
  destruct (Z.ltb_spec (b + k) n); [ | lia ]. cbn [andb]. f_equal. lia.
Qed.

Lemma slice_small x n : 0 <= x < 2 ^ n -> slice x 0 n = x.
Proof.
  intros H. unfold slice. rewrite Z.pow_0_r, Z.div_1_r. apply Z.mod_small. exact H.
Qed.

(** Bit [m] of the payload. *)
Definition mem_bit (data : list byte) (m : Z) : bool :=
  Z.testbit (byte_at data (m / 8)) (m mod 8).

Lemma load_le_range data n off : 0 <= load_le data off n < 2 ^ (8 * Z.of_nat n).
Proof.
  revert off. induction n as [ | n IH ]; intros off.
  - cbn. lia.
  - cbn [load_le]. specialize (IH (off + 1)). pose proof (byte_at_range data off).
    replace (8 * Z.of_nat (S n)) with (8 + 8 * Z.of_nat n) by lia.
    rewrite Z.pow_add_r by lia. change (2 ^ 8) with 256. lia.
Qed.

Lemma load_le_testbit data n :
  forall off k, 0 <= off -> 0 <= k ->
    Z.testbit (load_le data off n) k =
      (k <? 8 * Z.of_nat n) && mem_bit data (8 * off + k).
Proof.
  induction n as [ | n IH ]; intros off k Hoff Hk.
  - cbn [load_le]. rewrite Z.testbit_0_l. destruct (Z.ltb_spec k (8 * Z.of_nat 0)); [ lia | ].
    reflexivity.
  - cbn [load_le]. change 256 with (2 ^ 8).
    rewrite testbit_add_shift by (try lia; apply byte_at_range).
    unfold mem_bit.
    destruct (Z.ltb_spec k 8) as [Hlt | Hge].
    + destruct (Z.ltb_spec k (8 * Z.of_nat (S n))); [ | lia ]. cbn [andb].
      replace ((8 * off + k) / 8) with off by (apply Z.div_unique with k; lia).
      replace ((8 * off + k) mod 8) with k by (apply Z.mod_unique with off; lia).
      reflexivity.
    + rewrite IH by lia. unfold mem_bit.
      replace (8 * (off + 1) + (k - 8)) with (8 * off + k) by lia.
      f_equal.
      destruct (Z.ltb_spec (k - 8) (8 * Z.of_nat n));
        destruct (Z.ltb_spec k (8 * Z.of_nat (S n))); try reflexivity; lia.
Qed.

Lemma byte_at_beyond data off : Z.of_nat (length data) <= off -> byte_at data off = 0.
Proof.
  intros H. unfold byte_at. rewrite nth_overflow by lia. reflexivity.
Qed.

Lemma payload_bits_testbit data m :
  0 <= m -> Z.testbit (payload_bits data) m = mem_bit data m.
Proof.
  intros Hm. unfold payload_bits. rewrite load_le_testbit by lia.
  rewrite Z.mul_0_r, Z.add_0_l.
  destruct (Z.ltb_spec m (8 * Z.of_nat (length data))) as [Hlt | Hge]; cbn [andb];
    [ reflexivity | ].
  unfold mem_bit. rewrite byte_at_beyond.
  - rewrite Z.testbit_0_l. reflexivity.
  - apply Z.div_le_lower_bound; lia.
Qed.

(** A load of [n] bytes is a slice of the payload. *)
Lemma load_le_slice data off n :
  0 <= off -> load_le data off n = slice (payload_bits data) (8 * off) (8 * Z.of_nat n).
Proof.
  intros Hoff. apply Z.bits_inj'. intros k Hk.
  rewrite load_le_testbit, slice_testbit by lia.
  rewrite payload_bits_testbit by lia. reflexivity.
Qed.

Lemma byte_at_slice data off :
  0 <= off -> byte_at data off = slice (payload_bits data) (8 * off) 8.
Proof.
  intros Hoff. change 8 with (8 * Z.of_nat 1) at 2.
  rewrite <- (load_le_slice data off 1) by lia.
  cbn [load_le]. lia.
Qed.

Lemma to_signed_mod w x : 0 < w -> to_signed w x mod 2 ^ w = x mod 2 ^ w.
Proof.
  intros Hw. unfold to_signed.
  assert (Hp : 2 ^ w = 2 * 2 ^ (w - 1)).
  { replace w with (1 + (w - 1)) at 1 by lia. rewrite Z.pow_add_r by lia. reflexivity. }
  assert (Hpos : 0 < 2 ^ (w - 1)) by (apply Z.pow_pos_nonneg; lia).
  rewrite Zminus_mod_idemp_l. f_equal. lia.
Qed.

Lemma to_signed_range w x : 0 < w -> - 2 ^ (w - 1) <= to_signed w x < 2 ^ (w - 1).
Proof.
  intros Hw. unfold to_signed.
  assert (Hp : 2 ^ w = 2 * 2 ^ (w - 1)).
  { replace w with (1 + (w - 1)) at 1 by lia. rewrite Z.pow_add_r by lia. reflexivity. }
  assert (Hpos : 0 < 2 ^ (w - 1)) by (apply Z.pow_pos_nonneg; lia).
  pose proof (Z.mod_pos_bound (x + 2 ^ (w - 1)) (2 ^ w) ltac:(lia)). lia.
Qed.

Lemma to_signed_small w x :
  0 < w -> - 2 ^ (w - 1) <= x < 2 ^ (w - 1) -> to_signed w x = x.
Proof.
  intros Hw Hx. unfold to_signed.
  assert (Hp : 2 ^ w = 2 * 2 ^ (w - 1)).
  { replace w with (1 + (w - 1)) at 1 by lia. rewrite Z.pow_add_r by lia. reflexivity. }
  rewrite Z.mod_small by lia. lia.
Qed.

Lemma testbit_congr n x y k :
  0 <= k < n -> x mod 2 ^ n = y mod 2 ^ n -> Z.testbit x k = Z.testbit y k.
Proof.
  intros Hk H. rewrite <- (Z.mod_pow2_bits_low x n k), <- (Z.mod_pow2_bits_low y n k) by lia.
  rewrite H. reflexivity.
Qed.

Lemma char_at_testbit pf data off k :
  0 <= k < 8 -> Z.testbit (char_at pf data off) k = Z.testbit (byte_at data off) k.
Proof.
  intros Hk. unfold char_at. destruct (char_is_signed pf); [ | reflexivity ].
  apply (testbit_congr 8); [ exact Hk | ]. apply to_signed_mod. lia.
Qed.

(** A sub-byte read: [(data[ndx >> s] >> ((ndx & m) << l)) & mask]. *)
Lemma sub_byte_field pf data w ndx :
  (w = 1 \/ w = 2 \/ w = 4) -> 0 <= ndx ->
  Z.land (Z.shiftr (char_at pf data (ndx / (8 / w))) (w * (ndx mod (8 / w)))) (2 ^ w - 1)
  = packed_field w data ndx.
Proof.
  intros Hw Hndx. apply Z.bits_inj'. intros k Hk.
  assert (Hq : 0 < 8 / w /\ w * (8 / w) = 8 /\ 0 < w)
    by (destruct Hw as [-> | [-> | ->]]; cbn; lia).
  destruct Hq as (Hq & Hq8 & Hw0).
  pose proof (Z.mod_pos_bound ndx (8 / w) Hq) as Hm.
  pose proof (Z.div_mod ndx (8 / w) ltac:(lia)) as Hdm.
  rewrite ones_minus, Z.land_spec, Z.shiftr_spec by lia.
  unfold packed_field. rewrite slice_testbit by nia.
  rewrite payload_bits_testbit by nia.
  destruct (Z.ltb_spec k w) as [Hlt | Hge].
  - rewrite Z.ones_spec_low by lia. rewrite andb_true_r. cbn [andb].
    rewrite char_at_testbit by nia. unfold mem_bit.
    assert (Hpos : w * ndx + k = 8 * (ndx / (8 / w)) + (k + w * (ndx mod (8 / w)))) by nia.
    rewrite Hpos.
    replace ((8 * (ndx / (8 / w)) + (k + w * (ndx mod (8 / w)))) / 8) with (ndx / (8 / w))
      by (apply Z.div_unique with (k + w * (ndx mod (8 / w))); nia).
    replace ((8 * (ndx / (8 / w)) + (k + w * (ndx mod (8 / w)))) mod 8)
      with (k + w * (ndx mod (8 / w)))
      by (apply Z.mod_unique with (ndx / (8 / w)); nia).
    reflexivity.
  - rewrite Z.ones_spec_high by lia. rewrite andb_false_r. reflexivity.
Qed.

(** ** get_universal *)

Lemma get_universal_sub_byte pf data w ndx :
  (w = 1 \/ w = 2 \/ w = 4) -> 0 <= ndx ->
  get_universal pf w data 0 ndx = packed_field w data ndx.
Proof.
  intros Hw Hndx. rewrite <- (sub_byte_field pf) by assumption.
  unfold get_universal. rewrite !Z.add_0_l.
  destruct Hw as [-> | [-> | ->]]; cbn [Z.eqb Pos.eqb].
  - rewrite (Z.shiftr_div_pow2 ndx 3) by lia.
    change (Z.land ndx 7) with (Z.land ndx (Z.ones 3)).
    rewrite (Z.land_ones ndx 3) by lia. change (8 / 1) with 8. change (2 ^ 3) with 8.
    rewrite Z.mul_1_l. reflexivity.
  - rewrite (Z.shiftr_div_pow2 ndx 2), (Z.shiftl_mul_pow2 _ 1) by lia.
    change (Z.land ndx 3) with (Z.land ndx (Z.ones 2)).
    rewrite (Z.land_ones ndx 2) by lia. change (8 / 2) with 4. change (2 ^ 2) with 4.
    change (2 ^ 1) with 2. rewrite (Z.mul_comm _ 2). reflexivity.
  - rewrite (Z.shiftr_div_pow2 ndx 1), (Z.shiftl_mul_pow2 _ 2) by lia.
    change (Z.land ndx 1) with (Z.land ndx (Z.ones 1)).
    rewrite (Z.land_ones ndx 1) by lia. change (8 / 4) with 2. change (2 ^ 1) with 2.
    change (2 ^ 2) with 4. rewrite (Z.mul_comm _ 4). reflexivity.
Qed.

Lemma get_universal_bytes pf data w base ndx :
  (w = 8 \/ w = 16 \/ w = 32 \/ w = 64) -> 0 <= base -> 0 <= ndx ->
  get_universal pf w data base ndx
  = to_signed w (slice (payload_bits data) (8 * base + w * ndx) w).
Proof.
  intros Hw Hbase Hndx. unfold get_universal.
  destruct Hw as [-> | [-> | [-> | ->]]]; cbn [Z.eqb Pos.eqb]; f_equal.
  - rewrite byte_at_slice by lia. f_equal. lia.
  - rewrite load_le_slice by lia. f_equal. lia.
  - rewrite load_le_slice by lia. f_equal. lia.
  - rewrite load_le_slice by lia. f_equal. lia.
Qed.

(** C8.  For an index [i >= 0]: at width 0 [get] is 0; at widths 1, 2 and 4 it
    is the [i]-th field of the payload packed little-end-first, an unsigned
    value below [2^w]; at widths 8, 16, 32 and 64 it is that field read as a
    two's-complement signed integer of the width.  This holds whether plain
    [char] is signed or not. *)
Theorem get_universal_reads_field :
  forall (pf : Platform) (data : list byte) (i : Z),
    0 <= i ->
    get_universal pf 0 data 0 i = 0 /\
    (forall w, w = 1 \/ w = 2 \/ w = 4 ->
       get_universal pf w data 0 i = packed_field w data i /\
       0 <= get_universal pf w data 0 i < 2 ^ w) /\
    (forall w, w = 8 \/ w = 16 \/ w = 32 \/ w = 64 ->
       get_universal pf w data 0 i = to_signed w (packed_field w data i) /\
       - 2 ^ (w - 1) <= get_universal pf w data 0 i < 2 ^ (w - 1)).
Proof.
  intros pf data i Hi. split; [ reflexivity | split ].
  - intros w Hw. rewrite get_universal_sub_byte by assumption.
    split; [ reflexivity | ]. unfold packed_field. apply slice_range. lia.
  - intros w Hw. rewrite get_universal_bytes by (try assumption; lia).
    unfold packed_field. rewrite Z.mul_0_r, Z.add_0_l.
    split; [ reflexivity | ]. apply to_signed_range. lia.
Qed.

Lemma get_universal_reads_field_witness :
  get_universal (mkPlatform true false false false true) 0 [x1b; xe4] 0 3 = 0 /\
  (forall w, w = 1 \/ w = 2 \/ w = 4 ->
     get_universal (mkPlatform true false false false true) w [x1b; xe4] 0 3
       = packed_field w [x1b; xe4] 3 /\
     0 <= get_universal (mkPlatform true false false false true) w [x1b; xe4] 0 3 < 2 ^ w) /\
  (forall w, w = 8 \/ w = 16 \/ w = 32 \/ w = 64 ->
     get_universal (mkPlatform true false false false true) w [x1b; xe4] 0 3
       = to_signed w (packed_field w [x1b; xe4] 3) /\
     - 2 ^ (w - 1) <= get_universal (mkPlatform true false false false true) w [x1b; xe4] 0 3
       < 2 ^ (w - 1)).
Proof.
  apply (get_universal_reads_field (mkPlatform true false false false true) [x1b; xe4] 3).
  lia.
Defined.

(** The payload [1b e4] holds the 2-bit fields 3, 2, 1, 0, 0, 1, 2, 3 and the
    signed bytes 27, -28. *)
Example get_universal_sample :
  map (get_universal (mkPlatform true false false false true) 2 [x1b; xe4] 0)
      [0; 1; 2; 3; 4; 5; 6; 7] = [3; 2; 1; 0; 0; 1; 2; 3] /\
  map (get_universal (mkPlatform true false false false true) 8 [x1b; xe4] 0) [0; 1]
    = [27; -28].
Proof. split; reflexivity. Qed.

(** ** The search stops at the first [false] *)

Definition all_true (t : list (Z * bool)) : Prop := Forall (fun c => snd c = true) t.

(** No invocation follows one that returned [false]. *)
Definition no_call_after_false (t : list (Z * bool)) : Prop :=
  forall t1 i r t2, t = t1 ++ (i, r) :: t2 -> r = false -> t2 = [].

(** The invocations a computation adds to the log all returned [true], except
    that the last one may have returned [false]; the computation then left
    through [return false]. *)
Definition stops_at_false {C A} (m : M C A) : Prop :=
  forall w, exists t,
    calls (snd (m w)) = calls w ++ t /\
    (all_true t \/
     (exists t' i, t = t' ++ [(i, false)] /\ all_true t' /\ fst (m w) = ReturnFalse)).

(** The weaker property of a whole routine: nothing is invoked after a
    [false]. *)
Definition ends_at_false {C A} (m : World C -> A * World C) : Prop :=
  forall w, exists t, calls (snd (m w)) = calls w ++ t /\ no_call_after_false t.

Lemma all_true_no_call_after_false t : all_true t -> no_call_after_false t.
Proof.
  intros H t1 i r t2 -> Hr. apply Forall_app in H. destruct H as [_ H].
  inversion H as [ | c l Hc Hl ]; subst. cbn in Hc. congruence.
Qed.

Lemma all_true_snoc_no_call_after_false t c :
  all_true t -> no_call_after_false (t ++ [c]).
Proof.
  intros H t1 i r t2 Heq Hr.
  destruct t2 as [ | c2 t2 ]; [ reflexivity | exfalso ].
  assert (Hin : In (i, r) t).
  { assert (Hl : t ++ [c] = (t1 ++ (i, r) :: removelast (c2 :: t2)) ++ [last (c2 :: t2) c]).
    { rewrite Heq, <- app_assoc. cbn [app]. f_equal. f_equal.
      apply app_removelast_last. discriminate. }
    apply app_inj_tail in Hl. destruct Hl as [-> _].
    apply in_or_app. right. left. reflexivity. }
  unfold all_true in H. rewrite Forall_forall in H. specialize (H _ Hin). cbn in H. congruence.
Qed.

Lemma stops_ends {C A} (m : M C A) : stops_at_false m -> ends_at_false m.
Proof.
  intros H w. destruct (H w) as (t & Ht & [Hall | (t' & i & Heq & Hall & _)]);
    exists t; (split; [ exact Ht | ]).
  - apply all_true_no_call_after_false. exact Hall.
  - rewrite Heq. apply all_true_snoc_no_call_after_false. exact Hall.
Qed.

Lemma stops_const {C A} (o : outcome A) : stops_at_false (fun w : World C => (o, w)).
Proof.
  intros w. exists []. cbn. rewrite app_nil_r. split; [ reflexivity | left ]. constructor.
Qed.

Lemma stops_ret {C A} (a : A) : stops_at_false (@ret C A a).
Proof. apply stops_const. Qed.

Lemma stops_assert {C} b : stops_at_false (@assert_ C b).
Proof. apply stops_const. Qed.

Lemma stops_read_qs {C} : stops_at_false (@read_qs C).
Proof.
  intros w. exists []. cbn. rewrite app_nil_r. split; [ reflexivity | left ]. constructor.
Qed.

Lemma stops_modify_qs {C} f : stops_at_false (@modify_qs C f).
Proof.
  intros w. exists []. cbn. rewrite app_nil_r. split; [ reflexivity | left ]. constructor.
Qed.

Lemma stops_bind {C A B} (m : M C A) (f : A -> M C B) :
  stops_at_false m -> (forall a, stops_at_false (f a)) -> stops_at_false (bind m f).
Proof.
  intros Hm Hf w. unfold bind. destruct (Hm w) as (t & Ht & Hcase).
  destruct (m w) as [o w1] eqn:Em. cbn [fst snd] in *.
  destruct o as [a | | | ].
  - destruct Hcase as [Hall | (t' & i & _ & _ & Hc)]; [ | discriminate ].
    destruct (Hf a w1) as (t2 & Ht2 & Hcase2).
    exists (t ++ t2). rewrite Ht2, Ht, app_assoc. split; [ reflexivity | ].
    destruct Hcase2 as [Hall2 | (t2' & i & -> & Hall2 & Hrf)].
    + left. apply Forall_app; split; assumption.
    + right. exists (t ++ t2'), i. rewrite app_assoc. split; [ reflexivity | ].
      split; [ apply Forall_app; split; assumption | exact Hrf ].
  - exists t. cbn [fst snd]. split; [ exact Ht | ].
    destruct Hcase as [Hall | (t' & i & Ht' & Hall & _)]; [ left; exact Hall | ].
    right. exists t', i. repeat split; assumption.
  - exists t. cbn [fst snd]. split; [ exact Ht | ].
    destruct Hcase as [Hall | (t' & i & _ & _ & Hc)]; [ | discriminate ].
    left. exact Hall.
  - exists t. cbn [fst snd]. split; [ exact Ht | ].
    destruct Hcase as [Hall | (t' & i & _ & _ & Hc)]; [ | discriminate ].
    left. exact Hall.
Qed.

Lemma find_action_calls {C} action callback index value (w : World C) :
  calls (snd (find_action action callback index value w)) =
    calls w ++ [(index, fst (find_action action callback index value w))].
Proof.
  unfold find_action.
  assert (Hm : forall v, calls (snd (QueryState_match action false index 0 v w)) = calls w).
  { intros v. unfold QueryState_match. destruct action; cbv zeta;
      try reflexivity; destruct (_ >? _); reflexivity. }
  assert (Ho : calls (snd (QueryState_match_opt action false index 0 value w)) = calls w).
  { destruct value as [v | ]; [ apply Hm | ].
    unfold QueryState_match_opt. destruct action; reflexivity. }
  destruct action;
    try (destruct (QueryState_match_opt _ false index 0 value w) as [r w'] eqn:E;
         cbn [fst snd log_call calls] in *; rewrite Ho; reflexivity).
  destruct (callback index (cb w)) as [r c']. reflexivity.
Qed.

Lemma find_action_pattern_calls {C} action callback index pattern (w : World C) :
  calls (snd (find_action_pattern action callback index pattern w)) = calls w.
Proof.
  unfold find_action_pattern, QueryState_match.
  destruct action; try reflexivity. destruct (_ >=? _); reflexivity.
Qed.

Lemma stops_check_find_action {C} action callback index value :
  stops_at_false (check (@find_action C action callback index value)).
Proof.
  intros w. unfold check.
  pose proof (find_action_calls action callback index value w) as Hc.
  destruct (find_action action callback index value w) as [r w']. cbn [fst snd] in *.
  exists [(index, r)]. split; [ exact Hc | ].
  destruct r.
  - left. repeat constructor.
  - right. exists [], index. repeat split. constructor.
Qed.

Lemma stops_call_pattern {C} action callback index pattern :
  stops_at_false (call (@find_action_pattern C action callback index pattern)).
Proof.
  intros w. unfold call.
  pose proof (find_action_pattern_calls action callback index pattern w) as Hc.
  destruct (find_action_pattern action callback index pattern w) as [r w']. cbn [fst snd] in *.
  exists []. rewrite app_nil_r. split; [ exact Hc | left ]. constructor.
Qed.

Lemma stops_while {C S} fuel (cond : S -> bool) (body : S -> M C (bool * S)) :
  (forall s, stops_at_false (body s)) ->
  forall s, stops_at_false (while_ fuel cond body s).
Proof.
  intros Hb. induction fuel as [ | fuel IH ]; intros s; cbn [while_];
    destruct (cond s); try apply stops_ret.
  - apply stops_const.
  - apply stops_bind; [ apply Hb | ]. intros [c s']. cbn [fst snd].
    destruct c; [ apply IH | apply stops_ret ].
Qed.

Lemma stops_for {C} start stop (body : Z -> M C unit) :
  (forall i, stops_at_false (body i)) -> stops_at_false (for_ start stop body).
Proof.
  intros Hb. unfold for_. apply stops_while. intros i.
  apply stops_bind; [ apply Hb | intros _; apply stops_ret ].
Qed.

Ltac stops_step :=
  first
    [ apply stops_ret
    | apply stops_assert
    | apply stops_read_qs
    | apply stops_modify_qs
    | apply stops_check_find_action
    | apply stops_call_pattern
    | assumption
    | match goal with
      | |- stops_at_false (bind _ _) => apply stops_bind; [ | intros ? ]
      | |- stops_at_false (while_ _ _ _ _) => apply stops_while; intros ?
      | |- stops_at_false (for_ _ _ _) => apply stops_for; intros ?
      | |- stops_at_false (fun w => (_, w)) => apply stops_const
      | |- stops_at_false (if ?b then _ else _) => destruct b
      | |- stops_at_false (match ?x with _ => _ end) => destruct x
      end ].

Ltac stops := repeat stops_step.

Section StopsAtFalse.

Context {C : Type}.
Variable pf : Platform.
Variable callback : Z -> C -> bool * C.
Variable action : Action.

Lemma stops_find_gtlt_fast gt width chunk magic baseindex :
  stops_at_false (find_gtlt_fast (C:=C) callback action gt width chunk magic baseindex).
Proof. unfold find_gtlt_fast. stops. Qed.

Lemma stops_gtlt_step gt v elem t baseindex :
  stops_at_false (gtlt_step (C:=C) callback action gt v elem t baseindex).
Proof. unfold gtlt_step. stops. Qed.

Lemma stops_gtlt_blocks gt v width elem n :
  forall t chunk baseindex,
    stops_at_false (gtlt_blocks (C:=C) callback action gt v width elem n t chunk baseindex).
Proof.
  induction n as [ | n IH ]; intros t chunk baseindex; cbn [gtlt_blocks].
  - apply stops_ret.
  - apply stops_bind; [ apply stops_gtlt_step | intros _; apply IH ].
Qed.

Lemma stops_find_gtlt gt width v chunk baseindex :
  stops_at_false (find_gtlt (C:=C) callback action gt width v chunk baseindex).
Proof.
  unfold find_gtlt.
  repeat first [ apply stops_gtlt_blocks | apply stops_gtlt_step | stops_step ].
Qed.

Lemma stops_equality_scalar eq width a value start stop baseindex :
  stops_at_false (equality_scalar (C:=C) pf callback action eq width a value start stop baseindex).
Proof. unfold equality_scalar. stops. Qed.

Lemma stops_compare_equality eq width a value start end_ baseindex :
  stops_at_false (compare_equality (C:=C) pf callback action eq width a value start end_ baseindex).
Proof.
  unfold compare_equality.
  repeat first [ apply stops_equality_scalar | stops_step ].
Qed.

Lemma stops_relation_scalar gt width a value start stop baseindex :
  stops_at_false (relation_scalar (C:=C) pf callback action gt width a value start stop baseindex).
Proof. unfold relation_scalar. stops. Qed.

Lemma stops_compare_relation gt width a value start end_ baseindex :
  stops_at_false (compare_relation (C:=C) pf callback action gt width a value start end_ baseindex).
Proof.
  unfold compare_relation.
  repeat first [ apply stops_relation_scalar | apply stops_find_gtlt
               | apply stops_find_gtlt_fast | stops_step ].
Qed.

Lemma stops_compare cd width a value start end_ baseindex :
  stops_at_false (compare (C:=C) pf callback action cd width a value start end_ baseindex).
Proof.
  unfold compare.
  repeat first [ apply stops_compare_equality | apply stops_compare_relation | stops_step ].
Qed.

Lemma stops_find_sse_intern cd width a action_data data items baseindex :
  stops_at_false
    (find_sse_intern (C:=C) pf callback action cd width a action_data data items baseindex).
Proof. unfold find_sse_intern. stops. Qed.

Lemma stops_find_sse cd width a value data items baseindex :
  stops_at_false (find_sse (C:=C) pf callback action cd width a value data items baseindex).
Proof.
  unfold find_sse. repeat first [ apply stops_find_sse_intern | stops_step ].
Qed.

End StopsAtFalse.

Lemma no_call_after_false_app t t2 :
  all_true t -> no_call_after_false t2 -> no_call_after_false (t ++ t2).
Proof.
  intros Hall H2 t1 i r t3 Heq Hr.
  apply app_eq_app in Heq. destruct Heq as (l & [[Ht Ht3] | [Ht1 Ht2]]).
  - destruct l as [ | c l ].
    + cbn [app] in Ht3. rewrite app_nil_r in Ht. subst t2. apply (H2 [] i r t3 eq_refl Hr).
    + exfalso. cbn [app] in Ht3. injection Ht3 as Hc _. subst c.
      rewrite Ht in Hall. unfold all_true in Hall. rewrite Forall_forall in Hall.
      specialize (Hall (i, r)). cbn in Hall. rewrite Hall in Hr; [ discriminate | ].
      apply in_or_app. right. left. reflexivity.
  - apply (H2 l i r t3 Ht2 Hr).
Qed.

Lemma ends_bind {C A B} (m : M C A) (f : A -> M C B) :
  stops_at_false m -> (forall a, ends_at_false (f a)) -> ends_at_false (bind m f).
Proof.
  intros Hm Hf w. unfold bind. destruct (Hm w) as (t & Ht & Hcase).
  destruct (m w) as [o w1] eqn:Em. cbn [fst snd] in *.
  assert (Hstop : exists t0, calls w1 = calls w ++ t0 /\ no_call_after_false t0).
  { exists t. split; [ exact Ht | ].
    destruct Hcase as [Hall | (t' & i & -> & Hall & _)].
    - apply all_true_no_call_after_false. exact Hall.
    - apply all_true_snoc_no_call_after_false. exact Hall. }
  destruct o as [a | | | ]; try exact Hstop.
  destruct Hcase as [Hall | (t' & i & _ & _ & Hc)]; [ | discriminate ].
  destruct (Hf a w1) as (t2 & Ht2 & Hn2).
  exists (t ++ t2). rewrite Ht2, Ht, app_assoc. split; [ reflexivity | ].
  apply no_call_after_false_app; assumption.
Qed.

Lemma ends_returns {C} (m : M C unit) : ends_at_false m -> ends_at_false (returns m).
Proof.
  intros H w. destruct (H w) as (t & Ht & Hn). exists t. split; [ | exact Hn ].
  unfold returns. destruct (m w) as [[ [] | | | ] w1]; exact Ht.
Qed.

Lemma ends_call_find_action {C B} action callback index value (k : M C B) :
  (forall w, calls (snd (k w)) = calls w) ->
  ends_at_false (bind (call (@find_action C action callback index value)) (fun _ => k)).
Proof.
  intros Hk w. unfold bind, call.
  pose proof (find_action_calls action callback index value w) as Hc.
  destruct (find_action action callback index value w) as [r w1]. cbn [fst snd] in *.
  exists [(index, r)]. rewrite Hk. split; [ exact Hc | ].
  apply (all_true_snoc_no_call_after_false []). constructor.
Qed.

Section EndsAtFalse.

Context {C : Type}.
Variable pf : Platform.
Variable callback : Z -> C -> bool * C.
Variable action : Action.

Lemma stops_leading_test cd bitwidth a value start2 end_ baseindex :
  stops_at_false (leading_test (C:=C) pf callback action cd bitwidth a value start2 end_ baseindex).
Proof. unfold leading_test. stops. Qed.

Lemma ends_find_optimized cd bitwidth a value start end_ baseindex nullable_array find_null :
  ends_at_false
    (find_optimized (C:=C) pf callback action cd bitwidth a value start end_ baseindex
                    nullable_array find_null).
Proof.
  unfold find_optimized.
  apply ends_bind; [ apply stops_assert | intros _ ].
  destruct nullable_array.
  { apply stops_ends. stops. }
  apply ends_bind.
  { repeat first [ apply stops_leading_test | stops_step ]. }
  intros start2.
  destruct (negb _); [ apply stops_ends; stops | ].
  destruct (negb _); [ apply stops_ends; stops | ].
  destruct (will_match _ _ _ _).
  - apply ends_bind; [ destruct action; stops | intros end2 ].
    destruct action;
      try (apply stops_ends; stops; fail);
      try (apply ends_call_find_action; intros w; reflexivity).
    + destruct (Array_minmax pf true a start2 end2) as [res res_ndx].
      apply ends_call_find_action. intros w. reflexivity.
    + destruct (Array_minmax pf false a start2 end2) as [res res_ndx].
      apply ends_call_find_action. intros w. reflexivity.
  - apply stops_ends.
    repeat first [ apply stops_compare | apply stops_find_sse | stops_step ].
Qed.

(** What [find] adds to the log of invocations ends at the first [false]. *)
Lemma ends_find cd a value start end_ baseindex nullable_array find_null :
  ends_at_false
    (find (C:=C) pf callback action cd a value start end_ baseindex nullable_array find_null).
Proof. unfold find. apply ends_returns. apply ends_find_optimized. Qed.

End EndsAtFalse.

Lemma gtb_false_iff l c : (l >? c) = false <-> l <= c.
Proof. destruct (Z.gtb_spec l c); split; intros; try discriminate; try reflexivity; lia. Qed.

Lemma match_false_iff {C} action index indexpattern v (w : World C) :
  let r := fst (QueryState_match action false index indexpattern v w) in
  let w' := snd (QueryState_match action false index indexpattern v w) in
  (r = false <-> action = act_ReturnFirst \/ m_limit (qs w') <= m_match_count (qs w')) /\
  (action = act_ReturnFirst -> m_state (qs w') = to_int64 index).
Proof.
  cbv zeta. unfold QueryState_match.
  destruct action; cbv zeta;
    repeat match goal with
           | |- context [if ?b then mkQueryState _ _ _ _ else _] => destruct b
           end;
    cbn [fst snd qs set_qs add_to_column m_limit m_match_count m_state];
    (split; [ | intros H; try discriminate H; reflexivity ]);
    try (split; [ intros _; left; reflexivity | reflexivity ]);
    rewrite gtb_false_iff;
    (split; [ intros H; right; exact H | intros [H | H]; [ discriminate H | exact H ] ]).
Qed.

(** C4.  A per-match call of [match] returns [false] exactly when the action is
    [act_ReturnFirst] (whose answer is then recorded in [m_state]) or the count
    has reached the limit; [find_action] hands that answer on; and in every run
    of [find], for every action, condition, width, platform and argument, no
    invocation of [find_action] follows one that returned [false]. *)
Theorem limit_stops_search :
  forall (C : Type) (pf : Platform) (callback : Z -> C -> bool * C) (action : Action)
         (cd : Cond) (a : Array) (value start end_ baseindex : Z)
         (nullable_array find_null : bool),
    (forall index indexpattern v (w : World C),
       let r := fst (QueryState_match action false index indexpattern v w) in
       let w' := snd (QueryState_match action false index indexpattern v w) in
       (r = false <-> action = act_ReturnFirst \/ m_limit (qs w') <= m_match_count (qs w')) /\
       (action = act_ReturnFirst -> m_state (qs w') = to_int64 index)) /\
    (action <> act_CallbackIdx ->
     forall index v (w : World C),
       fst (find_action action callback index (Some v) w)
       = fst (QueryState_match action false index 0 v w)) /\
    (forall w : World C,
       exists t,
         calls (snd (find pf callback action cd a value start end_ baseindex
                          nullable_array find_null w)) = calls w ++ t /\
         no_call_after_false t).
Proof.
  intros. split; [ | split ].
  - intros. apply match_false_iff.
  - intros Hne index v w. unfold find_action.
    destruct action; try congruence;
      cbn [QueryState_match_opt];
      destruct (QueryState_match _ false index 0 v w); reflexivity.
  - apply ends_find.
Qed.

Lemma limit_stops_search_witness :
  exists t,
    calls (snd (find (mkPlatform true false false false true)
                     (fun (_ : Z) (c : unit) => (true, c)) act_FindAll Equal
                     (mkArray [x02; x02; x02; x00; x00; x00; x00; x00] 0 8 3 (-128) 127)
                     2 0 3 0 false false
                     (mkWorld (QueryState_init act_FindAll 0 2) [] tt [])))
    = calls (mkWorld (QueryState_init act_FindAll 0 2) [] tt []) ++ t /\
    no_call_after_false t.
Proof.
  exact (proj2 (proj2 (limit_stops_search unit (mkPlatform true false false false true)
                         (fun _ c => (true, c)) act_FindAll Equal
                         (mkArray [x02; x02; x02; x00; x00; x00; x00; x00] 0 8 3 (-128) 127)
                         2 0 3 0 false false))
               (mkWorld (QueryState_init act_FindAll 0 2) [] tt [])).
Defined.

(** With limit 2 the third match of the run above is never delivered. *)
Example limit_stops_search_sample :
  let r := find (mkPlatform true false false false true)
                (fun (_ : Z) (c : unit) => (true, c)) act_FindAll Equal
                (mkArray [x02; x02; x02; x00; x00; x00; x00; x00] 0 8 3 (-128) 127)
                2 0 3 0 false false
                (mkWorld (QueryState_init act_FindAll 0 2) [] tt []) in
  fst r = Done false /\ calls (snd r) = [(0, true); (1, false)] /\ column (snd r) = [0; 1].
Proof. vm_compute. repeat split. Qed.


(** ** Fields of a 64-bit chunk *)

(** Field [j] (of [w] bits) of the chunk [v]. *)
Definition fld (w v j : Z) : Z := slice v (w * j) w.

(** The number whose fields, lowest first, are [fs]. *)
Fixpoint pack (w : Z) (fs : list Z) : Z :=
  match fs with
  | [] => 0
  | f :: rest => f + 2 ^ w * pack w rest
  end.

(** The [n] lowest fields of [v], starting with field [j]. *)
Fixpoint fields_from (w : Z) (n : nat) (v : Z) (j : Z) : list Z :=
  match n with
  | O => []
  | S n' => fld w v j :: fields_from w n' v (j + 1)
  end.

Definition in_field (w : Z) (f : Z) : Prop := 0 <= f < 2 ^ w.

Lemma fld_range w v j : 0 <= w -> 0 <= fld w v j < 2 ^ w.
Proof. intros Hw. apply slice_range. exact Hw. Qed.

Lemma fld_testbit w v j k :
  0 <= w -> 0 <= j -> 0 <= k -> Z.testbit (fld w v j) k = (k <? w) && Z.testbit v (w * j + k).
Proof. intros Hw Hj Hk. unfold fld. apply slice_testbit; nia. Qed.

Lemma fields_from_length w n v j : length (fields_from w n v j) = n.
Proof. revert j. induction n as [ | n IH ]; intros j; cbn; [ | rewrite IH ]; reflexivity. Qed.

Lemma fields_from_in_field w n v :
  0 <= w -> forall j, Forall (in_field w) (fields_from w n v j).
Proof.
  intros Hw. induction n as [ | n IH ]; intros j; cbn [fields_from]; constructor.
  - apply fld_range. exact Hw.
  - apply IH.
Qed.

Lemma fields_from_nth w n v :
  forall j k, (k < n)%nat -> nth k (fields_from w n v j) 0 = fld w v (j + Z.of_nat k).
Proof.
  induction n as [ | n IH ]; intros j k Hk; [ lia | ].
  cbn [fields_from]. destruct k as [ | k ].
  - cbn [nth]. f_equal. lia.
  - cbn [nth]. rewrite IH by lia. f_equal. lia.
Qed.

Lemma pack_range w fs :
  0 <= w -> Forall (in_field w) fs -> 0 <= pack w fs < 2 ^ (w * Z.of_nat (length fs)).
Proof.
  intros Hw H. induction H as [ | f rest Hf Hrest IH ].
  - cbn. rewrite Z.mul_0_r. cbn. lia.
  - cbn [pack length]. rewrite Nat2Z.inj_succ.
    replace (w * Z.succ (Z.of_nat (length rest))) with (w + w * Z.of_nat (length rest)) by lia.
    rewrite Z.pow_add_r by nia. unfold in_field in Hf.
    assert (0 < 2 ^ w) by (apply Z.pow_pos_nonneg; lia). nia.
Qed.

Lemma slice_shift_field w f r a n :
  0 <= w -> 0 <= f < 2 ^ w -> 0 <= a -> 0 <= n ->
  slice (f + 2 ^ w * r) (w + a) n = slice r a n.
Proof.
  intros Hw Hf Ha Hn. apply Z.bits_inj'. intros k Hk.
  rewrite !slice_testbit by lia.
  rewrite testbit_add_shift by lia.
  destruct (Z.ltb_spec (w + a + k) w); [ lia | ].
  replace (w + a + k - w) with (a + k) by lia. reflexivity.
Qed.

Lemma slice_low_field w f r :
  0 <= w -> 0 <= f < 2 ^ w -> slice (f + 2 ^ w * r) 0 w = f.
Proof.
  intros Hw Hf. unfold slice. rewrite Z.pow_0_r, Z.div_1_r.
  rewrite Z.mul_comm, Z.mod_add by lia. apply Z.mod_small. exact Hf.
Qed.

Lemma fld_pack w fs :
  0 <= w -> Forall (in_field w) fs ->
  forall j, (j < length fs)%nat -> fld w (pack w fs) (Z.of_nat j) = nth j fs 0.
Proof.
  intros Hw H. induction H as [ | f rest Hf Hrest IH ]; intros j Hj; [ cbn in Hj; lia | ].
  cbn [pack length nth] in *. unfold fld in *. destruct j as [ | j ].
  - rewrite Z.mul_0_r. apply slice_low_field; assumption.
  - rewrite Nat2Z.inj_succ.
    replace (w * Z.succ (Z.of_nat j)) with (w + w * Z.of_nat j) by lia.
    rewrite slice_shift_field by (try assumption; nia). apply IH. lia.
Qed.

Lemma fld_pack_beyond w fs j :
  0 <= w -> Forall (in_field w) fs -> Z.of_nat (length fs) <= j -> fld w (pack w fs) j = 0.
Proof.
  intros Hw H Hj. unfold fld, slice.
  pose proof (pack_range w fs Hw H) as Hr.
  rewrite Z.div_small; [ apply Z.mod_0_l; apply Z.pow_nonzero; lia | ].
  split; [ lia | ]. apply Z.lt_le_trans with (2 ^ (w * Z.of_nat (length fs))); [ lia | ].
  apply Z.pow_le_mono_r; nia.
Qed.

Lemma pack_fields_from w n :
  0 <= w -> forall v j, 0 <= j ->
    pack w (fields_from w n v j) = slice v (w * j) (w * Z.of_nat n).
Proof.
  intros Hw. induction n as [ | n IH ]; intros v j Hj.
  - cbn [fields_from pack]. unfold slice. rewrite Z.mul_0_r, Z.pow_0_r, Z.mod_1_r. reflexivity.
  - cbn [fields_from pack]. rewrite IH by lia.
    apply Z.bits_inj'. intros k Hk.
    rewrite testbit_add_shift by (try lia; apply fld_range; lia).
    destruct (Z.ltb_spec k w) as [Hlt | Hge].
    + rewrite fld_testbit, slice_testbit by nia.
      destruct (Z.ltb_spec k w); [ | lia ].
      destruct (Z.ltb_spec k (w * Z.of_nat (S n))); [ | nia ]. reflexivity.
    + rewrite !slice_testbit by nia.
      replace (w * (j + 1) + (k - w)) with (w * j + k) by lia.
      destruct (Z.ltb_spec (k - w) (w * Z.of_nat n));
        destruct (Z.ltb_spec k (w * Z.of_nat (S n))); try reflexivity; nia.
Qed.

(** A chunk is the number made of its fields. *)
Lemma pack_fields w n v :
  0 <= w -> 0 <= v < 2 ^ (w * Z.of_nat n) -> pack w (fields_from w n v 0) = v.
Proof.
  intros Hw Hv. rewrite pack_fields_from by lia. rewrite Z.mul_0_r. apply slice_small. exact Hv.
Qed.

Lemma pack_map_add w c fs :
  pack w (map (fun f => f + c) fs) = pack w fs + c * pack w (repeat 1 (length fs)).
Proof.
  induction fs as [ | f rest IH ]; cbn [map pack length repeat]; [ lia | ].
  rewrite IH. ring.
Qed.

Lemma pack_repeat w c n : pack w (repeat c n) = c * pack w (repeat 1 n).
Proof.
  induction n as [ | n IH ]; cbn [repeat pack]; [ lia | ]. rewrite IH. ring.
Qed.

(** The number of fields of a chunk at the widths that take the bit tricks. *)
Definition chunk_fields (w : Z) : nat := Z.to_nat (64 / w).

Definition trick_width (w : Z) : Prop := w = 1 \/ w = 2 \/ w = 4 \/ w = 8 \/ w = 16.

Lemma trick_width_facts w :
  trick_width w -> 0 < w /\ w * Z.of_nat (chunk_fields w) = 64 /\ 64 / w = Z.of_nat (chunk_fields w).
Proof.
  intros [-> | [-> | [-> | [-> | ->]]]]; cbn; repeat split; lia.
Qed.

Lemma lower_bits_pack w :
  trick_width w -> to_size_t (lower_bits w) = pack w (repeat 1 (chunk_fields w)).
Proof. intros [-> | [-> | [-> | [-> | ->]]]]; reflexivity. Qed.

Lemma ones64_div_mask w :
  trick_width w -> ones64 / no0 (width_mask w) = pack w (repeat 1 (chunk_fields w)).
Proof. intros [-> | [-> | [-> | [-> | ->]]]]; reflexivity. Qed.

Lemma width_mask_trick w : trick_width w -> width_mask w = 2 ^ w - 1.
Proof. intros [-> | [-> | [-> | [-> | ->]]]]; reflexivity. Qed.

Lemma pack_app w fs gs :
  0 <= w -> pack w (fs ++ gs) = pack w fs + 2 ^ (w * Z.of_nat (length fs)) * pack w gs.
Proof.
  intros Hw. induction fs as [ | f rest IH ]; cbn [app pack length].
  - cbn [Z.of_nat]. rewrite Z.mul_0_r, Z.pow_0_r. lia.
  - rewrite IH, Nat2Z.inj_succ.
    replace (w * Z.succ (Z.of_nat (length rest))) with (w + w * Z.of_nat (length rest)) by lia.
    rewrite Z.pow_add_r by nia. ring.
Qed.

Lemma pack_nonneg w fs : 0 <= w -> Forall (fun f => 0 <= f) fs -> 0 <= pack w fs.
Proof.
  intros Hw H. induction H as [ | f rest Hf Hrest IH ]; cbn [pack]; [ lia | ].
  assert (0 < 2 ^ w) by (apply Z.pow_pos_nonneg; lia). nia.
Qed.

Lemma testbit_top w x :
  0 < w -> 0 <= x < 2 ^ w -> Z.testbit x (w - 1) = (2 ^ (w - 1) <=? x).
Proof.
  intros Hw Hx.
  assert (Hp : 2 ^ w = 2 * 2 ^ (w - 1)).
  { replace w with (1 + (w - 1)) at 1 by lia. rewrite Z.pow_add_r by lia. reflexivity. }
  assert (Hpos : 0 < 2 ^ (w - 1)) by (apply Z.pow_pos_nonneg; lia).
  rewrite Z.testbit_eqb by lia.
  destruct (Z.leb_spec (2 ^ (w - 1)) x) as [Hle | Hlt].
  - replace (x / 2 ^ (w - 1)) with 1 by (apply Z.div_unique with (x - 2 ^ (w - 1)); lia).
    reflexivity.
  - rewrite Z.div_small by lia. reflexivity.
Qed.

Lemma testbit_by_field w v q :
  0 < w -> 0 <= q -> Z.testbit v q = Z.testbit (fld w v (q / w)) (q mod w).
Proof.
  intros Hw Hq. pose proof (Z.mod_pos_bound q w Hw) as Hm.
  pose proof (Z.div_mod q w ltac:(lia)) as Hd.
  assert (0 <= q / w) by (apply Z.div_pos; lia).
  rewrite fld_testbit by lia.
  destruct (Z.ltb_spec (q mod w) w); [ | lia ]. cbn [andb]. f_equal. lia.
Qed.

Lemma testbit_ones64 q : 0 <= q < 64 -> Z.testbit ones64 q = true.
Proof. intros Hq. change ones64 with (Z.ones 64). apply Z.ones_spec_low. exact Hq. Qed.

Lemma u64_not_testbit v q :
  0 <= v < 2 ^ 64 -> 0 <= q < 64 -> Z.testbit (u64_not v) q = negb (Z.testbit v q).
Proof.
  intros Hv Hq. unfold u64_not. rewrite to_size_t_small by exact Hv.
  rewrite Z.lxor_spec, testbit_ones64 by exact Hq. apply xorb_true_r.
Qed.

Lemma high_bits_pack w :
  trick_width w ->
  to_size_t (Z.shiftl (to_size_t (lower_bits w) * 1) (if w =? 0 then 0 else w - 1))
  = pack w (repeat (2 ^ (w - 1)) (chunk_fields w)).
Proof. intros [-> | [-> | [-> | [-> | ->]]]]; reflexivity. Qed.

Lemma nth_repeat_lt {A} (c d : A) n k : (k < n)%nat -> nth k (repeat c n) d = c.
Proof.
  revert k. induction n as [ | n IH ]; intros k Hk; [ lia | ].
  destruct k as [ | k ]; cbn; [ reflexivity | apply IH; lia ].
Qed.

Lemma Forall_repeat {A} (P : A -> Prop) c n : P c -> Forall P (repeat c n).
Proof. intros H. induction n; cbn; constructor; assumption. Qed.

Lemma high_bits_testbit w q :
  trick_width w -> 0 <= q ->
  Z.testbit (pack w (repeat (2 ^ (w - 1)) (chunk_fields w))) q
  = (q / w <? 64 / w) && (q mod w =? w - 1).
Proof.
  intros Hw Hq. destruct (trick_width_facts w Hw) as (Hw0 & Hn & Hdiv).
  assert (Hin : in_field w (2 ^ (w - 1))).
  { unfold in_field. split; [ apply Z.pow_nonneg; lia | ]. apply Z.pow_lt_mono_r; lia. }
  pose proof (Z.mod_pos_bound q w Hw0) as Hm.
  assert (0 <= q / w) by (apply Z.div_pos; lia).
  rewrite (testbit_by_field w) by lia.
  destruct (Z.ltb_spec (q / w) (64 / w)) as [Hlt | Hge]; cbn [andb].
  - rewrite <- (Z2Nat.id (q / w)) at 1 by lia.
    rewrite fld_pack by (try lia; try (apply Forall_repeat; exact Hin); rewrite repeat_length; lia).
    rewrite nth_repeat_lt by lia.
    rewrite Z.pow2_bits_eqb by lia. rewrite Z.eqb_sym. reflexivity.
  - rewrite fld_pack_beyond by (try lia; try (apply Forall_repeat; exact Hin);
                                rewrite repeat_length; lia).
    apply Z.testbit_0_l.
Qed.

Lemma exists_least (P : Z -> bool) n :
  (exists j, 0 <= j < Z.of_nat n /\ P j = true) ->
  exists j0, 0 <= j0 < Z.of_nat n /\ P j0 = true /\ forall j, 0 <= j < j0 -> P j = false.
Proof.
  induction n as [ | n IH ]; intros (j & Hj & HP); [ lia | ].
  destruct (Z.eq_dec j (Z.of_nat n)) as [-> | Hne].
  - assert (Hdec : (exists j, 0 <= j < Z.of_nat n /\ P j = true)
                   \/ (forall j, 0 <= j < Z.of_nat n -> P j = false)).
    { clear. induction n as [ | n IHn ]; [ right; intros; lia | ].
      destruct IHn as [(j & Hj & HP) | Hall]; [ left; exists j; split; [ lia | exact HP ] | ].
      destruct (P (Z.of_nat n)) eqn:E.
      - left. exists (Z.of_nat n). split; [ lia | exact E ].
      - right. intros j Hj. destruct (Z.eq_dec j (Z.of_nat n)) as [-> | Hne];
          [ exact E | apply Hall; lia ]. }
    destruct Hdec as [Hex | Hall].
    + destruct (IH Hex) as (j0 & Hj0 & HP0 & Hmin). exists j0. repeat split; try lia; assumption.
    + exists (Z.of_nat n). repeat split; try lia; assumption.
  - destruct IH as (j0 & Hj0 & HP0 & Hmin); [ exists j; split; [ lia | exact HP ] | ].
    exists j0. repeat split; try lia; assumption.
Qed.

Lemma all_or_exists (P : Z -> bool) n :
  (exists j, 0 <= j < Z.of_nat n /\ P j = true)
  \/ (forall j, 0 <= j < Z.of_nat n -> P j = false).
Proof.
  induction n as [ | n IHn ]; [ right; intros; lia | ].
  destruct IHn as [(j & Hj & HP) | Hall]; [ left; exists j; split; [ lia | exact HP ] | ].
  destruct (P (Z.of_nat n)) eqn:E.
  - left. exists (Z.of_nat n). split; [ lia | exact E ].
  - right. intros j Hj. destruct (Z.eq_dec j (Z.of_nat n)) as [-> | Hne];
      [ exact E | apply Hall; lia ].
Qed.

Lemma nth_map_in {A} (g : A -> Z) l k d :
  (k < length l)%nat -> nth k (map g l) 0 = g (nth k l d).
Proof.
  intros Hk. rewrite (nth_indep (map g l) 0 (g d)) by (rewrite length_map; exact Hk).
  apply map_nth.
Qed.

Lemma div_mod_top w j :
  0 < w -> 0 <= j -> (w * j + (w - 1)) / w = j /\ (w * j + (w - 1)) mod w = w - 1.
Proof.
  intros Hw Hj. split.
  - symmetry. apply Z.div_unique with (w - 1); lia.
  - symmetry. apply Z.mod_unique with j; lia.
Qed.

(** The chunk with every field decremented, when no field is zero. *)
Lemma sub_lower_no_zero w v :
  trick_width w -> 0 <= v < 2 ^ 64 ->
  (forall j, 0 <= j < 64 / w -> fld w v j <> 0) ->
  to_size_t (v - to_size_t (lower_bits w))
  = pack w (map (fun f => f + -1) (fields_from w (chunk_fields w) v 0))
  /\ Forall (in_field w) (map (fun f => f + -1) (fields_from w (chunk_fields w) v 0)).
Proof.
  intros Hw Hv Hnz. destruct (trick_width_facts w Hw) as (Hw0 & Hn & Hdiv).
  assert (Hin : Forall (in_field w) (map (fun f => f + -1) (fields_from w (chunk_fields w) v 0))).
  { apply Forall_forall. intros g Hg. apply in_map_iff in Hg. destruct Hg as (f & <- & Hf).
    apply In_nth with (d := 0) in Hf. destruct Hf as (k & Hk & <-).
    rewrite fields_from_length in Hk. rewrite fields_from_nth by exact Hk.
    pose proof (fld_range w v (0 + Z.of_nat k) ltac:(lia)).
    specialize (Hnz (0 + Z.of_nat k) ltac:(lia)). unfold in_field. lia. }
  split; [ | exact Hin ].
  rewrite pack_map_add, fields_from_length, pack_fields by (try lia; rewrite Hn; exact Hv).
  rewrite lower_bits_pack by exact Hw.
  pose proof (pack_range w _ ltac:(lia) Hin) as Hr.
  rewrite pack_map_add, length_map, !fields_from_length, pack_fields in Hr
    by (try lia; rewrite Hn; exact Hv).
  rewrite Hn in Hr.
  apply to_size_t_small. lia.
Qed.

(** [test_zero] finds out whether some field of the chunk is zero. *)
Lemma test_zero_spec w v :
  trick_width w -> 0 <= v < 2 ^ 64 ->
  (test_zero w v = true <-> exists j, 0 <= j < 64 / w /\ fld w v j = 0).
Proof.
  intros Hw Hv. destruct (trick_width_facts w Hw) as (Hw0 & Hn & Hdiv).
  unfold test_zero. cbv zeta. rewrite high_bits_pack by exact Hw.
  rewrite negb_true_iff, Z.eqb_neq.
  split.
  - (* a flagged bit needs a zero field *)
    intros Hhz.
    destruct (all_or_exists (fun j => fld w v j =? 0) (chunk_fields w)) as [(j & Hj & HP) | Hall].
    { exists j. split; [ lia | apply Z.eqb_eq; exact HP ]. }
    exfalso. apply Hhz. clear Hhz.
    assert (Hnz : forall j, 0 <= j < 64 / w -> fld w v j <> 0).
    { intros j Hj. apply Z.eqb_neq. apply Hall. lia. }
    destruct (sub_lower_no_zero w v Hw Hv Hnz) as [HD Hin]. rewrite HD.
    apply Z.bits_inj'. intros q Hq. rewrite Z.testbit_0_l, !Z.land_spec.
    rewrite high_bits_testbit by (try exact Hw; lia).
    destruct (Z.ltb_spec (q / w) (64 / w)) as [Hlt | Hge]; cbn [andb];
      [ | apply andb_false_r ].
    destruct (Z.eqb_spec (q mod w) (w - 1)) as [Hm | Hm]; [ | apply andb_false_r ].
    rewrite andb_true_r.
    assert (Hq64 : q < 64).
    { pose proof (Z.div_mod q w ltac:(lia)). nia. }
    assert (Hqw : 0 <= q / w) by (apply Z.div_pos; lia).
    rewrite u64_not_testbit by lia.
    rewrite (testbit_by_field w _ q), (testbit_by_field w v q) by lia. rewrite Hm.
    rewrite <- (Z2Nat.id (q / w)) at 1 by lia.
    rewrite fld_pack by (try lia; try exact Hin; rewrite length_map, fields_from_length; lia).
    rewrite (nth_map_in _ _ _ 0) by (rewrite fields_from_length; lia).
    rewrite fields_from_nth by lia. rewrite Z2Nat.id, Z.add_0_l by lia.
    pose proof (fld_range w v (q / w) ltac:(lia)) as Hf.
    specialize (Hnz (q / w) ltac:(lia)).
    rewrite !testbit_top by lia.
    destruct (Z.leb_spec (2 ^ (w - 1)) (fld w v (q / w) + -1));
      destruct (Z.leb_spec (2 ^ (w - 1)) (fld w v (q / w))); try reflexivity; lia.
  - (* the lowest zero field is flagged *)
    intros Hex.
    destruct (exists_least (fun j => fld w v j =? 0) (chunk_fields w)) as (j0 & Hj0 & HP0 & Hmin).
    { destruct Hex as (j & Hj & Hz). exists j. split; [ lia | apply Z.eqb_eq; exact Hz ]. }
    apply Z.eqb_eq in HP0.
    intros Hhz.
    assert (Hbit : Z.testbit 0 (w * j0 + (w - 1)) = true); [ | rewrite Z.testbit_0_l in Hbit; discriminate ].
    rewrite <- Hhz at 1. clear Hhz.
    destruct (div_mod_top w j0 Hw0 ltac:(lia)) as [Hdq Hmq].
    assert (Hq : 0 <= w * j0 + (w - 1) < 64) by nia.
    rewrite !Z.land_spec, high_bits_testbit by (try exact Hw; lia).
    rewrite Hdq, Hmq, Z.eqb_refl.
    destruct (Z.ltb_spec j0 (64 / w)); [ | lia ]. rewrite andb_true_r.
    rewrite u64_not_testbit by lia.
    rewrite (testbit_by_field w v) by lia. rewrite Hdq, Hmq, HP0, Z.testbit_0_l.
    rewrite andb_true_r.
    unfold to_size_t. rewrite Z.mod_pow2_bits_low by lia.
    (* split the chunk and the constant at field j0 *)
    set (low := slice v 0 (w * j0)).
    set (hi := v / 2 ^ (w * j0) / 2 ^ w).
    assert (Hvdec : v = low + 2 ^ (w * j0) * (0 + 2 ^ w * hi)).
    { unfold low, hi, slice. rewrite Z.pow_0_r, Z.div_1_r.
      pose proof (Z.div_mod v (2 ^ (w * j0)) ltac:(apply Z.pow_nonzero; nia)) as E1.
      pose proof (Z.div_mod (v / 2 ^ (w * j0)) (2 ^ w) ltac:(apply Z.pow_nonzero; lia)) as E2.
      unfold fld, slice in HP0. rewrite HP0, Z.add_0_r in E2.
      rewrite Z.add_0_l, <- E2. lia. }
    assert (HL : to_size_t (lower_bits w)
                 = pack w (repeat 1 (Z.to_nat j0))
                   + 2 ^ (w * j0) * (1 + 2 ^ w * pack w (repeat 1 (chunk_fields w - Z.to_nat j0 - 1)))).
    { rewrite lower_bits_pack by exact Hw.
      replace (chunk_fields w) with (Z.to_nat j0 + S (chunk_fields w - Z.to_nat j0 - 1))%nat at 1 by lia.
      rewrite repeat_app, pack_app, repeat_length by lia. cbn [repeat pack].
      rewrite Z2Nat.id by lia. reflexivity. }
    fold (to_size_t (lower_bits w)). rewrite HL.
    assert (Hlow : pack w (fields_from w (Z.to_nat j0) v 0) = low).
    { rewrite pack_fields_from by lia. rewrite Z.mul_0_r, Z2Nat.id by lia. reflexivity. }
    assert (Hge : 0 <= low - pack w (repeat 1 (Z.to_nat j0)) < 2 ^ (w * j0)).
    { pose proof (slice_range v 0 (w * j0) ltac:(nia)) as Hlr. fold low in Hlr.
      assert (Hnn : 0 <= pack w (repeat 1 (Z.to_nat j0))).
      { apply pack_nonneg; [ lia | ]. apply Forall_repeat. lia. }
      split; [ | lia ].
      rewrite <- Hlow.
      replace (pack w (fields_from w (Z.to_nat j0) v 0) - pack w (repeat 1 (Z.to_nat j0)))
        with (pack w (map (fun f => f + -1) (fields_from w (Z.to_nat j0) v 0)))
        by (rewrite pack_map_add, fields_from_length; lia).
      apply pack_nonneg; [ lia | ]. apply Forall_forall. intros g Hg.
      apply in_map_iff in Hg. destruct Hg as (f & <- & Hf).
      apply In_nth with (d := 0) in Hf. destruct Hf as (k & Hk & <-).
      rewrite fields_from_length in Hk. rewrite fields_from_nth by exact Hk.
      pose proof (fld_range w v (0 + Z.of_nat k) ltac:(lia)).
      specialize (Hmin (0 + Z.of_nat k) ltac:(lia)). apply Z.eqb_neq in Hmin. lia. }
    rewrite Hvdec at 1.
    replace (low + 2 ^ (w * j0) * (0 + 2 ^ w * hi)
             - (pack w (repeat 1 (Z.to_nat j0))
                + 2 ^ (w * j0) * (1 + 2 ^ w * pack w (repeat 1 (chunk_fields w - Z.to_nat j0 - 1)))))
      with ((low - pack w (repeat 1 (Z.to_nat j0)))
            + 2 ^ (w * j0)
              * ((2 ^ w - 1)
                 + 2 ^ w * (hi - pack w (repeat 1 (chunk_fields w - Z.to_nat j0 - 1)) - 1)))
      by ring.
    rewrite testbit_add_shift by (try exact Hge; nia).
    destruct (Z.ltb_spec (w * j0 + (w - 1)) (w * j0)); [ lia | ].
    replace (w * j0 + (w - 1) - w * j0) with (w - 1) by lia.
    assert (Hpw : 0 < 2 ^ w) by (apply Z.pow_pos_nonneg; lia).
    rewrite testbit_add_shift by lia.
    destruct (Z.ltb_spec (w - 1) w); [ | lia ].
    rewrite ones_minus. apply Z.ones_spec_low. lia.
Qed.

(** ** [find_zero]: the first field that is zero (or the first that is not) *)

Lemma range_by_mod x n : 0 <= n -> x mod 2 ^ n = x -> 0 <= x < 2 ^ n.
Proof. intros Hn <-. apply Z.mod_pos_bound. apply Z.pow_pos_nonneg; lia. Qed.

Lemma lor_range a b n : 0 <= n -> 0 <= a < 2 ^ n -> 0 <= b < 2 ^ n -> 0 <= Z.lor a b < 2 ^ n.
Proof.
  intros Hn Ha Hb. apply range_by_mod; [ exact Hn | ].
  rewrite <- (Z.mod_small a (2 ^ n)) at 2 by exact Ha.
  rewrite <- (Z.mod_small b (2 ^ n)) at 2 by exact Hb.
  rewrite <- !Z.land_ones by exact Hn. apply Z.bits_inj'. intros k Hk.
  rewrite !Z.land_spec, !Z.lor_spec, !Z.land_spec.
  destruct (Z.testbit a k), (Z.testbit b k), (Z.testbit (Z.ones n) k); reflexivity.
Qed.

Lemma lxor_range a b n : 0 <= n -> 0 <= a < 2 ^ n -> 0 <= b < 2 ^ n -> 0 <= Z.lxor a b < 2 ^ n.
Proof.
  intros Hn Ha Hb. apply range_by_mod; [ exact Hn | ].
  rewrite <- (Z.mod_small a (2 ^ n)) at 2 by exact Ha.
  rewrite <- (Z.mod_small b (2 ^ n)) at 2 by exact Hb.
  rewrite <- !Z.land_ones by exact Hn. apply Z.bits_inj'. intros k Hk.
  rewrite !Z.land_spec, !Z.lxor_spec, !Z.land_spec.
  destruct (Z.testbit a k), (Z.testbit b k), (Z.testbit (Z.ones n) k); reflexivity.
Qed.

Lemma land_range a b n : 0 <= n -> 0 <= a < 2 ^ n -> 0 <= Z.land a b < 2 ^ n.
Proof.
  intros Hn Ha. apply range_by_mod; [ exact Hn | ].
  rewrite <- (Z.mod_small a (2 ^ n)) at 2 by exact Ha.
  rewrite <- !Z.land_ones by exact Hn. apply Z.bits_inj'. intros k Hk.
  rewrite !Z.land_spec.
  destruct (Z.testbit a k), (Z.testbit b k), (Z.testbit (Z.ones n) k); reflexivity.
Qed.

Lemma fld_lor w a b j :
  0 <= w -> 0 <= j -> fld w (Z.lor a b) j = Z.lor (fld w a j) (fld w b j).
Proof.
  intros Hw Hj. apply Z.bits_inj'. intros k Hk.
  rewrite Z.lor_spec, !fld_testbit, Z.lor_spec by lia.
  destruct (k <? w); reflexivity.
Qed.

Lemma fld_lxor w a b j :
  0 <= w -> 0 <= j -> fld w (Z.lxor a b) j = Z.lxor (fld w a j) (fld w b j).
Proof.
  intros Hw Hj. apply Z.bits_inj'. intros k Hk.
  rewrite Z.lxor_spec, !fld_testbit, Z.lxor_spec by lia.
  destruct (k <? w); reflexivity.
Qed.

Lemma fld_land w a b j :
  0 <= w -> 0 <= j -> fld w (Z.land a b) j = Z.land (fld w a j) (fld w b j).
Proof.
  intros Hw Hj. apply Z.bits_inj'. intros k Hk.
  rewrite Z.land_spec, !fld_testbit, Z.land_spec by lia.
  destruct (k <? w); reflexivity.
Qed.

(** The fields of the mask with ones from bit [c] up to bit 63. *)
Lemma fld_high_mask w c j :
  0 < w -> 0 <= c <= 64 -> 0 <= j -> w * (j + 1) <= c -> fld w (2 ^ 64 - 2 ^ c) j = 0.
Proof.
  intros Hw Hc Hj Hjc.
  replace (2 ^ 64 - 2 ^ c) with (0 + 2 ^ c * (2 ^ (64 - c) - 1))
    by (rewrite Z.mul_sub_distr_l, <- Z.pow_add_r by lia; replace (c + (64 - c)) with 64 by lia; ring).
  apply Z.bits_inj'. intros k Hk.
  rewrite fld_testbit, Z.testbit_0_l by lia.
  destruct (Z.ltb_spec k w); [ | reflexivity ]. cbn [andb].
  assert (0 < 2 ^ c) by (apply Z.pow_pos_nonneg; lia).
  rewrite testbit_add_shift by nia.
  destruct (Z.ltb_spec (w * j + k) c); [ apply Z.testbit_0_l | nia ].
Qed.

Lemma eq_bisect w v c :
  trick_width w -> 0 <= v < 2 ^ 64 -> 0 <= c <= 64 ->
  test_zero w (Z.lor v (2 ^ 64 - 2 ^ c)) = false ->
  forall j, 0 <= j -> w * (j + 1) <= c -> fld w v j <> 0.
Proof.
  intros Hw Hv Hc Ht j Hj Hjc Hz. destruct (trick_width_facts w Hw) as (Hw0 & Hn & Hdiv).
  assert (Hr : 0 <= Z.lor v (2 ^ 64 - 2 ^ c) < 2 ^ 64).
  { apply lor_range; [ lia | exact Hv | ].
    assert (0 < 2 ^ c) by (apply Z.pow_pos_nonneg; lia).
    assert (2 ^ c <= 2 ^ 64) by (apply Z.pow_le_mono_r; lia). lia. }
  assert (Htrue : test_zero w (Z.lor v (2 ^ 64 - 2 ^ c)) = true); [ | congruence ].
  apply test_zero_spec; [ exact Hw | exact Hr | ].
  exists j. split; [ nia | ].
  rewrite fld_lor, Hz, fld_high_mask by lia. reflexivity.
Qed.

Lemma neq_bisect w v c :
  0 < w -> 0 <= c -> Z.land v (2 ^ c - 1) = 0 ->
  forall j, 0 <= j -> w * (j + 1) <= c -> fld w v j = 0.
Proof.
  intros Hw Hc Hl j Hj Hjc.
  rewrite ones_minus, Z.land_ones in Hl by lia.
  unfold fld. rewrite <- (Z.add_0_l (w * j)).
  rewrite <- (slice_slice v 0 c (w * j) w) by nia.
  unfold slice at 2. rewrite Z.pow_0_r, Z.div_1_r, Hl.
  unfold slice. rewrite Z.div_0_l by (apply Z.pow_nonzero; nia). apply Z.mod_0_l.
  apply Z.pow_nonzero; lia.
Qed.

(** Field [j] answers the question [find_zero<eq>] asks. *)
Definition zero_match (eq : bool) (w v j : Z) : bool := Bool.eqb eq (fld w v j =? 0).

Lemma find_zero_loop_spec eq w v j0 :
  0 < w -> 0 <= j0 <= 64 ->
  zero_match eq w v j0 = true ->
  forall fuel start,
    0 <= start <= j0 -> j0 - start < Z.of_nat fuel ->
    (forall j, start <= j < j0 -> zero_match eq w v j = false) ->
    find_zero_loop fuel eq w (2 ^ w - 1) v start = Some j0.
Proof.
  intros Hw Hj0 Hm. induction fuel as [ | fuel IH ]; intros start Hs Hf Hlow; [ lia | ].
  cbn [find_zero_loop]. rewrite slice_land_shiftr by nia. fold (fld w v start).
  destruct (Z.eq_dec start j0) as [-> | Hne].
  - unfold zero_match in Hm. destruct eq, (fld w v j0 =? 0); try discriminate; reflexivity.
  - specialize (Hlow start ltac:(lia)) as Hs0. unfold zero_match in Hs0.
    replace (Bool.eqb eq (negb (fld w v start =? 0))) with true
      by (destruct eq, (fld w v start =? 0); try discriminate; reflexivity).
    destruct (Z.leb_spec start 64); [ | lia ].
    apply IH; [ lia | lia | ]. intros j Hj. apply Hlow. lia.
Qed.

(** With a matching field in the chunk, [find_zero] yields the lowest one. *)
Lemma find_zero_spec eq w v j0 :
  trick_width w -> 0 <= v < 2 ^ 64 ->
  0 <= j0 < 64 / w ->
  zero_match eq w v j0 = true ->
  (forall j, 0 <= j < j0 -> zero_match eq w v j = false) ->
  find_zero eq w v = Some j0.
Proof.
  intros Hw Hv Hj0 Hm Hlow. destruct (trick_width_facts w Hw) as (Hw0 & Hn & Hdiv).
  unfold find_zero. cbv zeta. rewrite width_mask_trick by exact Hw.
  rewrite slice_land_shiftr by lia. fold (fld w v 0).
  destruct (Z.eq_dec j0 0) as [-> | Hne].
  { unfold zero_match in Hm. rewrite Hm. reflexivity. }
  specialize (Hlow 0 ltac:(lia)) as H0. unfold zero_match in H0. rewrite H0.
  assert (Hj64 : j0 < 64) by nia.
  assert (Hnz : eq = true -> forall c, 0 <= c <= 64 ->
            test_zero w (Z.lor v (2 ^ 64 - 2 ^ c)) = false -> c < w * (j0 + 1)).
  { intros -> c Hc Ht. destruct (Z.lt_ge_cases c (w * (j0 + 1))) as [ | Hge ]; [ assumption | exfalso ].
    apply (eq_bisect w v c Hw Hv Hc Ht j0); [ lia | exact Hge | ].
    unfold zero_match in Hm. cbn in Hm. destruct (Z.eqb_spec (fld w v j0) 0); [ assumption | discriminate ]. }
  assert (Hnn : eq = false -> forall c, 0 <= c <= 64 ->
            Z.land v (2 ^ c - 1) = 0 -> c < w * (j0 + 1)).
  { intros -> c Hc Hl. destruct (Z.lt_ge_cases c (w * (j0 + 1))) as [ | Hge ]; [ assumption | exfalso ].
    pose proof (neq_bisect w v c Hw0 ltac:(lia) Hl j0 ltac:(lia) Hge) as Hz.
    unfold zero_match in Hm. rewrite Hz in Hm. discriminate. }
  match goal with
  | |- find_zero_loop _ _ _ _ _ ?s = _ => assert (Hstart : 0 <= s <= j0)
  end.
  { change 0xffffffff00000000 with (2 ^ 64 - 2 ^ 32).
    change 0xffff000000000000 with (2 ^ 64 - 2 ^ 48).
    change 0xffffffffffff0000 with (2 ^ 64 - 2 ^ 16).
    change 0x00000000ffffffff with (2 ^ 32 - 1).
    change 0x0000ffffffffffff with (2 ^ 48 - 1).
    change 0x000000000000ffff with (2 ^ 16 - 1).
    destruct (test_zero w (Z.lor v (2 ^ 64 - 2 ^ 32))) eqn:T32;
      destruct (test_zero w (Z.lor v (2 ^ 64 - 2 ^ 48))) eqn:T48;
      destruct (test_zero w (Z.lor v (2 ^ 64 - 2 ^ 16))) eqn:T16;
      destruct (Z.eqb_spec (Z.land v (2 ^ 32 - 1)) 0) as [L32 | L32];
      destruct (Z.eqb_spec (Z.land v (2 ^ 48 - 1)) 0) as [L48 | L48];
      destruct (Z.eqb_spec (Z.land v (2 ^ 16 - 1)) 0) as [L16 | L16];
      destruct eq;
      try (specialize (Hnz eq_refl)); try (specialize (Hnn eq_refl));
      try (pose proof (Hnz 32 ltac:(lia) T32));
      try (pose proof (Hnz 48 ltac:(lia) T48));
      try (pose proof (Hnz 16 ltac:(lia) T16));
      try (pose proof (Hnn 32 ltac:(lia) L32));
      try (pose proof (Hnn 48 ltac:(lia) L48));
      try (pose proof (Hnn 16 ltac:(lia) L16));
      destruct Hw as [-> | [-> | [-> | [-> | ->]]]]; cbn; lia. }
  apply find_zero_loop_spec; try lia; try assumption.
  intros j Hj. apply Hlow. lia.
Qed.

(** ** Counting set bits *)

Fixpoint sumZ (f : Z -> Z) (n : nat) (i : Z) : Z :=
  match n with
  | O => 0
  | S n' => f i + sumZ f n' (i + 1)
  end.

Lemma sumZ_ext f g n :
  forall i, (forall j, i <= j < i + Z.of_nat n -> f j = g j) -> sumZ f n i = sumZ g n i.
Proof.
  induction n as [ | n IH ]; intros i H; cbn [sumZ]; [ reflexivity | ].
  rewrite (H i) by lia. rewrite IH by (intros j Hj; apply H; lia). reflexivity.
Qed.

Lemma sumZ_shift f c n : forall i, sumZ f n (i + c) = sumZ (fun q => f (q + c)) n i.
Proof.
  induction n as [ | n IH ]; intros i; cbn [sumZ]; [ reflexivity | ].
  rewrite <- IH. do 2 f_equal. lia.
Qed.

Lemma sumZ_app f n m :
  forall i, sumZ f (n + m) i = sumZ f n i + sumZ f m (i + Z.of_nat n).
Proof.
  induction n as [ | n IH ]; intros i.
  - cbn [sumZ Nat.add]. rewrite Z.add_0_r. reflexivity.
  - cbn [sumZ Nat.add]. rewrite IH.
    replace (i + 1 + Z.of_nat n) with (i + Z.of_nat (S n)) by lia. lia.
Qed.

Lemma sumZ_zero f n :
  forall i, (forall j, i <= j < i + Z.of_nat n -> f j = 0) -> sumZ f n i = 0.
Proof.
  induction n as [ | n IH ]; intros i H; cbn [sumZ]; [ reflexivity | ].
  rewrite (H i) by lia. rewrite IH by (intros j Hj; apply H; lia). reflexivity.
Qed.

Lemma sumZ_scale c f n : forall i, sumZ (fun j => c * f j) n i = c * sumZ f n i.
Proof.
  induction n as [ | n IH ]; intros i; cbn [sumZ]; [ lia | ]. rewrite IH. lia.
Qed.

(** Exactly one index of a range equals [r]. *)
Lemma sumZ_indicator r n :
  forall i, sumZ (fun k => Z.b2z (k =? r)) n i
            = Z.b2z ((i <=? r) && (r <? i + Z.of_nat n)).
Proof.
  induction n as [ | n IH ]; intros i; cbn [sumZ].
  - destruct (Z.leb_spec i r), (Z.ltb_spec r (i + Z.of_nat 0)); cbn; lia.
  - rewrite IH.
    destruct (Z.eqb_spec i r), (Z.leb_spec i r), (Z.leb_spec (i + 1) r),
      (Z.ltb_spec r (i + 1 + Z.of_nat n)), (Z.ltb_spec r (i + Z.of_nat (S n)));
      cbn; lia.
Qed.

Lemma popcount_bits_sum n :
  forall x, popcount_bits n x = sumZ (fun q => Z.b2z (Z.testbit x q)) n 0.
Proof.
  induction n as [ | n IH ]; intros x; cbn [popcount_bits sumZ]; [ reflexivity | ].
  rewrite IH. f_equal. rewrite (sumZ_shift _ 1 n 0).
  apply sumZ_ext. intros j Hj. rewrite Z.shiftr_spec by lia. reflexivity.
Qed.

(** One flag every [w] positions. *)
Lemma sumZ_stride w r (G : Z -> bool) n :
  0 < w -> 0 <= r < w ->
  sumZ (fun q => Z.b2z ((q mod w =? r) && G (q / w))) (Z.to_nat w * n) 0
  = sumZ (fun j => Z.b2z (G j)) n 0.
Proof.
  intros Hw Hr. induction n as [ | n IH ].
  - rewrite Nat.mul_0_r. reflexivity.
  - replace (Z.to_nat w * S n)%nat with (Z.to_nat w * n + Z.to_nat w)%nat by lia.
    replace (S n) with (n + 1)%nat by lia.
    rewrite !sumZ_app, IH. f_equal. cbn [sumZ]. rewrite !Z.add_0_l, Z.add_0_r.
    rewrite Nat2Z.inj_mul, Z2Nat.id by lia.
    rewrite <- (Z.add_0_l (w * Z.of_nat n)), (sumZ_shift _ (w * Z.of_nat n) _ 0).
    rewrite (sumZ_ext _ (fun k => Z.b2z (G (Z.of_nat n)) * Z.b2z (k =? r))).
    + rewrite sumZ_scale, sumZ_indicator, Z2Nat.id by lia.
      destruct (Z.leb_spec 0 r), (Z.ltb_spec r (0 + w)); cbn [andb Z.b2z]; lia.
    + intros k Hk. rewrite Z2Nat.id in Hk by lia.
      replace ((k + w * Z.of_nat n) mod w) with k
        by (apply Z.mod_unique with (Z.of_nat n); lia).
      replace ((k + w * Z.of_nat n) / w) with (Z.of_nat n)
        by (apply Z.div_unique with k; lia).
      destruct (k =? r), (G (Z.of_nat n)); reflexivity.
Qed.

(** ** [cascade]: one flag per field *)

Lemma testbit_pack_repeat w c n q :
  0 < w -> 0 <= c < 2 ^ w -> 0 <= q ->
  Z.testbit (pack w (repeat c n)) q = (q / w <? Z.of_nat n) && Z.testbit c (q mod w).
Proof.
  intros Hw Hc Hq. rewrite (testbit_by_field w _ q) by lia.
  assert (Hin : Forall (in_field w) (repeat c n)) by (apply Forall_repeat; exact Hc).
  assert (0 <= q / w) by (apply Z.div_pos; lia).
  destruct (Z.ltb_spec (q / w) (Z.of_nat n)) as [Hlt | Hge].
  - rewrite <- (Z2Nat.id (q / w)) at 1 by lia.
    rewrite fld_pack by (try lia; try exact Hin; rewrite repeat_length; lia).
    rewrite nth_repeat_lt by lia. reflexivity.
  - rewrite fld_pack_beyond by (try lia; try exact Hin; rewrite repeat_length; lia).
    apply Z.testbit_0_l.
Qed.

(** Some bit among [len] bits from position [q] on is set. *)
Fixpoint anybit (a : Z) (q : Z) (len : nat) : bool :=
  match len with
  | O => false
  | S len' => Z.testbit a q || anybit a (q + 1) len'
  end.

Lemma anybit_app a n m : forall q, anybit a q (n + m) = anybit a q n || anybit a (q + Z.of_nat n) m.
Proof.
  induction n as [ | n IH ]; intros q.
  - cbn [anybit Nat.add orb]. rewrite Z.add_0_r. reflexivity.
  - cbn [anybit Nat.add]. rewrite IH, orb_assoc.
    replace (q + 1 + Z.of_nat n) with (q + Z.of_nat (S n)) by lia. reflexivity.
Qed.

Lemma anybit_true a n :
  forall q, anybit a q n = true <-> exists k, 0 <= k < Z.of_nat n /\ Z.testbit a (q + k) = true.
Proof.
  induction n as [ | n IH ]; intros q; cbn [anybit].
  - split; [ discriminate | intros (k & Hk & _); lia ].
  - rewrite orb_true_iff, IH. split.
    + intros [H | (k & Hk & H)].
      * exists 0. rewrite Z.add_0_r. split; [ lia | exact H ].
      * exists (k + 1). replace (q + (k + 1)) with (q + 1 + k) by lia. split; [ lia | exact H ].
    + intros (k & Hk & H). destruct (Z.eq_dec k 0) as [-> | Hne].
      * left. rewrite Z.add_0_r in H. exact H.
      * right. exists (k - 1). replace (q + 1 + (k - 1)) with (q + k) by lia.
        split; [ lia | exact H ].
Qed.

Lemma fld_nonzero w a j :
  0 < w -> 0 <= j -> negb (fld w a j =? 0) = anybit a (w * j) (Z.to_nat w).
Proof.
  intros Hw Hj. destruct (anybit a (w * j) (Z.to_nat w)) eqn:E.
  - apply anybit_true in E. destruct E as (k & Hk & Hb).
    destruct (Z.eqb_spec (fld w a j) 0) as [Hz | ]; [ | reflexivity ].
    assert (Hf : Z.testbit (fld w a j) k = true).
    { rewrite fld_testbit by lia. destruct (Z.ltb_spec k w); [ exact Hb | lia ]. }
    rewrite Hz, Z.testbit_0_l in Hf. discriminate.
  - destruct (Z.eqb_spec (fld w a j) 0) as [ | Hnz ]; [ reflexivity | exfalso ].
    apply Hnz. apply Z.bits_inj'. intros k Hk. rewrite Z.testbit_0_l, fld_testbit by lia.
    destruct (Z.ltb_spec k w); [ | reflexivity ]. cbn [andb].
    destruct (Z.testbit a (w * j + k)) eqn:Hb; [ | reflexivity ].
    assert (anybit a (w * j) (Z.to_nat w) = true); [ | congruence ].
    apply anybit_true. exists k. split; [ lia | exact Hb ].
Qed.

(** One line of [cascade]: [a = a | (a >> s & c)]. *)
Definition cascade_step (a s c : Z) : Z := Z.lor a (Z.land (Z.shiftr a s) c).

(** A bit of the word is the disjunction of the [len] bits of [a] from its
    position on, as far as they lie in the same field. *)
Definition window (w a x len : Z) : Prop :=
  forall q, 0 <= q < 64 ->
    Z.testbit x q = anybit a q (Z.to_nat (Z.min len (w - q mod w))).

Lemma window_start w a : 0 < w -> window w a a 1.
Proof.
  intros Hw q Hq. pose proof (Z.mod_pos_bound q w Hw).
  replace (Z.min 1 (w - q mod w)) with 1 by lia.
  change (Z.to_nat 1) with 1%nat. cbn [anybit]. rewrite orb_false_r. reflexivity.
Qed.

Lemma window_step w n a x len :
  0 < w -> 0 < len < w -> w * Z.of_nat n = 64 ->
  window w a x len ->
  window w a (cascade_step x len (pack w (repeat (2 ^ (w - len) - 1) n))) (2 * len).
Proof.
  intros Hw Hlen Hn Hx q Hq. unfold cascade_step.
  pose proof (Z.mod_pos_bound q w Hw) as Hqm.
  assert (Hpw : 0 < 2 ^ (w - len)) by (apply Z.pow_pos_nonneg; lia).
  assert (Hpw' : 2 ^ (w - len) < 2 ^ w) by (apply Z.pow_lt_mono_r; lia).
  rewrite Z.lor_spec, Z.land_spec, Z.shiftr_spec, testbit_pack_repeat by lia.
  assert (Hqn : q / w < Z.of_nat n) by (apply Z.div_lt_upper_bound; lia).
  destruct (Z.ltb_spec (q / w) (Z.of_nat n)); [ | lia ]. cbn [andb].
  rewrite ones_minus. rewrite Hx by lia.
  destruct (Z.lt_ge_cases (q mod w) (w - len)) as [Hin | Hout].
  - rewrite Z.ones_spec_low, andb_true_r by lia.
    assert (Hqm' : (q + len) mod w = q mod w + len).
    { symmetry. apply Z.mod_unique with (q / w); [ lia | ].
      pose proof (Z.div_mod q w ltac:(lia)). lia. }
    assert (Hq' : q + len < 64).
    { pose proof (Z.div_mod q w ltac:(lia)). nia. }
    rewrite Hx, Hqm' by lia.
    replace (Z.min len (w - q mod w)) with len by lia.
    replace (Z.to_nat (Z.min (2 * len) (w - q mod w)))
      with (Z.to_nat len + Z.to_nat (Z.min len (w - (q mod w + len))))%nat by lia.
    rewrite anybit_app, Z2Nat.id by lia. reflexivity.
  - rewrite Z.ones_spec_high, andb_false_r, orb_false_r by lia.
    f_equal. lia.
Qed.

Lemma window_flags w n a x (zero : bool) :
  0 < w -> w * Z.of_nat n = 64 ->
  window w a x w ->
  forall q, 0 <= q < 64 ->
    Z.testbit (let x := Z.land x (pack w (repeat 1 n)) in
               if zero then Z.lxor x (pack w (repeat 1 n)) else x) q
    = (q mod w =? 0) && zero_match zero w a (q / w).
Proof.
  intros Hw Hn Hx q Hq. cbv zeta.
  pose proof (Z.mod_pos_bound q w Hw) as Hqm.
  assert (Hpw : 1 < 2 ^ w) by (apply Z.pow_gt_1; lia).
  assert (Hqn : q / w < Z.of_nat n) by (apply Z.div_lt_upper_bound; lia).
  assert (Hfl : Z.testbit (Z.land x (pack w (repeat 1 n))) q
                = (q mod w =? 0) && negb (fld w a (q / w) =? 0)).
  { rewrite Z.land_spec, testbit_pack_repeat, Hx by lia.
    destruct (Z.ltb_spec (q / w) (Z.of_nat n)); [ | lia ]. cbn [andb].
    destruct (Z.eqb_spec (q mod w) 0) as [Hz | Hnz].
    - rewrite Hz. change (Z.testbit 1 0) with true. rewrite andb_true_r, Z.sub_0_r.
      replace (Z.min w w) with w by lia.
      rewrite fld_nonzero by (try lia; apply Z.div_pos; lia).
      cbn [andb]. f_equal. pose proof (Z.div_mod q w ltac:(lia)). lia.
    - replace (Z.testbit 1 (q mod w)) with false; [ apply andb_false_r | ].
      symmetry. change 1 with (Z.ones 1). apply Z.ones_spec_high. lia. }
  unfold zero_match. destruct zero.
  - rewrite Z.lxor_spec, Hfl, testbit_pack_repeat by lia.
    destruct (Z.ltb_spec (q / w) (Z.of_nat n)); [ | lia ]. cbn [andb].
    destruct (Z.eqb_spec (q mod w) 0) as [Hz | Hnz].
    + rewrite Hz. change (Z.testbit 1 0) with true.
      destruct (fld w a (q / w) =? 0); reflexivity.
    + replace (Z.testbit 1 (q mod w)) with false; [ reflexivity | ].
      symmetry. change 1 with (Z.ones 1). apply Z.ones_spec_high. lia.
  - rewrite Hfl. destruct (fld w a (q / w) =? 0); reflexivity.
Qed.

(** [cascade] sets the lowest bit of every field that is zero (or of every
    field that is not), and nothing else. *)
Lemma cascade_testbit w zero a q :
  trick_width w -> 0 <= a < 2 ^ 64 -> 0 <= q < 64 ->
  Z.testbit (cascade w zero a) q = (q mod w =? 0) && zero_match zero w a (q / w).
Proof.
  intros Hw Ha Hq. destruct Hw as [-> | [-> | [-> | [-> | ->]]]].
  - (* width 1 *)
    rewrite Z.mod_1_r, Z.div_1_r. cbn [Z.eqb andb]. unfold zero_match.
    assert (Hf : (fld 1 a q =? 0) = negb (Z.testbit a q)).
    { rewrite <- (negb_involutive (fld 1 a q =? 0)), fld_nonzero by lia.
      change (Z.to_nat 1) with 1%nat. cbn [anybit]. rewrite orb_false_r, Z.mul_1_l. reflexivity. }
    rewrite Hf. change (cascade 1 zero a) with (if zero then u64_not a else a).
    destruct zero; [ rewrite u64_not_testbit by lia | ]; destruct (Z.testbit a q); reflexivity.
  - change (cascade 2 zero a)
      with (let x := Z.land (cascade_step a 1 (pack 2 (repeat (2 ^ (2 - 1) - 1) 32)))
                            (pack 2 (repeat 1 32)) in
            if zero then Z.lxor x (pack 2 (repeat 1 32)) else x).
    apply window_flags; [ lia | reflexivity | | exact Hq ].
    apply (window_step 2 32 a a 1); [ lia | lia | reflexivity | ].
    apply window_start; lia.
  - change (cascade 4 zero a)
      with (let x := Z.land (cascade_step
                               (cascade_step a 1 (pack 4 (repeat (2 ^ (4 - 1) - 1) 16)))
                               2 (pack 4 (repeat (2 ^ (4 - 2) - 1) 16)))
                            (pack 4 (repeat 1 16)) in
            if zero then Z.lxor x (pack 4 (repeat 1 16)) else x).
    apply window_flags; [ lia | reflexivity | | exact Hq ].
    apply (window_step 4 16 a _ 2); [ lia | lia | reflexivity | ].
    apply (window_step 4 16 a a 1); [ lia | lia | reflexivity | ].
    apply window_start; lia.
  - change (cascade 8 zero a)
      with (let x := Z.land (cascade_step
                               (cascade_step
                                  (cascade_step a 1 (pack 8 (repeat (2 ^ (8 - 1) - 1) 8)))
                                  2 (pack 8 (repeat (2 ^ (8 - 2) - 1) 8)))
                               4 (pack 8 (repeat (2 ^ (8 - 4) - 1) 8)))
                            (pack 8 (repeat 1 8)) in
            if zero then Z.lxor x (pack 8 (repeat 1 8)) else x).
    apply window_flags; [ lia | reflexivity | | exact Hq ].
    apply (window_step 8 8 a _ 4); [ lia | lia | reflexivity | ].
    apply (window_step 8 8 a _ 2); [ lia | lia | reflexivity | ].
    apply (window_step 8 8 a a 1); [ lia | lia | reflexivity | ].
    apply window_start; lia.
  - change (cascade 16 zero a)
      with (let x := Z.land (cascade_step
                               (cascade_step
                                  (cascade_step
                                     (cascade_step a 1 (pack 16 (repeat (2 ^ (16 - 1) - 1) 4)))
                                     2 (pack 16 (repeat (2 ^ (16 - 2) - 1) 4)))
                                  4 (pack 16 (repeat (2 ^ (16 - 4) - 1) 4)))
                               8 (pack 16 (repeat (2 ^ (16 - 8) - 1) 4)))
                            (pack 16 (repeat 1 4)) in
            if zero then Z.lxor x (pack 16 (repeat 1 4)) else x).
    apply window_flags; [ lia | reflexivity | | exact Hq ].
    apply (window_step 16 4 a _ 8); [ lia | lia | reflexivity | ].
    apply (window_step 16 4 a _ 4); [ lia | lia | reflexivity | ].
    apply (window_step 16 4 a _ 2); [ lia | lia | reflexivity | ].
    apply (window_step 16 4 a a 1); [ lia | lia | reflexivity | ].
    apply window_start; lia.
Qed.
(** ** The naive scan and simulation by it *)

(** The naive linear scan: for [i = start], [start + 1], ... ([n] indices), if
    [pred i] holds report [i] through [report], and stop as soon as a report
    answers [false]. *)
Fixpoint scan_from {W} (pred : Z -> bool) (report : Z -> W -> bool * W)
    (n : nat) (i : Z) (w : W) : bool * W :=
  match n with
  | O => (true, w)
  | S n' =>
      if pred i then
        let (r, w') := report i w in
        if r then scan_from pred report n' (i + 1) w' else (false, w')
      else scan_from pred report n' (i + 1) w
  end.

Definition scan {W} (pred : Z -> bool) (report : Z -> W -> bool * W)
    (start end_ : Z) (w : W) : bool * W :=
  scan_from pred report (Z.to_nat (end_ - start)) start w.

(** Delivery of a list of indices, stopping at the first [false]. *)
Fixpoint report_all {W} (report : Z -> W -> bool * W) (js : list Z) (w : W) : bool * W :=
  match js with
  | [] => (true, w)
  | j :: rest =>
      let (r, w') := report j w in
      if r then report_all report rest w' else (false, w')
  end.

(** The indices of [start], ..., [start + n - 1] that satisfy [pred]. *)
Fixpoint matches_from (pred : Z -> bool) (n : nat) (i : Z) : list Z :=
  match n with
  | O => []
  | S n' => if pred i then i :: matches_from pred n' (i + 1) else matches_from pred n' (i + 1)
  end.

Definition matches (pred : Z -> bool) (start end_ : Z) : list Z :=
  matches_from pred (Z.to_nat (end_ - start)) start.

Lemma scan_from_report_all {W} pred (report : Z -> W -> bool * W) n :
  forall i w, scan_from pred report n i w = report_all report (matches_from pred n i) w.
Proof.
  induction n as [ | n IH ]; intros i w; cbn [scan_from matches_from]; [ reflexivity | ].
  destruct (pred i); [ | apply IH ].
  cbn [report_all]. destruct (report i w) as [[] w']; [ apply IH | reflexivity ].
Qed.

Lemma scan_report_all {W} pred (report : Z -> W -> bool * W) s e w :
  scan pred report s e w = report_all report (matches pred s e) w.
Proof. apply scan_from_report_all. Qed.

Lemma matches_from_app pred n m :
  forall i, matches_from pred (n + m) i
            = matches_from pred n i ++ matches_from pred m (i + Z.of_nat n).
Proof.
  induction n as [ | n IH ]; intros i.
  - cbn [matches_from Nat.add app]. rewrite Z.add_0_r. reflexivity.
  - cbn [matches_from Nat.add]. rewrite IH.
    replace (i + 1 + Z.of_nat n) with (i + Z.of_nat (S n)) by lia.
    destruct (pred i); reflexivity.
Qed.

Lemma matches_split pred s m e :
  s <= m <= e -> matches pred s e = matches pred s m ++ matches pred m e.
Proof.
  intros H. unfold matches.
  replace (Z.to_nat (e - s)) with (Z.to_nat (m - s) + Z.to_nat (e - m))%nat by lia.
  rewrite matches_from_app. f_equal. f_equal. lia.
Qed.

Lemma matches_from_none pred n :
  forall i, (forall j, i <= j < i + Z.of_nat n -> pred j = false) -> matches_from pred n i = [].
Proof.
  induction n as [ | n IH ]; intros i H; cbn [matches_from]; [ reflexivity | ].
  rewrite H by lia. apply IH. intros j Hj. apply H. lia.
Qed.

Lemma matches_none pred s e :
  (forall j, s <= j < e -> pred j = false) -> matches pred s e = [].
Proof. intros H. apply matches_from_none. intros j Hj. apply H. lia. Qed.

Lemma matches_one pred i : pred i = true -> matches pred i (i + 1) = [i].
Proof.
  intros H. unfold matches. replace (i + 1 - i) with 1 by lia.
  change (Z.to_nat 1) with 1%nat. cbn [matches_from]. rewrite H. reflexivity.
Qed.

Lemma matches_from_ext p1 p2 n :
  forall i, (forall j, i <= j < i + Z.of_nat n -> p1 j = p2 j) ->
            matches_from p1 n i = matches_from p2 n i.
Proof.
  induction n as [ | n IH ]; intros i H; cbn [matches_from]; [ reflexivity | ].
  rewrite (H i) by lia. rewrite IH by (intros j Hj; apply H; lia). reflexivity.
Qed.

Lemma matches_ext p1 p2 s e :
  (forall j, s <= j < e -> p1 j = p2 j) -> matches p1 s e = matches p2 s e.
Proof. intros H. apply matches_from_ext. intros j Hj. apply H. lia. Qed.

Lemma matches_from_length pred n i : (length (matches_from pred n i) <= n)%nat.
Proof.
  revert i. induction n as [ | n IH ]; intros i; cbn [matches_from length]; [ lia | ].
  specialize (IH (i + 1)). destruct (pred i); cbn [length]; lia.
Qed.

Lemma matches_length pred s e : s <= e -> Z.of_nat (length (matches pred s e)) <= e - s.
Proof.
  intros H. unfold matches.
  pose proof (matches_from_length pred (Z.to_nat (e - s)) s) as Hl.
  apply Nat2Z.inj_le in Hl. rewrite Z2Nat.id in Hl by lia. exact Hl.
Qed.

Lemma report_all_app {W} (report : Z -> W -> bool * W) l1 l2 w :
  report_all report (l1 ++ l2) w =
    (let (r, w') := report_all report l1 w in
     if r then report_all report l2 w' else (false, w')).
Proof.
  revert w. induction l1 as [ | j l1 IH ]; intros w; cbn [app report_all]; [ reflexivity | ].
  destruct (report j w) as [[] w']; [ apply IH | reflexivity ].
Qed.


(** ** The kernel's bit tricks and the elements of the array *)

Lemma matches_from_count pred n :
  forall i, Z.of_nat (length (matches_from pred n i)) = sumZ (fun j => Z.b2z (pred j)) n i.
Proof.
  induction n as [ | n IH ]; intros i; cbn [matches_from sumZ]; [ reflexivity | ].
  destruct (pred i); cbn [length Z.b2z]; rewrite <- IH; lia.
Qed.

(** A word with one flag per element, at bit [r] of every [w]-bit group, has
    as many bits set as there are flagged elements. *)
Lemma popcount_matches w r n s pred p :
  0 < w -> 0 <= r < w -> w * Z.of_nat n <= 64 ->
  (forall q, 0 <= q < 64 ->
     Z.testbit p q = (q mod w =? r) && ((q / w <? Z.of_nat n) && pred (s + q / w))) ->
  fast_popcount64 p = Z.of_nat (length (matches pred s (s + Z.of_nat n))).
Proof.
  intros Hw Hr Hn Hbits. unfold fast_popcount64, matches.
  rewrite popcount_bits_sum, matches_from_count.
  replace (Z.to_nat (s + Z.of_nat n - s)) with n by lia.
  rewrite (sumZ_ext _ (fun q => Z.b2z ((q mod w =? r) && ((q / w <? Z.of_nat n) && pred (s + q / w)))))
    by (intros j Hj; rewrite Hbits by lia; reflexivity).
  replace 64%nat with (Z.to_nat w * n + (64 - Z.to_nat w * n))%nat by nia.
  rewrite sumZ_app, (sumZ_stride w r (fun j => (j <? Z.of_nat n) && pred (s + j))) by lia.
  rewrite (sumZ_zero _ (64 - Z.to_nat w * n)).
  - rewrite Z.add_0_r, <- (Z.add_0_r s) at 1. rewrite Z.add_0_r at 1.
    rewrite <- (Z.add_0_l s), sumZ_shift.
    apply sumZ_ext. intros j Hj.
    destruct (Z.ltb_spec j (Z.of_nat n)); [ | lia ]. cbn [andb]. do 2 f_equal. lia.
  - intros j Hj.
    assert (Z.of_nat n <= j / w) by (apply Z.div_le_lower_bound; nia).
    destruct (Z.ltb_spec (j / w) (Z.of_nat n)); [ lia | ].
    rewrite andb_false_l, andb_false_r. reflexivity.
Qed.

(** The widths an attached array with elements can have. *)
Definition width_ok (w : Z) : Prop :=
  w = 1 \/ w = 2 \/ w = 4 \/ w = 8 \/ w = 16 \/ w = 32 \/ w = 64.

Lemma packed_field_range w data i : 0 <= w -> 0 <= packed_field w data i < 2 ^ w.
Proof. intros Hw. apply slice_range. exact Hw. Qed.

Lemma get_unsigned pf w a i :
  (w = 1 \/ w = 2 \/ w = 4) -> 0 <= i -> get pf w a i = packed_field w (m_data a) i.
Proof. intros Hw Hi. apply get_universal_sub_byte; assumption. Qed.

Lemma get_signed pf w a i :
  (w = 8 \/ w = 16 \/ w = 32 \/ w = 64) -> 0 <= i ->
  get pf w a i = to_signed w (packed_field w (m_data a) i).
Proof.
  intros Hw Hi. unfold get. rewrite get_universal_bytes by (try assumption; lia).
  rewrite Z.mul_0_r, Z.add_0_l. reflexivity.
Qed.

Lemma get_bounds pf w a i :
  width_ok w -> 0 <= i -> lbound_for_width w <= get pf w a i <= ubound_for_width w.
Proof.
  intros Hw Hi. unfold lbound_for_width, ubound_for_width.
  destruct Hw as [-> | [-> | [-> | Hw]]];
    [ rewrite get_unsigned by (try lia; tauto);
      match goal with
      | |- context [packed_field ?w _ _] =>
          pose proof (packed_field_range w (m_data a) i ltac:(lia)) as Hr
      end; cbn in *; lia .. | ].
  rewrite get_signed by assumption.
  assert (0 < w) by (destruct Hw as [-> | [-> | [-> | ->]]]; lia).
  pose proof (to_signed_range w (packed_field w (m_data a) i) ltac:(lia)) as Hr.
  destruct Hw as [-> | [-> | [-> | ->]]]; cbn in *; lia.
Qed.

Lemma to_signed_of_mod w x : 0 < w -> to_signed w (x mod 2 ^ w) = to_signed w x.
Proof.
  intros Hw. unfold to_signed. rewrite Zplus_mod_idemp_l. reflexivity.
Qed.

(** Comparing an element with a value the width can hold is comparing the
    stored field with the value's low bits. *)
Lemma get_eqb pf w a i value :
  width_ok w -> 0 <= i ->
  lbound_for_width w <= value <= ubound_for_width w ->
  (get pf w a i =? value) = (packed_field w (m_data a) i =? value mod 2 ^ w).
Proof.
  intros Hw Hi Hv.
  assert (Hw0 : 0 < w) by (destruct Hw as [-> | [-> | [-> | [-> | [-> | [-> | ->]]]]]]; lia).
  pose proof (packed_field_range w (m_data a) i ltac:(lia)) as Hr.
  assert (Hcase : (w = 1 \/ w = 2 \/ w = 4) \/ (w = 8 \/ w = 16 \/ w = 32 \/ w = 64))
    by (unfold width_ok in Hw; tauto).
  destruct Hcase as [Hu | Hs].
  - rewrite get_unsigned by assumption.
    assert (0 <= value < 2 ^ w).
    { unfold lbound_for_width, ubound_for_width in Hv.
      destruct Hu as [-> | [-> | ->]]; cbn in *; lia. }
    rewrite Z.mod_small by assumption. reflexivity.
  - rewrite get_signed by assumption.
    assert (Hvr : - 2 ^ (w - 1) <= value < 2 ^ (w - 1)).
    { unfold lbound_for_width, ubound_for_width in Hv.
      destruct Hs as [-> | [-> | [-> | ->]]]; cbn in *; lia. }
    destruct (Z.eqb_spec (packed_field w (m_data a) i) (value mod 2 ^ w)) as [He | Hne].
    + rewrite He, to_signed_of_mod, to_signed_small by assumption. apply Z.eqb_refl.
    + apply Z.eqb_neq. intros He. apply Hne.
      rewrite <- (Z.mod_small (packed_field w (m_data a) i) (2 ^ w)) by exact Hr.
      rewrite <- to_signed_mod, He by exact Hw0. reflexivity.
Qed.

(** The fields of a chunk are the elements it covers. *)
Lemma chunk_fld w a p j :
  0 < w -> 0 <= p -> (8 * p) mod w = 0 -> 0 <= j -> w * (j + 1) <= 64 ->
  fld w (read_chunk a p) j = packed_field w (m_data a) (8 * p / w + j).
Proof.
  intros Hw Hp Hal Hj Hj64. unfold read_chunk, fld, packed_field.
  rewrite load_le_slice by exact Hp. change (8 * Z.of_nat 8) with 64.
  rewrite slice_slice by nia. f_equal.
  pose proof (Z.div_mod (8 * p) w ltac:(lia)). nia.
Qed.

Lemma read_chunk_range a p : 0 <= read_chunk a p < 2 ^ 64.
Proof. unfold read_chunk. apply (load_le_range (m_data a) 8 p). Qed.

Lemma fld_shiftr w v j c :
  0 <= w -> 0 <= j -> 0 <= c -> fld w (Z.shiftr v (w * c)) j = fld w v (j + c).
Proof.
  intros Hw Hj Hc. unfold fld, slice.
  rewrite Z.shiftr_div_pow2 by nia.
  rewrite Z.div_div by (first [ apply Z.pow_nonzero; nia | apply Z.pow_pos_nonneg; nia ]).
  rewrite <- Z.pow_add_r by nia. do 3 f_equal. lia.
Qed.

Lemma shiftr_range v c : 0 <= c -> 0 <= v < 2 ^ 64 -> 0 <= Z.shiftr v c < 2 ^ 64.
Proof.
  intros Hc Hv. rewrite Z.shiftr_div_pow2 by exact Hc.
  assert (0 < 2 ^ c) by (apply Z.pow_pos_nonneg; lia).
  split; [ apply Z.div_pos; lia | ].
  apply Z.div_lt_upper_bound; [ lia | nia ].
Qed.

Lemma u64_shr_range pf v c : 0 <= c -> 0 <= v < 2 ^ 64 -> 0 <= u64_shr pf v c < 2 ^ 64.
Proof.
  intros Hc Hv. unfold u64_shr.
  destruct (c >=? 64); [ destruct (shift_count_masked pf); [ | lia ] | ];
    apply shiftr_range; try assumption.
  apply Z.mod_pos_bound. lia.
Qed.

Lemma u64_shr_fld pf w v j c :
  0 <= w -> 0 <= j -> 0 <= c -> w * c < 64 ->
  fld w (u64_shr pf v (c * w)) j = fld w v (j + c).
Proof.
  intros Hw Hj Hc Hlt. unfold u64_shr.
  destruct (Z.geb_spec (c * w) 64); [ lia | ].
  rewrite (Z.mul_comm c w). apply fld_shiftr; assumption.
Qed.

Lemma trick_width_le w : trick_width w -> w <= 16.
Proof. intros [-> | [-> | [-> | [-> | ->]]]]; lia. Qed.

(** The word every field of which holds the low bits of [value]. *)
Lemma valuemask_pack w value :
  trick_width w ->
  to_size_t (ones64 / no0 (width_mask w) * Z.land (to_size_t value) (width_mask w))
  = pack w (repeat (value mod 2 ^ w) (chunk_fields w)).
Proof.
  intros Hw. destruct (trick_width_facts w Hw) as (Hw0 & Hn & Hdiv).
  rewrite ones64_div_mask, width_mask_trick by exact Hw.
  rewrite ones_minus, Z.land_ones by lia.
  assert (Hmm : to_size_t value mod 2 ^ w = value mod 2 ^ w).
  { pose proof (trick_width_le w Hw).
    unfold to_size_t. apply Z.mod_mod_divide.
    exists (2 ^ (64 - w)). rewrite <- Z.pow_add_r by lia. f_equal. lia. }
  rewrite Hmm, Z.mul_comm, <- pack_repeat.
  apply to_size_t_small.
  pose proof (pack_range w (repeat (value mod 2 ^ w) (chunk_fields w)) ltac:(lia)) as Hr.
  rewrite repeat_length, Hn in Hr. apply Hr. apply Forall_repeat.
  apply Z.mod_pos_bound. apply Z.pow_pos_nonneg; lia.
Qed.

(** A field of [chunk ^ valuemask] is zero where the element equals [value]. *)
Lemma xor_field_zero pf w a p value j :
  trick_width w -> 0 <= p -> p mod 8 = 0 -> 0 <= j < 64 / w ->
  lbound_for_width w <= value <= ubound_for_width w ->
  (fld w (Z.lxor (read_chunk a p) (pack w (repeat (value mod 2 ^ w) (chunk_fields w)))) j =? 0)
  = (get pf w a (8 * p / w + j) =? value).
Proof.
  intros Hw Hp Hal Hj Hv. destruct (trick_width_facts w Hw) as (Hw0 & Hn & Hdiv).
  assert (Hwok : width_ok w) by (unfold trick_width in Hw; unfold width_ok; tauto).
  assert (Hpw : 0 < 2 ^ w) by (apply Z.pow_pos_nonneg; lia).
  assert (H8 : (8 * p) mod w = 0).
  { destruct Hw as [-> | [-> | [-> | [-> | ->]]]];
      apply Z.mod_divide; try lia; apply Z.mod_divide in Hal; try lia;
      destruct Hal as [k ->]; [ exists (64 * k) | exists (32 * k) | exists (16 * k)
                              | exists (8 * k) | exists (4 * k) ]; lia. }
  assert (0 <= 8 * p / w) by (apply Z.div_pos; lia).
  rewrite get_eqb by (try assumption; lia).
  rewrite fld_lxor by lia. rewrite chunk_fld by (try assumption; nia).
  rewrite <- (Z2Nat.id j) at 2 by lia.
  rewrite fld_pack, nth_repeat_lt
    by (try lia; try rewrite repeat_length; try lia;
        apply Forall_repeat; apply Z.mod_pos_bound; lia).
  destruct (Z.eqb_spec (packed_field w (m_data a) (8 * p / w + j)) (value mod 2 ^ w)) as [-> | Hne].
  - rewrite Z.lxor_nilpotent. reflexivity.
  - apply Z.eqb_neq. intros Hx. apply Hne. apply Z.lxor_eq. exact Hx.
Qed.

Lemma to_size_t_idem x : to_size_t (to_size_t x) = to_size_t x.
Proof. apply to_size_t_small. apply to_size_t_range. Qed.

Lemma to_size_t_add_r x y : to_size_t (x + to_size_t y) = to_size_t (x + y).
Proof. rewrite Z.add_comm, to_size_t_add_l, Z.add_comm. reflexivity. Qed.

(** *** The lowest set bit *)

Lemma lowest_set_bit_spec n :
  forall pos v q0,
    0 <= q0 < Z.of_nat n -> Z.testbit v q0 = true ->
    (forall q, 0 <= q < q0 -> Z.testbit v q = false) ->
    lowest_set_bit n pos v = pos + q0.
Proof.
  induction n as [ | n IH ]; intros pos v q0 Hq0 Hset Hlow; [ lia | ].
  cbn [lowest_set_bit]. destruct (Z.eq_dec q0 0) as [-> | Hne].
  - rewrite Hset. lia.
  - rewrite (Hlow 0) by lia.
    rewrite (IH (pos + 1) (Z.shiftr v 1) (q0 - 1)); [ lia | lia | | ].
    + rewrite Z.shiftr_spec by lia. replace (q0 - 1 + 1) with q0 by lia. exact Hset.
    + intros q Hq. rewrite Z.shiftr_spec by lia. apply Hlow. lia.
Qed.

Lemma least_set_bit v n :
  0 <= v < 2 ^ Z.of_nat n -> v <> 0 ->
  exists q0, 0 <= q0 < Z.of_nat n /\ Z.testbit v q0 = true /\
             forall q, 0 <= q < q0 -> Z.testbit v q = false.
Proof.
  intros Hv Hnz. apply (exists_least (fun q => Z.testbit v q) n).
  destruct (all_or_exists (fun q => Z.testbit v q) n) as [Hex | Hall]; [ exact Hex | exfalso ].
  apply Hnz. apply Z.bits_inj'. intros q Hq. rewrite Z.testbit_0_l.
  destruct (Z.lt_ge_cases q (Z.of_nat n)) as [Hlt | Hge]; [ apply Hall; lia | ].
  rewrite <- (Z.mod_small v (2 ^ Z.of_nat n)) by exact Hv.
  apply Z.mod_pow2_bits_high. lia.
Qed.

Lemma first_set_bit64_spec v q0 :
  0 <= v < 2 ^ 64 -> 0 <= q0 < 64 -> Z.testbit v q0 = true ->
  (forall q, 0 <= q < q0 -> Z.testbit v q = false) ->
  first_set_bit64 v = q0.
Proof.
  intros Hv Hq0 Hset Hlow. unfold first_set_bit64. rewrite to_size_t_small by exact Hv.
  rewrite (lowest_set_bit_spec 64 0 v q0); try assumption; lia.
Qed.

Lemma first_set_bit_spec v q0 :
  0 <= v < 2 ^ 32 -> 0 <= q0 < 32 -> Z.testbit v q0 = true ->
  (forall q, 0 <= q < q0 -> Z.testbit v q = false) ->
  first_set_bit v = q0.
Proof.
  intros Hv Hq0 Hset Hlow. unfold first_set_bit. rewrite Z.mod_small by exact Hv.
  rewrite (lowest_set_bit_spec 32 0 v q0); try assumption; lia.
Qed.

Lemma pack_zero w fs : Forall (fun f => f = 0) fs -> pack w fs = 0.
Proof.
  induction 1 as [ | f fs Hf _ IH ]; cbn [pack]; [ reflexivity | ]. rewrite Hf, IH. lia.
Qed.

Lemma nonzero_has_field w v :
  trick_width w -> 0 <= v < 2 ^ 64 -> v <> 0 ->
  exists j, 0 <= j < 64 / w /\ fld w v j <> 0.
Proof.
  intros Hw Hv Hnz. destruct (trick_width_facts w Hw) as (Hw0 & Hn & Hdiv).
  destruct (all_or_exists (fun j => negb (fld w v j =? 0)) (chunk_fields w))
    as [(j & Hj & HP) | Hall].
  - exists j. split; [ lia | ]. apply Z.eqb_neq. apply negb_true_iff. exact HP.
  - exfalso. apply Hnz. rewrite <- (pack_fields w (chunk_fields w) v) by (try lia; rewrite Hn; exact Hv).
    apply pack_zero. apply Forall_forall. intros f Hf.
    apply In_nth with (d := 0) in Hf. destruct Hf as (k & Hk & <-).
    rewrite fields_from_length in Hk. rewrite fields_from_nth by exact Hk.
    specialize (Hall (0 + Z.of_nat k) ltac:(lia)). apply negb_false_iff in Hall.
    apply Z.eqb_eq. exact Hall.
Qed.

(** A chunk has a field that answers [find_zero]'s question where the loop of
    [compare_equality] goes on. *)
Lemma zero_match_exists (eq : bool) w v :
  trick_width w -> 0 <= v < 2 ^ 64 ->
  (if eq then test_zero w v else negb (v =? 0)) = true ->
  exists j0, 0 <= j0 < 64 / w /\ zero_match eq w v j0 = true /\
             forall j, 0 <= j < j0 -> zero_match eq w v j = false.
Proof.
  intros Hw Hv Hc. destruct (trick_width_facts w Hw) as (Hw0 & Hn & Hdiv).
  rewrite Hdiv. apply (exists_least (fun j => zero_match eq w v j)).
  rewrite <- Hdiv. unfold zero_match. destruct eq.
  - apply test_zero_spec in Hc; try assumption. destruct Hc as (j & Hj & Hz).
    exists j. split; [ exact Hj | ]. rewrite Hz. reflexivity.
  - apply negb_true_iff, Z.eqb_neq in Hc.
    destruct (nonzero_has_field w v Hw Hv Hc) as (j & Hj & Hz).
    exists j. split; [ exact Hj | ]. apply Z.eqb_neq in Hz. rewrite Hz. reflexivity.
Qed.

Lemma zero_match_none (eq : bool) w v :
  trick_width w -> 0 <= v < 2 ^ 64 ->
  (if eq then test_zero w v else negb (v =? 0)) = false ->
  forall j, 0 <= j < 64 / w -> zero_match eq w v j = false.
Proof.
  intros Hw Hv Hc j Hj. unfold zero_match. destruct eq.
  - destruct (Z.eqb_spec (fld w v j) 0) as [Hz | ]; [ | reflexivity ].
    assert (test_zero w v = true); [ | congruence ].
    apply test_zero_spec; try assumption. exists j. split; assumption.
  - apply negb_false_iff, Z.eqb_eq in Hc. subst v.
    unfold fld, slice. rewrite Z.div_0_l, Z.mod_0_l; try reflexivity;
      apply Z.pow_nonzero; destruct (trick_width_facts w Hw); nia.
Qed.

(** *** Chunks and element indices *)

(** Linear arithmetic with division and remainder by constants. *)
Ltac lia_div := Z.to_euclidean_division_equations; lia.

Lemma round_up_facts p n :
  0 < n -> p <= round_up p n < p + n /\ round_up p n mod n = 0.
Proof.
  intros Hn. unfold round_up. pose proof (Z.mod_pos_bound p n Hn) as Hm.
  destruct (Z.eqb_spec (p mod n) 0) as [Hz | Hnz].
  - rewrite Z.add_0_r. split; [ lia | exact Hz ].
  - split; [ lia | ].
    pose proof (Z.div_mod p n ltac:(lia)) as Hdm.
    replace (p + (n - p mod n)) with (0 + (p / n + 1) * n) by lia.
    rewrite Z.mod_add by lia. apply Z.mod_0_l. lia.
Qed.

Lemma chunk_arith w p :
  trick_width w -> 0 <= p -> p mod 8 = 0 ->
  p / 8 * 8 * 8 / no0 w = 8 * p / w /\ w * (8 * p / w) = 8 * p /\
  (p + 8) / 8 * 8 * 8 / no0 w = 8 * p / w + 64 / w /\ 0 <= 8 * p / w /\
  (p + 8) mod 8 = 0.
Proof.
  intros Hw Hp Hal. destruct Hw as [-> | [-> | [-> | [-> | ->]]]];
    change (no0 1) with 1; change (no0 2) with 2; change (no0 4) with 4;
    change (no0 8) with 8; change (no0 16) with 16; lia_div.
Qed.

Lemma chunk_start w ee :
  trick_width w -> 0 <= ee -> ee mod (64 / no0 w) = 0 ->
  0 <= ee * w / 8 /\ (ee * w / 8) mod 8 = 0 /\ 8 * (ee * w / 8) / w = ee.
Proof.
  intros Hw Hp Hal. destruct Hw as [-> | [-> | [-> | [-> | ->]]]];
    [ change (64 / no0 1) with 64 in Hal | change (64 / no0 2) with 32 in Hal
    | change (64 / no0 4) with 16 in Hal | change (64 / no0 8) with 8 in Hal
    | change (64 / no0 16) with 4 in Hal ]; lia_div.
Qed.

Lemma chunk_within w p end_ :
  trick_width w -> 0 <= p -> p mod 8 = 0 -> p < end_ * w / 8 - 8 ->
  8 * p / w + 64 / w <= end_.
Proof.
  intros Hw Hp Hal Hlt. destruct Hw as [-> | [-> | [-> | [-> | ->]]]]; lia_div.
Qed.

Lemma chunk_fuel w p end_ :
  trick_width w -> 0 <= p -> 0 <= end_ ->
  (Z.to_nat ((end_ * w / 8 - 8 - p + 7) / 8) <= Z.to_nat end_)%nat.
Proof.
  intros Hw Hp He. destruct Hw as [-> | [-> | [-> | [-> | ->]]]]; lia_div.
Qed.

(** The condition of the two loops of [compare_equality] on an element. *)
Definition eq_pred (pf : Platform) (eq : bool) (w : Z) (a : Array) (value : Z) (i : Z) : bool :=
  if eq then get pf w a i =? value else negb (get pf w a i =? value).

Lemma xor_chunk_match pf (eq : bool) w a p value j :
  trick_width w -> 0 <= p -> p mod 8 = 0 -> 0 <= j < 64 / w ->
  lbound_for_width w <= value <= ubound_for_width w ->
  zero_match eq w
    (Z.lxor (read_chunk a p)
            (to_size_t (ones64 / no0 (width_mask w) * Z.land (to_size_t value) (width_mask w)))) j
  = eq_pred pf eq w a value (j + p / 8 * 8 * 8 / no0 w).
Proof.
  intros Hw Hp Hal Hj Hv. destruct (chunk_arith w p Hw Hp Hal) as (Hs & _).
  rewrite Hs, valuemask_pack by exact Hw. unfold zero_match, eq_pred.
  rewrite (xor_field_zero pf) by assumption.
  rewrite (Z.add_comm j). destruct eq, (get pf w a (8 * p / w + j) =? value); reflexivity.
Qed.

(** *** Chunks under [Greater] and [Less] *)

(** The condition of the loops of [compare_relation] on an element. *)
Definition rel_pred (pf : Platform) (gt : bool) (w : Z) (a : Array) (value : Z) (i : Z) : bool :=
  if gt then get pf w a i >? value else get pf w a i <? value.

Lemma chunk_align w p : trick_width w -> p mod 8 = 0 -> (8 * p) mod w = 0.
Proof.
  intros Hw Hal. destruct Hw as [-> | [-> | [-> | [-> | ->]]]]; lia_div.
Qed.

Lemma chunk_get_unsigned pf w a p t :
  (w = 1 \/ w = 2 \/ w = 4) -> 0 <= p -> p mod 8 = 0 -> 0 <= t < 64 / w ->
  Z.land (Z.shiftr (read_chunk a p) (w * t)) (2 ^ w - 1) = get pf w a (8 * p / w + t).
Proof.
  intros Hw Hp Hal Ht.
  assert (Htw : trick_width w) by (unfold trick_width; tauto).
  destruct (trick_width_facts w Htw) as (Hw0 & Hn & Hdiv).
  rewrite slice_land_shiftr by nia. fold (fld w (read_chunk a p) t).
  rewrite chunk_fld by (try lia; try nia; apply chunk_align; assumption).
  symmetry. apply get_unsigned; [ exact Hw | ].
  assert (0 <= 8 * p / w) by (apply Z.div_pos; lia). lia.
Qed.

Lemma chunk_get_signed pf w a p t :
  (w = 8 \/ w = 16) -> 0 <= p -> p mod 8 = 0 -> 0 <= t < 64 / w ->
  to_signed w (Z.shiftr (read_chunk a p) (w * t)) = get pf w a (8 * p / w + t).
Proof.
  intros Hw Hp Hal Ht.
  assert (Htw : trick_width w) by (unfold trick_width; tauto).
  destruct (trick_width_facts w Htw) as (Hw0 & Hn & Hdiv).
  rewrite <- to_signed_of_mod by lia. rewrite Z.shiftr_div_pow2 by nia.
  fold (slice (read_chunk a p) (w * t) w). fold (fld w (read_chunk a p) t).
  rewrite chunk_fld by (try lia; try nia; apply chunk_align; assumption).
  symmetry. apply get_signed; [ tauto | ].
  assert (0 <= 8 * p / w) by (apply Z.div_pos; lia). lia.
Qed.

Lemma high_bits_upper w :
  trick_width w ->
  to_size_t (Z.shiftl (lower_bits w) (no0 w - 1)) = pack w (repeat (2 ^ (w - 1)) (chunk_fields w))
  /\ to_size_t (ones64 / no0 (width_mask w) * to_size_t (Z.shiftr (width_mask w) 1 + 1))
     = pack w (repeat (2 ^ (w - 1)) (chunk_fields w))
  /\ Z.shiftr (width_mask w) 1 = 2 ^ (w - 1) - 1.
Proof. intros [-> | [-> | [-> | [-> | ->]]]]; repeat split; reflexivity. Qed.

(** No field of the chunk has its top bit set. *)
Lemma top_clear w chunk j :
  trick_width w ->
  Z.land (pack w (repeat (2 ^ (w - 1)) (chunk_fields w))) chunk = 0 ->
  0 <= j < 64 / w -> fld w chunk j < 2 ^ (w - 1).
Proof.
  intros Hw Hl Hj. destruct (trick_width_facts w Hw) as (Hw0 & Hn & Hdiv).
  pose proof (fld_range w chunk j ltac:(lia)) as Hr.
  destruct (Z.lt_ge_cases (fld w chunk j) (2 ^ (w - 1))) as [ | Hge ]; [ assumption | exfalso ].
  assert (Hb : Z.testbit (fld w chunk j) (w - 1) = true).
  { rewrite testbit_top by lia. apply Z.leb_le. exact Hge. }
  rewrite fld_testbit in Hb by lia.
  destruct (Z.ltb_spec (w - 1) w); [ | lia ]. cbn [andb] in Hb.
  assert (Hz : Z.testbit (Z.land (pack w (repeat (2 ^ (w - 1)) (chunk_fields w))) chunk)
                         (w * j + (w - 1)) = true).
  { rewrite Z.land_spec, Hb, high_bits_testbit by (try exact Hw; nia).
    destruct (div_mod_top w j Hw0 ltac:(lia)) as [-> ->].
    rewrite Z.eqb_refl. destruct (Z.ltb_spec j (64 / w)); [ reflexivity | lia ]. }
  rewrite Hl, Z.testbit_0_l in Hz. discriminate.
Qed.

Lemma magic_pack w c :
  trick_width w -> 0 <= c < 2 ^ w ->
  to_size_t (ones64 / no0 (width_mask w) * c) = pack w (repeat c (chunk_fields w)).
Proof.
  intros Hw Hc. destruct (trick_width_facts w Hw) as (Hw0 & Hn & Hdiv).
  rewrite ones64_div_mask, Z.mul_comm, <- pack_repeat by exact Hw.
  apply to_size_t_small.
  pose proof (pack_range w (repeat c (chunk_fields w)) ltac:(lia)) as Hr.
  rewrite repeat_length, Hn in Hr. apply Hr. apply Forall_repeat. exact Hc.
Qed.

(** [find_gtlt_fast<gt = true>]: the word [m] flags, at the top bit of every
    field, the elements greater than [value]. *)
Lemma gtlt_fast_flags pf w a p value :
  trick_width w -> 2 <= w -> 0 <= p -> p mod 8 = 0 ->
  0 <= value <= 2 ^ (w - 1) - 2 ->
  Z.land (to_size_t (Z.shiftl (lower_bits w) (no0 w - 1))) (read_chunk a p) = 0 ->
  let chunk := read_chunk a p in
  let magic := to_size_t (find_gtlt_magic true w value) in
  let m := Z.land (Z.lor (to_size_t (chunk + magic)) chunk)
                  (to_size_t (ones64 / no0 (width_mask w)
                              * to_size_t (Z.shiftr (width_mask w) 1 + 1))) in
  0 <= m < 2 ^ 64 /\
  forall q, 0 <= q < 64 ->
    Z.testbit m q = (q mod w =? w - 1) && rel_pred pf true w a value (8 * p / w + q / w).
Proof.
  intros Hw Hw2 Hp Hal Hv Hup. cbv zeta.
  destruct (trick_width_facts w Hw) as (Hw0 & Hn & Hdiv).
  destruct (high_bits_upper w Hw) as (Hup1 & Hup2 & Hm2).
  pose proof (trick_width_le w Hw) as Hw16.
  rewrite Hup1 in Hup. rewrite Hup2.
  pose proof (read_chunk_range a p) as Hcr.
  set (chunk := read_chunk a p) in *.
  assert (Hhalf : 2 ^ w = 2 * 2 ^ (w - 1)).
  { replace w with (1 + (w - 1)) at 1 by lia. rewrite Z.pow_add_r by lia. reflexivity. }
  assert (Hpw : 0 < 2 ^ (w - 1)) by (apply Z.pow_pos_nonneg; lia).
  assert (Hpw15 : 2 ^ (w - 1) <= 32768) by (apply (Z.pow_le_mono_r 2 (w - 1) 15); lia).
  set (c := 2 ^ (w - 1) - 1 - value).
  assert (Hmagic : to_size_t (find_gtlt_magic true w value) = pack w (repeat c (chunk_fields w))).
  { unfold find_gtlt_magic. cbv zeta. rewrite to_size_t_to_int64, Hm2, to_size_t_idem.
    rewrite (to_size_t_small value) by (rewrite two_p_64; lia).
    rewrite (to_size_t_small (2 ^ (w - 1) - 1 - value)) by (rewrite two_p_64; lia).
    apply magic_pack; [ exact Hw | unfold c; lia ]. }
  rewrite Hmagic.
  set (fs := fields_from w (chunk_fields w) chunk 0).
  assert (Hchunk : chunk = pack w fs)
    by (symmetry; apply pack_fields; [ lia | rewrite Hn; exact Hcr ]).
  assert (Hsum : chunk + pack w (repeat c (chunk_fields w)) = pack w (map (fun f => f + c) fs)).
  { rewrite pack_map_add, <- Hchunk, pack_repeat. unfold fs. rewrite fields_from_length. reflexivity. }
  assert (Hin : Forall (in_field w) (map (fun f => f + c) fs)).
  { apply Forall_forall. intros g Hg. apply in_map_iff in Hg. destruct Hg as (f & <- & Hf).
    apply In_nth with (d := 0) in Hf. destruct Hf as (k & Hk & <-).
    unfold fs in *. rewrite fields_from_length in Hk. rewrite fields_from_nth by exact Hk.
    pose proof (fld_range w chunk (0 + Z.of_nat k) ltac:(lia)).
    pose proof (top_clear w chunk (0 + Z.of_nat k) Hw Hup ltac:(lia)).
    unfold in_field, c. lia. }
  rewrite Hsum.
  rewrite (to_size_t_small (pack w (map (fun f => f + c) fs))).
  2:{ pose proof (pack_range w _ ltac:(lia) Hin) as Hr.
      unfold fs in Hr. rewrite length_map, fields_from_length, Hn in Hr. exact Hr. }
  split.
  { rewrite Z.land_comm. apply land_range; [ lia | ].
    pose proof (pack_range w (repeat (2 ^ (w - 1)) (chunk_fields w)) ltac:(lia)) as Hr.
    rewrite repeat_length, Hn in Hr. apply Hr. apply Forall_repeat. unfold in_field. lia. }
  intros q Hq. rewrite Z.land_spec, Z.lor_spec, high_bits_testbit by (try exact Hw; lia).
  assert (Hqw : 0 <= q / w) by (apply Z.div_pos; lia).
  assert (Hqn : q / w < 64 / w) by (rewrite Hdiv; apply Z.div_lt_upper_bound; lia).
  destruct (Z.ltb_spec (q / w) (64 / w)); [ | lia ]. cbn [andb].
  destruct (Z.eqb_spec (q mod w) (w - 1)) as [Hm | Hm]; [ | apply andb_false_r ].
  rewrite andb_true_r.
  rewrite (testbit_by_field w _ q), (testbit_by_field w chunk q) by lia. rewrite Hm.
  rewrite <- (Z2Nat.id (q / w)) at 1 by lia.
  rewrite fld_pack by (try lia; try exact Hin; unfold fs; rewrite length_map, fields_from_length; lia).
  rewrite (nth_map_in _ _ _ 0) by (unfold fs; rewrite fields_from_length; lia).
  unfold fs. rewrite fields_from_nth by lia. rewrite Z2Nat.id, Z.add_0_l by lia.
  pose proof (fld_range w chunk (q / w) ltac:(lia)) as Hf.
  pose proof (top_clear w chunk (q / w) Hw Hup ltac:(lia)) as Htop.
  rewrite !testbit_top by (unfold c; lia).
  assert (Hget : get pf w a (8 * p / w + q / w) = fld w chunk (q / w)).
  { unfold chunk. rewrite chunk_fld by (try lia; try nia; apply chunk_align; assumption).
    assert (0 <= 8 * p / w) by (apply Z.div_pos; lia).
    destruct Hw as [-> | [-> | [-> | [-> | ->]]]]; try lia;
      [ apply get_unsigned; [ tauto | lia ] | apply get_unsigned; [ tauto | lia ]
      | rewrite get_signed by (try tauto; lia) | rewrite get_signed by (try tauto; lia) ];
      apply to_signed_small; try lia;
      unfold chunk in Htop, Hf; rewrite chunk_fld in Htop, Hf
        by (try lia; try nia; apply (chunk_align _ p); try assumption; unfold trick_width; tauto);
      lia. }
  unfold rel_pred. rewrite Hget. unfold c.
  destruct (Z.leb_spec (2 ^ (w - 1)) (fld w chunk (q / w) + (2 ^ (w - 1) - 1 - value)));
    destruct (Z.leb_spec (2 ^ (w - 1)) (fld w chunk (q / w)));
    destruct (Z.gtb_spec (fld w chunk (q / w)) value); try reflexivity; lia.
Qed.

(** [Less] never meets the condition of the fast path: the low field of its
    magic word is [value] itself. *)
Lemma lt_no_fast w value :
  trick_width w ->
  negb (value =? to_int64 (Z.land (to_size_t (find_gtlt_magic false w value)) (width_mask w)))
  && (value >=? 0) && (w >=? 2)
  && (value <=? to_int64 (to_size_t (Z.shiftr (width_mask w) 1 - 0))) = false.
Proof.
  intros Hw. destruct (trick_width_facts w Hw) as (Hw0 & Hn & Hdiv).
  destruct (high_bits_upper w Hw) as (_ & _ & Hm2).
  pose proof (trick_width_le w Hw) as Hw16.
  rewrite Hm2, Z.sub_0_r.
  assert (Hpw : 0 < 2 ^ (w - 1)) by (apply Z.pow_pos_nonneg; lia).
  assert (Hpw' : 2 ^ (w - 1) <= 32768) by (apply (Z.pow_le_mono_r 2 (w - 1) 15); lia).
  assert (Hhalf : 2 ^ w = 2 * 2 ^ (w - 1)).
  { replace w with (1 + (w - 1)) at 1 by lia. rewrite Z.pow_add_r by lia. reflexivity. }
  rewrite (to_size_t_small (2 ^ (w - 1) - 1)) by (rewrite two_p_64; lia).
  rewrite (to_int64_small (2 ^ (w - 1) - 1)) by (rewrite two_p_63; lia).
  destruct (Z.geb_spec value 0) as [Hv0 | ]; [ | rewrite andb_false_r; reflexivity ].
  destruct (Z.leb_spec value (2 ^ (w - 1) - 1)) as [Hv1 | ]; [ | apply andb_false_r ].
  replace (to_int64 (Z.land (to_size_t (find_gtlt_magic false w value)) (width_mask w)))
    with value; [ rewrite Z.eqb_refl; reflexivity | ].
  unfold find_gtlt_magic. cbv zeta. rewrite to_size_t_to_int64, to_size_t_idem.
  rewrite (to_size_t_small value) by (rewrite two_p_64; lia).
  rewrite magic_pack by (try exact Hw; lia).
  rewrite width_mask_trick, ones_minus, Z.land_ones by (try exact Hw; lia).
  assert (Hf : fld w (pack w (repeat value (chunk_fields w))) (Z.of_nat 0) = value).
  { rewrite fld_pack by (try lia; try (rewrite repeat_length; lia);
                         apply Forall_repeat; unfold in_field; lia).
    apply nth_repeat_lt. lia. }
  unfold fld, slice in Hf. change (Z.of_nat 0) with 0 in Hf.
  rewrite Z.mul_0_r, Z.pow_0_r, Z.div_1_r in Hf. rewrite Hf.
  symmetry. apply to_int64_small. rewrite two_p_63. lia.
Qed.

Lemma testbit_beyond m q : 0 <= m < 2 ^ 64 -> 64 <= q -> Z.testbit m q = false.
Proof.
  intros Hm Hq. rewrite <- (Z.mod_small m (2 ^ 64)) by exact Hm.
  apply Z.mod_pow2_bits_high. lia.
Qed.

Lemma shiftr_beyond m c : 0 <= m < 2 ^ 64 -> 64 <= c -> Z.shiftr m c = 0.
Proof.
  intros Hm Hc. rewrite Z.shiftr_div_pow2 by lia. apply Z.div_small.
  assert (2 ^ 64 <= 2 ^ c) by (apply Z.pow_le_mono_r; lia). lia.
Qed.

Lemma mod_add_mul q w p : 0 < w -> (q + w * p) mod w = q mod w /\ (q + w * p) / w = q / w + p.
Proof.
  intros Hw. rewrite (Z.mul_comm w p). split; [ apply Z.mod_add | apply Z.div_add ]; lia.
Qed.

(** The condition of a search on element [i]: [c(get(i), value)]. *)
Definition holds (pf : Platform) (cd : Cond) (w : Z) (a : Array) (value : Z) (i : Z) : bool :=
  cond_c cd (get pf w a i) value.

(** What [compare_leafs] tests at index [i]: the element of this leaf against
    the element of the foreign leaf. *)
Definition holds_leafs (pf : Platform) (cd : Cond) (w fw : Z) (a foreign : Array) (i : Z)
  : bool :=
  cond_c cd (get pf w a i) (get pf fw foreign i).

(** *** Vectors *)

Lemma m128_build_testbit bits n f :
  0 < bits -> (forall e, 0 <= f e < 2 ^ bits) ->
  forall e0 q, 0 <= q ->
    Z.testbit (m128_build bits n f e0) q
    = (q / bits <? Z.of_nat n) && Z.testbit (f (e0 + q / bits)) (q mod bits).
Proof.
  intros Hb Hf. induction n as [ | n IH ]; intros e0 q Hq.
  - cbn [m128_build]. rewrite Z.testbit_0_l.
    assert (0 <= q / bits) by (apply Z.div_pos; lia).
    destruct (Z.ltb_spec (q / bits) (Z.of_nat 0)); [ lia | reflexivity ].
  - cbn [m128_build]. rewrite testbit_add_shift by (try lia; apply Hf).
    destruct (Z.ltb_spec q bits) as [Hlow | Hhigh].
    + rewrite Z.div_small, Z.mod_small, Z.add_0_r by lia.
      destruct (Z.ltb_spec 0 (Z.of_nat (S n))); [ reflexivity | lia ].
    + rewrite IH by lia.
      replace (q / bits) with ((q - bits) / bits + 1)
        by (replace q with (q - bits + 1 * bits) at 2 by lia; rewrite Z.div_add by lia; lia).
      replace (q mod bits) with ((q - bits) mod bits)
        by (replace q with (q - bits + 1 * bits) at 2 by lia; rewrite Z.mod_add by lia; lia).
      replace (e0 + 1 + (q - bits) / bits) with (e0 + ((q - bits) / bits + 1)) by lia.
      f_equal.
      destruct (Z.ltb_spec ((q - bits) / bits) (Z.of_nat n)),
               (Z.ltb_spec ((q - bits) / bits + 1) (Z.of_nat (S n))); try reflexivity; lia.
Qed.

Lemma m128_build_range bits n f :
  0 < bits -> (forall e, 0 <= f e < 2 ^ bits) ->
  forall e0, 0 <= m128_build bits n f e0 < 2 ^ (bits * Z.of_nat n).
Proof.
  intros Hb Hf. induction n as [ | n IH ]; intros e0.
  - cbn [m128_build]. rewrite Z.mul_0_r. change (2 ^ 0) with 1. lia.
  - cbn [m128_build]. specialize (IH (e0 + 1)). specialize (Hf e0).
    replace (bits * Z.of_nat (S n)) with (bits + bits * Z.of_nat n) by lia.
    rewrite Z.pow_add_r by nia. nia.
Qed.

Lemma m128_lane_slice bits x e : 0 <= bits -> 0 <= e -> m128_lane bits x e = slice x (bits * e) bits.
Proof. intros Hb He. unfold m128_lane. apply slice_land_shiftr; nia. Qed.

Lemma m128_lane_build bits n f e :
  0 < bits -> (forall e, 0 <= f e < 2 ^ bits) -> 0 <= e < Z.of_nat n ->
  m128_lane bits (m128_build bits n f 0) e = f e.
Proof.
  intros Hb Hf He. rewrite m128_lane_slice by lia.
  apply Z.bits_inj'. intros k Hk. rewrite slice_testbit by nia.
  destruct (Z.ltb_spec k bits) as [Hlt | Hge].
  - cbn [andb]. rewrite m128_build_testbit by (try assumption; nia).
    replace ((bits * e + k) / bits) with e by (apply Z.div_unique with k; lia).
    replace ((bits * e + k) mod bits) with k by (apply Z.mod_unique with e; lia).
    destruct (Z.ltb_spec e (Z.of_nat n)); [ reflexivity | lia ].
  - cbn [andb]. symmetry. rewrite <- (Z.mod_small (f e) (2 ^ bits)) by apply Hf.
    apply Z.mod_pow2_bits_high. lia.
Qed.

Lemma movemask_testbit x b :
  0 <= b -> Z.testbit (mm_movemask_epi8 x) b = (b <? 16) && Z.testbit x (8 * b + 7).
Proof.
  intros Hb. unfold mm_movemask_epi8.
  rewrite m128_build_testbit by (try lia; intros e; destruct (Z.testbit x (8 * e + 7)); cbn; lia).
  rewrite Z.div_1_r, Z.mod_1_r, Z.add_0_l. change (Z.of_nat 16) with 16.
  destruct (b <? 16); [ | reflexivity ]. cbn [andb].
  destruct (Z.testbit x (8 * b + 7)); reflexivity.
Qed.

Lemma movemask_range x : 0 <= mm_movemask_epi8 x < 2 ^ 16.
Proof.
  unfold mm_movemask_epi8.
  apply (m128_build_range 1 16 (fun j => Z.b2z (Z.testbit x (8 * j + 7)))); [ lia | ].
  intros e. destruct (Z.testbit x (8 * e + 7)); cbn; lia.
Qed.

Lemma mm_cmp_testbit rel bits x y q :
  0 < bits -> 0 <= q < 128 -> 128 mod bits = 0 ->
  Z.testbit (mm_cmp rel bits x y) q
  = rel (to_signed bits (m128_lane bits x (q / bits)))
        (to_signed bits (m128_lane bits y (q / bits))).
Proof.
  intros Hb Hq Hdiv. unfold mm_cmp.
  assert (Hpw : 0 < 2 ^ bits) by (apply Z.pow_pos_nonneg; lia).
  rewrite m128_build_testbit; try lia.
  2:{ intros e. destruct (rel _ _); lia. }
  rewrite Z.add_0_l. rewrite Z2Nat.id by (apply Z.div_pos; lia).
  assert (q / bits < 128 / bits).
  { apply Z.div_lt_upper_bound; [ lia | ].
    pose proof (Z.div_mod 128 bits ltac:(lia)). lia. }
  destruct (Z.ltb_spec (q / bits) (128 / bits)); [ | lia ]. cbn [andb].
  pose proof (Z.mod_pos_bound q bits Hb).
  destruct (rel _ _).
  - rewrite ones_minus. apply Z.ones_spec_low. lia.
  - apply Z.testbit_0_l.
Qed.

(** The widths the vector code is used for. *)
Definition byte_width (w : Z) : Prop := w = 8 \/ w = 16 \/ w = 32 \/ w = 64.

(** A lane of the vector loaded from the payload is the element stored there. *)
Lemma loaded_lane pf w a ad i e :
  byte_width w -> 0 <= ad -> (8 * ad) mod w = 0 -> 0 <= i -> 0 <= e < 128 / w ->
  to_signed w (m128_lane w (load_le (m_data a) (ad + 16 * i) 16) e)
  = get pf w a (8 * ad / w + i * (128 / w) + e).
Proof.
  intros Hw Had Hal Hi He.
  assert (Hw0 : 0 < w) by (destruct Hw as [-> | [-> | [-> | ->]]]; lia).
  assert (H128 : w * (128 / w) = 128) by (destruct Hw as [-> | [-> | [-> | ->]]]; reflexivity).
  assert (0 <= 8 * ad / w) by (apply Z.div_pos; lia).
  rewrite get_signed by (try exact Hw; nia).
  rewrite m128_lane_slice, load_le_slice by lia. change (8 * Z.of_nat 16) with 128.
  rewrite slice_slice by nia. unfold packed_field. do 2 f_equal.
  pose proof (Z.div_mod (8 * ad) w ltac:(lia)). nia.
Qed.

Lemma set1_lane w value e :
  byte_width w -> - 2 ^ (w - 1) <= value < 2 ^ (w - 1) -> 0 <= e < 128 / w ->
  to_signed w (m128_lane w (mm_set1 w value) e) = value.
Proof.
  intros Hw Hv He.
  assert (Hw0 : 0 < w) by (destruct Hw as [-> | [-> | [-> | ->]]]; lia).
  unfold mm_set1.
  rewrite (m128_lane_build w _ (fun _ => value mod 2 ^ w))
    by (try lia; intros; apply Z.mod_pos_bound; apply Z.pow_pos_nonneg; lia).
  rewrite to_signed_of_mod by lia. apply to_signed_small; assumption.
Qed.

Lemma byte_group w b :
  byte_width w -> 0 <= b < 16 -> (8 * b + 7) / w = b / (w / 8) /\ 0 <= b / (w / 8) < 128 / w.
Proof.
  intros Hw Hb. destruct Hw as [-> | [-> | [-> | ->]]];
    [ change (8 / 8) with 1; change (128 / 8) with 16
    | change (16 / 8) with 2; change (128 / 16) with 8
    | change (32 / 8) with 4; change (128 / 32) with 4
    | change (64 / 8) with 8; change (128 / 64) with 2 ]; lia_div.
Qed.

(** The mask [find_sse_intern] walks: one bit per byte of the vector, set
    where the element the byte belongs to satisfies the condition. *)
Lemma sse_flags pf cd w a ad i value cr :
  cd = Equal \/ cd = NotEqual \/ cd = Greater \/ cd = Less ->
  byte_width w -> (cd = Less -> w <> 64) ->
  0 <= ad -> (8 * ad) mod w = 0 -> 0 <= i ->
  - 2 ^ (w - 1) <= value < 2 ^ (w - 1) ->
  exists cr',
    sse_compare cd w cr (load_le (m_data a) (ad + 16 * i) 16) (mm_set1 w value) = Some cr' /\
    let resmask := mm_movemask_epi8 cr' in
    let resmask := if is_same cd cond_NotEqual
                   then Z.land (Z.lxor resmask 0xFFFFFFFF) 0x0000ffff else resmask in
    0 <= resmask < 2 ^ 16 /\
    forall b, 0 <= b < 16 ->
      Z.testbit resmask b = holds pf cd w a value (8 * ad / w + i * (128 / w) + b / (w / 8)).
Proof.
  intros Hcd Hw Hless Had Hal Hi Hv.
  assert (Hw0 : 0 < w) by (destruct Hw as [-> | [-> | [-> | ->]]]; lia).
  assert (H128 : 128 mod w = 0) by (destruct Hw as [-> | [-> | [-> | ->]]]; reflexivity).
  assert (Hbit : forall rel b, 0 <= b < 16 ->
            Z.testbit (mm_movemask_epi8
                         (mm_cmp rel w (load_le (m_data a) (ad + 16 * i) 16) (mm_set1 w value))) b
            = rel (get pf w a (8 * ad / w + i * (128 / w) + b / (w / 8))) value).
  { intros rel b Hb. rewrite movemask_testbit by lia.
    destruct (Z.ltb_spec b 16); [ | lia ]. cbn [andb].
    rewrite mm_cmp_testbit by (try assumption; lia).
    destruct (byte_group w b Hw Hb) as [-> Hgr].
    rewrite (loaded_lane pf), set1_lane by assumption. reflexivity. }
  destruct Hcd as [-> | [-> | [-> | ->]]].
  - exists (mm_cmp Z.eqb w (load_le (m_data a) (ad + 16 * i) 16) (mm_set1 w value)).
    split; [ destruct Hw as [-> | [-> | [-> | ->]]]; reflexivity | ].
    cbv zeta. change (is_same Equal cond_NotEqual) with false. cbv iota.
    split; [ apply movemask_range | ]. intros b Hb. rewrite Hbit by exact Hb. reflexivity.
  - exists (mm_cmp Z.eqb w (load_le (m_data a) (ad + 16 * i) 16) (mm_set1 w value)).
    split; [ destruct Hw as [-> | [-> | [-> | ->]]]; reflexivity | ].
    cbv zeta. change (is_same NotEqual cond_NotEqual) with true. cbv iota.
    split.
    { rewrite Z.land_comm. apply land_range; [ lia | ]. change (2 ^ 16) with 65536. lia. }
    intros b Hb. rewrite Z.land_spec, Z.lxor_spec, Hbit by exact Hb.
    change 0xFFFFFFFF with (Z.ones 32). change 0x0000ffff with (Z.ones 16).
    rewrite !Z.ones_spec_low by lia.
    change (holds pf NotEqual w a value (8 * ad / w + i * (128 / w) + b / (w / 8)))
      with (negb (get pf w a (8 * ad / w + i * (128 / w) + b / (w / 8)) =? value)).
    destruct (get pf w a (8 * ad / w + i * (128 / w) + b / (w / 8)) =? value); reflexivity.
  - exists (mm_cmp Z.gtb w (load_le (m_data a) (ad + 16 * i) 16) (mm_set1 w value)).
    split; [ destruct Hw as [-> | [-> | [-> | ->]]]; reflexivity | ].
    cbv zeta. change (is_same Greater cond_NotEqual) with false. cbv iota.
    split; [ apply movemask_range | ]. intros b Hb. rewrite Hbit by exact Hb. reflexivity.
  - exists (mm_cmp Z.ltb w (load_le (m_data a) (ad + 16 * i) 16) (mm_set1 w value)).
    split; [ destruct Hw as [-> | [-> | [-> | ->]]]; try reflexivity;
             exfalso; apply Hless; reflexivity | ].
    cbv zeta. change (is_same Less cond_NotEqual) with false. cbv iota.
    split; [ apply movemask_range | ]. intros b Hb. rewrite Hbit by exact Hb. reflexivity.
Qed.

(** The same mask when the second operand is any vector whose lanes are known:
    the case of [compare_leafs_4], which compares two payloads. *)
Lemma sse_flags_vec pf cd w a ad i y (fy : Z -> Z) cr :
  cd = Equal \/ cd = NotEqual \/ cd = Greater \/ cd = Less ->
  byte_width w -> (cd = Less -> w <> 64) ->
  0 <= ad -> (8 * ad) mod w = 0 -> 0 <= i ->
  (forall e, 0 <= e < 128 / w -> to_signed w (m128_lane w y e) = fy e) ->
  exists cr',
    sse_compare cd w cr (load_le (m_data a) (ad + 16 * i) 16) y = Some cr' /\
    let resmask := mm_movemask_epi8 cr' in
    let resmask := if is_same cd cond_NotEqual
                   then Z.land (Z.lxor resmask 0xFFFFFFFF) 0x0000ffff else resmask in
    0 <= resmask < 2 ^ 16 /\
    forall b, 0 <= b < 16 ->
      Z.testbit resmask b
      = cond_c cd (get pf w a (8 * ad / w + i * (128 / w) + b / (w / 8))) (fy (b / (w / 8))).
Proof.
  intros Hcd Hw Hless Had Hal Hi Hy.
  assert (Hw0 : 0 < w) by (destruct Hw as [-> | [-> | [-> | ->]]]; lia).
  assert (H128 : 128 mod w = 0) by (destruct Hw as [-> | [-> | [-> | ->]]]; reflexivity).
  assert (Hbit : forall rel b, 0 <= b < 16 ->
            Z.testbit (mm_movemask_epi8
                         (mm_cmp rel w (load_le (m_data a) (ad + 16 * i) 16) y)) b
            = rel (get pf w a (8 * ad / w + i * (128 / w) + b / (w / 8))) (fy (b / (w / 8)))).
  { intros rel b Hb. rewrite movemask_testbit by lia.
    destruct (Z.ltb_spec b 16); [ | lia ]. cbn [andb].
    rewrite mm_cmp_testbit by (try assumption; lia).
    destruct (byte_group w b Hw Hb) as [-> Hgr].
    rewrite (loaded_lane pf), Hy by assumption. reflexivity. }
  destruct Hcd as [-> | [-> | [-> | ->]]].
  - exists (mm_cmp Z.eqb w (load_le (m_data a) (ad + 16 * i) 16) y).
    split; [ destruct Hw as [-> | [-> | [-> | ->]]]; reflexivity | ].
    cbv zeta. change (is_same Equal cond_NotEqual) with false. cbv iota.
    split; [ apply movemask_range | ]. intros b Hb. rewrite Hbit by exact Hb. reflexivity.
  - exists (mm_cmp Z.eqb w (load_le (m_data a) (ad + 16 * i) 16) y).
    split; [ destruct Hw as [-> | [-> | [-> | ->]]]; reflexivity | ].
    cbv zeta. change (is_same NotEqual cond_NotEqual) with true. cbv iota.
    split.
    { rewrite Z.land_comm. apply land_range; [ lia | ]. change (2 ^ 16) with 65536. lia. }
    intros b Hb. rewrite Z.land_spec, Z.lxor_spec, Hbit by exact Hb.
    change 0xFFFFFFFF with (Z.ones 32). change 0x0000ffff with (Z.ones 16).
    rewrite !Z.ones_spec_low by lia.
    change (cond_c NotEqual (get pf w a (8 * ad / w + i * (128 / w) + b / (w / 8)))
                   (fy (b / (w / 8))))
      with (negb (get pf w a (8 * ad / w + i * (128 / w) + b / (w / 8)) =? fy (b / (w / 8)))).
    destruct (get pf w a (8 * ad / w + i * (128 / w) + b / (w / 8)) =? fy (b / (w / 8)));
      reflexivity.
  - exists (mm_cmp Z.gtb w (load_le (m_data a) (ad + 16 * i) 16) y).
    split; [ destruct Hw as [-> | [-> | [-> | ->]]]; reflexivity | ].
    cbv zeta. change (is_same Greater cond_NotEqual) with false. cbv iota.
    split; [ apply movemask_range | ]. intros b Hb. rewrite Hbit by exact Hb. reflexivity.
  - exists (mm_cmp Z.ltb w (load_le (m_data a) (ad + 16 * i) 16) y).
    split; [ destruct Hw as [-> | [-> | [-> | ->]]]; try reflexivity;
             exfalso; apply Hless; reflexivity | ].
    cbv zeta. change (is_same Less cond_NotEqual) with false. cbv iota.
    split; [ apply movemask_range | ]. intros b Hb. rewrite Hbit by exact Hb. reflexivity.
Qed.

Lemma byte_width_facts w :
  byte_width w ->
  0 < w / 8 /\ w = 8 * (w / 8) /\ (w / 8) * (128 / w) = 16 /\ trick_width (w / 8) /\
  no0 w = w /\ no0 (w / 8) = w / 8 /\
  (forall x, x * 8 / w = x / (w / 8)) /\ (forall x, x * w / 8 = x * (w / 8)) /\
  (forall x, x * 16 * 8 / w = x * (128 / w)) /\ 0 < 128 / w <= 16.
Proof.
  intros [-> | [-> | [-> | ->]]];
    [ change (8 / 8) with 1; change (128 / 8) with 16
    | change (16 / 8) with 2; change (128 / 16) with 8
    | change (32 / 8) with 4; change (128 / 32) with 4
    | change (64 / 8) with 8; change (128 / 64) with 2 ];
    (repeat split; try reflexivity; try lia; try (unfold trick_width; tauto);
     intros x; lia_div).
Qed.

Lemma testbit_above_16 m q : 0 <= m < 2 ^ 16 -> 16 <= q -> Z.testbit m q = false.
Proof.
  intros Hm Hq. rewrite <- (Z.mod_small m (2 ^ 16)) by exact Hm.
  apply Z.mod_pow2_bits_high. lia.
Qed.

(** *** Pruning by the bounds of the width *)

(** The conditions the kernel dispatches on. *)
Definition four_conds (cd : Cond) : Prop :=
  cd = Equal \/ cd = NotEqual \/ cd = Greater \/ cd = Less.

Ltac cases_cmp :=
  repeat match goal with
         | H : context [?a =? ?b] |- _ => destruct (Z.eqb_spec a b)
         | H : context [?a <? ?b] |- _ => destruct (Z.ltb_spec a b)
         | H : context [?a >? ?b] |- _ => destruct (Z.gtb_spec a b)
         | H : context [?a <=? ?b] |- _ => destruct (Z.leb_spec a b)
         | H : context [?a >=? ?b] |- _ => destruct (Z.geb_spec a b)
         | |- context [?a =? ?b] => destruct (Z.eqb_spec a b)
         | |- context [?a <? ?b] => destruct (Z.ltb_spec a b)
         | |- context [?a >? ?b] => destruct (Z.gtb_spec a b)
         | |- context [?a <=? ?b] => destruct (Z.leb_spec a b)
         | |- context [?a >=? ?b] => destruct (Z.geb_spec a b)
         end;
  cbn [andb orb negb] in *; try discriminate; try reflexivity; try lia.

Lemma can_match_false cd value lb ub x :
  four_conds cd -> can_match cd value lb ub = false -> lb <= x <= ub ->
  cond_c cd x value = false.
Proof.
  intros [-> | [-> | [-> | ->]]] Hc Hx; unfold cond_c; cbn in *; cases_cmp.
Qed.

Lemma will_match_true cd value lb ub x :
  four_conds cd -> will_match cd value lb ub = true -> lb <= x <= ub ->
  cond_c cd x value = true.
Proof.
  intros [-> | [-> | [-> | ->]]] Hc Hx; unfold cond_c; cbn in *; cases_cmp.
Qed.

Lemma neither_in_range cd value lb ub :
  four_conds cd -> can_match cd value lb ub = true -> will_match cd value lb ub = false ->
  lb <= ub -> lb <= value <= ub.
Proof.
  intros [-> | [-> | [-> | ->]]] Hc Hw Hb; cbn in *; cases_cmp.
Qed.

Lemma neither_nonzero cd value :
  four_conds cd -> can_match cd value 0 0 = true -> will_match cd value 0 0 = true.
Proof.
  intros [-> | [-> | [-> | ->]]] Hc; cbn in *; cases_cmp.
Qed.

Lemma get_bounds0 pf w a i :
  w = 0 \/ width_ok w -> 0 <= i -> lbound_for_width w <= get pf w a i <= ubound_for_width w.
Proof.
  intros [-> | Hw] Hi; [ | apply get_bounds; assumption ].
  change (get pf 0 a i) with 0. change (lbound_for_width 0) with 0.
  change (ubound_for_width 0) with 0. lia.
Qed.

Lemma bounds_ordered w : w = 0 \/ width_ok w -> lbound_for_width w <= ubound_for_width w.
Proof.
  intros Hw. pose proof (get_bounds0 (mkPlatform false false false false false) w
                           (mkArray [] 0 w 0 0 0) 0 Hw ltac:(lia)). lia.
Qed.

Lemma byte_width_bounds w :
  byte_width w -> lbound_for_width w = - 2 ^ (w - 1) /\ ubound_for_width w = 2 ^ (w - 1) - 1.
Proof. intros [-> | [-> | [-> | ->]]]; split; reflexivity. Qed.

(** The three parts of a search with vectors: the elements before the first
    16-byte boundary, whole vectors, the elements after the last boundary. *)
Lemma sse_split w addr start2 end_ :
  byte_width w -> 0 <= addr -> addr mod 8 = 0 -> 0 <= start2 -> 16 <= end_ - start2 ->
  let a_ := round_up (addr + start2 * w / 8) 16 in
  let b_ := round_down (addr + end_ * w / 8) 16 in
  0 <= a_ - addr /\ (8 * (a_ - addr)) mod w = 0 /\
  (a_ - addr) * 8 / no0 w = 8 * (a_ - addr) / w /\
  start2 <= 8 * (a_ - addr) / w /\
  a_ <= b_ /\ 0 <= (b_ - a_) / 16 /\
  (b_ - addr) * 8 / no0 w = 8 * (a_ - addr) / w + (b_ - a_) / 16 * (128 / w) /\
  (b_ - addr) * 8 / no0 w <= end_.
Proof.
  intros Hw Haddr Hal Hs Hlen. cbv zeta. unfold round_up, round_down.
  destruct Hw as [-> | [-> | [-> | ->]]];
    [ change (no0 8) with 8; change (128 / 8) with 16
    | change (no0 16) with 16; change (128 / 16) with 8
    | change (no0 32) with 32; change (128 / 32) with 4
    | change (no0 64) with 64; change (128 / 64) with 2 ];
    match goal with
    | |- context [?x mod 16 =? 0] => destruct (Z.eqb_spec (x mod 16) 0)
    end; lia_div.
Qed.
(** A run of the kernel over the indices [s], ..., [e - 1] is compared with the
    naive scan of the same indices in a second world.  [R i] relates the two
    worlds when both have dealt with every index below [i]. *)
Section Simulation.

Context {C W2 : Type}.
Variable callback : Z -> C -> bool * C.
Variable action : Action.
Variable baseindex : Z.
Variable report : Z -> W2 -> bool * W2.
Variable R : Z -> World C -> W2 -> Prop.
Variable Rstop : World C -> W2 -> Prop.
Variable imax : Z.

(** The state declines every pattern. *)
Definition declines (w : World C) : Prop :=
  forall idx p, find_action_pattern action callback idx p w = (false, w).

(** The state consumes every pattern, and doing so amounts to per-element
    delivery of as many matches as the pattern has bits set, none of which
    stops the search. *)
Definition consumes (i : Z) (w1 : World C) (w2 : W2) : Prop :=
  forall idx p js n,
    Z.of_nat (length js) = fast_popcount64 p ->
    Z.of_nat (length js) <= n ->
    i + n <= imax ->
    exists w1' w2',
      find_action_pattern action callback idx p w1 = (true, w1') /\
      report_all report js w2 = (true, w2') /\
      R (i + n) w1' w2'.

Hypothesis R_mono : forall i j w1 w2, i <= j -> R i w1 w2 -> R j w1 w2.

(** A report to the kernel's state and the report of the same index to the
    scan's state answer alike; the states stay related while the search goes
    on, and end up related by [Rstop] when it is stopped. *)
Hypothesis R_step :
  forall i v w1 w2,
    0 <= i < imax -> R i w1 w2 ->
    fst (find_action action callback (to_size_t (i + baseindex)) (Some v) w1) = fst (report i w2) /\
    (if fst (report i w2)
     then R (i + 1) (snd (find_action action callback (to_size_t (i + baseindex)) (Some v) w1))
                    (snd (report i w2))
     else Rstop (snd (find_action action callback (to_size_t (i + baseindex)) (Some v) w1))
                (snd (report i w2))).

Hypothesis R_pattern :
  forall i w1 w2, 0 <= i -> R i w1 w2 -> declines w1 \/ consumes i w1 w2.

Hypothesis declines_stable :
  forall i v w1 w2,
    0 <= i < imax -> R i w1 w2 -> declines w1 ->
    fst (find_action action callback (to_size_t (i + baseindex)) (Some v) w1) = true ->
    declines (snd (find_action action callback (to_size_t (i + baseindex)) (Some v) w1)).

(** [m] deals with the indices [s], ..., [e - 1] as the naive scan does, and
    yields [a] unless the scan stopped. *)
Definition sim {A} (m : M C A) (a : A) (pred : Z -> bool) (s e : Z) : Prop :=
  forall w1 w2,
    R s w1 w2 ->
    exists b w2',
      report_all report (matches pred s e) w2 = (b, w2') /\
      (if b then R e (snd (m w1)) w2' else Rstop (snd (m w1)) w2') /\
      fst (m w1) = (if b then Done a else ReturnFalse).

Lemma sim_skip {A} (a : A) pred s e :
  s <= e -> (forall j, s <= j < e -> pred j = false) -> sim (ret a) a pred s e.
Proof.
  intros Hse Hp w1 w2 HR. exists true, w2. rewrite matches_none by exact Hp.
  cbn. split; [ reflexivity | split; [ | reflexivity ] ].
  apply (R_mono s e); assumption.
Qed.

Lemma sim_bind {A B} (m : M C A) (f : A -> M C B) a b pred s mid e :
  s <= mid <= e ->
  sim m a pred s mid -> sim (f a) b pred mid e -> sim (bind m f) b pred s e.
Proof.
  intros Hm H1 H2 w1 w2 HR.
  destruct (H1 w1 w2 HR) as (b1 & w2a & Hrep1 & HR1 & Hres1).
  rewrite (matches_split pred s mid e) by exact Hm. rewrite report_all_app, Hrep1.
  unfold bind. destruct (m w1) as [o w1a]. cbn [fst snd] in *. subst o.
  destruct b1.
  - destruct (H2 w1a w2a HR1) as (b2 & w2b & Hrep2 & HR2 & Hres2).
    exists b2, w2b. repeat split; assumption.
  - exists false, w2a. cbn [fst snd]. repeat split. exact HR1.
Qed.

Lemma sim_check i v pred :
  0 <= i < imax -> pred i = true ->
  sim (check (find_action action callback (to_size_t (i + baseindex)) (Some v))) tt pred i (i + 1).
Proof.
  intros Hi Hp w1 w2 HR. rewrite matches_one by exact Hp. cbn [report_all].
  destruct (R_step i v w1 w2 Hi HR) as [Hr HR'].
  unfold check.
  destruct (find_action action callback (to_size_t (i + baseindex)) (Some v) w1) as [r1 w1'].
  destruct (report i w2) as [r2 w2']. cbn [fst snd] in *. subst r2.
  exists r1, w2'. destruct r1; repeat split; assumption.
Qed.

(** One test-and-report step of a scalar loop. *)
Lemma sim_test i v pred (t : bool) :
  0 <= i < imax -> t = pred i ->
  sim (if t then check (find_action action callback (to_size_t (i + baseindex)) (Some v))
       else ret tt)
      tt pred i (i + 1).
Proof.
  intros Hi ->. destruct (pred i) eqn:Hp.
  - apply sim_check; assumption.
  - apply sim_skip; [ lia | ]. intros j Hj. replace j with i by lia. exact Hp.
Qed.

Lemma sim_for_aux pred (body : Z -> M C unit) e n :
  forall s, Z.of_nat n = e - s ->
    (forall i, s <= i < e -> sim (body i) tt pred i (i + 1)) ->
    sim (while_ n (fun i => i <? e) (fun i => bind (body i) (fun _ => ret (true, i + 1))) s)
        e pred s e.
Proof.
  induction n as [ | n IH ]; intros s Hn Hb.
  - assert (s = e) by lia. subst s. cbn [while_]. rewrite Z.ltb_irrefl.
    apply sim_skip; [ lia | intros; lia ].
  - cbn [while_]. destruct (Z.ltb_spec s e) as [Hlt | Hge]; [ | lia ].
    apply (sim_bind _ _ (true, s + 1) e pred s (s + 1) e); [ lia | | ].
    + apply (sim_bind _ _ tt (true, s + 1) pred s (s + 1) (s + 1)); [ lia | apply Hb; lia | ].
      apply sim_skip; [ lia | intros; lia ].
    + cbn [fst snd]. apply IH; [ lia | ]. intros i Hi. apply Hb. lia.
Qed.

Lemma sim_for pred (body : Z -> M C unit) s e :
  s <= e ->
  (forall i, s <= i < e -> sim (body i) tt pred i (i + 1)) ->
  sim (for_ s e body) e pred s e.
Proof.
  intros Hse Hb. unfold for_. apply sim_for_aux; [ lia | exact Hb ].
Qed.

(** A loop whose body leaves the state it ends in to be determined: the loop
    [while (cond) body] deals with the indices from [k] up to wherever the
    invariant [J] places the state on exit. *)
Lemma sim_while {S} (cond : S -> bool) (body : S -> M C (bool * S))
    (J : S -> Z -> Prop) (measure : S -> nat) pred :
  (forall st k, J st k -> cond st = true ->
     exists st' k', k <= k' /\ J st' k' /\ (measure st' < measure st)%nat /\
                    sim (body st) (true, st') pred k k') ->
  forall fuel st k, J st k -> (measure st <= fuel)%nat ->
    exists final kf, k <= kf /\ J final kf /\ cond final = false /\
                     sim (while_ fuel cond body st) final pred k kf.
Proof.
  intros Hstep. induction fuel as [ | fuel IH ]; intros st k HJ Hm.
  - destruct (cond st) eqn:Hc.
    + destruct (Hstep st k HJ Hc) as (st' & k' & _ & _ & Hlt & _). lia.
    + exists st, k. repeat split; try assumption; try lia.
      cbn [while_]. rewrite Hc. apply sim_skip; [ lia | intros; lia ].
  - destruct (cond st) eqn:Hc.
    + destruct (Hstep st k HJ Hc) as (st' & k' & Hk & HJ' & Hlt & Hsim).
      destruct (IH st' k' HJ' ltac:(lia)) as (final & kf & Hkf & HJf & Hcf & Hsimf).
      exists final, kf. repeat split; try assumption; try lia.
      cbn [while_]. rewrite Hc.
      apply (sim_bind _ _ (true, st') final pred k k' kf); [ lia | exact Hsim | ].
      cbn [fst snd]. exact Hsimf.
    + exists st, k. repeat split; try assumption; try lia.
      cbn [while_]. rewrite Hc. apply sim_skip; [ lia | intros; lia ].
Qed.

(** The loops that walk the matches of one chunk.  Each round first offers the
    state a pattern; when that is declined it locates the next match, reports
    it and moves past it.  [I st k] says that state [st] stands for the
    elements from [k] on. *)
Section Iterate.

Context {S : Type}.
Variable I : S -> Z -> Prop.
Variable cond : S -> bool.
Variable pat : S -> Z.
Variable idx : S -> Z.
Variable F : S -> M C (bool * S).
Variable body : S -> M C (bool * S).
Variable pred : Z -> bool.
Variable e : Z.

Hypothesis e_le : e <= imax.

Hypothesis body_eq :
  forall st,
    body st = bind (call (find_action_pattern action callback (idx st) (pat st)))
                   (fun consumed => if consumed then ret (false, st) else F st).

Hypothesis I_range : forall st k, I st k -> 0 <= k <= e.

Hypothesis cond_false :
  forall st k, I st k -> cond st = false -> forall j, k <= j < e -> pred j = false.

Hypothesis F_step :
  forall st k, I st k -> cond st = true ->
    (exists st', F st = ret (false, st') /\ forall j, k <= j < e -> pred j = false)
    \/ (exists k' v st',
          F st = bind (check (find_action action callback (to_size_t (k' + baseindex)) (Some v)))
                      (fun _ => ret (true, st'))
          /\ k <= k' < e /\ pred k' = true
          /\ (forall j, k <= j < k' -> pred j = false)
          /\ I st' (k' + 1)).

Lemma sim_iter_declining :
  forall fuel st k, I st k -> e - k < Z.of_nat fuel ->
    forall w1 w2, R k w1 w2 -> declines w1 ->
      exists b w2',
        report_all report (matches pred k e) w2 = (b, w2') /\
        (if b then R e (snd (while_ fuel cond body st w1)) w2'
         else Rstop (snd (while_ fuel cond body st w1)) w2') /\
        (exists st', fst (while_ fuel cond body st w1) = if b then Done st' else ReturnFalse).
Proof.
  induction fuel as [ | fuel IH ]; intros st k HI Hf w1 w2 HR Hd.
  { pose proof (I_range st k HI). lia. }
  pose proof (I_range st k HI) as Hk.
  cbn [while_]. destruct (cond st) eqn:Hc.
  - assert (Hrun : (r <- body st ;;
                    if fst r then while_ fuel cond body (snd r) else ret (snd r)) w1
                   = bind (F st) (fun r => if fst r then while_ fuel cond body (snd r)
                                           else ret (snd r)) w1).
    { rewrite body_eq. unfold bind, call. rewrite (Hd (idx st) (pat st)). reflexivity. }
    rewrite Hrun. clear Hrun.
    destruct (F_step st k HI Hc) as [(st' & HF & Hnone) | (k' & v & st' & HF & Hk' & Hp & Hnone & HI')].
    + rewrite HF. cbn. rewrite matches_none by exact Hnone.
      exists true, w2. cbn [report_all]. split; [ reflexivity | split ].
      * apply (R_mono k e); [ lia | exact HR ].
      * exists st'. reflexivity.
    + rewrite HF. rewrite (matches_split pred k k' e) by lia.
      rewrite (matches_none pred k k') by exact Hnone. cbn [app].
      rewrite (matches_split pred k' (k' + 1) e) by lia.
      rewrite matches_one by exact Hp. cbn [app report_all].
      assert (HR' : R k' w1 w2) by (apply (R_mono k k'); [ lia | exact HR ]).
      destruct (R_step k' v w1 w2 ltac:(lia) HR') as [Hr HRs].
      pose proof (declines_stable k' v w1 w2 ltac:(lia) HR' Hd) as Hst.
      unfold bind, check.
      destruct (find_action action callback (to_size_t (k' + baseindex)) (Some v) w1) as [r1 w1'].
      destruct (report k' w2) as [r2 w2']. cbn [fst snd] in *. subst r2.
      destruct r1.
      * cbn [fst snd ret]. apply (IH st' (k' + 1) HI' ltac:(lia) w1' w2' HRs (Hst eq_refl)).
      * exists false, w2'. cbn [fst snd]. split; [ reflexivity | split; [ exact HRs | ] ].
        exists st. reflexivity.
  - rewrite matches_none by (apply (cond_false st k HI Hc)).
    exists true, w2. cbn. split; [ reflexivity | split ].
    + apply (R_mono k e); [ lia | exact HR ].
    + exists st. reflexivity.
Qed.

(** The whole loop, entered with the state that stands for all of the chunk,
    whose pattern has one bit per match; [x] is what the code goes on with. *)
Lemma sim_iter {X} (x : X) fuel st s :
  I st s -> e - s < Z.of_nat fuel ->
  (cond st = true -> fast_popcount64 (pat st) = Z.of_nat (length (matches pred s e))) ->
  sim (bind (while_ fuel cond body st) (fun _ => ret x)) x pred s e.
Proof.
  intros HI Hf pattern_count w1 w2 HR. pose proof (I_range st s HI) as Hs.
  destruct (cond st) eqn:Hc.
  - destruct (R_pattern s w1 w2 ltac:(lia) HR) as [Hd | Hcons].
    + destruct (sim_iter_declining fuel st s HI Hf w1 w2 HR Hd)
        as (b & w2' & Hrep & HR' & (st' & Hres)).
      exists b, w2'. unfold bind.
      destruct (while_ fuel cond body st w1) as [o w1']. cbn [fst snd] in *. subst o.
      destruct b; repeat split; assumption.
    + destruct (Hcons (idx st) (pat st) (matches pred s e) (e - s))
        as (w1' & w2' & Hpat & Hrep & HR').
      * symmetry. apply pattern_count; reflexivity.
      * apply matches_length. lia.
      * lia.
      * exists true, w2'. replace (s + (e - s)) with e in HR' by lia.
        destruct fuel as [ | fuel ]; [ lia | ].
        unfold bind at 1. cbn [while_]. rewrite Hc, body_eq.
        unfold bind, call. rewrite Hpat. cbn. repeat split; assumption.
  - exists true, w2. rewrite matches_none by (apply (cond_false st s HI Hc)).
    unfold bind. destruct fuel; cbn [while_]; rewrite Hc; cbn;
      (repeat split; [ apply (R_mono s e); [ lia | exact HR ] ]).
Qed.

End Iterate.

Lemma no0_pos w : 0 < w -> no0 w = w.
Proof. intros H. unfold no0. destruct (Z.eqb_spec w 0); [ lia | reflexivity ]. Qed.

(** The walk of [compare_equality] through one chunk [v2], whose fields stand
    for the elements from [s] on. *)
Lemma sim_zero_chunk {X} (x : X) pf (eq : bool) w (a : Array) v2 s pred :
  trick_width w -> 0 <= v2 < 2 ^ 64 -> 0 <= s -> s + 64 / w <= imax ->
  (forall j, 0 <= j < 64 / w -> zero_match eq w v2 j = pred (j + s)) ->
  sim (bind
         (while_ 66 (fun av : Z * Z => if eq then test_zero w (snd av) else negb (snd av =? 0))
            (fun av =>
               let (a', v2) := av in
               consumed <- call (find_action_pattern action callback (to_size_t (s + baseindex))
                                                      (cascade w eq v2)) ;;
               if consumed then ret (false, (a', v2))
               else
                 match find_zero eq w v2 with
                 | None => fun w => (Aborted, w)
                 | Some t =>
                     let a' := a' + t in
                     if a' >=? 64 / no0 w then ret (false, (a', v2))
                     else
                       check (find_action action callback (to_size_t (a' + s + baseindex))
                                          (Some (get pf w a (s + t)))) ;;
                       ret (true, (a' + 1, u64_shr pf v2 ((t + 1) * w)))
                 end)
            (0, v2))
         (fun _ => ret x)) x pred s (s + 64 / w).
Proof.
  intros Hw Hv2 Hs He Hpred. destruct (trick_width_facts w Hw) as (Hw0 & Hn & Hdiv).
  assert (Hn64 : 0 < 64 / w <= 64) by (rewrite Hdiv; nia).
  apply (sim_iter
           (fun (st : Z * Z) k =>
              k = fst st + s /\ 0 <= fst st <= 64 / w /\ 0 <= snd st < 2 ^ 64 /\
              forall j, 0 <= j -> fst st + j < 64 / w ->
                        fld w (snd st) j = fld w v2 (fst st + j))
           (fun av : Z * Z => if eq then test_zero w (snd av) else negb (snd av =? 0))
           (fun st => cascade w eq (snd st))
           (fun _ => to_size_t (s + baseindex))
           (fun st =>
              match find_zero eq w (snd st) with
              | None => fun w => (Aborted, w)
              | Some t =>
                  let a' := fst st + t in
                  if a' >=? 64 / no0 w then ret (false, (a', snd st))
                  else
                    check (find_action action callback (to_size_t (a' + s + baseindex))
                                       (Some (get pf w a (s + t)))) ;;
                    ret (true, (a' + 1, u64_shr pf (snd st) ((t + 1) * w)))
              end)).
  - exact He.
  - intros [a' v']. reflexivity.
  - intros [a' v'] k (Hk & Ha & _). cbn [fst snd] in *. lia.
  - (* the loop is left: no field matches any more *)
    intros [a' v'] k (Hk & Ha & Hv & Hf) Hc j Hj. cbn [fst snd] in *.
    replace j with (j - s + s) by lia. rewrite <- Hpred by lia.
    unfold zero_match. replace (j - s) with (a' + (j - s - a')) by lia.
    rewrite <- Hf by lia.
    apply (zero_match_none eq w v' Hw Hv Hc). lia.
  - (* one round *)
    intros [a' v'] k (Hk & Ha & Hv & Hf) Hc. cbn [fst snd] in *.
    destruct (zero_match_exists eq w v' Hw Hv Hc) as (j0 & Hj0 & Hm & Hlow).
    rewrite (find_zero_spec eq w v' j0) by assumption. cbv zeta.
    rewrite no0_pos by exact Hw0.
    destruct (Z.geb_spec (a' + j0) (64 / w)) as [Hbreak | Hgo].
    + left. exists (a' + j0, v'). split; [ reflexivity | ].
      intros j Hj. replace j with (j - s + s) by lia. rewrite <- Hpred by lia.
      unfold zero_match. replace (j - s) with (a' + (j - s - a')) by lia.
      rewrite <- Hf by lia. apply Hlow. lia.
    + right. exists (a' + j0 + s), (get pf w a (s + j0)),
                    (a' + j0 + 1, u64_shr pf v' ((j0 + 1) * w)).
      split; [ reflexivity | ]. split; [ lia | ]. split; [ | split ].
      * rewrite <- Hpred by lia. unfold zero_match. rewrite <- Hf by lia. exact Hm.
      * intros j Hj. replace j with (j - s + s) by lia. rewrite <- Hpred by lia.
        unfold zero_match. replace (j - s) with (a' + (j - s - a')) by lia.
        rewrite <- Hf by lia. apply Hlow. lia.
      * cbn [fst snd]. split; [ lia | ]. split; [ lia | ].
        split; [ apply u64_shr_range; [ nia | exact Hv ] | ].
        intros j Hj Hjn. rewrite u64_shr_fld by nia.
        rewrite Hf by lia. f_equal. lia.
  - cbn [fst snd]. split; [ lia | ]. split; [ lia | ]. split; [ exact Hv2 | ].
    intros j Hj _. reflexivity.
  - change (Z.of_nat 66) with 66. lia.
  - intros _. cbn [snd]. rewrite Hdiv.
    apply (popcount_matches w 0 (chunk_fields w) s pred); [ lia | lia | lia | ].
    intros q Hq. rewrite cascade_testbit by assumption.
    destruct (Z.eqb_spec (q mod w) 0); [ | reflexivity ]. cbn [andb].
    assert (0 <= q / w) by (apply Z.div_pos; lia).
    assert (q / w < 64 / w) by (rewrite Hdiv; apply Z.div_lt_upper_bound; lia).
    rewrite <- Hdiv. destruct (Z.ltb_spec (q / w) (64 / w)); [ | lia ]. cbn [andb].
    rewrite Hpred by lia. f_equal. lia.
Qed.

Lemma sim_equality_scalar pf (eq : bool) w a value s e :
  0 <= s <= e -> e <= imax ->
  sim (equality_scalar pf callback action eq w a value s e baseindex) e
      (eq_pred pf eq w a value) s e.
Proof.
  intros Hs He. unfold equality_scalar. apply sim_for; [ lia | ].
  intros i Hi. apply sim_test; [ lia | reflexivity ].
Qed.

Lemma sim_ret_tt {A} (a1 : A) pred s : sim (ret a1) a1 pred s s.
Proof. apply sim_skip; [ lia | intros; lia ]. Qed.

(** [compare_equality] is the naive scan for [Equal] and [NotEqual]. *)
Lemma sim_compare_equality pf (eq : bool) w a value start end_ :
  width_ok w -> 0 <= start <= end_ -> end_ <= imax ->
  lbound_for_width w <= value <= ubound_for_width w ->
  sim (compare_equality pf callback action eq w a value start end_ baseindex) tt
      (eq_pred pf eq w a value) start end_.
Proof.
  intros Hw Hse He Hv. unfold compare_equality. cbv zeta.
  assert (Hw0 : 0 < w) by (destruct Hw as [-> | [-> | [-> | [-> | [-> | [-> | ->]]]]]]; lia).
  assert (Hn : 0 < 64 / no0 w)
    by (destruct Hw as [-> | [-> | [-> | [-> | [-> | [-> | ->]]]]]]; reflexivity).
  destruct (round_up_facts start (64 / no0 w) Hn) as [Hru Hrm].
  set (ee := if round_up start (64 / no0 w) >? end_ then end_ else round_up start (64 / no0 w)).
  assert (Hee : start <= ee <= end_).
  { unfold ee. destruct (Z.gtb_spec (round_up start (64 / no0 w)) end_); lia. }
  apply (sim_bind _ _ ee tt _ start ee end_); [ lia | apply sim_equality_scalar; lia | ].
  destruct (Z.geb_spec ee end_) as [Hdone | Hmore].
  { replace ee with end_ by lia. apply sim_ret_tt. }
  assert (Heq : ee = round_up start (64 / no0 w)).
  { unfold ee in *. destruct (Z.gtb_spec (round_up start (64 / no0 w)) end_); lia. }
  assert (Hcase : trick_width w \/ w = 32 \/ w = 64) by (unfold width_ok, trick_width in *; tauto).
  destruct Hcase as [Ht | Hbig].
  - replace (negb (w =? 32) && negb (w =? 64)) with true
      by (destruct Ht as [-> | [-> | [-> | [-> | ->]]]]; reflexivity).
    destruct (chunk_start w ee Ht ltac:(lia) ltac:(rewrite Heq; exact Hrm)) as (Hp0 & Hp8 & Hk0).
    destruct (trick_width_facts w Ht) as (_ & Hnn & Hdiv).
    set (pred := eq_pred pf eq w a value).
    destruct (sim_while
                (fun p => p <? end_ * w / 8 - 8)
                (fun p =>
                   while_ 66 (fun av : Z * Z => if eq then test_zero w (snd av)
                                                else negb (snd av =? 0))
                     (fun av =>
                        let (a', v2) := av in
                        consumed <- call (find_action_pattern action callback
                                            (to_size_t (p / 8 * 8 * 8 / no0 w + baseindex))
                                            (cascade w eq v2)) ;;
                        if consumed then ret (false, (a', v2))
                        else
                          match find_zero eq w v2 with
                          | None => fun w => (Aborted, w)
                          | Some t =>
                              let a' := a' + t in
                              if a' >=? 64 / no0 w then ret (false, (a', v2))
                              else
                                check (find_action action callback
                                         (to_size_t (a' + p / 8 * 8 * 8 / no0 w + baseindex))
                                         (Some (get pf w a (p / 8 * 8 * 8 / no0 w + t)))) ;;
                                ret (true, (a' + 1, u64_shr pf v2 ((t + 1) * w)))
                          end)
                     (0, Z.lxor (read_chunk a p)
                           (to_size_t (ones64 / no0 (width_mask w)
                                       * Z.land (to_size_t value) (width_mask w)))) ;;
                   ret (true, p + 8))
                (fun p k => 0 <= p /\ p mod 8 = 0 /\ k = 8 * p / w /\ k <= end_)
                (fun p => Z.to_nat ((end_ * w / 8 - 8 - p + 7) / 8))
                pred)
      with (fuel := Z.to_nat end_) (st := ee * w / 8) (k := ee)
      as (pf_ & kf & Hkf & (Hpf0 & Hpf8 & Hkfeq & Hkfe) & Hcf & Hsim).
    + intros p k (Hp & Hal & Hk & Hke) Hc. apply Z.ltb_lt in Hc.
      destruct (chunk_arith w p Ht Hp Hal) as (Hs & Hwk & Hs' & Hk0' & Hal').
      pose proof (chunk_within w p end_ Ht Hp Hal Hc) as Hin.
      exists (p + 8), (k + 64 / w). split; [ lia | ]. split; [ | split ].
      * repeat split; try lia.
        rewrite Hk, <- Hs', <- (proj1 (chunk_arith w (p + 8) Ht ltac:(lia) Hal')). reflexivity.
      * clear - Hc. revert Hc. generalize (end_ * w / 8). intros E Hc. lia_div.
      * subst k. rewrite <- Hs.
        apply (sim_zero_chunk (true, p + 8) pf eq w a); try assumption; try lia.
        -- apply lxor_range; [ lia | apply read_chunk_range | apply to_size_t_range ].
        -- intros j Hj. apply xor_chunk_match; assumption.
    + repeat split; try lia.
    + apply chunk_fuel; try assumption; lia.
    + apply (sim_bind _ _ kf tt _ ee kf end_); [ lia | | ].
      * apply (sim_bind _ _ pf_ kf _ ee kf kf); [ lia | exact Hsim | ].
        rewrite (proj1 (chunk_arith w pf_ Ht Hpf0 Hpf8)), <- Hkfeq. apply sim_ret_tt.
      * apply (sim_bind _ _ end_ tt _ kf end_ end_);
          [ lia | apply sim_equality_scalar; lia | apply sim_ret_tt ].
  - replace (negb (w =? 32) && negb (w =? 64)) with false
      by (destruct Hbig as [-> | ->]; reflexivity).
    apply (sim_bind _ _ ee tt _ ee ee end_); [ lia | apply sim_ret_tt | ].
    apply (sim_bind _ _ end_ tt _ ee end_ end_);
      [ lia | apply sim_equality_scalar; lia | apply sim_ret_tt ].
Qed.

Lemma sim_relation_scalar pf (gt : bool) w a value s e :
  0 <= s <= e -> e <= imax ->
  sim (relation_scalar pf callback action gt w a value s e baseindex) e
      (rel_pred pf gt w a value) s e.
Proof.
  intros Hs He. unfold relation_scalar. apply sim_for; [ lia | ].
  intros i Hi. apply sim_test; [ lia | reflexivity ].
Qed.

Lemma sim_gtlt_step (gt : bool) v elem t s pred k :
  k = s + t -> 0 <= k < imax ->
  (if gt then elem >? v else elem <? v) = pred k ->
  sim (gtlt_step callback action gt v elem t (to_size_t (s + baseindex))) tt pred k (k + 1).
Proof.
  intros -> Hk Hp. unfold gtlt_step. rewrite to_size_t_add_r.
  replace (t + (s + baseindex)) with (s + t + baseindex) by lia.
  apply sim_test; assumption.
Qed.

Lemma sim_gtlt_blocks (gt : bool) v w elem pred s chunk :
  0 <= w -> 0 <= s ->
  forall n t k,
    0 <= t -> k = s + t -> k + Z.of_nat n <= imax ->
    (forall i, t <= i < t + Z.of_nat n ->
       (if gt then elem (Z.shiftr chunk (w * i)) >? v else elem (Z.shiftr chunk (w * i)) <? v)
       = pred (s + i)) ->
    sim (gtlt_blocks callback action gt v w elem n t (Z.shiftr chunk (w * t))
                     (to_size_t (s + baseindex)))
        tt pred k (k + Z.of_nat n).
Proof.
  intros Hw Hs. induction n as [ | n IH ]; intros t k Ht Hk He Helem.
  - cbn [gtlt_blocks]. rewrite Z.add_0_r. apply sim_ret_tt.
  - cbn [gtlt_blocks].
    apply (sim_bind _ _ tt tt pred k (k + 1) (k + Z.of_nat (S n))); [ lia | | ].
    + apply sim_gtlt_step; [ exact Hk | lia | ]. subst k. apply Helem. lia.
    + rewrite Z.shiftr_shiftr by lia.
      replace (w * t + w) with (w * (t + 1)) by lia.
      replace (k + Z.of_nat (S n)) with (k + 1 + Z.of_nat n) by lia.
      apply IH; try lia. intros i Hi. apply Helem. lia.
Qed.

(** [find_gtlt] on a chunk is the naive scan of the elements it covers. *)
Lemma sim_find_gtlt pf (gt : bool) w a p value s :
  trick_width w -> 0 <= p -> p mod 8 = 0 -> s = 8 * p / w -> s + 64 / w <= imax ->
  sim (find_gtlt callback action gt w value (read_chunk a p) (to_size_t (s + baseindex)))
      tt (rel_pred pf gt w a value) s (s + 64 / w).
Proof.
  intros Hw Hp Hal Hs He.
  assert (Hs0 : 0 <= s) by (subst s; apply Z.div_pos; destruct (trick_width_facts w Hw); lia).
  set (chunk := read_chunk a p).
  destruct Hw as [-> | [-> | [-> | [-> | ->]]]].
  - change (find_gtlt callback action gt 1 value chunk (to_size_t (s + baseindex)))
      with (gtlt_blocks callback action gt value 1 (fun chunk => Z.land chunk (2 ^ 1 - 1)) 64 0
              (Z.shiftr chunk (1 * 0)) (to_size_t (s + baseindex))).
    change (64 / 1) with (Z.of_nat 64) in *.
    apply sim_gtlt_blocks; try lia. intros i Hi. unfold rel_pred, chunk.
    rewrite (chunk_get_unsigned pf 1 a p i), Hs by (try tauto; try assumption; lia). reflexivity.
  - change (find_gtlt callback action gt 2 value chunk (to_size_t (s + baseindex)))
      with (gtlt_blocks callback action gt value 2 (fun chunk => Z.land chunk (2 ^ 2 - 1)) 32 0
              (Z.shiftr chunk (2 * 0)) (to_size_t (s + baseindex))).
    change (64 / 2) with (Z.of_nat 32) in *.
    apply sim_gtlt_blocks; try lia. intros i Hi. unfold rel_pred, chunk.
    rewrite (chunk_get_unsigned pf 2 a p i), Hs
      by (try tauto; try assumption; change (64 / 2) with 32; lia).
    reflexivity.
  - change (find_gtlt callback action gt 4 value chunk (to_size_t (s + baseindex)))
      with (gtlt_blocks callback action gt value 4 (fun chunk => Z.land chunk (2 ^ 4 - 1)) 16 0
              (Z.shiftr chunk (4 * 0)) (to_size_t (s + baseindex))).
    change (64 / 4) with (Z.of_nat 16) in *.
    apply sim_gtlt_blocks; try lia. intros i Hi. unfold rel_pred, chunk.
    rewrite (chunk_get_unsigned pf 4 a p i), Hs
      by (try tauto; try assumption; change (64 / 4) with 16; lia).
    reflexivity.
  - change (find_gtlt callback action gt 8 value chunk (to_size_t (s + baseindex)))
      with (gtlt_blocks callback action gt value 8 (fun chunk => to_signed 8 chunk) 8 0
              (Z.shiftr chunk (8 * 0)) (to_size_t (s + baseindex))).
    change (64 / 8) with (Z.of_nat 8) in *.
    apply sim_gtlt_blocks; try lia. intros i Hi. unfold rel_pred, chunk.
    rewrite (chunk_get_signed pf 8 a p i), Hs
      by (try tauto; try assumption; change (64 / 8) with 8; lia).
    reflexivity.
  - change (find_gtlt callback action gt 16 value chunk (to_size_t (s + baseindex)))
      with (gtlt_step callback action gt value (to_signed 16 (Z.shiftr chunk (16 * 0))) 0
                      (to_size_t (s + baseindex)) ;;
            gtlt_step callback action gt value (to_signed 16 (Z.shiftr chunk (16 * 1))) 1
                      (to_size_t (s + baseindex)) ;;
            gtlt_step callback action gt value (to_signed 16 (Z.shiftr chunk (16 * 2))) 2
                      (to_size_t (s + baseindex)) ;;
            gtlt_step callback action gt value (to_signed 16 (Z.shiftr chunk (16 * 3))) 3
                      (to_size_t (s + baseindex))).
    change (64 / 16) with 4 in *.
    assert (Hel : forall i, 0 <= i < 4 ->
              (if gt then to_signed 16 (Z.shiftr chunk (16 * i)) >? value
               else to_signed 16 (Z.shiftr chunk (16 * i)) <? value)
              = rel_pred pf gt 16 a value (s + i)).
    { intros i Hi. unfold rel_pred, chunk.
      rewrite (chunk_get_signed pf 16 a p i), Hs
        by (try tauto; try assumption; change (64 / 16) with 4; lia).
      reflexivity. }
    apply (sim_bind _ _ tt tt _ s (s + 1) (s + 4)); [ lia | | ].
    { apply sim_gtlt_step; [ lia | lia | ].
      pose proof (Hel 0 ltac:(lia)) as H0. rewrite Z.add_0_r in H0. exact H0. }
    apply (sim_bind _ _ tt tt _ (s + 1) (s + 1 + 1) (s + 4)); [ lia | | ].
    { apply sim_gtlt_step; [ lia | lia | ]. apply Hel. lia. }
    apply (sim_bind _ _ tt tt _ (s + 1 + 1) (s + 1 + 1 + 1) (s + 4)); [ lia | | ].
    { apply sim_gtlt_step; [ lia | lia | ]. replace (s + 1 + 1) with (s + 2) by lia. apply Hel. lia. }
    replace (s + 4) with (s + 1 + 1 + 1 + 1) by lia.
    apply sim_gtlt_step; [ lia | lia | ]. replace (s + 1 + 1 + 1) with (s + 3) by lia. apply Hel. lia.
Qed.

(** A loop over a word [m] of flags, one at bit [w - 1] of every [w]-bit group:
    the loop of [find_gtlt_fast]. *)
Lemma sim_flag_loop {X} (x : X) w m chunk s pred :
  0 < w -> w * (64 / w) = 64 -> 0 <= s -> s + 64 / w <= imax ->
  0 <= m < 2 ^ 64 ->
  (forall q, 0 <= q < 64 -> Z.testbit m q = (q mod w =? w - 1) && pred (s + q / w)) ->
  sim (bind
         (while_ 65 (fun mp : Z * Z => negb (fst mp =? 0))
            (fun mp =>
               let (m, p) := mp in
               consumed <- call (find_action_pattern action callback (to_size_t (s + baseindex))
                                                      (Z.shiftr m (no0 w - 1))) ;;
               if consumed then ret (false, (m, p))
               else
                 let t := first_set_bit64 m / no0 w in
                 let p := p + t in
                 check (find_action action callback
                          (to_size_t (p + to_size_t (s + baseindex)))
                          (Some (to_int64 (Z.land (Z.shiftr chunk (p * w)) (width_mask w))))) ;;
                 let m := if (t + 1) * w =? 64 then 0 else Z.shiftr m ((t + 1) * w) in
                 ret (true, (m, p + 1)))
            (m, 0))
         (fun _ => ret x)) x pred s (s + 64 / w).
Proof.
  intros Hw Hn Hs He Hm Hflags.
  assert (Hn0 : 0 < 64 / w) by nia.
  assert (Hflag_elem : forall i, 0 <= i < 64 / w -> Z.testbit m (w * i + (w - 1)) = pred (s + i)).
  { intros i Hi. rewrite Hflags by nia.
    destruct (div_mod_top w i Hw ltac:(lia)) as [-> ->]. rewrite Z.eqb_refl. reflexivity. }
  apply (sim_iter
           (fun (st : Z * Z) k =>
              k = snd st + s /\ 0 <= snd st <= 64 / w /\ fst st = Z.shiftr m (w * snd st))
           (fun mp : Z * Z => negb (fst mp =? 0))
           (fun st => Z.shiftr (fst st) (no0 w - 1))
           (fun _ => to_size_t (s + baseindex))
           (fun st =>
              let t := first_set_bit64 (fst st) / no0 w in
              let p := snd st + t in
              check (find_action action callback
                       (to_size_t (p + to_size_t (s + baseindex)))
                       (Some (to_int64 (Z.land (Z.shiftr chunk (p * w)) (width_mask w))))) ;;
              let m := if (t + 1) * w =? 64 then 0 else Z.shiftr (fst st) ((t + 1) * w) in
              ret (true, (m, p + 1)))).
  - exact He.
  - intros [m' p']. reflexivity.
  - intros [m' p'] k (Hk & Hp & _). cbn [fst snd] in *. lia.
  - (* no flag is left *)
    intros [m' p'] k (Hk & Hp & Hm') Hc j Hj. cbn [fst snd] in *.
    apply negb_false_iff, Z.eqb_eq in Hc.
    replace j with (s + (j - s)) by lia. rewrite <- Hflag_elem by lia.
    replace (w * (j - s) + (w - 1)) with (w * (j - s - p') + (w - 1) + w * p') by lia.
    rewrite <- Z.shiftr_spec by nia. rewrite <- Hm', Hc. apply Z.testbit_0_l.
  - (* one round *)
    intros [m' p'] k (Hk & Hp & Hm') Hc. cbn [fst snd] in *.
    apply negb_true_iff, Z.eqb_neq in Hc.
    assert (Hm'r : 0 <= m' < 2 ^ 64) by (rewrite Hm'; apply shiftr_range; [ nia | exact Hm ]).
    destruct (least_set_bit m' 64 Hm'r Hc) as (q0 & Hq0 & Hset & Hlow).
    change (Z.of_nat 64) with 64 in Hq0.
    rewrite (first_set_bit64_spec m' q0) by assumption.
    rewrite no0_pos by exact Hw.
    assert (Hset' : Z.testbit m (q0 + w * p') = true).
    { rewrite <- Z.shiftr_spec by lia. rewrite <- Hm'. exact Hset. }
    assert (Hq64 : q0 + w * p' < 64).
    { destruct (Z.lt_ge_cases (q0 + w * p') 64); [ assumption | ].
      rewrite testbit_beyond in Hset' by assumption. discriminate. }
    rewrite Hflags in Hset' by nia.
    destruct (mod_add_mul q0 w p' Hw) as [Hmod Hdiv]. rewrite Hmod, Hdiv in Hset'.
    apply andb_true_iff in Hset'. destruct Hset' as [Hres Hpr]. apply Z.eqb_eq in Hres.
    pose proof (Z.div_mod q0 w ltac:(lia)) as Hdm.
    assert (Ht0 : 0 <= q0 / w) by (apply Z.div_pos; lia).
    right. exists (p' + q0 / w + s),
                  (to_int64 (Z.land (Z.shiftr chunk ((p' + q0 / w) * w)) (width_mask w))),
                  (Z.shiftr m (w * (p' + q0 / w + 1)), p' + q0 / w + 1).
    split; [ | split; [ nia | split; [ | split ] ] ].
    + cbv zeta. rewrite to_size_t_add_r, Z.add_assoc.
      replace (if (q0 / w + 1) * w =? 64 then 0 else Z.shiftr m' ((q0 / w + 1) * w))
        with (Z.shiftr m (w * (p' + q0 / w + 1))); [ reflexivity | ].
      destruct (Z.eqb_spec ((q0 / w + 1) * w) 64) as [E64 | N64].
      * apply shiftr_beyond; [ exact Hm | nia ].
      * rewrite Hm', Z.shiftr_shiftr by nia. f_equal. lia.
    + replace (p' + q0 / w + s) with (s + (q0 / w + p')) by lia. exact Hpr.
    + intros j Hj. replace j with (s + (j - s)) by lia. rewrite <- Hflag_elem by nia.
      replace (w * (j - s) + (w - 1)) with (w * (j - s - p') + (w - 1) + w * p') by lia.
      rewrite <- Z.shiftr_spec by nia. rewrite <- Hm'. apply Hlow. nia.
    + cbn [fst snd]. split; [ lia | ]. split; [ nia | reflexivity ].
  - cbn [fst snd]. split; [ lia | ]. split; [ lia | ]. rewrite Z.mul_0_r. reflexivity.
  - change (Z.of_nat 65) with 65. nia.
  - intros _. cbn [fst]. rewrite no0_pos by exact Hw.
    replace (64 / w) with (Z.of_nat (Z.to_nat (64 / w))) by lia.
    apply (popcount_matches w 0 (Z.to_nat (64 / w)) s pred); [ lia | lia | lia | ].
    intros q Hq. rewrite Z.shiftr_spec by lia. rewrite Z2Nat.id by lia.
    assert (Hqw : 0 <= q / w) by (apply Z.div_pos; lia).
    assert (Hqn : q / w < 64 / w) by (apply Z.div_lt_upper_bound; lia).
    destruct (Z.ltb_spec (q / w) (64 / w)); [ | lia ]. cbn [andb].
    pose proof (Z.div_mod q w ltac:(lia)) as Hdm.
    pose proof (Z.mod_pos_bound q w Hw) as Hmb.
    destruct (Z.eqb_spec (q mod w) 0) as [Hz | Hnz].
    + replace (q + (w - 1)) with (w * (q / w) + (w - 1)) by lia.
      rewrite Hflag_elem by lia. reflexivity.
    + cbn [andb]. destruct (Z.lt_ge_cases (q + (w - 1)) 64) as [Hin | Hout].
      * rewrite Hflags by lia.
        replace ((q + (w - 1)) mod w) with (q mod w - 1)
          by (apply Z.mod_unique with (q / w + 1); lia).
        destruct (Z.eqb_spec (q mod w - 1) (w - 1)); [ lia | reflexivity ].
      * apply testbit_beyond; [ exact Hm | lia ].
Qed.

Lemma sim_find_gtlt_fast pf w a p value s :
  trick_width w -> 2 <= w -> 0 <= p -> p mod 8 = 0 ->
  0 <= value <= 2 ^ (w - 1) - 2 ->
  Z.land (to_size_t (Z.shiftl (lower_bits w) (no0 w - 1))) (read_chunk a p) = 0 ->
  s = 8 * p / w -> s + 64 / w <= imax ->
  sim (find_gtlt_fast callback action true w (read_chunk a p)
                      (to_size_t (find_gtlt_magic true w value)) (to_size_t (s + baseindex)))
      tt (rel_pred pf true w a value) s (s + 64 / w).
Proof.
  intros Hw Hw2 Hp Hal Hv Hup Hs He.
  destruct (trick_width_facts w Hw) as (Hw0 & Hn & Hdiv).
  destruct (gtlt_fast_flags pf w a p value Hw Hw2 Hp Hal Hv Hup) as [Hm Hflags].
  assert (Hs0 : 0 <= s) by (subst s; apply Z.div_pos; lia).
  unfold find_gtlt_fast. cbv zeta.
  apply (sim_flag_loop tt w _ (read_chunk a p) s); try assumption; try lia.
  intros q Hq. rewrite Hflags, Hs by exact Hq. reflexivity.
Qed.

Lemma sim_assert {A} (f : unit -> M C A) x pred s e :
  sim (f tt) x pred s e -> sim (bind (assert_ true) f) x pred s e.
Proof. intros H w1 w2 HR. apply (H w1 w2 HR). Qed.

(** The loop over the chunks of [compare_relation], whichever routine deals
    with a chunk. *)
Lemma sim_relation_chunks pf (gt : bool) w a value end_ ee (chunk_part : Z -> M C unit) :
  trick_width w -> 0 <= ee <= end_ -> end_ <= imax ->
  ee mod (64 / no0 w) = 0 ->
  (forall p, 0 <= p -> p mod 8 = 0 -> 8 * p / w + 64 / w <= imax ->
     sim (chunk_part p) tt (rel_pred pf gt w a value) (8 * p / w) (8 * p / w + 64 / w)) ->
  exists pf_ kf,
    ee <= kf <= end_ /\ kf = pf_ / 8 * 8 * 8 / no0 w /\
    sim (while_ (Z.to_nat end_) (fun p => p <? end_ * w / 8 - 8)
           (fun p => chunk_part p ;; ret (true, p + 8)) (ee * w / 8))
        pf_ (rel_pred pf gt w a value) ee kf.
Proof.
  intros Ht Hee He Hal Hpart.
  destruct (chunk_start w ee Ht ltac:(lia) Hal) as (Hp0 & Hp8 & Hk0).
  destruct (trick_width_facts w Ht) as (Hw0 & Hnn & Hdiv).
  destruct (sim_while
              (fun p => p <? end_ * w / 8 - 8)
              (fun p => chunk_part p ;; ret (true, p + 8))
              (fun p k => 0 <= p /\ p mod 8 = 0 /\ k = 8 * p / w /\ k <= end_)
              (fun p => Z.to_nat ((end_ * w / 8 - 8 - p + 7) / 8))
              (rel_pred pf gt w a value))
    with (fuel := Z.to_nat end_) (st := ee * w / 8) (k := ee)
    as (pf_ & kf & Hkf & (Hpf0 & Hpf8 & Hkfeq & Hkfe) & Hcf & Hsim).
  - intros p k (Hp & Halp & Hk & Hke) Hc. apply Z.ltb_lt in Hc.
    destruct (chunk_arith w p Ht Hp Halp) as (Hs & Hwk & Hs' & Hk0' & Hal').
    pose proof (chunk_within w p end_ Ht Hp Halp Hc) as Hin.
    exists (p + 8), (k + 64 / w). split; [ lia | ]. split; [ | split ].
    + repeat split; try lia.
      rewrite Hk, <- Hs', <- (proj1 (chunk_arith w (p + 8) Ht ltac:(lia) Hal')). reflexivity.
    + clear - Hc. revert Hc. generalize (end_ * w / 8). intros E Hc. lia_div.
    + subst k. apply (sim_bind _ _ tt (true, p + 8) _ _ (8 * p / w + 64 / w));
        [ lia | apply Hpart; try assumption; lia | apply sim_ret_tt ].
  - repeat split; try lia.
  - apply chunk_fuel; try assumption; lia.
  - exists pf_, kf. split; [ lia | ]. split; [ | exact Hsim ].
    rewrite (proj1 (chunk_arith w pf_ Ht Hpf0 Hpf8)). exact Hkfeq.
Qed.

(** [compare_relation] is the naive scan for [Greater] and [Less]. *)
Lemma sim_compare_relation pf (gt : bool) w a value start end_ :
  width_ok w -> 0 <= start <= end_ -> end_ <= imax -> end_ <= m_size a ->
  sim (compare_relation pf callback action gt w a value start end_ baseindex) tt
      (rel_pred pf gt w a value) start end_.
Proof.
  intros Hw Hse He Hsz. unfold compare_relation. cbv zeta.
  replace ((start <=? m_size a) && ((end_ <=? m_size a) || (end_ =? npos)) && (start <=? end_))
    with true.
  2:{ destruct (Z.leb_spec start (m_size a)); [ | lia ].
      destruct (Z.leb_spec end_ (m_size a)); [ | lia ].
      destruct (Z.leb_spec start end_); [ reflexivity | lia ]. }
  apply sim_assert.
  assert (Hw0 : 0 < w) by (destruct Hw as [-> | [-> | [-> | [-> | [-> | [-> | ->]]]]]]; lia).
  assert (Hn : 0 < 64 / no0 w)
    by (destruct Hw as [-> | [-> | [-> | [-> | [-> | [-> | ->]]]]]]; reflexivity).
  destruct (round_up_facts start (64 / no0 w) Hn) as [Hru Hrm].
  set (ee := if round_up start (64 / no0 w) >? end_ then end_ else round_up start (64 / no0 w)).
  assert (Hee : start <= ee <= end_).
  { unfold ee. destruct (Z.gtb_spec (round_up start (64 / no0 w)) end_); lia. }
  apply (sim_bind _ _ ee tt _ start ee end_); [ lia | apply sim_relation_scalar; lia | ].
  destruct (Z.geb_spec ee end_) as [Hdone | Hmore].
  { replace ee with end_ by lia. apply sim_ret_tt. }
  assert (Heq : ee = round_up start (64 / no0 w)).
  { unfold ee in *. destruct (Z.gtb_spec (round_up start (64 / no0 w)) end_); lia. }
  assert (Hcase : trick_width w \/ w = 32 \/ w = 64) by (unfold width_ok, trick_width in *; tauto).
  destruct Hcase as [Ht | Hbig].
  - replace ((w =? 1) || (w =? 2) || (w =? 4) || (w =? 8) || (w =? 16)) with true
      by (destruct Ht as [-> | [-> | [-> | [-> | ->]]]]; reflexivity).
    assert (Heemod : ee mod (64 / no0 w) = 0) by (rewrite Heq; exact Hrm).
    assert (Hslow : forall p, 0 <= p -> p mod 8 = 0 -> 8 * p / w + 64 / w <= imax ->
              sim (find_gtlt callback action gt w value (read_chunk a p)
                             (to_size_t (p / 8 * 8 * 8 / no0 w + baseindex)))
                  tt (rel_pred pf gt w a value) (8 * p / w) (8 * p / w + 64 / w)).
    { intros p Hp Hal Hin. rewrite (proj1 (chunk_arith w p Ht Hp Hal)).
      apply (sim_find_gtlt pf gt w a p value); try assumption; reflexivity. }
    assert (Hloop : exists pf_ kf,
              ee <= kf <= end_ /\ kf = pf_ / 8 * 8 * 8 / no0 w /\
              sim (if negb (value =? to_int64 (Z.land (to_size_t (find_gtlt_magic gt w value))
                                                       (width_mask w)))
                      && (value >=? 0) && (w >=? 2)
                      && (value <=? to_int64 (to_size_t (Z.shiftr (width_mask w) 1
                                                         - (if gt then 1 else 0))))
                   then
                     while_ (Z.to_nat end_) (fun p => p <? end_ * w / 8 - 8)
                       (fun p =>
                          (if Z.land (to_size_t (Z.shiftl (lower_bits w) (no0 w - 1)))
                                     (read_chunk a p) =? 0
                           then find_gtlt_fast callback action gt w (read_chunk a p)
                                  (to_size_t (find_gtlt_magic gt w value))
                                  (to_size_t (p / 8 * 8 * 8 / no0 w + baseindex))
                           else find_gtlt callback action gt w value (read_chunk a p)
                                  (to_size_t (p / 8 * 8 * 8 / no0 w + baseindex))) ;;
                          ret (true, p + 8))
                       (ee * w / 8)
                   else
                     while_ (Z.to_nat end_) (fun p => p <? end_ * w / 8 - 8)
                       (fun p =>
                          find_gtlt callback action gt w value (read_chunk a p)
                            (to_size_t (p / 8 * 8 * 8 / no0 w + baseindex)) ;;
                          ret (true, p + 8))
                       (ee * w / 8))
                  pf_ (rel_pred pf gt w a value) ee kf).
    { destruct gt.
      - destruct (negb (value =? to_int64 (Z.land (to_size_t (find_gtlt_magic true w value))
                                                   (width_mask w)))
                  && (value >=? 0) && (w >=? 2)
                  && (value <=? to_int64 (to_size_t (Z.shiftr (width_mask w) 1 - 1)))) eqn:Hfast.
        + apply andb_true_iff in Hfast. destruct Hfast as [Hfast Hv2].
          apply andb_true_iff in Hfast. destruct Hfast as [Hfast Hw2].
          apply andb_true_iff in Hfast. destruct Hfast as [_ Hv0].
          apply Z.geb_le in Hv0, Hw2. apply Z.leb_le in Hv2.
          destruct (high_bits_upper w Ht) as (_ & _ & Hm2). rewrite Hm2 in Hv2.
          pose proof (trick_width_le w Ht) as Hw16.
          assert (Hpw : 2 <= 2 ^ (w - 1) <= 32768).
          { split; [ change 2 with (2 ^ 1) at 1; apply Z.pow_le_mono_r; lia
                   | apply (Z.pow_le_mono_r 2 (w - 1) 15); lia ]. }
          rewrite (to_size_t_small (2 ^ (w - 1) - 1 - 1)) in Hv2 by (rewrite two_p_64; lia).
          rewrite (to_int64_small (2 ^ (w - 1) - 1 - 1)) in Hv2 by (rewrite two_p_63; lia).
          apply (sim_relation_chunks pf true w a value end_ ee); try assumption; try lia.
          intros p Hp Hal Hin.
          destruct (Z.eqb_spec (Z.land (to_size_t (Z.shiftl (lower_bits w) (no0 w - 1)))
                                       (read_chunk a p)) 0) as [Hup | Hup].
          * rewrite (proj1 (chunk_arith w p Ht Hp Hal)).
            apply (sim_find_gtlt_fast pf w a p value); try assumption; lia.
          * apply Hslow; assumption.
        + apply (sim_relation_chunks pf true w a value end_ ee); try assumption; lia.
      - replace (Z.shiftr (width_mask w) 1 - 0) with (Z.shiftr (width_mask w) 1 - 0) by reflexivity.
        rewrite (lt_no_fast w value Ht).
        apply (sim_relation_chunks pf false w a value end_ ee); try assumption; lia. }
    destruct Hloop as (pf_ & kf & Hkf & Hkfeq & Hsim).
    apply (sim_bind _ _ kf tt _ ee kf end_); [ lia | | ].
    + apply (sim_bind _ _ pf_ kf _ ee kf kf); [ lia | exact Hsim | ].
      rewrite <- Hkfeq. apply sim_ret_tt.
    + apply (sim_bind _ _ end_ tt _ kf end_ end_);
        [ lia | apply sim_relation_scalar; lia | apply sim_ret_tt ].
  - replace ((w =? 1) || (w =? 2) || (w =? 4) || (w =? 8) || (w =? 16)) with false
      by (destruct Hbig as [-> | ->]; reflexivity).
    apply (sim_bind _ _ ee tt _ ee ee end_); [ lia | apply sim_ret_tt | ].
    apply (sim_bind _ _ end_ tt _ ee end_ end_);
      [ lia | apply sim_relation_scalar; lia | apply sim_ret_tt ].
Qed.

(** The condition of a search on an element. *)
Lemma sim_ext {A} (m : M C A) x pred pred' s e :
  (forall j, s <= j < e -> pred j = pred' j) -> sim m x pred s e -> sim m x pred' s e.
Proof.
  intros Hext H w1 w2 HR. rewrite <- (matches_ext pred pred' s e Hext). apply (H w1 w2 HR).
Qed.

(** [compare] is the naive scan for each of the four conditions. *)
Lemma sim_compare pf cd w a value start end_ :
  cd = Equal \/ cd = NotEqual \/ cd = Greater \/ cd = Less ->
  width_ok w -> 0 <= start <= end_ -> end_ <= imax -> end_ <= m_size a ->
  lbound_for_width w <= value <= ubound_for_width w ->
  sim (compare pf callback action cd w a value start end_ baseindex) tt
      (holds pf cd w a value) start end_.
Proof.
  intros Hcd Hw Hse He Hsz Hv. destruct Hcd as [-> | [-> | [-> | ->]]].
  - apply (sim_compare_equality pf true w a value start end_); assumption.
  - apply (sim_compare_equality pf false w a value start end_); assumption.
  - apply (sim_compare_relation pf true w a value start end_); assumption.
  - apply (sim_compare_relation pf false w a value start end_); assumption.
Qed.

(** The walk of [find_sse_intern] through the matches of one vector, whose
    mask [resmask] has one bit per byte. *)
Lemma sim_sse_inner {X} (x : X) pf w a ad resmask s0 E0 bi pred :
  byte_width w -> 0 <= E0 -> 0 <= s0 -> E0 + s0 + 128 / w <= imax ->
  (forall k, to_size_t (k + bi) = to_size_t (E0 + k + baseindex)) ->
  0 <= resmask < 2 ^ 16 ->
  (forall b, 0 <= b < 16 -> Z.testbit resmask b = pred (E0 + s0 + b / (w / 8))) ->
  sim (bind
         (while_ 17 (fun rs : Z * Z => negb (fst rs =? 0))
            (fun rs =>
               let (resmask, s) := rs in
               let upper := to_size_t (Z.shiftl (lower_bits (w / 8)) (no0 (w / 8) - 1)) in
               let pattern := Z.land resmask upper in
               consumed <- call (find_action_pattern action callback (to_size_t (s + bi))
                                                      pattern) ;;
               if consumed then ret (false, (resmask, s))
               else
                 let idx := first_set_bit resmask * 8 / no0 w in
                 let s := s + idx in
                 check (find_action action callback (to_size_t (s + bi))
                          (Some (get_universal pf w (m_data a) ad s))) ;;
                 ret (true, (Z.shiftr resmask ((idx + 1) * no0 w / 8), s + 1)))
            (resmask, s0))
         (fun _ => ret x)) x pred (E0 + s0) (E0 + s0 + 128 / w).
Proof.
  intros Hw HE0 Hs0 He Hbi Hm Hflags.
  destruct (byte_width_facts w Hw)
    as (Hbw & Hw8 & Hbn & Htw & Hno & Hnob & Hdiv8 & Hmul8 & _ & Hn).
  set (bw := w / 8) in *. set (n := 128 / w) in *.
  assert (Hflag_elem : forall g, 0 <= g < n -> Z.testbit resmask (bw * g) = pred (E0 + s0 + g)).
  { intros g Hg. rewrite Hflags by nia. do 2 f_equal.
    rewrite Z.mul_comm. apply Z.div_mul. lia. }
  apply (sim_iter
           (fun (st : Z * Z) k =>
              k = E0 + snd st /\ s0 <= snd st <= s0 + n /\
              fst st = Z.shiftr resmask (bw * (snd st - s0)))
           (fun rs : Z * Z => negb (fst rs =? 0))
           (fun st => Z.land (fst st) (to_size_t (Z.shiftl (lower_bits bw) (no0 bw - 1))))
           (fun st => to_size_t (snd st + bi))
           (fun st =>
              let idx := first_set_bit (fst st) * 8 / no0 w in
              let s := snd st + idx in
              check (find_action action callback (to_size_t (s + bi))
                       (Some (get_universal pf w (m_data a) ad s))) ;;
              ret (true, (Z.shiftr (fst st) ((idx + 1) * no0 w / 8), s + 1)))).
  - exact He.
  - intros [r' s']. reflexivity.
  - intros [r' s'] k (Hk & Hs & _). cbn [fst snd] in *. lia.
  - (* no flag is left *)
    intros [r' s'] k (Hk & Hs & Hr') Hc j Hj. cbn [fst snd] in *.
    apply negb_false_iff, Z.eqb_eq in Hc.
    replace j with (E0 + s0 + (j - E0 - s0)) by lia. rewrite <- Hflag_elem by lia.
    replace (bw * (j - E0 - s0)) with (bw * (j - E0 - s') + bw * (s' - s0)) by lia.
    rewrite <- Z.shiftr_spec by nia. rewrite <- Hr', Hc. apply Z.testbit_0_l.
  - (* one round *)
    intros [r' s'] k (Hk & Hs & Hr') Hc. cbn [fst snd] in *.
    apply negb_true_iff, Z.eqb_neq in Hc.
    assert (Hr16 : 0 <= r' < 2 ^ 16).
    { rewrite Hr'. rewrite Z.shiftr_div_pow2 by nia.
      assert (0 < 2 ^ (bw * (s' - s0))) by (apply Z.pow_pos_nonneg; nia).
      split; [ apply Z.div_pos; lia | apply Z.div_lt_upper_bound; nia ]. }
    assert (Hr32 : 0 <= r' < 2 ^ Z.of_nat 32).
    { change (2 ^ Z.of_nat 32) with 4294967296. change (2 ^ 16) with 65536 in Hr16. lia. }
    destruct (least_set_bit r' 32 Hr32 Hc) as (q0 & Hq0 & Hset & Hlow).
    change (Z.of_nat 32) with 32 in Hq0.
    rewrite (first_set_bit_spec r' q0) by (try assumption; exact Hr32).
    rewrite Hno, Hdiv8, Hmul8. fold bw.
    assert (Hset' : Z.testbit resmask (q0 + bw * (s' - s0)) = true).
    { rewrite <- Z.shiftr_spec by lia. rewrite <- Hr'. exact Hset. }
    assert (Hq16 : q0 + bw * (s' - s0) < 16).
    { destruct (Z.lt_ge_cases (q0 + bw * (s' - s0)) 16); [ assumption | ].
      rewrite testbit_above_16 in Hset' by assumption. discriminate. }
    rewrite Hflags in Hset' by nia.
    destruct (mod_add_mul q0 bw (s' - s0) Hbw) as [_ Hdiv]. fold bw in Hset'.
    rewrite Hdiv in Hset'.
    pose proof (Z.div_mod q0 bw ltac:(lia)) as Hdm.
    pose proof (Z.mod_pos_bound q0 bw Hbw) as Hmb.
    assert (Ht0 : 0 <= q0 / bw) by (apply Z.div_pos; lia).
    right. exists (E0 + (s' + q0 / bw)),
                  (get_universal pf w (m_data a) ad (s' + q0 / bw)),
                  (Z.shiftr r' ((q0 / bw + 1) * bw), s' + q0 / bw + 1).
    split; [ | split; [ nia | split; [ | split ] ] ].
    + cbv zeta. rewrite Hbi. reflexivity.
    + replace (E0 + (s' + q0 / bw)) with (E0 + s0 + (q0 / bw + (s' - s0))) by lia. exact Hset'.
    + intros j Hj. replace j with (E0 + s0 + (j - E0 - s0)) by lia.
      rewrite <- Hflag_elem by nia.
      replace (bw * (j - E0 - s0)) with (bw * (j - E0 - s') + bw * (s' - s0)) by lia.
      rewrite <- Z.shiftr_spec by nia. rewrite <- Hr'. apply Hlow. nia.
    + cbn [fst snd]. split; [ lia | ]. split; [ nia | ].
      rewrite Hr', Z.shiftr_shiftr by nia. f_equal. lia.
  - cbn [fst snd]. split; [ lia | ]. split; [ lia | ].
    rewrite Z.sub_diag, Z.mul_0_r. reflexivity.
  - change (Z.of_nat 17) with 17. lia.
  - intros _. cbn [fst].
    destruct (high_bits_upper bw Htw) as (Hup & _). rewrite Hup.
    destruct (trick_width_facts bw Htw) as (_ & Hcn & Hcd).
    replace n with (Z.of_nat (Z.to_nat n)) by lia.
    apply (popcount_matches bw (bw - 1) (Z.to_nat n) (E0 + s0) pred); [ lia | lia | nia | ].
    intros q Hq. rewrite Z2Nat.id by lia.
    rewrite Z.land_spec, high_bits_testbit by (try exact Htw; lia).
    assert (Hqw : 0 <= q / bw) by (apply Z.div_pos; lia).
    assert (Hqn : q / bw < 64 / bw) by (rewrite Hcd; apply Z.div_lt_upper_bound; lia).
    destruct (Z.ltb_spec (q / bw) (64 / bw)); [ | lia ]. cbn [andb].
    rewrite andb_comm. f_equal.
    destruct (Z.lt_ge_cases q 16) as [Hlt | Hge].
    + rewrite Hflags by lia. fold bw.
      assert (q / bw < n) by (apply Z.div_lt_upper_bound; nia).
      destruct (Z.ltb_spec (q / bw) n); [ reflexivity | lia ].
    + rewrite testbit_above_16 by assumption.
      assert (n <= q / bw) by (apply Z.div_le_lower_bound; nia).
      destruct (Z.ltb_spec (q / bw) n); [ lia | reflexivity ].
Qed.

(** [find_sse] is the naive scan of the elements of [items] vectors that start
    at byte offset [ad]. *)
Lemma sim_find_sse pf cd w a value ad items bi :
  cd = Equal \/ cd = NotEqual \/ cd = Greater \/ cd = Less ->
  byte_width w -> (cd = Less -> w <> 64) ->
  0 <= ad -> (8 * ad) mod w = 0 -> 0 <= items ->
  8 * ad / w + items * (128 / w) <= imax ->
  - 2 ^ (w - 1) <= value < 2 ^ (w - 1) ->
  (forall k, to_size_t (k + bi) = to_size_t (8 * ad / w + k + baseindex)) ->
  sim (find_sse pf callback action cd w a value ad items bi) tt
      (holds pf cd w a value) (8 * ad / w) (8 * ad / w + items * (128 / w)).
Proof.
  intros Hcd Hw Hless Had Hal Hitems He Hv Hbi.
  destruct (byte_width_facts w Hw)
    as (Hbw & Hw8 & Hbn & Htw & Hno & Hnob & Hdiv8 & Hmul8 & Hs128 & Hn).
  assert (HE0 : 0 <= 8 * ad / w) by (apply Z.div_pos; lia).
  unfold find_sse.
  assert (Hsearch : (if w =? 8 then ret (mm_set1 8 value)
                     else if w =? 16 then ret (mm_set1 16 value)
                     else if w =? 32 then ret (mm_set1 32 value)
                     else if w =? 64 then
                       (if is_same cd cond_Less then fun w => (Aborted, w)
                        else ret (mm_set1 64 value))
                     else ret 0)
                    = (ret (mm_set1 w value) : M C Z)).
  { destruct Hw as [-> | [-> | [-> | ->]]]; try reflexivity.
    destruct Hcd as [-> | [-> | [-> | ->]]]; try reflexivity.
    exfalso. apply Hless; reflexivity. }
  rewrite Hsearch. clear Hsearch.
  change (bind (ret (mm_set1 w value))
               (fun search => find_sse_intern pf callback action cd w a ad search items bi))
    with (fun w0 : World C =>
            find_sse_intern pf callback action cd w a ad (mm_set1 w value) items bi w0).
  unfold find_sse_intern.
  set (pred := holds pf cd w a value).
  match goal with
  | |- sim (fun w0 => bind (while_ _ ?c ?b _) _ w0) _ _ _ _ =>
      destruct (sim_while c b
                  (fun (st : Z * Z) k => 0 <= fst st <= items /\ k = 8 * ad / w + fst st * (128 / w))
                  (fun st => Z.to_nat (items - fst st)) pred)
        with (fuel := Z.to_nat items) (st := (0, 0)) (k := 8 * ad / w)
        as (final & kf & Hkf & (Hfi & Hkfeq) & Hcf & Hsim)
  end.
  - intros [i cr] k (Hi & Hk) Hc. cbn [fst snd] in *. apply Z.ltb_lt in Hc.
    destruct (sse_flags pf cd w a ad i value cr Hcd Hw Hless Had Hal ltac:(lia) Hv)
      as (cr' & Hcmp & Hm & Hflags).
    rewrite Hcmp.
    exists (i + 1, cr'), (k + 128 / w). cbn [fst snd].
    split; [ lia | ]. split; [ split; [ lia | lia ] | ]. split; [ lia | ].
    subst k. cbv zeta. replace (i * 16 * 8 / no0 w) with (i * (128 / w)) by (rewrite Hno, Hs128; reflexivity).
    apply (sim_sse_inner (true, (i + 1, cr')) pf w a ad _ (i * (128 / w)) (8 * ad / w) bi pred);
      try assumption; try nia.
  - cbn [fst]. split; [ lia | lia ].
  - cbn [fst]. lia.
  - destruct final as [fi fcr]. cbn [fst snd] in *. apply Z.ltb_ge in Hcf.
    assert (fi = items) by lia. subst fi.
    intros w1 w2 HR. destruct (Hsim w1 w2 HR) as (b & w2' & Hrep & HR' & Hres).
    rewrite <- Hkfeq. exists b, w2'. unfold bind.
    destruct (while_ _ _ _ _ w1) as [o w1']. cbn [fst snd] in *. subst o.
    destruct b; repeat split; assumption.
Qed.

(** ** [compare_leafs] *)

Lemma sim_leafs_test pf cd w fw a foreign i :
  0 <= i < imax ->
  sim (leafs_test callback action cd (get pf w a i) (get pf fw foreign i) (i + baseindex))
      tt (holds_leafs pf cd w fw a foreign) i (i + 1).
Proof.
  intros Hi. unfold leafs_test.
  apply (sim_test i (get pf w a i) (holds_leafs pf cd w fw a foreign)
                  (cond_c cd (get pf w a i) (get pf fw foreign i))); [ exact Hi | reflexivity ].
Qed.

Lemma sim_leafs_closing pf cd w fw a foreign s e :
  0 <= s <= e -> e <= imax ->
  sim (leafs_closing pf callback action cd w fw a foreign s e baseindex) tt
      (holds_leafs pf cd w fw a foreign) s e.
Proof.
  intros Hs He. unfold leafs_closing.
  apply (sim_bind _ _ e tt _ s e e); [ lia | | apply sim_skip; [ lia | intros; lia ] ].
  apply sim_for; [ lia | ]. intros i Hi. cbv zeta.
  apply (sim_leafs_test pf cd w fw a foreign i). lia.
Qed.

(** One vector of this leaf against one vector of the foreign leaf. *)
Lemma sim_sse_pair pf cd w a foreign start :
  cd = Equal \/ cd = NotEqual \/ cd = Greater \/ cd = Less ->
  w = 8 \/ w = 16 \/ w = 32 ->
  0 <= start -> start + 128 / w <= imax ->
  sim (find_sse_intern pf callback action cd w a (start * w / 8)
                       (load_le (m_data foreign) (start * w / 8) 16) 1
                       (to_size_t (baseindex + start)))
      tt (holds_leafs pf cd w w a foreign) start (start + 128 / w).
Proof.
  intros Hcd Hw3 Hs He.
  assert (Hw : byte_width w) by (unfold byte_width; tauto).
  assert (Hless : cd = Less -> w <> 64) by (intros _; lia).
  destruct (byte_width_facts w Hw)
    as (Hbw & Hw8 & Hbn & Htw & Hno & Hnob & Hdiv8 & Hmul8 & Hs128 & Hn).
  set (ad := start * w / 8).
  assert (Had : 0 <= ad) by (unfold ad; rewrite Hmul8; nia).
  assert (Hal : (8 * ad) mod w = 0).
  { unfold ad. rewrite Hmul8. replace (8 * (start * (w / 8))) with (start * w) by lia.
    apply Z.mod_mul. lia. }
  assert (HE0 : 8 * ad / w = start).
  { unfold ad. rewrite Hmul8. replace (8 * (start * (w / 8))) with (start * w) by lia.
    apply Z.div_mul. lia. }
  unfold find_sse_intern.
  set (pred := holds_leafs pf cd w w a foreign).
  match goal with
  | |- sim (bind (while_ _ ?c ?b _) _) _ _ _ _ =>
      destruct (sim_while c b
                  (fun (st : Z * Z) k => 0 <= fst st <= 1 /\ k = start + fst st * (128 / w))
                  (fun st => Z.to_nat (1 - fst st)) pred)
        with (fuel := Z.to_nat 1) (st := (0, 0)) (k := start)
        as (final & kf & Hkf & (Hfi & Hkfeq) & Hcf & Hsim)
  end.
  - intros [i cr] k (Hi & Hk) Hc. cbn [fst snd] in *. apply Z.ltb_lt in Hc.
    assert (i = 0) by lia. subst i.
    destruct (sse_flags_vec pf cd w a ad 0 (load_le (m_data foreign) ad 16)
                (fun e => get pf w foreign (start + e)) cr Hcd Hw Hless Had Hal ltac:(lia))
      as (cr' & Hcmp & Hm & Hflags).
    { intros e He'. pose proof (loaded_lane pf w foreign ad 0 e Hw Had Hal ltac:(lia) He') as Hl.
      rewrite Z.mul_0_r, Z.add_0_r in Hl. rewrite Hl, HE0. f_equal. lia. }
    rewrite Hcmp.
    exists (1, cr'), (k + 128 / w). cbn [fst snd].
    split; [ lia | ]. split; [ split; [ lia | lia ] | ]. split; [ lia | ].
    subst k. cbv zeta. rewrite Z.mul_0_l, Z.add_0_r. change (0 * 16 * 8 / no0 w) with 0.
    pose proof (fun H1 H2 H3 =>
                  sim_sse_inner (true, (0 + 1, cr')) pf w a ad
                    (if is_same cd cond_NotEqual
                     then Z.land (Z.lxor (mm_movemask_epi8 cr') 0xFFFFFFFF) 0x0000ffff
                     else mm_movemask_epi8 cr')
                    0 start (to_size_t (baseindex + start)) pred
                    Hw Hs (Z.le_refl 0) H1 H2 Hm H3) as Hin.
    rewrite !Z.add_0_r in Hin. apply Hin.
    + exact He.
    + intros k. rewrite to_size_t_add_r. f_equal. lia.
    + intros b Hb. rewrite (Hflags b Hb). rewrite HE0, Z.mul_0_l, Z.add_0_r.
      reflexivity.
  - cbn [fst]. split; [ lia | lia ].
  - cbn [fst]. lia.
  - destruct final as [fi fcr]. cbn [fst snd] in *. apply Z.ltb_ge in Hcf.
    assert (fi = 1) by lia. subst fi.
    intros w1 w2 HR. destruct (Hsim w1 w2 HR) as (b & w2' & Hrep & HR' & Hres).
    replace (start + 128 / w) with kf by lia. exists b, w2'. unfold bind.
    destruct (while_ _ _ _ _ w1) as [o w1']. cbn [fst snd] in *. subst o.
    destruct b; repeat split; assumption.
Qed.

Lemma sim_leafs_vectors pf cd w fw a foreign s e :
  cd = Equal \/ cd = NotEqual \/ cd = Greater \/ cd = Less ->
  0 <= s <= e -> e <= imax ->
  (compiler_sse pf && sseavx42 pf && (w =? fw) && ((w =? 8) || (w =? 16) || (w =? 32)) = true ->
   m_data_addr foreign mod 16 = m_data_addr a mod 16) ->
  sim (leafs_vectors pf callback action cd w fw a foreign s e baseindex) tt
      (holds_leafs pf cd w fw a foreign) s e.
Proof.
  intros Hcd Hs He Hcong. unfold leafs_vectors.
  destruct (compiler_sse pf && sseavx42 pf && (w =? fw)
            && ((w =? 8) || (w =? 16) || (w =? 32))) eqn:Hsse;
    [ | apply sim_leafs_closing; assumption ].
  specialize (Hcong eq_refl).
  apply Bool.andb_true_iff in Hsse. destruct Hsse as [Hsse Hw3].
  apply Bool.andb_true_iff in Hsse. destruct Hsse as [_ Hfw].
  apply Z.eqb_eq in Hfw. subst fw.
  assert (Hw : w = 8 \/ w = 16 \/ w = 32).
  { destruct (Z.eqb_spec w 8); [ tauto | ]. destruct (Z.eqb_spec w 16); [ tauto | ].
    destruct (Z.eqb_spec w 32); [ tauto | discriminate ]. }
  clear Hw3.
  set (pred := holds_leafs pf cd w w a foreign).
  (* the elements before the first 16-byte boundary *)
  match goal with
  | |- sim (bind (while_ _ ?c ?b _) _) _ _ _ _ =>
      destruct (sim_while c b
                  (fun (st : Z) k => st = k /\ s <= k <= e)
                  (fun st => Z.to_nat (e - st)) pred)
        with (fuel := Z.to_nat (e - s)) (st := s) (k := s)
        as (final & kf & Hkf & (Hfi & Hkfr) & Hcf & Hsim)
  end.
  { intros st k (-> & Hk) Hc. apply Bool.andb_true_iff in Hc. destruct Hc as [Hc _].
    apply Z.ltb_lt in Hc.
    exists (k + 1), (k + 1). split; [ lia | ]. split; [ split; [ reflexivity | lia ] | ].
    split; [ lia | ]. cbv zeta.
    apply (sim_bind _ _ tt (true, k + 1) pred k (k + 1) (k + 1)); [ lia | | apply sim_ret_tt ].
    apply (sim_leafs_test pf cd w w a foreign k). lia. }
  { split; [ reflexivity | lia ]. }
  { lia. }
  subst final.
  apply (sim_bind _ _ kf tt pred s kf e); [ lia | exact Hsim | ].
  destruct (Z.eqb_spec kf e) as [-> | Hne]; [ apply sim_ret_tt | ].
  cbv zeta.
  (* the loop was left on a boundary of this payload *)
  assert (Hbound : (m_data_addr a + kf * w / 8) mod 16 = 0).
  { destruct (Z.ltb_spec kf e) as [_ | ]; [ | lia ]. cbn [andb] in Hcf.
    apply Bool.negb_false_iff in Hcf. apply Z.eqb_eq in Hcf.
    unfold to_size_t in Hcf.
    rewrite Z.mod_mod_divide in Hcf by (exists (2 ^ 57); reflexivity).
    change 0xf with (Z.ones 4) in Hcf. rewrite Z.land_ones in Hcf by lia.
    change (2 ^ 4) with 16 in Hcf.
    destruct Hw as [-> | [-> | ->]]; lia_div. }
  assert (Hno : no0 w = w) by (destruct Hw as [-> | [-> | ->]]; reflexivity).
  rewrite Hno.
  set (sse_end := kf + (e - kf) * w / 128 * 128 / w).
  assert (Hend : kf <= sse_end <= e /\ (sse_end - kf) mod (128 / w) = 0 /\ 0 < 128 / w).
  { unfold sse_end. destruct Hw as [-> | [-> | ->]];
      [ change (128 / 8) with 16 | change (128 / 16) with 8 | change (128 / 32) with 4 ];
      lia_div. }
  destruct Hend as (Hend & Hmod & Hc0).
  (* the whole vectors *)
  match goal with
  | |- sim (bind (while_ _ ?c ?b _) _) _ _ _ _ =>
      destruct (sim_while c b
                  (fun (st : Z) k => st = k /\ kf <= k <= sse_end
                                     /\ (sse_end - k) mod (128 / w) = 0
                                     /\ (m_data_addr a + k * w / 8) mod 16 = 0)
                  (fun st => Z.to_nat (sse_end - st)) pred)
        with (fuel := Z.to_nat (e - kf)) (st := kf) (k := kf)
        as (final & kf2 & Hkf2 & (Hfi2 & Hkfr2 & Hmod2 & _) & Hcf2 & Hsim2)
  end.
  { intros st k (-> & Hk & Hm & Hb) Hc. apply Z.ltb_lt in Hc.
    assert (Hstep : k + 128 / w <= sse_end /\ (sse_end - (k + 128 / w)) mod (128 / w) = 0
                    /\ (m_data_addr a + (k + 128 / w) * w / 8) mod 16 = 0).
    { destruct Hw as [-> | [-> | ->]];
        [ change (128 / 8) with 16 in * | change (128 / 16) with 8 in *
        | change (128 / 32) with 4 in * ]; lia_div. }
    assert (Hforeign : (m_data_addr foreign + k * w / 8) mod 16 = 0).
    { revert Hb Hcong. generalize (k * w / 8) (m_data_addr a) (m_data_addr foreign).
      intros x A F Hb Hcong. lia_div. }
    exists (k + 128 / w), (k + 128 / w).
    split; [ lia | ].
    split; [ split; [ reflexivity | split; [ lia | split; apply Hstep ] ] | ].
    split; [ lia | ]. cbv zeta. rewrite Hb, Hforeign. cbn [Z.eqb andb].
    apply (sim_bind _ _ tt (true, k + 128 / w) pred k (k + 128 / w) (k + 128 / w));
      [ lia | | apply sim_ret_tt ].
    apply (sim_sse_pair pf cd w a foreign k Hcd Hw); lia. }
  { split; [ reflexivity | split; [ lia | split; [ exact Hmod | exact Hbound ] ] ]. }
  { lia. }
  subst final.
  apply (sim_bind _ _ kf2 tt pred kf kf2 e); [ lia | exact Hsim2 | ].
  apply sim_leafs_closing; lia.
Qed.

Lemma sim_compare_leafs_4 pf cd w fw a foreign s e :
  cd = Equal \/ cd = NotEqual \/ cd = Greater \/ cd = Less ->
  0 <= s <= e -> e <= imax ->
  (compiler_sse pf && sseavx42 pf && (w =? fw) && ((w =? 8) || (w =? 16) || (w =? 32)) = true ->
   m_data_addr foreign mod 16 = m_data_addr a mod 16) ->
  sim (compare_leafs_4 pf callback action cd w fw a foreign s e baseindex) tt
      (holds_leafs pf cd w fw a foreign) s e.
Proof.
  intros Hcd Hs He Hcong. unfold compare_leafs_4.
  destruct ((w =? 0) && (fw =? 0)) eqn:Hzero;
    [ | apply sim_leafs_vectors; assumption ].
  apply Bool.andb_true_iff in Hzero. destruct Hzero as [Hw Hfw].
  apply Z.eqb_eq in Hw, Hfw. subst w fw.
  assert (Hpred : forall i, holds_leafs pf cd 0 0 a foreign i = cond_c cd 0 0)
    by (intros i; reflexivity).
  destruct (cond_c cd 0 0) eqn:Hc.
  - apply (sim_bind _ _ e tt _ s e e); [ lia | | apply sim_leafs_vectors; try assumption; lia ].
    apply sim_for; [ lia | ]. intros i Hi.
    apply sim_check; [ lia | ]. rewrite Hpred. reflexivity.
  - apply sim_skip; [ lia | ]. intros j _. apply Hpred.
Qed.

(** [compare_leafs] is the naive scan of the pairs of elements. *)
Lemma sim_compare_leafs pf cd a foreign s e :
  cd = Equal \/ cd = NotEqual \/ cd = Greater \/ cd = Less ->
  0 <= s <= e -> e <= imax ->
  (compiler_sse pf && sseavx42 pf && (m_width a =? m_width foreign)
   && ((m_width a =? 8) || (m_width a =? 16) || (m_width a =? 32)) = true ->
   m_data_addr foreign mod 16 = m_data_addr a mod 16) ->
  sim (compare_leafs pf callback action cd a foreign s e baseindex) tt
      (holds_leafs pf cd (m_width a) (m_width foreign) a foreign) s e.
Proof.
  intros Hcd Hs He Hcong. unfold compare_leafs.
  destruct (Z.leb_spec s e) as [_ | ]; [ | lia ]. apply sim_assert.
  destruct (Z.eqb_spec s e) as [-> | Hne]; [ apply sim_ret_tt | ].
  set (pred := holds_leafs pf cd (m_width a) (m_width foreign) a foreign).
  apply (sim_bind _ _ tt tt pred s (s + 1) e); [ lia | | ].
  { apply (sim_leafs_test pf cd (m_width a) (m_width foreign) a foreign s). lia. }
  cbv zeta.
  destruct (Z.ltb_spec (s + 1 + 3) e) as [Hfar | Hnear].
  - apply (sim_bind _ _ tt tt pred (s + 1) (s + 1 + 1) e); [ lia | | ].
    { apply (sim_leafs_test pf cd (m_width a) (m_width foreign) a foreign (s + 1)). lia. }
    apply (sim_bind _ _ tt tt pred (s + 1 + 1) (s + 1 + 1 + 1) e); [ lia | | ].
    { apply (sim_leafs_test pf cd (m_width a) (m_width foreign) a foreign (s + 1 + 1)). lia. }
    apply (sim_bind _ _ tt tt pred (s + 1 + 1 + 1) (s + 1 + 3) e); [ lia | | ].
    { replace (s + 1 + 3) with (s + 1 + 2 + 1) by lia.
      replace (s + 1 + 1 + 1) with (s + 1 + 2) by lia.
      apply (sim_leafs_test pf cd (m_width a) (m_width foreign) a foreign (s + 1 + 2)). lia. }
    apply sim_compare_leafs_4; try assumption; lia.
  - destruct (Z.eqb_spec (s + 1) e) as [<- | Hne1]; [ apply sim_ret_tt | ].
    apply sim_compare_leafs_4; try assumption; lia.
Qed.

(** ** The whole of [find_optimized] *)

(** What is required of the two states when the search is over: [Rfin b o]
    relates them when the scan answered [b] and the kernel came out with [o]. *)
Variable Rfin : bool -> outcome unit -> World C -> W2 -> Prop.

Hypothesis Rfin_go : forall e w1 w2, R e w1 w2 -> Rfin true (Done tt) w1 w2.
Hypothesis Rfin_stop : forall w1 w2, Rstop w1 w2 -> Rfin false ReturnFalse w1 w2.

(** [m] deals with the indices [s], ..., [e - 1] as the naive scan does, and
    the search ends with it. *)
Definition fin (m : M C unit) (pred : Z -> bool) (s e : Z) : Prop :=
  forall w1 w2,
    R s w1 w2 ->
    exists b w2',
      report_all report (matches pred s e) w2 = (b, w2') /\
      Rfin b (fst (m w1)) (snd (m w1)) w2'.

Lemma fin_of_sim (m : M C unit) pred s e : sim m tt pred s e -> fin m pred s e.
Proof.
  intros H w1 w2 HR. destruct (H w1 w2 HR) as (b & w2' & Hrep & HR' & Hres).
  exists b, w2'. split; [ exact Hrep | ]. rewrite Hres.
  destruct b; [ apply (Rfin_go e) | apply Rfin_stop ]; exact HR'.
Qed.

Lemma fin_bind {A} (m : M C A) (f : A -> M C unit) a pred s mid e :
  s <= mid <= e ->
  sim m a pred s mid -> fin (f a) pred mid e -> fin (bind m f) pred s e.
Proof.
  intros Hm H1 H2 w1 w2 HR.
  destruct (H1 w1 w2 HR) as (b1 & w2a & Hrep1 & HR1 & Hres1).
  rewrite (matches_split pred s mid e) by exact Hm. rewrite report_all_app, Hrep1.
  unfold bind. destruct (m w1) as [o w1a]. cbn [fst snd] in *. subst o.
  destruct b1.
  - destruct (H2 w1a w2a HR1) as (b2 & w2b & Hrep2 & HR2).
    exists b2, w2b. split; assumption.
  - exists false, w2a. cbn [fst snd]. split; [ reflexivity | ]. apply Rfin_stop. exact HR1.
Qed.

Lemma fin_assert (f : unit -> M C unit) pred s e :
  fin (f tt) pred s e -> fin (bind (assert_ true) f) pred s e.
Proof. intros H w1 w2 HR. apply (H w1 w2 HR). Qed.

(** The branch of [find_optimized] taken when every element of the array
    matches. *)
Definition bulk_delivery (pf : Platform) (bitwidth : Z) (a : Array) (start2 end_ : Z)
  : M C unit :=
  end2 <-
    (match action with
     | act_CallbackIdx => ret end_
     | _ =>
         s <- read_qs ;;
         let process := to_size_t (m_limit s - m_match_count s) in
         ret (if end_ - start2 >? process then start2 + process else end_)
     end) ;;
  match action with
  | act_Sum | act_Max | act_Min =>
      let '(res, res_ndx) :=
        match action with
        | act_Sum => (Array_sum pf a start2 end2, 0)
        | act_Max => Array_minmax pf true a start2 end2
        | _ => Array_minmax pf false a start2 end2
        end in
      _ <- call (find_action action callback (to_size_t (res_ndx + baseindex)) (Some res)) ;;
      modify_qs (fun s =>
        mkQueryState (m_state s)
                     (to_size_t (m_match_count s + to_size_t (end2 - start2 - 1)))
                     (m_limit s) (m_minmax_index s))
  | act_Count =>
      modify_qs (fun s =>
        mkQueryState (to_int64 (m_state s + (end2 - start2)))
                     (m_match_count s) (m_limit s) (m_minmax_index s))
  | _ =>
      for_ start2 end2 (fun start2 =>
        check (find_action action callback (to_size_t (start2 + baseindex))
                            (Some (get pf bitwidth a start2)))) ;;
      ret tt
  end.

Lemma sim_leading_test pf cd w a value i end_ s e :
  0 <= i -> end_ <= m_size a -> end_ <= imax ->
  s = Z.min i end_ -> e = Z.min (i + 1) end_ ->
  sim (leading_test pf callback action cd w a value i end_ baseindex) tt
      (holds pf cd w a value) s e.
Proof.
  intros Hi Hsz He -> ->. unfold leading_test.
  destruct (Z.ltb_spec i end_) as [Hlt | Hge].
  - replace (Z.min i end_) with i by lia. replace (Z.min (i + 1) end_) with (i + 1) by lia.
    destruct (Z.gtb_spec (m_size a) i); [ | lia ]. rewrite andb_true_l, andb_true_r.
    apply sim_test; [ lia | reflexivity ].
  - rewrite andb_false_r.
    replace (Z.min i end_) with end_ by lia. replace (Z.min (i + 1) end_) with end_ by lia.
    apply sim_ret_tt.
Qed.

(** The search with vectors between two scalar searches. *)
Lemma sim_sse_path pf cd a value s2 end_ :
  four_conds cd -> byte_width (m_width a) -> (cd = Less -> m_width a <> 64) ->
  sseavx42 pf = true \/ (sseavx30 pf = true /\ cd = Equal) ->
  0 <= m_data_addr a -> m_data_addr a mod 8 = 0 ->
  0 <= s2 -> 16 <= end_ - s2 -> end_ <= m_size a -> end_ <= imax ->
  lbound_for_width (m_width a) <= value <= ubound_for_width (m_width a) ->
  sim (let a_ := round_up (m_data_addr a + s2 * m_width a / 8) 16 in
       let b_ := round_down (m_data_addr a + end_ * m_width a / 8) 16 in
       compare pf callback action cd (m_width a) a value s2
               ((a_ - m_data_addr a) * 8 / no0 (m_width a)) baseindex ;;
       (if b_ >? a_ then
          if sseavx42 pf then
            find_sse pf callback action cd (m_width a) a value (a_ - m_data_addr a)
                     ((b_ - a_) / 16)
                     (to_size_t (baseindex + (a_ - m_data_addr a) * 8 / no0 (m_width a)))
          else if sseavx30 pf then
            find_sse pf callback action Equal (m_width a) a value (a_ - m_data_addr a)
                     ((b_ - a_) / 16)
                     (to_size_t (baseindex + (a_ - m_data_addr a) * 8 / no0 (m_width a)))
          else ret tt
        else ret tt) ;;
       compare pf callback action cd (m_width a) a value
               ((b_ - m_data_addr a) * 8 / no0 (m_width a)) end_ baseindex)
      tt (holds pf cd (m_width a) a value) s2 end_.
Proof.
  intros Hcd Hw Hless Hsse Haddr Hal Hs2 Hlen Hsz He Hv.
  set (w := m_width a) in *.
  destruct (sse_split w (m_data_addr a) s2 end_ Hw Haddr Hal Hs2 Hlen)
    as (Had & Hadw & Hai & Hsai & Hab & Hitems & Hbi & Hbe).
  cbv zeta in Had, Hadw, Hai, Hsai, Hab, Hitems, Hbi, Hbe |- *.
  set (a_ := round_up (m_data_addr a + s2 * w / 8) 16) in *.
  set (b_ := round_down (m_data_addr a + end_ * w / 8) 16) in *.
  assert (Hwok : width_ok w) by (unfold byte_width in Hw; unfold width_ok; tauto).
  destruct (byte_width_facts w Hw) as (_ & _ & _ & _ & _ & _ & _ & _ & _ & Hn).
  destruct (byte_width_bounds w Hw) as [Hlb Hub].
  rewrite Hai, Hbi.
  set (ai := 8 * (a_ - m_data_addr a) / w) in *.
  set (items := (b_ - a_) / 16) in *.
  assert (Hmid : ai <= ai + items * (128 / w)) by nia.
  apply (sim_bind _ _ tt tt _ s2 ai end_); [ lia | apply sim_compare; try assumption; lia | ].
  apply (sim_bind _ _ tt tt _ ai (ai + items * (128 / w)) end_); [ lia | | ].
  - destruct (Z.gtb_spec b_ a_) as [Hgt | Hle].
    + assert (Hbi' : forall k, to_size_t (k + to_size_t (baseindex + ai))
                               = to_size_t (ai + k + baseindex)).
      { intros k. rewrite to_size_t_add_r. f_equal. lia. }
      destruct Hsse as [H42 | [H30 ->]].
      * rewrite H42. apply sim_find_sse; try assumption; try lia.
      * destruct (sseavx42 pf); [ | rewrite H30 ]; apply sim_find_sse; try assumption; try lia.
    + assert (b_ = a_) by lia. unfold items.
      replace (b_ - a_) with 0 by lia. change (0 / 16) with 0.
      rewrite Z.mul_0_l, Z.add_0_r. apply sim_ret_tt.
  - apply sim_compare; try assumption; lia.
Qed.

(** [find_optimized] on a non-nullable array deals with the indices [start],
    ..., [end_ - 1] as the naive scan does. *)
Lemma fin_find_optimized pf cd a value start end_ :
  four_conds cd ->
  m_width a = 0 \/ width_ok (m_width a) ->
  m_lbound a = lbound_for_width (m_width a) -> m_ubound a = ubound_for_width (m_width a) ->
  0 <= m_data_addr a -> m_data_addr a mod 8 = 0 ->
  0 <= start <= end_ -> end_ <= m_size a -> m_size a <= imax -> m_size a < npos ->
  (forall s e, 0 <= s < e -> e <= m_size a ->
     (forall j, s <= j < e -> holds pf cd (m_width a) a value j = true) ->
     fin (bulk_delivery pf (m_width a) a s e) (holds pf cd (m_width a) a value) s e) ->
  fin (find_optimized pf callback action cd (m_width a) a value start end_ baseindex
                      false false)
      (holds pf cd (m_width a) a value) start end_.
Proof.
  intros Hcd Hw Hlb Hub Haddr Hal Hse Hsz Himax Hnpos Hbulk.
  set (pred := holds pf cd (m_width a) a value) in *.
  unfold find_optimized. change (negb (false && negb false)) with true.
  apply fin_assert. cbv beta iota zeta.
  assert (Hne : (end_ =? npos) = false) by (apply Z.eqb_neq; lia).
  destruct (end_ =? npos) eqn:Hne1; [ discriminate | ]. cbv iota.
  destruct (end_ =? npos) eqn:Hne2; [ discriminate | ]. cbv iota. clear Hne Hne1.
  match goal with
  | |- fin (bind ?lead ?rest) _ _ _ =>
      assert (Hrest : forall s2, start <= s2 -> fin (rest s2) pred (Z.min s2 end_) end_)
  end.
  { intros s2 Hs2. cbv beta.
    destruct ((m_size a >? s2) && (s2 <? end_)) eqn:Hin; cbn [negb].
    2:{ replace (Z.min s2 end_) with end_.
        - apply fin_of_sim. apply sim_ret_tt.
        - apply andb_false_iff in Hin. destruct Hin as [Hin | Hin].
          + destruct (Z.gtb_spec (m_size a) s2); [ discriminate | lia ].
          + destruct (Z.ltb_spec s2 end_); [ discriminate | lia ]. }
    apply andb_true_iff in Hin. destruct Hin as [_ Hin]. apply Z.ltb_lt in Hin.
    replace (Z.min s2 end_) with s2 by lia.
    rewrite Hlb, Hub.
    assert (Hb : forall j, s2 <= j < end_ ->
              lbound_for_width (m_width a) <= get pf (m_width a) a j
              <= ubound_for_width (m_width a)).
    { intros j Hj. apply get_bounds0; [ exact Hw | lia ]. }
    destruct (can_match cd value (lbound_for_width (m_width a)) (ubound_for_width (m_width a)))
      eqn:Hcan; cbn [negb].
    2:{ apply fin_of_sim. apply sim_skip; [ lia | ].
        intros j Hj. unfold pred, holds.
        apply (can_match_false cd value _ _ _ Hcd Hcan). apply Hb. exact Hj. }
    destruct (will_match cd value (lbound_for_width (m_width a)) (ubound_for_width (m_width a)))
      eqn:Hwill.
    { apply (Hbulk s2 end_); [ lia | lia | ].
      intros j Hj. unfold pred, holds.
      apply (will_match_true cd value _ _ _ Hcd Hwill). apply Hb. exact Hj. }
    assert (Hwok : width_ok (m_width a)).
    { destruct Hw as [H0 | Hok]; [ exfalso | exact Hok ].
      rewrite H0 in Hcan, Hwill. change (lbound_for_width 0) with 0 in *.
      change (ubound_for_width 0) with 0 in *.
      rewrite (neither_nonzero cd value Hcd Hcan) in Hwill. discriminate. }
    assert (Hv : lbound_for_width (m_width a) <= value <= ubound_for_width (m_width a)).
    { apply (neither_in_range cd); try assumption. apply bounds_ordered. exact Hw. }
    replace (negb (m_width a =? 0)) with true.
    2:{ symmetry. apply negb_true_iff, Z.eqb_neq.
        destruct Hwok as [-> | [-> | [-> | [-> | [-> | [-> | ->]]]]]]; lia. }
    apply fin_assert. apply fin_of_sim.
    destruct (compiler_sse pf
              && (negb (is_same cd cond_Less && (m_width a =? 64))
                  && (end_ - s2 >=? 16) && (m_width a >=? 8)
                  && (sseavx42 pf || (sseavx30 pf && is_same cd cond_Equal && (m_width a <? 64)))))
      eqn:Hsse.
    - apply andb_true_iff in Hsse. destruct Hsse as [_ Hsse].
      apply andb_true_iff in Hsse. destruct Hsse as [Hsse Hav].
      apply andb_true_iff in Hsse. destruct Hsse as [Hsse Hw8].
      apply andb_true_iff in Hsse. destruct Hsse as [Hnl Hlen].
      apply Z.geb_le in Hlen, Hw8.
      assert (Hbw : byte_width (m_width a)).
      { unfold byte_width. destruct Hwok as [H | [H | [H | H]]]; [ lia | lia | lia | tauto ]. }
      apply sim_sse_path; try assumption; try lia.
      + intros -> H64. rewrite H64 in Hnl. discriminate.
      + apply orb_true_iff in Hav. destruct Hav as [H42 | H30]; [ left; exact H42 | right ].
        apply andb_true_iff in H30. destruct H30 as [H30 _].
        apply andb_true_iff in H30. destruct H30 as [H30 Heq].
        split; [ exact H30 | ].
        destruct Hcd as [-> | [-> | [-> | ->]]]; [ reflexivity | discriminate .. ].
    - apply sim_compare; try assumption; lia. }
  destruct (Z.gtb_spec start 0) as [Hpos | Hzero].
  - apply (fin_bind _ _ (start + 1 + 1 + 1 + 1) _ start (Z.min (start + 1 + 1 + 1 + 1) end_) end_);
      [ lia | | apply Hrest; lia ].
    apply (sim_bind _ _ tt _ _ start (Z.min (start + 1) end_)); [ lia | | ].
    { apply sim_leading_test; lia. }
    apply (sim_bind _ _ tt _ _ _ (Z.min (start + 1 + 1) end_)); [ lia | | ].
    { apply sim_leading_test; lia. }
    apply (sim_bind _ _ tt _ _ _ (Z.min (start + 1 + 1 + 1) end_)); [ lia | | ].
    { apply sim_leading_test; lia. }
    apply (sim_bind _ _ tt _ _ _ (Z.min (start + 1 + 1 + 1 + 1) end_)); [ lia | | ].
    { apply sim_leading_test; lia. }
    apply sim_ret_tt.
  - apply (fin_bind _ _ start _ start start end_); [ lia | apply sim_ret_tt | ].
    pose proof (Hrest start ltac:(lia)) as H.
    replace (Z.min start end_) with start in H by lia. exact H.
Qed.

End Simulation.

(** ** [act_FindAll]: the kernel is the naive scan *)

(** A state in which the search may go on: fewer matches than the limit. *)
Definition state_ok (s : QueryState) : Prop :=
  0 <= m_match_count s < m_limit s /\ m_limit s < 2 ^ 64.

(** What the naive scan does with a match under [act_FindAll]:
    [find_action(i + baseindex, get(i))]. *)
Definition report_FindAll {C} (pf : Platform) (callback : Z -> C -> bool * C) (a : Array)
    (baseindex : Z) (i : Z) : World C -> bool * World C :=
  find_action act_FindAll callback (to_size_t (i + baseindex)) (Some (get_dyn pf a i)).

Lemma find_action_FindAll {C} (callback : Z -> C -> bool * C) idx v (w : World C) :
  find_action act_FindAll callback idx (Some v) w
  = (m_limit (qs w) >? to_size_t (m_match_count (qs w) + 1),
     mkWorld (mkQueryState (m_state (qs w)) (to_size_t (m_match_count (qs w) + 1))
                           (m_limit (qs w)) (m_minmax_index (qs w)))
             (column w ++ [to_int64 idx]) (cb w)
             (calls w ++ [(idx, m_limit (qs w) >? to_size_t (m_match_count (qs w) + 1))])).
Proof. reflexivity. Qed.

Lemma matches_from_all pred n :
  forall i, (forall j, i <= j < i + Z.of_nat n -> pred j = true) ->
            length (matches_from pred n i) = n.
Proof.
  induction n as [ | n IH ]; intros i H; cbn [matches_from]; [ reflexivity | ].
  rewrite (H i) by lia. cbn [length]. rewrite IH; [ reflexivity | ].
  intros j Hj. apply H. lia.
Qed.

Lemma matches_all pred s e :
  s <= e -> (forall j, s <= j < e -> pred j = true) ->
  Z.of_nat (length (matches pred s e)) = e - s.
Proof.
  intros Hse H. unfold matches. rewrite matches_from_all; [ lia | ].
  intros j Hj. apply H. lia.
Qed.

(** Delivery of a list of matches under [act_FindAll]: the count grows by one
    per match until it reaches the limit, where delivery stops. *)
Lemma report_all_FindAll {C} pf (callback : Z -> C -> bool * C) a baseindex js :
  forall w : World C,
    state_ok (qs w) ->
    let r := report_all (report_FindAll pf callback a baseindex) js w in
    m_limit (qs (snd r)) = m_limit (qs w) /\
    m_match_count (qs (snd r))
      = Z.min (m_match_count (qs w) + Z.of_nat (length js)) (m_limit (qs w)) /\
    (fst r = true <-> m_match_count (qs w) + Z.of_nat (length js) < m_limit (qs w)) /\
    Z.of_nat (length (column (snd r)))
      = Z.of_nat (length (column w)) + (m_match_count (qs (snd r)) - m_match_count (qs w)) /\
    (m_match_count (qs w) + Z.of_nat (length js) <= m_limit (qs w) ->
     column (snd r)
       = column w ++ map (fun i => to_int64 (to_size_t (i + baseindex))) js).
Proof.
  induction js as [ | j js IH ]; intros w Hok; cbv zeta.
  - cbn [report_all fst snd length map]. destruct Hok as [Hc Hl].
    rewrite Z.add_0_r, app_nil_r. repeat split; intros; try reflexivity; lia.
  - destruct Hok as [Hc Hl].
    set (w' := mkWorld (mkQueryState (m_state (qs w)) (m_match_count (qs w) + 1)
                                     (m_limit (qs w)) (m_minmax_index (qs w)))
                       (column w ++ [to_int64 (to_size_t (j + baseindex))]) (cb w)
                       (calls w ++ [(to_size_t (j + baseindex),
                                     m_limit (qs w) >? m_match_count (qs w) + 1)])).
    assert (Hrun : report_all (report_FindAll pf callback a baseindex) (j :: js) w
                   = if m_limit (qs w) >? m_match_count (qs w) + 1
                     then report_all (report_FindAll pf callback a baseindex) js w'
                     else (false, w')).
    { cbn [report_all]. unfold report_FindAll at 1. rewrite find_action_FindAll.
      rewrite (to_size_t_small (m_match_count (qs w) + 1)) by lia. reflexivity. }
    rewrite Hrun. clear Hrun.
    destruct (Z.gtb_spec (m_limit (qs w)) (m_match_count (qs w) + 1)) as [Hgo | Hstop].
    + 
      assert (Hok' : state_ok (qs w')) by (unfold state_ok, w'; cbn [qs m_match_count m_limit]; lia).
      destruct (IH w' Hok') as (IH1 & IH2 & IH3 & IH4 & IH5). clear IH.
      change (m_limit (qs w')) with (m_limit (qs w)) in *.
      change (m_match_count (qs w')) with (m_match_count (qs w) + 1) in *.
      change (column w') with (column w ++ [to_int64 (to_size_t (j + baseindex))]) in *.
      rewrite length_app in IH4. cbn [length map] in *.
      split; [ exact IH1 | ]. split; [ rewrite IH2; f_equal; lia | ].
      split; [ rewrite IH3; lia | ]. split; [ lia | ].
      intros Hfit. rewrite IH5 by lia. rewrite <- app_assoc. reflexivity.
    + cbn [fst snd]. unfold w'. cbn [qs column m_match_count m_limit length map].
      split; [ reflexivity | ]. split; [ lia | ].
      split; [ split; [ discriminate | lia ] | ]. split.
      * rewrite length_app. cbn [length]. lia.
      * intros Hfit. assert (Hnil : js = []) by (destruct js; [ reflexivity | cbn [length] in Hfit; lia ]).
        subst js. reflexivity.
Qed.

Section FindAllInstance.

Context {C : Type}.
Variable pf : Platform.
Variable callback : Z -> C -> bool * C.
Variable a : Array.
Variable baseindex : Z.

Let report := report_FindAll pf callback a baseindex.
Let R (i : Z) (w1 w2 : World C) : Prop := w1 = w2 /\ state_ok (qs w1).
Let Rstop (w1 w2 : World C) : Prop := w1 = w2.
Let Rfin (b : bool) (o : outcome unit) (w1 w2 : World C) : Prop :=
  w1 = w2 /\ o = if b then Done tt else ReturnFalse.

Lemma FindAll_R_mono : forall i j w1 w2, i <= j -> R i w1 w2 -> R j w1 w2.
Proof. intros i j w1 w2 _ H. exact H. Qed.

Lemma FindAll_R_step :
  forall i v w1 w2,
    0 <= i < m_size a -> R i w1 w2 ->
    fst (find_action act_FindAll callback (to_size_t (i + baseindex)) (Some v) w1)
    = fst (report i w2) /\
    (if fst (report i w2)
     then R (i + 1) (snd (find_action act_FindAll callback (to_size_t (i + baseindex)) (Some v) w1))
                    (snd (report i w2))
     else Rstop (snd (find_action act_FindAll callback (to_size_t (i + baseindex)) (Some v) w1))
                (snd (report i w2))).
Proof.
  intros i v w1 w2 Hi [<- [Hc Hl]]. unfold report, report_FindAll.
  rewrite !find_action_FindAll. cbn [fst snd]. split; [ reflexivity | ].
  rewrite (to_size_t_small (m_match_count (qs w1) + 1)) by lia.
  destruct (Z.gtb_spec (m_limit (qs w1)) (m_match_count (qs w1) + 1)).
  - split; [ reflexivity | ]. split; cbn [qs m_match_count m_limit]; lia.
  - reflexivity.
Qed.

Lemma FindAll_declines (w : World C) : declines callback act_FindAll w.
Proof. intros idx p. reflexivity. Qed.

Lemma FindAll_bulk cd value s e :
  0 <= s < e -> e <= m_size a ->
  (forall j, s <= j < e -> holds pf cd (m_width a) a value j = true) ->
  fin report R Rfin (bulk_delivery callback act_FindAll baseindex pf (m_width a) a s e)
      (holds pf cd (m_width a) a value) s e.
Proof.
  intros Hse He Hall w1 w2 [<- Hok]. pose proof Hok as [Hc Hl].
  set (pred := holds pf cd (m_width a) a value) in *.
  set (process := to_size_t (m_limit (qs w1) - m_match_count (qs w1))).
  set (end2 := if e - s >? process then s + process else e).
  assert (Hprocess : process = m_limit (qs w1) - m_match_count (qs w1))
    by (apply to_size_t_small; lia).
  assert (Hend2 : s <= end2 <= e) by (unfold end2; destruct (Z.gtb_spec (e - s) process); lia).
  assert (Hrun : bulk_delivery callback act_FindAll baseindex pf (m_width a) a s e w1
                 = bind (for_ s end2 (fun start2 =>
                           check (find_action act_FindAll callback (to_size_t (start2 + baseindex))
                                              (Some (get pf (m_width a) a start2)))))
                        (fun _ => ret tt) w1) by reflexivity.
  rewrite Hrun. clear Hrun.
  assert (Hsim : sim report R Rstop
                   (for_ s end2 (fun start2 =>
                      check (find_action act_FindAll callback (to_size_t (start2 + baseindex))
                                         (Some (get pf (m_width a) a start2)))))
                   end2 pred s end2).
  { apply (sim_for report R Rstop FindAll_R_mono); [ lia | ].
    intros i Hi. apply (sim_check callback act_FindAll baseindex report R Rstop (m_size a));
      [ exact FindAll_R_step | lia | apply Hall; lia ]. }
  destruct (Hsim w1 w1 (conj eq_refl Hok)) as (b & w2' & Hrep & HR & Hres).
  pose proof (report_all_FindAll pf callback a baseindex (matches pred s end2) w1 Hok) as Hcount.
  cbv zeta in Hcount. fold report in Hcount. rewrite Hrep in Hcount. cbn [fst snd] in Hcount.
  destruct Hcount as (_ & _ & Hb & _).
  rewrite (matches_all pred s end2) in Hb by (try lia; intros j Hj; apply Hall; lia).
  rewrite (matches_split pred s end2 e) by lia. rewrite report_all_app, Hrep.
  unfold bind. destruct (for_ s end2 _ w1) as [o w1']. cbn [fst snd] in *. subst o.
  destruct b.
  - (* the loop ran to its end, which is the end of the range *)
    assert (end2 = e).
    { unfold end2 in *. destruct (Z.gtb_spec (e - s) process); [ | reflexivity ].
      destruct Hb as [Hb _]. specialize (Hb eq_refl). lia. }
    subst end2. replace (matches pred e e) with (@nil Z)
      by (unfold matches; rewrite Z.sub_diag; reflexivity).
    rewrite H. unfold matches at 1. rewrite Z.sub_diag. cbn [Z.to_nat matches_from report_all].
    exists true, w2'. destruct HR as [-> _]. split; [ reflexivity | split; reflexivity ].
  - exists false, w2'. split; [ reflexivity | ]. split; [ exact HR | reflexivity ].
Qed.

(** The kernel under [act_FindAll] and the naive scan reach the same state and
    return the same value. *)
Lemma find_FindAll_scan cd value start end_ (w : World C) :
  four_conds cd ->
  m_width a = 0 \/ width_ok (m_width a) ->
  m_lbound a = lbound_for_width (m_width a) -> m_ubound a = ubound_for_width (m_width a) ->
  0 <= m_data_addr a -> m_data_addr a mod 8 = 0 ->
  0 <= start <= end_ -> end_ <= m_size a -> m_size a < npos ->
  state_ok (qs w) ->
  find pf callback act_FindAll cd a value start end_ baseindex false false w
  = (Done (fst (scan (holds pf cd (m_width a) a value) report start end_ w)),
     snd (scan (holds pf cd (m_width a) a value) report start end_ w)).
Proof.
  intros Hcd Hw Hlb Hub Haddr Hal Hse Hsz Hnpos Hok.
  destruct (fin_find_optimized callback act_FindAll baseindex report R Rstop (m_size a)
              FindAll_R_mono FindAll_R_step
              (fun i w1 w2 _ _ => or_introl (FindAll_declines w1))
              (fun i v w1 w2 _ _ _ _ => FindAll_declines _)
              Rfin
              (fun e w1 w2 (H : R e w1 w2) => conj (proj1 H) eq_refl)
              (fun w1 w2 (H : Rstop w1 w2) => conj H eq_refl)
              pf cd a value start end_ Hcd Hw Hlb Hub Haddr Hal Hse Hsz (Z.le_refl _) Hnpos
              (fun s e Hs He Hall => FindAll_bulk cd value s e Hs He Hall)
              w w (conj eq_refl Hok))
    as (b & w2' & Hrep & Heq & Hout).
  rewrite scan_report_all, Hrep. cbn [fst snd].
  unfold find, returns.
  destruct (find_optimized pf callback act_FindAll cd (m_width a) a value start end_ baseindex
              false false w) as [o w']. cbn [fst snd] in *. subst o w2'.
  destruct b; reflexivity.
Qed.

End FindAllInstance.

(** ** [act_Count]: as many as [act_FindAll] reports *)

Lemma find_action_Count {C} (callback : Z -> C -> bool * C) idx v (w : World C) :
  find_action act_Count callback idx (Some v) w
  = (m_limit (qs w) >? to_size_t (to_int64 (m_state (qs w) + 1)),
     mkWorld (mkQueryState (to_int64 (m_state (qs w) + 1))
                           (to_size_t (to_int64 (m_state (qs w) + 1)))
                           (m_limit (qs w)) (m_minmax_index (qs w)))
             (column w) (cb w)
             (calls w ++ [(idx, m_limit (qs w) >? to_size_t (to_int64 (m_state (qs w) + 1)))])).
Proof. reflexivity. Qed.

Lemma find_action_pattern_Count {C} (callback : Z -> C -> bool * C) idx p (w : World C) :
  find_action_pattern act_Count callback idx p w
  = if to_size_t (m_match_count (qs w) + 64) >=? m_limit (qs w) then (false, w)
    else (true,
          set_qs w (mkQueryState (to_int64 (m_state (qs w) + fast_popcount64 p))
                                 (to_size_t (to_int64 (m_state (qs w) + fast_popcount64 p)))
                                 (m_limit (qs w)) (m_minmax_index (qs w)))).
Proof. reflexivity. Qed.

Section CountInstance.

Context {C : Type}.
Variable pf : Platform.
Variable callback : Z -> C -> bool * C.
Variable a : Array.
Variable baseindex : Z.

Hypothesis size_bound : m_size a < 2 ^ 63.

Let report := report_FindAll pf callback a baseindex.

(** The counting state and the collecting state after the same elements: the
    same limit, and the count of the one is the number of matches of the
    other, which is at most the number of elements dealt with. *)
Let R (i : Z) (wC wF : World C) : Prop :=
  m_limit (qs wC) = m_limit (qs wF) /\
  m_state (qs wC) = m_match_count (qs wF) /\
  m_match_count (qs wC) = m_match_count (qs wF) /\
  state_ok (qs wF) /\ m_match_count (qs wF) <= i.
Let Rstop (wC wF : World C) : Prop := m_state (qs wC) = m_match_count (qs wF).
Let Rfin (b : bool) (o : outcome unit) (wC wF : World C) : Prop :=
  m_state (qs wC) = m_match_count (qs wF).

Lemma Count_R_mono : forall i j w1 w2, i <= j -> R i w1 w2 -> R j w1 w2.
Proof. intros i j w1 w2 Hij (H1 & H2 & H3 & H4 & H5). repeat split; try assumption; try apply H4. lia. Qed.

Lemma Count_R_step :
  forall i v w1 w2,
    0 <= i < m_size a -> R i w1 w2 ->
    fst (find_action act_Count callback (to_size_t (i + baseindex)) (Some v) w1)
    = fst (report i w2) /\
    (if fst (report i w2)
     then R (i + 1) (snd (find_action act_Count callback (to_size_t (i + baseindex)) (Some v) w1))
                    (snd (report i w2))
     else Rstop (snd (find_action act_Count callback (to_size_t (i + baseindex)) (Some v) w1))
                (snd (report i w2))).
Proof.
  intros i v w1 w2 Hi (HL & Hst & Hmc & [Hc Hl] & Hci). unfold report, report_FindAll.
  rewrite find_action_Count, find_action_FindAll. cbn [fst snd].
  rewrite Hst, HL.
  rewrite (to_int64_small (m_match_count (qs w2) + 1)) by (rewrite two_p_63 in *; lia).
  rewrite (to_size_t_small (m_match_count (qs w2) + 1)) by lia.
  split; [ reflexivity | ].
  destruct (Z.gtb_spec (m_limit (qs w2)) (m_match_count (qs w2) + 1)).
  - unfold R, state_ok. cbn [qs m_state m_match_count m_limit]. repeat split; lia.
  - unfold Rstop. cbn [qs m_state m_match_count]. reflexivity.
Qed.

Lemma Count_R_pattern :
  forall i w1 w2, 0 <= i -> R i w1 w2 ->
    declines callback act_Count w1 \/ consumes callback act_Count report R (m_size a) i w1 w2.
Proof.
  intros i w1 w2 Hi (HL & Hst & Hmc & [Hc Hl] & Hci).
  destruct (to_size_t (m_match_count (qs w1) + 64) >=? m_limit (qs w1)) eqn:Hnear.
  - left. intros idx p. rewrite find_action_pattern_Count, Hnear. reflexivity.
  - right. intros idx p js n Hlen Hle Hin.
    pose proof (fast_popcount64_range p) as Hpop.
    rewrite Hmc, HL in Hnear.
    assert (Hi63 : i + n < 2 ^ 63) by lia. rewrite two_p_63 in Hi63.
    rewrite to_size_t_small in Hnear by (rewrite two_p_64; lia).
    destruct (Z.geb_spec (m_match_count (qs w2) + 64) (m_limit (qs w2))); [ discriminate | ].
    pose proof (report_all_FindAll pf callback a baseindex js w2 (conj Hc Hl)) as Hrep.
    cbv zeta in Hrep. fold report in Hrep.
    destruct (report_all report js w2) as [b w2'] eqn:Hrun. cbn [fst snd] in Hrep.
    destruct Hrep as (HL' & Hcount & Hb & _).
    assert (b = true) by (apply Hb; lia). subst b.
    eexists. exists w2'. split; [ | split; [ reflexivity | ] ].
    + rewrite find_action_pattern_Count, Hmc, HL.
      rewrite to_size_t_small by (rewrite two_p_64; lia).
      destruct (Z.geb_spec (m_match_count (qs w2) + 64) (m_limit (qs w2))); [ lia | reflexivity ].
    + unfold R, state_ok. cbn [set_qs qs m_state m_match_count m_limit].
      rewrite Hst, HL', Hcount.
      rewrite (to_int64_small (m_match_count (qs w2) + fast_popcount64 p)) by (rewrite two_p_63; lia).
      rewrite to_size_t_small by (rewrite two_p_64; lia).
      repeat split; lia.
Qed.

Lemma Count_declines_stable :
  forall i v w1 w2,
    0 <= i < m_size a -> R i w1 w2 -> declines callback act_Count w1 ->
    fst (find_action act_Count callback (to_size_t (i + baseindex)) (Some v) w1) = true ->
    declines callback act_Count
             (snd (find_action act_Count callback (to_size_t (i + baseindex)) (Some v) w1)).
Proof.
  intros i v w1 w2 Hi (HL & Hst & Hmc & [Hc Hl] & Hci) Hd _.
  specialize (Hd 0 0). rewrite find_action_pattern_Count in Hd.
  rewrite Hmc, HL in Hd.
  rewrite to_size_t_small in Hd by (rewrite two_p_64, two_p_63 in *; lia).
  destruct (Z.geb_spec (m_match_count (qs w2) + 64) (m_limit (qs w2))) as [Hnear | ];
    [ | discriminate ].
  intros idx p. rewrite find_action_pattern_Count, find_action_Count.
  cbn [snd qs m_match_count m_limit]. rewrite Hst, HL.
  rewrite (to_int64_small (m_match_count (qs w2) + 1)) by (rewrite two_p_63 in *; lia).
  rewrite (to_size_t_small (m_match_count (qs w2) + 1)) by lia.
  rewrite to_size_t_small by (rewrite two_p_64, two_p_63 in *; lia).
  destruct (Z.geb_spec (m_match_count (qs w2) + 1 + 64) (m_limit (qs w2))); [ reflexivity | lia ].
Qed.

Lemma Count_bulk cd value s e :
  0 <= s < e -> e <= m_size a ->
  (forall j, s <= j < e -> holds pf cd (m_width a) a value j = true) ->
  fin report R Rfin (bulk_delivery callback act_Count baseindex pf (m_width a) a s e)
      (holds pf cd (m_width a) a value) s e.
Proof.
  intros Hse He Hall w1 w2 (HL & Hst & Hmc & [Hc Hl] & Hci).
  pose proof (report_all_FindAll pf callback a baseindex
                (matches (holds pf cd (m_width a) a value) s e) w2 (conj Hc Hl)) as Hrep.
  cbv zeta in Hrep. fold report in Hrep.
  destruct (report_all report (matches (holds pf cd (m_width a) a value) s e) w2)
    as [b w2'] eqn:Hrun. cbn [fst snd] in Hrep.
  destruct Hrep as (_ & Hcount & _).
  rewrite (matches_all _ s e) in Hcount by (try lia; exact Hall).
  exists b, w2'. split; [ reflexivity | ].
  unfold Rfin. rewrite Hcount.
  change (m_state (qs (snd (bulk_delivery callback act_Count baseindex pf (m_width a) a s e w1))))
    with (to_int64 (m_state (qs w1)
                    + ((if e - s >? to_size_t (m_limit (qs w1) - m_match_count (qs w1))
                        then s + to_size_t (m_limit (qs w1) - m_match_count (qs w1))
                        else e) - s))).
  rewrite Hst, Hmc, HL.
  rewrite (to_size_t_small (m_limit (qs w2) - m_match_count (qs w2))) by lia.
  rewrite two_p_63 in size_bound.
  destruct (Z.gtb_spec (e - s) (m_limit (qs w2) - m_match_count (qs w2)));
    rewrite to_int64_small by (rewrite two_p_63; lia); lia.
Qed.

(** The count the kernel leaves under [act_Count] is the number of matches the
    naive scan has delivered under [act_FindAll]. *)
Lemma find_Count_scan cd value start end_ (wC wF : World C) :
  four_conds cd ->
  m_width a = 0 \/ width_ok (m_width a) ->
  m_lbound a = lbound_for_width (m_width a) -> m_ubound a = ubound_for_width (m_width a) ->
  0 <= m_data_addr a -> m_data_addr a mod 8 = 0 ->
  0 <= start <= end_ -> end_ <= m_size a ->
  R start wC wF ->
  m_state (qs (snd (find pf callback act_Count cd a value start end_ baseindex false false wC)))
  = m_match_count (qs (snd (scan (holds pf cd (m_width a) a value) report start end_ wF))).
Proof.
  intros Hcd Hw Hlb Hub Haddr Hal Hse Hsz HR.
  assert (Hnpos : m_size a < npos).
  { rewrite two_p_63 in size_bound. change npos with 18446744073709551615. lia. }
  destruct (fin_find_optimized callback act_Count baseindex report R Rstop (m_size a)
              Count_R_mono Count_R_step Count_R_pattern Count_declines_stable
              Rfin
              (fun e w1 w2 (H : R e w1 w2) => proj1 (proj2 H))
              (fun w1 w2 (H : Rstop w1 w2) => H)
              pf cd a value start end_ Hcd Hw Hlb Hub Haddr Hal Hse Hsz (Z.le_refl _) Hnpos
              (fun s e Hs He Hall => Count_bulk cd value s e Hs He Hall)
              wC wF HR)
    as (b & w2' & Hrep & Hfin).
  rewrite scan_report_all, Hrep. cbn [snd].
  unfold Rfin in Hfin. rewrite <- Hfin.
  unfold find, returns.
  destruct (find_optimized pf callback act_Count cd (m_width a) a value start end_ baseindex
              false false wC) as [[ | | | ] w']; reflexivity.
Qed.

End CountInstance.

(** ** The two searches on arrays as the accessor keeps them *)

(** What the accessor maintains for an attached array: a width among the eight
    packing widths, [m_lbound] and [m_ubound] set for that width, a payload
    that starts on an 8-byte boundary, and a size that leaves the top bit of
    [size_t] free.  Bytes past the end of [m_data] read as zero. *)
Definition Array_wf (a : Array) : Prop :=
  (m_width a = 0 \/ width_ok (m_width a)) /\
  m_lbound a = lbound_for_width (m_width a) /\
  m_ubound a = ubound_for_width (m_width a) /\
  0 <= m_data_addr a /\ m_data_addr a mod 8 = 0 /\
  0 <= m_size a < 2 ^ 63.

(** C1, amended.  On a non-nullable array, for each of the four conditions,
    every width, platform (with or without SSE) and alignment, and a state
    whose limit is not yet reached, [find<cond, act_FindAll>] returns what the
    naive linear scan returns and leaves the state the naive scan leaves: the
    scan that tests [cond(get(i), value)] for [i = start], ..., [end - 1],
    delivers [i + baseindex] through [find_action] and stops when that answers
    [false].  When the matches fit under the limit, the destination column
    receives exactly the matching indices plus [baseindex], in increasing
    order. *)
Theorem find_FindAll_is_naive_scan :
  forall (C : Type) (pf : Platform) (callback : Z -> C -> bool * C) (cd : Cond) (a : Array)
         (value start end_ baseindex : Z) (w : World C),
    four_conds cd -> Array_wf a ->
    0 <= start <= end_ -> end_ <= m_size a ->
    state_ok (qs w) ->
    find pf callback act_FindAll cd a value start end_ baseindex false false w
    = (Done (fst (scan (fun i => cond_c cd (get_dyn pf a i) value)
                       (fun i => find_action act_FindAll callback (to_size_t (i + baseindex))
                                             (Some (get_dyn pf a i)))
                       start end_ w)),
       snd (scan (fun i => cond_c cd (get_dyn pf a i) value)
                 (fun i => find_action act_FindAll callback (to_size_t (i + baseindex))
                                       (Some (get_dyn pf a i)))
                 start end_ w))
    /\ (m_match_count (qs w)
        + Z.of_nat (length (matches (fun i => cond_c cd (get_dyn pf a i) value) start end_))
        <= m_limit (qs w) ->
        column (snd (find pf callback act_FindAll cd a value start end_ baseindex false false w))
        = column w
          ++ map (fun i => to_int64 (to_size_t (i + baseindex)))
                 (matches (fun i => cond_c cd (get_dyn pf a i) value) start end_)).
Proof.
  intros C pf callback cd a value start end_ baseindex w Hcd
         (Hw & Hlb & Hub & Haddr & Hal & Hsz0 & Hsz) Hse He Hok.
  assert (Hnpos : m_size a < npos).
  { rewrite two_p_63 in Hsz. change npos with 18446744073709551615. lia. }
  pose proof (find_FindAll_scan pf callback a baseindex cd value start end_ w
                Hcd Hw Hlb Hub Haddr Hal Hse He Hnpos Hok) as Hscan.
  split; [ exact Hscan | ].
  intros Hfit. rewrite Hscan. cbn [snd]. rewrite scan_report_all.
  pose proof (report_all_FindAll pf callback a baseindex
                (matches (holds pf cd (m_width a) a value) start end_) w Hok) as Hrep.
  cbv zeta in Hrep. destruct Hrep as (_ & _ & _ & _ & Hcol).
  apply Hcol. exact Hfit.
Qed.

Lemma find_FindAll_is_naive_scan_witness :
  four_conds Equal /\
  Array_wf (mkArray [x02; x02; x02; x00; x00; x00; x00; x00] 0 8 3 (-128) 127) /\
  0 <= 0 <= 3 /\
  3 <= m_size (mkArray [x02; x02; x02; x00; x00; x00; x00; x00] 0 8 3 (-128) 127) /\
  state_ok (qs (mkWorld (QueryState_init act_FindAll 0 100) [] tt [])) /\
  column (snd (find (mkPlatform true false false false true)
                    (fun (_ : Z) (c : unit) => (true, c)) act_FindAll Equal
                    (mkArray [x02; x02; x02; x00; x00; x00; x00; x00] 0 8 3 (-128) 127)
                    2 0 3 0 false false
                    (mkWorld (QueryState_init act_FindAll 0 100) [] tt [])))
  = [0; 1; 2].
Proof.
  assert (H1 : four_conds Equal) by (left; reflexivity).
  assert (H2 : Array_wf (mkArray [x02; x02; x02; x00; x00; x00; x00; x00] 0 8 3 (-128) 127)).
  { unfold Array_wf, width_ok. cbn. repeat split; try reflexivity; try lia; discriminate. }
  assert (H3 : 0 <= 0 <= 3) by lia.
  assert (H4 : 3 <= m_size (mkArray [x02; x02; x02; x00; x00; x00; x00; x00] 0 8 3 (-128) 127))
    by (cbn; lia).
  assert (H5 : state_ok (qs (mkWorld (QueryState_init act_FindAll 0 100) [] tt [])))
    by (unfold state_ok; cbn; lia).
  repeat (split; [ assumption | ]).
  rewrite (proj2 (find_FindAll_is_naive_scan unit (mkPlatform true false false false true)
                    (fun _ c => (true, c)) Equal
                    (mkArray [x02; x02; x02; x00; x00; x00; x00; x00] 0 8 3 (-128) 127)
                    2 0 3 0 (mkWorld (QueryState_init act_FindAll 0 100) [] tt [])
                    H1 H2 H3 H4 H5)).
  - reflexivity.
  - vm_compute. discriminate.
Defined.

(** With limit 2 the kernel reports two of the three elements equal to 2. *)
Lemma find_FindAll_limit_cuts :
  matches (fun i => cond_c Equal
                      (get_dyn (mkPlatform true false false false true)
                               (mkArray [x02; x02; x02; x00; x00; x00; x00; x00] 0 8 3 (-128) 127)
                               i) 2) 0 3
  = [0; 1; 2] /\
  column (snd (find (mkPlatform true false false false true)
                    (fun (_ : Z) (c : unit) => (true, c)) act_FindAll Equal
                    (mkArray [x02; x02; x02; x00; x00; x00; x00; x00] 0 8 3 (-128) 127)
                    2 0 3 0 false false
                    (mkWorld (QueryState_init act_FindAll 0 2) [] tt [])))
  = [0; 1].
Proof. vm_compute. split; reflexivity. Qed.

(** C2.  On a nullable array two of whose elements are null, searched for nulls
    with limit 1, [find<Equal, act_Count>] leaves the count 1 while
    [find<Equal, act_FindAll>] over the same arguments reports two indices:
    [match] with an absent value under [act_FindAll] appends the index without
    advancing [m_match_count], so the limit never stops that search. *)
Theorem count_differs_on_nullable :
  m_state (qs (snd (find (mkPlatform true false false false true)
                         (fun (_ : Z) (c : unit) => (true, c)) act_Count Equal
                         (mkArray [x05; x05; x05] 0 8 3 (-128) 127)
                         0 0 2 0 true true
                         (mkWorld (QueryState_init act_Count 0 1) [] tt []))))
  = 1 /\
  column (snd (find (mkPlatform true false false false true)
                    (fun (_ : Z) (c : unit) => (true, c)) act_FindAll Equal
                    (mkArray [x05; x05; x05] 0 8 3 (-128) 127)
                    0 0 2 0 true true
                    (mkWorld (QueryState_init act_FindAll 0 1) [] tt [])))
  = [0; 1] /\
  QueryState_match_opt act_FindAll false 1 0 None
    (mkWorld (mkQueryState 0 0 1 not_found) [0] tt [])
  = (true, mkWorld (mkQueryState 0 0 1 not_found) [0; 1] tt []).
Proof. vm_compute. repeat split. Qed.

(** X1.  On a non-nullable array, for each of the four conditions and any limit,
    [find<cond, act_Count>] started on a fresh state leaves in [m_state] the
    number of indices that [find<cond, act_FindAll>], started on a fresh state
    with the same limit, appends to its column; whether the matches are
    counted one by one, by the popcount of a chunk's pattern, or in bulk. *)
Theorem find_Count_is_FindAll_size :
  forall (C : Type) (pf : Platform) (callback : Z -> C -> bool * C) (cd : Cond) (a : Array)
         (value start end_ baseindex limit akku_count akku_findall : Z) (wC wF : World C),
    four_conds cd -> Array_wf a ->
    0 <= start <= end_ -> end_ <= m_size a ->
    0 < limit < 2 ^ 64 ->
    qs wC = QueryState_init act_Count akku_count limit ->
    qs wF = QueryState_init act_FindAll akku_findall limit ->
    m_state (qs (snd (find pf callback act_Count cd a value start end_ baseindex
                           false false wC)))
    = Z.of_nat (length (column (snd (find pf callback act_FindAll cd a value start end_
                                          baseindex false false wF))))
      - Z.of_nat (length (column wF)).
Proof.
  intros C pf callback cd a value start end_ baseindex limit akku_count akku_findall wC wF Hcd
         (Hw & Hlb & Hub & Haddr & Hal & Hsz0 & Hsz) Hse He Hlimit HqC HqF.
  assert (Hnpos : m_size a < npos).
  { rewrite two_p_63 in Hsz. change npos with 18446744073709551615. lia. }
  assert (Hok : state_ok (qs wF)) by (rewrite HqF; unfold state_ok; cbn; lia).
  rewrite (find_FindAll_scan pf callback a baseindex cd value start end_ wF
             Hcd Hw Hlb Hub Haddr Hal Hse He Hnpos Hok). cbn [snd].
  rewrite (find_Count_scan pf callback a baseindex Hsz cd value start end_ wC wF
             Hcd Hw Hlb Hub Haddr Hal Hse He).
  2:{ rewrite HqC, HqF. unfold state_ok. cbn [QueryState_init m_limit m_state m_match_count].
      repeat split; try reflexivity; lia. }
  rewrite scan_report_all.
  pose proof (report_all_FindAll pf callback a baseindex
                (matches (holds pf cd (m_width a) a value) start end_) wF Hok) as Hrep.
  cbv zeta in Hrep. destruct Hrep as (_ & _ & _ & Hlen & _).
  assert (H0 : m_match_count (qs wF) = 0) by (rewrite HqF; reflexivity).
  rewrite Hlen. lia.
Qed.

Lemma find_Count_is_FindAll_size_witness :
  four_conds Equal /\
  Array_wf (mkArray [x02; x02; x02; x00; x00; x00; x00; x00] 0 8 3 (-128) 127) /\
  0 <= 0 <= 3 /\
  3 <= m_size (mkArray [x02; x02; x02; x00; x00; x00; x00; x00] 0 8 3 (-128) 127) /\
  0 < 2 < 2 ^ 64 /\
  m_state (qs (snd (find (mkPlatform true false false false true)
                         (fun (_ : Z) (c : unit) => (true, c)) act_Count Equal
                         (mkArray [x02; x02; x02; x00; x00; x00; x00; x00] 0 8 3 (-128) 127)
                         2 0 3 0 false false
                         (mkWorld (QueryState_init act_Count 0 2) [] tt []))))
  = Z.of_nat (length (column (snd (find (mkPlatform true false false false true)
                                        (fun (_ : Z) (c : unit) => (true, c)) act_FindAll Equal
                                        (mkArray [x02; x02; x02; x00; x00; x00; x00; x00]
                                                 0 8 3 (-128) 127)
                                        2 0 3 0 false false
                                        (mkWorld (QueryState_init act_FindAll 0 2) [] tt [])))))
    - Z.of_nat (length (column (mkWorld (QueryState_init act_FindAll 0 2) [] tt []))).
Proof.
  assert (H1 : four_conds Equal) by (left; reflexivity).
  assert (H2 : Array_wf (mkArray [x02; x02; x02; x00; x00; x00; x00; x00] 0 8 3 (-128) 127)).
  { unfold Array_wf, width_ok. cbn. repeat split; try reflexivity; try lia; discriminate. }
  assert (H3 : 0 <= 0 <= 3) by lia.
  assert (H4 : 3 <= m_size (mkArray [x02; x02; x02; x00; x00; x00; x00; x00] 0 8 3 (-128) 127))
    by (cbn; lia).
  assert (H5 : 0 < 2 < 2 ^ 64) by (rewrite two_p_64; lia).
  repeat (split; [ assumption | ]).
  exact (find_Count_is_FindAll_size unit (mkPlatform true false false false true)
           (fun _ c => (true, c)) Equal
           (mkArray [x02; x02; x02; x00; x00; x00; x00; x00] 0 8 3 (-128) 127)
           2 0 3 0 2 0 0
           (mkWorld (QueryState_init act_Count 0 2) [] tt [])
           (mkWorld (QueryState_init act_FindAll 0 2) [] tt [])
           H1 H2 H3 H4 H5 eq_refl eq_refl).
Defined.

(** ** [act_ReturnFirst] and [act_CallbackIdx]: one report per match *)

Lemma find_action_ReturnFirst {C} (callback : Z -> C -> bool * C) idx v (w : World C) :
  find_action act_ReturnFirst callback idx v w
  = (false,
     mkWorld (mkQueryState (to_int64 idx) (to_size_t (m_match_count (qs w) + 1))
                           (m_limit (qs w)) (m_minmax_index (qs w)))
             (column w) (cb w) (calls w ++ [(idx, false)])).
Proof. destruct v; reflexivity. Qed.

Lemma find_action_CallbackIdx {C} (callback : Z -> C -> bool * C) idx v (w : World C) :
  find_action act_CallbackIdx callback idx v w
  = (fst (callback idx (cb w)),
     mkWorld (qs w) (column w) (snd (callback idx (cb w)))
             (calls w ++ [(idx, fst (callback idx (cb w)))])).
Proof. unfold find_action. destruct (callback idx (cb w)); reflexivity. Qed.

(** The two actions under which the kernel hands every match to [find_action]
    and nothing else touches the state. *)
Definition per_match (action : Action) : Prop :=
  action = act_ReturnFirst \/ action = act_CallbackIdx.

Definition report_match {C} (pf : Platform) (callback : Z -> C -> bool * C) (action : Action)
    (a : Array) (baseindex : Z) (i : Z) : World C -> bool * World C :=
  find_action action callback (to_size_t (i + baseindex)) (Some (get_dyn pf a i)).

Definition may_go_on {C} (action : Action) (w : World C) : Prop :=
  action = act_CallbackIdx \/ state_ok (qs w).

(** The kernel's world and the scan's world are one and the same. *)
Definition same_going {C} (action : Action) (_ : Z) (w1 w2 : World C) : Prop :=
  w1 = w2 /\ may_go_on action w1.

Definition same_stopped {C} (w1 w2 : World C) : Prop := w1 = w2.

Definition same_end {C} (b : bool) (o : outcome unit) (w1 w2 : World C) : Prop :=
  w1 = w2 /\ o = if b then Done tt else ReturnFalse.

Lemma per_match_value {C} (callback : Z -> C -> bool * C) action idx v v' (w : World C) :
  per_match action ->
  find_action action callback idx (Some v) w = find_action action callback idx (Some v') w.
Proof.
  intros [-> | ->]; [ rewrite !find_action_ReturnFirst | rewrite !find_action_CallbackIdx ];
    reflexivity.
Qed.

Lemma per_match_R_step {C} pf (callback : Z -> C -> bool * C) action a baseindex :
  per_match action ->
  forall i v (w1 w2 : World C),
    0 <= i < m_size a -> same_going action i w1 w2 ->
    fst (find_action action callback (to_size_t (i + baseindex)) (Some v) w1)
    = fst (report_match pf callback action a baseindex i w2) /\
    (if fst (report_match pf callback action a baseindex i w2)
     then same_going action (i + 1)
            (snd (find_action action callback (to_size_t (i + baseindex)) (Some v) w1))
            (snd (report_match pf callback action a baseindex i w2))
     else same_stopped
            (snd (find_action action callback (to_size_t (i + baseindex)) (Some v) w1))
            (snd (report_match pf callback action a baseindex i w2))).
Proof.
  intros Hact i v w1 w2 Hi [<- Hok]. unfold report_match.
  rewrite (per_match_value callback action _ v (get_dyn pf a i) w1 Hact).
  split; [ reflexivity | ].
  destruct (fst (find_action action callback (to_size_t (i + baseindex))
                             (Some (get_dyn pf a i)) w1)) eqn:E; [ | reflexivity ].
  split; [ reflexivity | ].
  destruct Hact as [-> | ->].
  - rewrite find_action_ReturnFirst in E. discriminate.
  - left. reflexivity.
Qed.

Lemma per_match_declines {C} (callback : Z -> C -> bool * C) action (w : World C) :
  per_match action -> declines callback action w.
Proof. intros [-> | ->] idx p; reflexivity. Qed.

Lemma per_match_bulk {C} pf (callback : Z -> C -> bool * C) action a baseindex cd value s e :
  per_match action ->
  0 <= s < e -> e <= m_size a ->
  (forall j, s <= j < e -> holds pf cd (m_width a) a value j = true) ->
  fin (report_match pf callback action a baseindex) (same_going action) same_end
      (bulk_delivery callback action baseindex pf (m_width a) a s e)
      (holds pf cd (m_width a) a value) s e.
Proof.
  intros Hact Hse He Hall w1 w2 [<- Hok].
  set (pred := holds pf cd (m_width a) a value) in *.
  set (process := to_size_t (m_limit (qs w1) - m_match_count (qs w1))).
  set (end2 := match action with
               | act_CallbackIdx => e
               | _ => if e - s >? process then s + process else e
               end).
  assert (Hend2 : s <= end2 <= e /\ (action = act_ReturnFirst -> s < end2)
                  /\ (action = act_CallbackIdx -> end2 = e)).
  { unfold end2. destruct Hact as [-> | ->].
    - destruct Hok as [Hok | [Hc Hl]]; [ discriminate | ].
      assert (Hprocess : process = m_limit (qs w1) - m_match_count (qs w1))
        by (apply to_size_t_small; lia).
      destruct (Z.gtb_spec (e - s) process); repeat split; try lia; try discriminate.
    - repeat split; try lia; try discriminate. }
  destruct Hend2 as (Hend2 & Hfirst & Hcb).
  assert (Hrun : bulk_delivery callback action baseindex pf (m_width a) a s e w1
                 = bind (for_ s end2 (fun start2 =>
                           check (find_action action callback (to_size_t (start2 + baseindex))
                                              (Some (get pf (m_width a) a start2)))))
                        (fun _ => ret tt) w1).
  { unfold end2. destruct Hact as [-> | ->]; reflexivity. }
  rewrite Hrun. clear Hrun.
  pose proof (sim_for (report_match pf callback action a baseindex)
                (same_going action) same_stopped
                (fun i j w1 w2 _ H => H)
                pred
                (fun start2 =>
                   check (find_action action callback (to_size_t (start2 + baseindex))
                                      (Some (get pf (m_width a) a start2))))
                s end2 (proj1 Hend2)) as Hsim.
  assert (Hbody : forall i, s <= i < end2 ->
            sim (report_match pf callback action a baseindex)
                (same_going action) same_stopped
                (check (find_action action callback (to_size_t (i + baseindex))
                                    (Some (get pf (m_width a) a i))))
                tt pred i (i + 1)).
  { intros i Hi.
    apply (sim_check callback action baseindex (report_match pf callback action a baseindex)
             (same_going action) same_stopped (m_size a));
      [ exact (per_match_R_step pf callback action a baseindex Hact) | lia | apply Hall; lia ]. }
  specialize (Hsim Hbody).
  destruct (Hsim w1 w1 (conj eq_refl Hok)) as (b & w2' & Hrep & HR & Hres).
  rewrite (matches_split pred s end2 e) by lia. rewrite report_all_app, Hrep.
  unfold bind. destruct (for_ s end2 _ w1) as [o w1']. cbn [fst snd] in *. subst o.
  destruct b.
  - assert (end2 = e).
    { destruct Hact as [Ha | Ha]; [ | exact (Hcb Ha) ].
      exfalso. specialize (Hfirst Ha).
      rewrite (matches_split pred s (s + 1) end2) in Hrep by lia.
      rewrite (matches_one pred s) in Hrep by (apply Hall; lia).
      cbn [app report_all] in Hrep. unfold report_match in Hrep at 1.
      rewrite Ha, find_action_ReturnFirst in Hrep. discriminate. }
    subst end2. rewrite H. unfold matches. rewrite Z.sub_diag. cbn [Z.to_nat matches_from report_all].
    exists true, w2'. destruct HR as [-> _]. split; [ reflexivity | split; reflexivity ].
  - exists false, w2'. split; [ reflexivity | ]. split; [ exact HR | reflexivity ].
Qed.

(** Under [act_ReturnFirst] and [act_CallbackIdx] the kernel and the naive scan
    reach the same state and return the same value. *)
Lemma find_per_match_scan {C} pf (callback : Z -> C -> bool * C) action a baseindex
    cd value start end_ (w : World C) :
  per_match action -> four_conds cd ->
  m_width a = 0 \/ width_ok (m_width a) ->
  m_lbound a = lbound_for_width (m_width a) -> m_ubound a = ubound_for_width (m_width a) ->
  0 <= m_data_addr a -> m_data_addr a mod 8 = 0 ->
  0 <= start <= end_ -> end_ <= m_size a -> m_size a < npos ->
  may_go_on action w ->
  find pf callback action cd a value start end_ baseindex false false w
  = (Done (fst (scan (holds pf cd (m_width a) a value)
                     (report_match pf callback action a baseindex) start end_ w)),
     snd (scan (holds pf cd (m_width a) a value)
               (report_match pf callback action a baseindex) start end_ w)).
Proof.
  intros Hact Hcd Hw Hlb Hub Haddr Hal Hse Hsz Hnpos Hok.
  destruct (fin_find_optimized callback action baseindex
              (report_match pf callback action a baseindex)
              (same_going action) same_stopped (m_size a)
              (fun i j w1 w2 _ H => H)
              (per_match_R_step pf callback action a baseindex Hact)
              (fun i w1 w2 _ _ => or_introl (per_match_declines callback action w1 Hact))
              (fun i v w1 w2 _ _ _ _ => per_match_declines callback action _ Hact)
              same_end
              (fun e w1 w2 H => conj (proj1 H) eq_refl)
              (fun w1 w2 H => conj H eq_refl)
              pf cd a value start end_ Hcd Hw Hlb Hub Haddr Hal Hse Hsz (Z.le_refl _) Hnpos
              (fun s e Hs He Hall =>
                 per_match_bulk pf callback action a baseindex cd value s e Hact Hs He Hall)
              w w (conj eq_refl Hok))
    as (b & w2' & Hrep & Heq & Hout).
  rewrite scan_report_all, Hrep. cbn [fst snd].
  unfold find, returns.
  destruct (find_optimized pf callback action cd (m_width a) a value start end_ baseindex
              false false w) as [o w']. cbn [fst snd] in *. subst o w2'.
  destruct b; reflexivity.
Qed.

(** [end == npos] stands for the end of the array. *)
Lemma find_optimized_npos {C} pf (callback : Z -> C -> bool * C) action cd bw a value start
    baseindex (w : World C) :
  find_optimized pf callback action cd bw a value start npos baseindex false false w
  = find_optimized pf callback action cd bw a value start (m_size a) baseindex false false w.
Proof.
  unfold find_optimized. change (npos =? npos) with true. cbv beta iota zeta.
  destruct (m_size a =? npos) eqn:E; cbv iota; rewrite ?E; reflexivity.
Qed.

Lemma matches_from_head pred n :
  forall i,
    (matches_from pred n i = [] /\ forall j, i <= j < i + Z.of_nat n -> pred j = false) \/
    (exists k rest, matches_from pred n i = k :: rest /\ i <= k < i + Z.of_nat n /\
                    pred k = true /\ forall j, i <= j < k -> pred j = false).
Proof.
  induction n as [ | n IH ]; intros i.
  - left. split; [ reflexivity | intros; lia ].
  - cbn [matches_from]. destruct (pred i) eqn:Hp.
    + right. exists i, (matches_from pred n (i + 1)).
      split; [ reflexivity | ]. split; [ lia | ]. split; [ exact Hp | intros; lia ].
    + destruct (IH (i + 1)) as [[Hnil Hnone] | (k & rest & Hm & Hk & Hpk & Hleast)].
      * left. split; [ exact Hnil | ]. intros j Hj.
        destruct (Z.eq_dec j i) as [-> | Hne]; [ exact Hp | apply Hnone; lia ].
      * right. exists k, rest. split; [ exact Hm | ]. split; [ lia | ].
        split; [ exact Hpk | ]. intros j Hj. destruct (Z.eq_dec j i) as [-> | Hne]; [ exact Hp | apply Hleast; lia ].
Qed.

Lemma matches_head pred s e :
  s <= e ->
  (matches pred s e = [] /\ forall j, s <= j < e -> pred j = false) \/
  (exists k rest, matches pred s e = k :: rest /\ s <= k < e /\
                  pred k = true /\ forall j, s <= j < k -> pred j = false).
Proof.
  intros Hse. unfold matches.
  destruct (matches_from_head pred (Z.to_nat (e - s)) s)
    as [[Hnil Hnone] | (k & rest & Hm & Hk & Hpk & Hleast)].
  - left. split; [ exact Hnil | ]. intros j Hj. apply Hnone. lia.
  - right. exists k, rest. split; [ exact Hm | ]. split; [ lia | ].
    split; [ exact Hpk | exact Hleast ].
Qed.

(** X2.  [find_first<cond>(value, start, end)], called within its asserted
    precondition on an array of any width and on any platform, returns the
    least index in the range whose element satisfies the condition, and
    [not_found] when the range holds none; [end == npos] stands for the size
    of the array. *)
Theorem find_first_least_match :
  forall (pf : Platform) (cd : Cond) (a : Array) (value start end_ : Z),
    four_conds cd -> Array_wf a ->
    0 <= start <= m_size a -> end_ <= m_size a \/ end_ = npos -> start <= end_ ->
    (exists i,
        start <= i < (if end_ =? npos then m_size a else end_) /\
        cond_c cd (get_dyn pf a i) value = true /\
        (forall j, start <= j < i -> cond_c cd (get_dyn pf a j) value = false) /\
        find_first pf cd a value start end_ = Done i)
    \/ ((forall j, start <= j < (if end_ =? npos then m_size a else end_) ->
                   cond_c cd (get_dyn pf a j) value = false) /\
        find_first pf cd a value start end_ = Done not_found).
Proof.
  intros pf cd a value start end_ Hcd (Hw & Hlb & Hub & Haddr & Hal & Hsz0 & Hsz) Hs He Hse.
  rewrite two_p_63 in Hsz.
  assert (Hnpos : m_size a < npos) by (change npos with 18446744073709551615; lia).
  set (e := if end_ =? npos then m_size a else end_).
  assert (Hee : start <= e <= m_size a).
  { unfold e. destruct (Z.eqb_spec end_ npos); lia. }
  assert (Hrun : find pf CallbackDummy act_ReturnFirst cd a value start end_ 0 false false
                      (mkWorld (QueryState_init act_ReturnFirst 0 1) [] tt [])
                 = find pf CallbackDummy act_ReturnFirst cd a value start e 0 false false
                        (mkWorld (QueryState_init act_ReturnFirst 0 1) [] tt [])).
  { unfold e. destruct (Z.eqb_spec end_ npos) as [-> | ]; [ | reflexivity ].
    unfold find, returns. rewrite find_optimized_npos. reflexivity. }
  assert (Hpre : negb ((start <=? m_size a) && ((end_ <=? m_size a) || (end_ =? to_size_t (-1)))
                       && (start <=? end_)) = false).
  { change (to_size_t (-1)) with npos.
    destruct (Z.leb_spec start (m_size a)); [ | lia ].
    destruct (Z.leb_spec start end_); [ | lia ].
    destruct He as [He | ->]; [ destruct (Z.leb_spec end_ (m_size a)); [ reflexivity | lia ] | ].
    rewrite Z.eqb_refl, Bool.orb_true_r. reflexivity. }
  unfold find_first. rewrite Hpre, Hrun. cbv zeta.
  rewrite (find_per_match_scan pf CallbackDummy act_ReturnFirst a 0 cd value start e _
             (or_introl eq_refl) Hcd Hw Hlb Hub Haddr Hal (conj (proj1 Hs) (proj1 Hee))
             (proj2 Hee) Hnpos)
    by (right; unfold state_ok; cbn [QueryState_init qs m_match_count m_limit];
        rewrite ?two_p_64; lia).
  rewrite scan_report_all.
  destruct (matches_head (holds pf cd (m_width a) a value) start e (proj1 Hee))
    as [[Hnil Hnone] | (k & rest & Hm & Hk & Hpk & Hleast)].
  - right. split; [ exact Hnone | ]. rewrite Hnil. reflexivity.
  - left. exists k. split; [ lia | ]. split; [ exact Hpk | ]. split; [ exact Hleast | ].
    rewrite Hm. cbn [report_all]. unfold report_match. rewrite find_action_ReturnFirst.
    cbn [fst snd qs m_state]. rewrite Z.add_0_r.
    rewrite (to_size_t_small k) by (rewrite two_p_64; lia).
    rewrite to_int64_small by (rewrite two_p_63; lia).
    rewrite to_size_t_small by (rewrite two_p_64; lia). reflexivity.
Qed.

Lemma find_first_least_match_witness :
  four_conds Equal /\
  Array_wf (mkArray [x02; x07; x07; x00; x00; x00; x00; x00] 0 8 3 (-128) 127) /\
  0 <= 0 <= m_size (mkArray [x02; x07; x07; x00; x00; x00; x00; x00] 0 8 3 (-128) 127) /\
  ((exists i,
      0 <= i < 3 /\
      cond_c Equal (get_dyn (mkPlatform true false false false true)
                            (mkArray [x02; x07; x07; x00; x00; x00; x00; x00] 0 8 3 (-128) 127) i)
             7 = true /\
      (forall j, 0 <= j < i ->
         cond_c Equal (get_dyn (mkPlatform true false false false true)
                               (mkArray [x02; x07; x07; x00; x00; x00; x00; x00] 0 8 3 (-128) 127)
                               j) 7 = false) /\
      find_first (mkPlatform true false false false true) Equal
                 (mkArray [x02; x07; x07; x00; x00; x00; x00; x00] 0 8 3 (-128) 127) 7 0 npos
      = Done i)
  \/ ((forall j, 0 <= j < 3 ->
         cond_c Equal (get_dyn (mkPlatform true false false false true)
                               (mkArray [x02; x07; x07; x00; x00; x00; x00; x00] 0 8 3 (-128) 127)
                               j) 7 = false) /\
      find_first (mkPlatform true false false false true) Equal
                 (mkArray [x02; x07; x07; x00; x00; x00; x00; x00] 0 8 3 (-128) 127) 7 0 npos
      = Done not_found)).
Proof.
  assert (H1 : four_conds Equal) by (left; reflexivity).
  assert (H2 : Array_wf (mkArray [x02; x07; x07; x00; x00; x00; x00; x00] 0 8 3 (-128) 127)).
  { unfold Array_wf, width_ok. cbn. repeat split; try reflexivity; try lia; discriminate. }
  assert (H3 : 0 <= 0
               <= m_size (mkArray [x02; x07; x07; x00; x00; x00; x00; x00] 0 8 3 (-128) 127))
    by (cbn; lia).
  repeat (split; [ assumption | ]).
  exact (find_first_least_match (mkPlatform true false false false true) Equal
           (mkArray [x02; x07; x07; x00; x00; x00; x00; x00] 0 8 3 (-128) 127) 7 0 npos
           H1 H2 H3 (or_intror eq_refl) ltac:(vm_compute; discriminate)).
Defined.

(** Delivery to the callback under [act_CallbackIdx]: the callback's own state
    is all that changes. *)
Lemma report_all_CallbackIdx {C} pf (callback : Z -> C -> bool * C) a baseindex js :
  forall w : World C,
    fst (report_all (report_match pf callback act_CallbackIdx a baseindex) js w)
    = fst (report_all (fun j c => callback (to_size_t (j + baseindex)) c) js (cb w)) /\
    cb (snd (report_all (report_match pf callback act_CallbackIdx a baseindex) js w))
    = snd (report_all (fun j c => callback (to_size_t (j + baseindex)) c) js (cb w)) /\
    qs (snd (report_all (report_match pf callback act_CallbackIdx a baseindex) js w)) = qs w /\
    column (snd (report_all (report_match pf callback act_CallbackIdx a baseindex) js w))
    = column w.
Proof.
  induction js as [ | j js IH ]; intros w; cbn [report_all].
  - repeat split.
  - rewrite (find_action_CallbackIdx callback (to_size_t (j + baseindex))
               (Some (get_dyn pf a j)) w
             : report_match pf callback act_CallbackIdx a baseindex j w = _).
    destruct (callback (to_size_t (j + baseindex)) (cb w)) as [[] c'] eqn:Hc; cbn [fst snd].
    + destruct (IH (mkWorld (qs w) (column w) c'
                            (calls w ++ [(to_size_t (j + baseindex), true)])))
        as (I1 & I2 & I3 & I4).
      cbn [cb qs column] in *. repeat split; assumption.
    + repeat split.
Qed.

(** X3.  Under [act_CallbackIdx], on a non-nullable array of any width and on
    any platform, the kernel calls the callback with [i + baseindex] for
    exactly the indices [i] of the range whose element satisfies the condition,
    in increasing order, until the callback answers [false]; it returns what
    the last call answered ([true] when there was none), and leaves the query
    state and the destination column untouched, whatever the state's limit. *)
Theorem find_CallbackIdx_calls_back :
  forall (C : Type) (pf : Platform) (callback : Z -> C -> bool * C) (cd : Cond) (a : Array)
         (value start end_ baseindex : Z) (w : World C),
    four_conds cd -> Array_wf a ->
    0 <= start <= end_ -> end_ <= m_size a ->
    fst (find pf callback act_CallbackIdx cd a value start end_ baseindex false false w)
    = Done (fst (scan (fun i => cond_c cd (get_dyn pf a i) value)
                      (fun i c => callback (to_size_t (i + baseindex)) c)
                      start end_ (cb w))) /\
    cb (snd (find pf callback act_CallbackIdx cd a value start end_ baseindex false false w))
    = snd (scan (fun i => cond_c cd (get_dyn pf a i) value)
                (fun i c => callback (to_size_t (i + baseindex)) c)
                start end_ (cb w)) /\
    qs (snd (find pf callback act_CallbackIdx cd a value start end_ baseindex false false w))
    = qs w /\
    column (snd (find pf callback act_CallbackIdx cd a value start end_ baseindex false false w))
    = column w.
Proof.
  intros C pf callback cd a value start end_ baseindex w Hcd
         (Hw & Hlb & Hub & Haddr & Hal & Hsz0 & Hsz) Hse He.
  assert (Hnpos : m_size a < npos).
  { rewrite two_p_63 in Hsz. change npos with 18446744073709551615. lia. }
  rewrite (find_per_match_scan pf callback act_CallbackIdx a baseindex cd value start end_ w
             (or_intror eq_refl) Hcd Hw Hlb Hub Haddr Hal Hse He Hnpos (or_introl eq_refl)).
  cbn [fst snd]. rewrite !scan_report_all.
  destruct (report_all_CallbackIdx pf callback a baseindex
              (matches (holds pf cd (m_width a) a value) start end_) w) as (H1 & H2 & H3 & H4).
  change (matches (fun i => cond_c cd (get_dyn pf a i) value) start end_)
    with (matches (holds pf cd (m_width a) a value) start end_).
  rewrite H1. repeat split; assumption.
Qed.

Lemma find_CallbackIdx_calls_back_witness :
  four_conds Greater /\
  Array_wf (mkArray [x02; x07; x09; x00; x00; x00; x00; x00] 0 8 3 (-128) 127) /\
  0 <= 0 <= 3 /\
  3 <= m_size (mkArray [x02; x07; x09; x00; x00; x00; x00; x00] 0 8 3 (-128) 127) /\
  cb (snd (find (mkPlatform true false false false true)
                (fun (i : Z) (c : list Z) => (true, c ++ [i])) act_CallbackIdx Greater
                (mkArray [x02; x07; x09; x00; x00; x00; x00; x00] 0 8 3 (-128) 127)
                5 0 3 10 false false
                (mkWorld (QueryState_init act_CallbackIdx 0 1) [] [] [])))
  = [11; 12].
Proof.
  assert (H1 : four_conds Greater) by (right; right; left; reflexivity).
  assert (H2 : Array_wf (mkArray [x02; x07; x09; x00; x00; x00; x00; x00] 0 8 3 (-128) 127)).
  { unfold Array_wf, width_ok. cbn. repeat split; try reflexivity; try lia; discriminate. }
  assert (H3 : 0 <= 0 <= 3) by lia.
  assert (H4 : 3 <= m_size (mkArray [x02; x07; x09; x00; x00; x00; x00; x00] 0 8 3 (-128) 127))
    by (cbn; lia).
  repeat (split; [ assumption | ]).
  rewrite (proj1 (proj2 (find_CallbackIdx_calls_back (list Z)
                           (mkPlatform true false false false true)
                           (fun i c => (true, c ++ [i])) Greater
                           (mkArray [x02; x07; x09; x00; x00; x00; x00; x00] 0 8 3 (-128) 127)
                           5 0 3 10 (mkWorld (QueryState_init act_CallbackIdx 0 1) [] [] [])
                           H1 H2 H3 H4))).
  reflexivity.
Defined.

(** ** The bit tricks on one 64-bit word *)

(** X4.  For a word of 64/w fields of w bits (w = 1, 2, 4, 8, 16),
    [test_zero<w>(value)] answers whether one of the fields is zero. *)
Theorem test_zero_finds_zero_field :
  forall w v : Z,
    trick_width w -> 0 <= v < 2 ^ 64 ->
    (test_zero w v = true <-> exists j, 0 <= j < 64 / w /\ fld w v j = 0).
Proof. intros w v Hw Hv. apply test_zero_spec; assumption. Qed.

Lemma test_zero_finds_zero_field_witness :
  trick_width 8 /\ 0 <= 0x0102030400060708 < 2 ^ 64 /\
  (test_zero 8 0x0102030400060708 = true <->
   exists j, 0 <= j < 64 / 8 /\ fld 8 0x0102030400060708 j = 0).
Proof.
  assert (H1 : trick_width 8) by (unfold trick_width; lia).
  assert (H2 : 0 <= 0x0102030400060708 < 2 ^ 64) by (rewrite two_p_64; lia).
  repeat (split; [ assumption | ]).
  exact (test_zero_finds_zero_field 8 0x0102030400060708 H1 H2).
Defined.

(** X5.  When a field of the word is zero ([eq]) or non-zero ([!eq]),
    [find_zero<eq, w>(v)] returns the index of the lowest such field. *)
Theorem find_zero_lowest_field :
  forall (eq : bool) (w v : Z),
    trick_width w -> 0 <= v < 2 ^ 64 ->
    (exists j, 0 <= j < 64 / w /\ (fld w v j =? 0) = eq) ->
    exists j0,
      find_zero eq w v = Some j0 /\ 0 <= j0 < 64 / w /\
      (fld w v j0 =? 0) = eq /\
      forall j, 0 <= j < j0 -> (fld w v j =? 0) = negb eq.
Proof.
  intros eq w v Hw Hv (j & Hj & Hz).
  destruct (trick_width_facts w Hw) as (Hw0 & Hn & Hdiv).
  destruct (exists_least (zero_match eq w v) (chunk_fields w))
    as (j0 & Hj0 & Hm0 & Hleast).
  { exists j. split; [ lia | ]. unfold zero_match. rewrite Hz. destruct eq; reflexivity. }
  exists j0. split; [ | split; [ lia | split ] ].
  - apply find_zero_spec; try assumption; lia.
  - unfold zero_match in Hm0. destruct eq, (fld w v j0 =? 0); try reflexivity; discriminate.
  - intros k Hk. specialize (Hleast k Hk). unfold zero_match in Hleast.
    destruct eq, (fld w v k =? 0); try reflexivity; discriminate.
Qed.

Lemma find_zero_lowest_field_witness :
  trick_width 8 /\ 0 <= 0x0102030400060708 < 2 ^ 64 /\
  (exists j, 0 <= j < 64 / 8 /\ (fld 8 0x0102030400060708 j =? 0) = true) /\
  exists j0,
    find_zero true 8 0x0102030400060708 = Some j0 /\ 0 <= j0 < 64 / 8 /\
    (fld 8 0x0102030400060708 j0 =? 0) = true /\
    forall j, 0 <= j < j0 -> (fld 8 0x0102030400060708 j =? 0) = negb true.
Proof.
  assert (H1 : trick_width 8) by (unfold trick_width; lia).
  assert (H2 : 0 <= 0x0102030400060708 < 2 ^ 64) by (rewrite two_p_64; lia).
  assert (H3 : exists j, 0 <= j < 64 / 8 /\ (fld 8 0x0102030400060708 j =? 0) = true).
  { exists 3. split; [ | reflexivity ]. change (64 / 8) with 8. lia. }
  repeat (split; [ assumption | ]).
  exact (find_zero_lowest_field true 8 0x0102030400060708 H1 H2 H3).
Defined.

(** X6.  [cascade<w, zero>(a)] carries one flag per field of [a], in the lowest
    bit of the field's place: set when the field is zero ([zero]) or non-zero
    ([!zero]); every other bit is clear, so the population count of the result
    is the number of such fields. *)
Theorem cascade_flags_fields :
  forall (w : Z) (zero : bool) (a : Z),
    trick_width w -> 0 <= a < 2 ^ 64 ->
    (forall q, 0 <= q < 64 ->
       Z.testbit (cascade w zero a) q
       = (q mod w =? 0) && Bool.eqb zero (fld w a (q / w) =? 0)) /\
    fast_popcount64 (cascade w zero a)
    = Z.of_nat (length (matches (fun j => Bool.eqb zero (fld w a j =? 0)) 0 (64 / w))).
Proof.
  intros w zero a Hw Ha.
  destruct (trick_width_facts w Hw) as (Hw0 & Hn & Hdiv).
  assert (Hbits : forall q, 0 <= q < 64 ->
            Z.testbit (cascade w zero a) q
            = (q mod w =? 0) && Bool.eqb zero (fld w a (q / w) =? 0)).
  { intros q Hq. apply (cascade_testbit w zero a q Hw Ha Hq). }
  split; [ exact Hbits | ].
  rewrite Hdiv.
  apply (popcount_matches w 0 (chunk_fields w) 0 (fun j => Bool.eqb zero (fld w a j =? 0)));
    try lia.
  intros q Hq. rewrite (Hbits q Hq). rewrite Z.add_0_l.
  assert (Hlt : q / w < Z.of_nat (chunk_fields w)).
  { apply Z.div_lt_upper_bound; lia. }
  destruct (Z.ltb_spec (q / w) (Z.of_nat (chunk_fields w))); [ reflexivity | lia ].
Qed.

Lemma cascade_flags_fields_witness :
  trick_width 16 /\ 0 <= 0x0005000000070000 < 2 ^ 64 /\
  fast_popcount64 (cascade 16 true 0x0005000000070000)
  = Z.of_nat (length (matches (fun j => Bool.eqb true (fld 16 0x0005000000070000 j =? 0))
                              0 (64 / 16))).
Proof.
  assert (H1 : trick_width 16) by (unfold trick_width; lia).
  assert (H2 : 0 <= 0x0005000000070000 < 2 ^ 64) by (rewrite two_p_64; lia).
  repeat (split; [ assumption | ]).
  exact (proj2 (cascade_flags_fields 16 true 0x0005000000070000 H1 H2)).
Defined.



(** ** The chunk routines under [act_FindAll] *)

Definition FindAll_going {C} (_ : Z) (w1 w2 : World C) : Prop :=
  w1 = w2 /\ state_ok (qs w1).

Lemma FindAll_step_any {C} pf (callback : Z -> C -> bool * C) a baseindex (imax : Z) :
  forall i v (w1 w2 : World C),
    0 <= i < imax -> FindAll_going i w1 w2 ->
    fst (find_action act_FindAll callback (to_size_t (i + baseindex)) (Some v) w1)
    = fst (report_FindAll pf callback a baseindex i w2) /\
    (if fst (report_FindAll pf callback a baseindex i w2)
     then FindAll_going (i + 1)
            (snd (find_action act_FindAll callback (to_size_t (i + baseindex)) (Some v) w1))
            (snd (report_FindAll pf callback a baseindex i w2))
     else same_stopped
            (snd (find_action act_FindAll callback (to_size_t (i + baseindex)) (Some v) w1))
            (snd (report_FindAll pf callback a baseindex i w2))).
Proof.
  intros i v w1 w2 Hi [<- [Hc Hl]]. unfold report_FindAll.
  rewrite !find_action_FindAll. cbn [fst snd]. split; [ reflexivity | ].
  rewrite (to_size_t_small (m_match_count (qs w1) + 1)) by lia.
  destruct (Z.gtb_spec (m_limit (qs w1)) (m_match_count (qs w1) + 1)).
  - split; [ reflexivity | ]. split; cbn [qs m_match_count m_limit]; lia.
  - reflexivity.
Qed.

(** A routine that deals with a range as the scan does runs as the scan runs. *)
Lemma sim_FindAll_run {C A} pf (callback : Z -> C -> bool * C) a baseindex
    (m : M C A) (x : A) pred s e (w : World C) :
  sim (report_FindAll pf callback a baseindex) FindAll_going same_stopped m x pred s e ->
  state_ok (qs w) ->
  m w = (if fst (scan pred (report_FindAll pf callback a baseindex) s e w)
         then Done x else ReturnFalse,
         snd (scan pred (report_FindAll pf callback a baseindex) s e w)).
Proof.
  intros H Hok. destruct (H w w (conj eq_refl Hok)) as (b & w2' & Hrep & HR & Hres).
  rewrite scan_report_all, Hrep. cbn [fst snd].
  destruct (m w) as [o w']. cbn [fst snd] in *. subst o.
  destruct b; [ destruct HR as [-> _] | rewrite HR ]; reflexivity.
Qed.

(** X8.  For the widths 1, 2, 4, 8 and 16, [find_gtlt<gt, act_FindAll, w>] run
    on the 64-bit chunk at an 8-byte aligned offset [p] of the payload reports
    exactly the elements of that chunk that are greater ([gt]) or less ([!gt])
    than [v], lowest index first, and stops where the naive scan of those
    [64 / w] elements stops. *)
Theorem find_gtlt_is_naive_scan :
  forall (C : Type) (pf : Platform) (callback : Z -> C -> bool * C) (gt : bool) (a : Array)
         (p value baseindex : Z) (w : World C),
    trick_width (m_width a) -> 0 <= p -> p mod 8 = 0 ->
    state_ok (qs w) ->
    find_gtlt callback act_FindAll gt (m_width a) value (read_chunk a p)
              (to_size_t (8 * p / m_width a + baseindex)) w
    = (if fst (scan (fun i => if gt then get_dyn pf a i >? value else get_dyn pf a i <? value)
                    (fun i => find_action act_FindAll callback (to_size_t (i + baseindex))
                                          (Some (get_dyn pf a i)))
                    (8 * p / m_width a) (8 * p / m_width a + 64 / m_width a) w)
       then Done tt else ReturnFalse,
       snd (scan (fun i => if gt then get_dyn pf a i >? value else get_dyn pf a i <? value)
                 (fun i => find_action act_FindAll callback (to_size_t (i + baseindex))
                                       (Some (get_dyn pf a i)))
                 (8 * p / m_width a) (8 * p / m_width a + 64 / m_width a) w)).
Proof.
  intros C pf callback gt a p value baseindex w Hw Hp Hal Hok.
  apply (sim_FindAll_run pf callback a baseindex
           (find_gtlt callback act_FindAll gt (m_width a) value (read_chunk a p)
                      (to_size_t (8 * p / m_width a + baseindex)))
           tt (rel_pred pf gt (m_width a) a value)); [ | exact Hok ].
  apply (sim_find_gtlt callback act_FindAll baseindex (report_FindAll pf callback a baseindex)
           FindAll_going same_stopped (8 * p / m_width a + 64 / m_width a)
           (fun i j w1 w2 _ H => H)
           (FindAll_step_any pf callback a baseindex _)
           pf gt (m_width a) a p value (8 * p / m_width a) Hw Hp Hal eq_refl (Z.le_refl _)).
Qed.

Lemma find_gtlt_is_naive_scan_witness :
  trick_width (m_width (mkArray [x01; x09; x03; x08; x00; x00; x00; x00] 0 8 8 (-128) 127)) /\
  0 <= 0 /\ 0 mod 8 = 0 /\
  state_ok (qs (mkWorld (QueryState_init act_FindAll 0 100) [] tt [])) /\
  column (snd (find_gtlt (fun (_ : Z) (c : unit) => (true, c)) act_FindAll true 8 5
                         (read_chunk (mkArray [x01; x09; x03; x08; x00; x00; x00; x00]
                                              0 8 8 (-128) 127) 0)
                         (to_size_t (8 * 0 / 8 + 20))
                         (mkWorld (QueryState_init act_FindAll 0 100) [] tt [])))
  = [21; 23].
Proof.
  assert (H1 : trick_width
                 (m_width (mkArray [x01; x09; x03; x08; x00; x00; x00; x00] 0 8 8 (-128) 127)))
    by (unfold trick_width; cbn; lia).
  assert (H2 : 0 <= 0) by lia.
  assert (H3 : 0 mod 8 = 0) by reflexivity.
  assert (H4 : state_ok (qs (mkWorld (QueryState_init act_FindAll 0 100) [] tt [])))
    by (unfold state_ok; cbn; lia).
  repeat (split; [ assumption | ]).
  rewrite (find_gtlt_is_naive_scan unit (mkPlatform true false false false true)
             (fun _ c => (true, c)) true
             (mkArray [x01; x09; x03; x08; x00; x00; x00; x00] 0 8 8 (-128) 127)
             0 5 20 (mkWorld (QueryState_init act_FindAll 0 100) [] tt [])
             H1 H2 H3 H4
           : find_gtlt (fun (_ : Z) (c : unit) => (true, c)) act_FindAll true 8 5
                       (read_chunk (mkArray [x01; x09; x03; x08; x00; x00; x00; x00]
                                            0 8 8 (-128) 127) 0)
                       (to_size_t (8 * 0 / 8 + 20))
                       (mkWorld (QueryState_init act_FindAll 0 100) [] tt []) = _).
  reflexivity.
Defined.

(** X9.  For the widths 2, 4, 8 and 16, a value [0 <= v <= 2^(w-1) - 2] and a
    chunk none of whose elements has its top bit set, [find_gtlt_fast<true,
    act_FindAll, w>] with the magic constant of [find_gtlt_magic<true, w>(v)]
    reports exactly the elements of the chunk that are greater than [v],
    lowest index first, as the naive scan of those [64 / w] elements does. *)
Theorem find_gtlt_fast_is_naive_scan :
  forall (C : Type) (pf : Platform) (callback : Z -> C -> bool * C) (a : Array)
         (p value baseindex : Z) (w : World C),
    trick_width (m_width a) -> 2 <= m_width a -> 0 <= p -> p mod 8 = 0 ->
    0 <= value <= 2 ^ (m_width a - 1) - 2 ->
    Z.land (to_size_t (Z.shiftl (lower_bits (m_width a)) (no0 (m_width a) - 1)))
           (read_chunk a p) = 0 ->
    state_ok (qs w) ->
    find_gtlt_fast callback act_FindAll true (m_width a) (read_chunk a p)
                   (to_size_t (find_gtlt_magic true (m_width a) value))
                   (to_size_t (8 * p / m_width a + baseindex)) w
    = (if fst (scan (fun i => get_dyn pf a i >? value)
                    (fun i => find_action act_FindAll callback (to_size_t (i + baseindex))
                                          (Some (get_dyn pf a i)))
                    (8 * p / m_width a) (8 * p / m_width a + 64 / m_width a) w)
       then Done tt else ReturnFalse,
       snd (scan (fun i => get_dyn pf a i >? value)
                 (fun i => find_action act_FindAll callback (to_size_t (i + baseindex))
                                       (Some (get_dyn pf a i)))
                 (8 * p / m_width a) (8 * p / m_width a + 64 / m_width a) w)).
Proof.
  intros C pf callback a p value baseindex w Hw Hw2 Hp Hal Hv Hup Hok.
  apply (sim_FindAll_run pf callback a baseindex
           (find_gtlt_fast callback act_FindAll true (m_width a) (read_chunk a p)
                           (to_size_t (find_gtlt_magic true (m_width a) value))
                           (to_size_t (8 * p / m_width a + baseindex)))
           tt (rel_pred pf true (m_width a) a value)); [ | exact Hok ].
  apply (sim_find_gtlt_fast callback act_FindAll baseindex
           (report_FindAll pf callback a baseindex)
           FindAll_going same_stopped (8 * p / m_width a + 64 / m_width a)
           (fun i j w1 w2 _ H => H)
           (FindAll_step_any pf callback a baseindex _)
           (fun i w1 w2 _ _ => or_introl (FindAll_declines callback w1))
           (fun i v w1 w2 _ _ _ _ => FindAll_declines callback _)
           pf (m_width a) a p value (8 * p / m_width a) Hw Hw2 Hp Hal Hv Hup eq_refl
           (Z.le_refl _)).
Qed.

Lemma find_gtlt_fast_is_naive_scan_witness :
  trick_width (m_width (mkArray [x01; x09; x03; x08; x00; x00; x00; x00] 0 8 8 (-128) 127)) /\
  2 <= m_width (mkArray [x01; x09; x03; x08; x00; x00; x00; x00] 0 8 8 (-128) 127) /\
  0 <= 0 /\ 0 mod 8 = 0 /\
  0 <= 5 <= 2 ^ (m_width (mkArray [x01; x09; x03; x08; x00; x00; x00; x00] 0 8 8 (-128) 127) - 1)
            - 2 /\
  state_ok (qs (mkWorld (QueryState_init act_FindAll 0 100) [] tt [])) /\
  column (snd (find_gtlt_fast (fun (_ : Z) (c : unit) => (true, c)) act_FindAll true 8
                 (read_chunk (mkArray [x01; x09; x03; x08; x00; x00; x00; x00]
                                      0 8 8 (-128) 127) 0)
                 (to_size_t (find_gtlt_magic true 8 5))
                 (to_size_t (8 * 0 / 8 + 20))
                 (mkWorld (QueryState_init act_FindAll 0 100) [] tt [])))
  = [21; 23].
Proof.
  assert (H1 : trick_width
                 (m_width (mkArray [x01; x09; x03; x08; x00; x00; x00; x00] 0 8 8 (-128) 127)))
    by (unfold trick_width; cbn; lia).
  assert (H2 : 2 <= m_width (mkArray [x01; x09; x03; x08; x00; x00; x00; x00] 0 8 8 (-128) 127))
    by (cbn; lia).
  assert (H3 : 0 <= 0) by lia.
  assert (H4 : 0 mod 8 = 0) by reflexivity.
  assert (H5 : 0 <= 5 <= 2 ^ (m_width (mkArray [x01; x09; x03; x08; x00; x00; x00; x00]
                                               0 8 8 (-128) 127) - 1) - 2)
    by (cbn; lia).
  assert (H6 : state_ok (qs (mkWorld (QueryState_init act_FindAll 0 100) [] tt [])))
    by (unfold state_ok; cbn; lia).
  repeat (split; [ assumption | ]).
  rewrite (find_gtlt_fast_is_naive_scan unit (mkPlatform true false false false true)
             (fun _ c => (true, c))
             (mkArray [x01; x09; x03; x08; x00; x00; x00; x00] 0 8 8 (-128) 127)
             0 5 20 (mkWorld (QueryState_init act_FindAll 0 100) [] tt [])
             H1 H2 H3 H4 H5 eq_refl H6
           : find_gtlt_fast (fun (_ : Z) (c : unit) => (true, c)) act_FindAll true 8
               (read_chunk (mkArray [x01; x09; x03; x08; x00; x00; x00; x00]
                                    0 8 8 (-128) 127) 0)
               (to_size_t (find_gtlt_magic true 8 5))
               (to_size_t (8 * 0 / 8 + 20))
               (mkWorld (QueryState_init act_FindAll 0 100) [] tt []) = _).
  reflexivity.
Defined.

(** X10.  For the widths 8, 16, 32 and 64 (Less not at 64) and a value that
    the width can hold, [-2^(w-1) <= value < 2^(w-1)] (what is left after the
    pruning by [can_match] and [will_match]; [find_sse] narrows the value to
    the lane type), [find_sse<cond, act_FindAll, w>] run on [items] 16-byte
    vectors that start at byte offset [data] of the payload, on a 16-byte
    boundary of memory, reports exactly the elements stored in those vectors
    that satisfy the condition, lowest index first, as the naive scan of those
    [items * 128 / w] elements does. *)
Theorem find_sse_is_naive_scan :
  forall (C : Type) (pf : Platform) (callback : Z -> C -> bool * C) (cd : Cond) (a : Array)
         (value data items baseindex : Z) (w : World C),
    four_conds cd -> byte_width (m_width a) -> (cd = Less -> m_width a <> 64) ->
    0 <= data -> (m_data_addr a + data) mod 16 = 0 ->
    (8 * data) mod m_width a = 0 -> 0 <= items ->
    - 2 ^ (m_width a - 1) <= value < 2 ^ (m_width a - 1) ->
    state_ok (qs w) ->
    find_sse pf callback act_FindAll cd (m_width a) a value data items
             (to_size_t (8 * data / m_width a + baseindex)) w
    = (if fst (scan (fun i => cond_c cd (get_dyn pf a i) value)
                    (fun i => find_action act_FindAll callback (to_size_t (i + baseindex))
                                          (Some (get_dyn pf a i)))
                    (8 * data / m_width a)
                    (8 * data / m_width a + items * (128 / m_width a)) w)
       then Done tt else ReturnFalse,
       snd (scan (fun i => cond_c cd (get_dyn pf a i) value)
                 (fun i => find_action act_FindAll callback (to_size_t (i + baseindex))
                                       (Some (get_dyn pf a i)))
                 (8 * data / m_width a)
                 (8 * data / m_width a + items * (128 / m_width a)) w)).
Proof.
  intros C pf callback cd a value data items baseindex w Hcd Hw Hlt Hd _ Hal Hit Hv Hok.
  apply (sim_FindAll_run pf callback a baseindex
           (find_sse pf callback act_FindAll cd (m_width a) a value data items
                     (to_size_t (8 * data / m_width a + baseindex)))
           tt (holds pf cd (m_width a) a value)); [ | exact Hok ].
  apply (sim_find_sse callback act_FindAll baseindex
           (report_FindAll pf callback a baseindex)
           FindAll_going same_stopped (8 * data / m_width a + items * (128 / m_width a))
           (fun i j w1 w2 _ H => H)
           (FindAll_step_any pf callback a baseindex _)
           (fun i w1 w2 _ _ => or_introl (FindAll_declines callback w1))
           (fun i v w1 w2 _ _ _ _ => FindAll_declines callback _)
           pf cd (m_width a) a value data items
           (to_size_t (8 * data / m_width a + baseindex))
           Hcd Hw Hlt Hd Hal Hit (Z.le_refl _) Hv).
  intros k. rewrite to_size_t_add_r. f_equal. lia.
Qed.

Lemma find_sse_is_naive_scan_witness :
  four_conds Greater /\
  byte_width (m_width (mkArray [x01; x09; x03; x08; x00; x00; x00; x00;
                                x00; x00; x00; x00; x00; x00; x00; x7f] 0 8 16 (-128) 127)) /\
  0 <= 0 /\ 0 <= 1 /\
  (m_data_addr (mkArray [x01; x09; x03; x08; x00; x00; x00; x00;
                         x00; x00; x00; x00; x00; x00; x00; x7f] 0 8 16 (-128) 127) + 0)
  mod 16 = 0 /\
  - 2 ^ (m_width (mkArray [x01; x09; x03; x08; x00; x00; x00; x00;
                           x00; x00; x00; x00; x00; x00; x00; x7f] 0 8 16 (-128) 127) - 1)
  <= 5
  < 2 ^ (m_width (mkArray [x01; x09; x03; x08; x00; x00; x00; x00;
                           x00; x00; x00; x00; x00; x00; x00; x7f] 0 8 16 (-128) 127) - 1) /\
  state_ok (qs (mkWorld (QueryState_init act_FindAll 0 100) [] tt [])) /\
  column (snd (find_sse (mkPlatform true true true true true)
                 (fun (_ : Z) (c : unit) => (true, c)) act_FindAll Greater 8
                 (mkArray [x01; x09; x03; x08; x00; x00; x00; x00;
                           x00; x00; x00; x00; x00; x00; x00; x7f] 0 8 16 (-128) 127)
                 5 0 1 (to_size_t (8 * 0 / 8 + 20))
                 (mkWorld (QueryState_init act_FindAll 0 100) [] tt [])))
  = [21; 23; 35].
Proof.
  assert (H1 : four_conds Greater) by (right; right; left; reflexivity).
  assert (H2 : byte_width
                 (m_width (mkArray [x01; x09; x03; x08; x00; x00; x00; x00;
                                    x00; x00; x00; x00; x00; x00; x00; x7f] 0 8 16 (-128) 127)))
    by (unfold byte_width; cbn; lia).
  assert (H3 : 0 <= 0) by lia.
  assert (H4 : 0 <= 1) by lia.
  assert (H5 : state_ok (qs (mkWorld (QueryState_init act_FindAll 0 100) [] tt [])))
    by (unfold state_ok; cbn; lia).
  assert (H6 : (m_data_addr (mkArray [x01; x09; x03; x08; x00; x00; x00; x00;
                                      x00; x00; x00; x00; x00; x00; x00; x7f]
                                     0 8 16 (-128) 127) + 0) mod 16 = 0)
    by reflexivity.
  assert (H7 : - 2 ^ (m_width (mkArray [x01; x09; x03; x08; x00; x00; x00; x00;
                                        x00; x00; x00; x00; x00; x00; x00; x7f]
                                       0 8 16 (-128) 127) - 1)
               <= 5
               < 2 ^ (m_width (mkArray [x01; x09; x03; x08; x00; x00; x00; x00;
                                        x00; x00; x00; x00; x00; x00; x00; x7f]
                                       0 8 16 (-128) 127) - 1))
    by (cbn; lia).
  repeat (split; [ assumption | ]).
  rewrite (find_sse_is_naive_scan unit (mkPlatform true true true true true)
             (fun _ c => (true, c)) Greater
             (mkArray [x01; x09; x03; x08; x00; x00; x00; x00;
                       x00; x00; x00; x00; x00; x00; x00; x7f] 0 8 16 (-128) 127)
             5 0 1 20 (mkWorld (QueryState_init act_FindAll 0 100) [] tt [])
             H1 H2 ltac:(discriminate) H3 H6 eq_refl H4 H7 H5
           : find_sse (mkPlatform true true true true true)
               (fun (_ : Z) (c : unit) => (true, c)) act_FindAll Greater 8
               (mkArray [x01; x09; x03; x08; x00; x00; x00; x00;
                         x00; x00; x00; x00; x00; x00; x00; x7f] 0 8 16 (-128) 127)
               5 0 1 (to_size_t (8 * 0 / 8 + 20))
               (mkWorld (QueryState_init act_FindAll 0 100) [] tt []) = _).
  reflexivity.
Defined.

(** ** [compare_leafs]: two leaves compared element by element *)

(** The two payloads sit alike relative to the 16-byte boundaries of memory
    whenever [compare_leafs_4] takes its vector path (SSE 4.2, equal widths 8,
    16 or 32): the vector loads of both leaves are then on a boundary. *)
Definition leafs_aligned (pf : Platform) (a foreign : Array) : Prop :=
  compiler_sse pf && sseavx42 pf && (m_width a =? m_width foreign)
  && ((m_width a =? 8) || (m_width a =? 16) || (m_width a =? 32)) = true ->
  m_data_addr foreign mod 16 = m_data_addr a mod 16.

(** X11.  For each of the four conditions and any two leaves of any widths, on
    any platform, whose payloads sit alike relative to the 16-byte boundaries
    of memory whenever the vector path is taken, [compare_leafs<cond,
    act_FindAll>] runs to its end without a load off a boundary, reports
    exactly the indices [i] of the range at which the element of this leaf
    stands in the condition to the element of the foreign leaf, in increasing
    order, and returns and leaves the state as the naive scan of the pairs
    does; whether a pair is tested by one of the unrolled tests, by a scalar
    loop or, for equal widths 8, 16 and 32 under SSE 4.2, inside a pair of
    16-byte vectors. *)
Theorem compare_leafs_is_naive_scan :
  forall (C : Type) (pf : Platform) (callback : Z -> C -> bool * C) (cd : Cond)
         (a foreign : Array) (start end_ baseindex : Z) (w : World C),
    four_conds cd ->
    0 <= start <= end_ -> end_ <= m_size a -> end_ <= m_size foreign ->
    leafs_aligned pf a foreign ->
    state_ok (qs w) ->
    compare_leafs pf callback act_FindAll cd a foreign start end_ baseindex w
    = (if fst (scan (fun i => cond_c cd (get_dyn pf a i) (get_dyn pf foreign i))
                    (fun i => find_action act_FindAll callback (to_size_t (i + baseindex))
                                          (Some (get_dyn pf a i)))
                    start end_ w)
       then Done tt else ReturnFalse,
       snd (scan (fun i => cond_c cd (get_dyn pf a i) (get_dyn pf foreign i))
                 (fun i => find_action act_FindAll callback (to_size_t (i + baseindex))
                                       (Some (get_dyn pf a i)))
                 start end_ w)).
Proof.
  intros C pf callback cd a foreign start end_ baseindex w Hcd Hse Ha Hf Hal Hok.
  apply (sim_FindAll_run pf callback a baseindex
           (compare_leafs pf callback act_FindAll cd a foreign start end_ baseindex)
           tt (holds_leafs pf cd (m_width a) (m_width foreign) a foreign)); [ | exact Hok ].
  apply (sim_compare_leafs callback act_FindAll baseindex
           (report_FindAll pf callback a baseindex)
           FindAll_going same_stopped end_
           (fun i j w1 w2 _ H => H)
           (FindAll_step_any pf callback a baseindex _)
           (fun i w1 w2 _ _ => or_introl (FindAll_declines callback w1))
           (fun i v w1 w2 _ _ _ _ => FindAll_declines callback _)
           pf cd a foreign start end_ Hcd Hse (Z.le_refl _) Hal).
Qed.

(** Two leaves of width 8 and 40 elements each, the second payload 32 bytes
    after the first: elements 16 to 31 are compared as one pair of vectors. *)
Definition leaf_sample_a : Array :=
  mkArray (repeat x01 20 ++ [x09] ++ repeat x01 19) 64 8 40 (-128) 127.

Definition leaf_sample_b : Array :=
  mkArray (repeat x01 3 ++ [x02] ++ repeat x01 36) 96 8 40 (-128) 127.

Lemma compare_leafs_is_naive_scan_witness :
  four_conds NotEqual /\
  0 <= 0 <= 40 /\
  40 <= m_size leaf_sample_a /\
  40 <= m_size leaf_sample_b /\
  leafs_aligned (mkPlatform true true true true true) leaf_sample_a leaf_sample_b /\
  m_data_addr leaf_sample_b mod 16 = m_data_addr leaf_sample_a mod 16 /\
  state_ok (qs (mkWorld (QueryState_init act_FindAll 0 100) [] tt [])) /\
  column (snd (compare_leafs (mkPlatform true true true true true)
                 (fun (_ : Z) (c : unit) => (true, c)) act_FindAll NotEqual
                 leaf_sample_a leaf_sample_b 0 40 10
                 (mkWorld (QueryState_init act_FindAll 0 100) [] tt [])))
  = [13; 30].
Proof.
  assert (H1 : four_conds NotEqual) by (right; left; reflexivity).
  assert (H2 : 0 <= 0 <= 40) by lia.
  assert (H3 : 40 <= m_size leaf_sample_a) by (cbn; lia).
  assert (H4 : 40 <= m_size leaf_sample_b) by (cbn; lia).
  assert (H5 : leafs_aligned (mkPlatform true true true true true) leaf_sample_a leaf_sample_b)
    by (intros _; reflexivity).
  assert (H6 : m_data_addr leaf_sample_b mod 16 = m_data_addr leaf_sample_a mod 16)
    by reflexivity.
  assert (H7 : state_ok (qs (mkWorld (QueryState_init act_FindAll 0 100) [] tt [])))
    by (unfold state_ok; cbn; lia).
  repeat (split; [ assumption | ]).
  rewrite (compare_leafs_is_naive_scan unit (mkPlatform true true true true true)
             (fun _ c => (true, c)) NotEqual leaf_sample_a leaf_sample_b
             0 40 10 (mkWorld (QueryState_init act_FindAll 0 100) [] tt [])
             H1 H2 H3 H4 H5 H7).
  reflexivity.
Defined.

(** The state of the counting search and the state of the collecting scan
    after the same elements. *)
Definition Count_going {C} (i : Z) (wC wF : World C) : Prop :=
  m_limit (qs wC) = m_limit (qs wF) /\
  m_state (qs wC) = m_match_count (qs wF) /\
  m_match_count (qs wC) = m_match_count (qs wF) /\
  state_ok (qs wF) /\ m_match_count (qs wF) <= i.

Definition Count_stopped {C} (wC wF : World C) : Prop :=
  m_state (qs wC) = m_match_count (qs wF).

(** X12.  For each of the four conditions, any limit > 0 and any two leaves
    whose payloads sit alike relative to the 16-byte boundaries of memory
    whenever the vector path is taken, [compare_leafs<cond, act_Count>] started
    on a fresh state runs to its end or to the limit without a load off a
    boundary, and leaves in [m_state] the number of indices of the range at
    which the element of this leaf stands in the condition to the element of
    the foreign leaf, or the limit if that is smaller; also when whole vectors
    are counted by the population count of their pattern. *)
Theorem compare_leafs_counts_pairs :
  forall (C : Type) (pf : Platform) (callback : Z -> C -> bool * C) (cd : Cond)
         (a foreign : Array) (start end_ baseindex limit akku : Z) (w : World C),
    four_conds cd ->
    0 <= start <= end_ -> end_ <= m_size a -> end_ <= m_size foreign ->
    m_size a < 2 ^ 63 ->
    leafs_aligned pf a foreign ->
    0 < limit < 2 ^ 64 ->
    qs w = QueryState_init act_Count akku limit ->
    (fst (compare_leafs pf callback act_Count cd a foreign start end_ baseindex w) = Done tt
     \/ fst (compare_leafs pf callback act_Count cd a foreign start end_ baseindex w)
        = ReturnFalse) /\
    m_state (qs (snd (compare_leafs pf callback act_Count cd a foreign start end_ baseindex w)))
    = Z.min (Z.of_nat (length (matches (fun i => cond_c cd (get_dyn pf a i)
                                                        (get_dyn pf foreign i))
                                       start end_)))
            limit.
Proof.
  intros C pf callback cd a foreign start end_ baseindex limit akku w
         Hcd Hse Ha Hf Hsz Hal Hlim Hq.
  set (wF := mkWorld (QueryState_init act_FindAll 0 limit) (column w) (cb w) (calls w)).
  assert (HokF : state_ok (qs wF)) by (unfold state_ok, wF; cbn; lia).
  destruct (sim_compare_leafs callback act_Count baseindex
              (report_FindAll pf callback a baseindex)
              Count_going Count_stopped (m_size a)
              Count_R_mono
              (Count_R_step pf callback a baseindex Hsz)
              (Count_R_pattern pf callback a baseindex Hsz)
              (Count_declines_stable callback a baseindex Hsz)
              pf cd a foreign start end_ Hcd Hse Ha Hal w wF)
    as (b & w2' & Hrep & HR & Hout).
  { unfold Count_going. rewrite Hq. unfold wF, state_ok. cbn. repeat split; lia. }
  split; [ rewrite Hout; destruct b; [ left | right ]; reflexivity | ].
  pose proof (report_all_FindAll pf callback a baseindex
                (matches (holds_leafs pf cd (m_width a) (m_width foreign) a foreign)
                         start end_) wF HokF) as Hcount.
  cbv zeta in Hcount. rewrite Hrep in Hcount. cbn [fst snd] in Hcount.
  destruct Hcount as (_ & Hmc & _).
  change (m_match_count (qs wF)) with 0 in Hmc. change (m_limit (qs wF)) with limit in Hmc.
  rewrite Z.add_0_l in Hmc.
  change (matches (fun i => cond_c cd (get_dyn pf a i) (get_dyn pf foreign i)) start end_)
    with (matches (holds_leafs pf cd (m_width a) (m_width foreign) a foreign) start end_).
  rewrite <- Hmc.
  destruct b; [ destruct HR as (_ & HR & _) | ]; exact HR.
Qed.

Lemma compare_leafs_counts_pairs_witness :
  four_conds NotEqual /\
  0 <= 0 <= 40 /\
  40 <= m_size leaf_sample_a /\
  40 <= m_size leaf_sample_b /\
  m_size leaf_sample_a < 2 ^ 63 /\
  leafs_aligned (mkPlatform true true true true true) leaf_sample_a leaf_sample_b /\
  m_data_addr leaf_sample_b mod 16 = m_data_addr leaf_sample_a mod 16 /\
  0 < 5 < 2 ^ 64 /\
  m_state (qs (snd (compare_leafs (mkPlatform true true true true true)
                      (fun (_ : Z) (c : unit) => (true, c)) act_Count NotEqual
                      leaf_sample_a leaf_sample_b 0 40 10
                      (mkWorld (QueryState_init act_Count 0 5) [] tt []))))
  = 2.
Proof.
  assert (H1 : four_conds NotEqual) by (right; left; reflexivity).
  assert (H2 : 0 <= 0 <= 40) by lia.
  assert (H3 : 40 <= m_size leaf_sample_a) by (cbn; lia).
  assert (H4 : 40 <= m_size leaf_sample_b) by (cbn; lia).
  assert (H5 : m_size leaf_sample_a < 2 ^ 63) by (rewrite two_p_63; cbn; lia).
  assert (H6 : leafs_aligned (mkPlatform true true true true true) leaf_sample_a leaf_sample_b)
    by (intros _; reflexivity).
  assert (H7 : m_data_addr leaf_sample_b mod 16 = m_data_addr leaf_sample_a mod 16)
    by reflexivity.
  assert (H8 : 0 < 5 < 2 ^ 64) by (rewrite two_p_64; lia).
  repeat (split; [ assumption | ]).
  rewrite (proj2 (compare_leafs_counts_pairs unit (mkPlatform true true true true true)
                    (fun _ c => (true, c)) NotEqual leaf_sample_a leaf_sample_b
                    0 40 10 5 0 (mkWorld (QueryState_init act_Count 0 5) [] tt [])
                    H1 H2 H3 H4 H5 H6 H8 eq_refl)).
  reflexivity.
Defined.

(** ** Nullable arrays: the generic loop of [find_optimized] *)

(** A loop that tests every index and reports the ones that pass is the naive
    scan. *)
Lemma for_scan_aux {C} (pred : Z -> bool) (rep : Z -> World C -> bool * World C) e n :
  forall s (w : World C),
    Z.of_nat n = e - s ->
    while_ n (fun i => i <? e)
           (fun i => bind (if pred i then check (rep i) else ret tt) (fun _ => ret (true, i + 1)))
           s w
    = (if fst (scan_from pred rep n s w) then Done e else ReturnFalse,
       snd (scan_from pred rep n s w)).
Proof.
  induction n as [ | n IH ]; intros s w Hn.
  - assert (s = e) by lia. subst s. cbn [while_ scan_from fst snd].
    rewrite Z.ltb_irrefl. reflexivity.
  - cbn [while_ scan_from]. destruct (Z.ltb_spec s e); [ | lia ].
    destruct (pred s).
    + unfold bind at 1 2. unfold check. destruct (rep s w) as [[] w'].
      * cbn [fst snd ret]. apply IH. lia.
      * reflexivity.
    + unfold bind at 1 2. cbn [ret fst snd]. apply IH. lia.
Qed.

Lemma for_scan {C} (pred : Z -> bool) (rep : Z -> World C -> bool * World C) s e
    (w : World C) :
  s <= e ->
  for_ s e (fun i => if pred i then check (rep i) else ret tt) w
  = (if fst (scan pred rep s e w) then Done e else ReturnFalse, snd (scan pred rep s e w)).
Proof. intros Hse. unfold for_, scan. apply for_scan_aux. lia. Qed.

(** What the loop tests at the logical index [i] of a nullable array: the
    stored element [i + 1] against the value, with element 0 as the null. *)
Definition null_pred (pf : Platform) (cd : Cond) (a : Array) (value : Z) (find_null : bool)
    (i : Z) : bool :=
  cond_op cd (get_dyn pf a (i + 1)) value (get_dyn pf a (i + 1) =? get_dyn pf a 0) find_null.

(** The optional value the loop reports for the logical index [i]. *)
Definition null_value (pf : Platform) (a : Array) (i : Z) : option Z :=
  if get_dyn pf a (i + 1) =? get_dyn pf a 0 then None else Some (get_dyn pf a (i + 1)).

Lemma find_nullable_scan {C} pf (callback : Z -> C -> bool * C) action cd a value start end_
    baseindex find_null (w : World C) :
  start <= end_ -> end_ < npos ->
  find pf callback action cd a value start end_ baseindex true find_null w
  = (Done (fst (scan (null_pred pf cd a value find_null)
                     (fun i => find_action action callback (to_size_t (i + baseindex))
                                           (null_value pf a i))
                     start end_ w)),
     snd (scan (null_pred pf cd a value find_null)
               (fun i => find_action action callback (to_size_t (i + baseindex))
                                     (null_value pf a i))
               start end_ w)).
Proof.
  intros Hse Hnpos. unfold find, returns, find_optimized.
  destruct (Z.eqb_spec end_ npos) as [ | _ ]; [ lia | ].
  rewrite Bool.andb_false_r. cbn [negb]. unfold assert_ at 1. unfold bind at 1. cbv iota.
  unfold bind.
  pose proof (for_scan (null_pred pf cd a value find_null)
                (fun i => find_action action callback (to_size_t (i + baseindex))
                                      (null_value pf a i)) start end_ w Hse) as Hloop.
  set (r := scan (null_pred pf cd a value find_null)
                 (fun i => find_action action callback (to_size_t (i + baseindex))
                                       (null_value pf a i)) start end_ w) in *.
  unfold null_pred, null_value, get_dyn in Hloop. unfold get_dyn.
  rewrite Hloop. destruct (fst r); reflexivity.
Qed.

Lemma find_action_Count_opt {C} (callback : Z -> C -> bool * C) idx v (w : World C) :
  find_action act_Count callback idx v w
  = (m_limit (qs w) >? to_size_t (to_int64 (m_state (qs w) + 1)),
     mkWorld (mkQueryState (to_int64 (m_state (qs w) + 1))
                           (to_size_t (to_int64 (m_state (qs w) + 1)))
                           (m_limit (qs w)) (m_minmax_index (qs w)))
             (column w) (cb w)
             (calls w ++ [(idx, m_limit (qs w) >? to_size_t (to_int64 (m_state (qs w) + 1)))])).
Proof. destruct v; reflexivity. Qed.

(** Counting a list of matches, null or not: one more per match until the
    limit is reached. *)
Lemma report_all_Count_opt {C} (callback : Z -> C -> bool * C) (idx : Z -> Z)
    (val : Z -> option Z) js :
  forall w : World C,
    0 <= m_state (qs w) < m_limit (qs w) -> m_limit (qs w) < 2 ^ 64 ->
    m_state (qs w) + Z.of_nat (length js) < 2 ^ 63 ->
    m_state (qs (snd (report_all (fun i => find_action act_Count callback (idx i) (val i))
                                 js w)))
    = Z.min (m_state (qs w) + Z.of_nat (length js)) (m_limit (qs w)).
Proof.
  induction js as [ | j js IH ]; intros w Hst Hl Hn.
  - cbn [report_all snd length]. lia.
  - cbn [report_all]. rewrite find_action_Count_opt. cbn [length] in Hn.
    rewrite (to_int64_small (m_state (qs w) + 1)) by (rewrite two_p_63 in *; lia).
    rewrite (to_size_t_small (m_state (qs w) + 1)) by lia.
    destruct (Z.gtb_spec (m_limit (qs w)) (m_state (qs w) + 1)) as [Hgo | Hstop].
    + rewrite IH; cbn [qs m_state m_limit length]; lia.
    + cbn [snd qs m_state length]. lia.
Qed.

(** X13.  On a nullable array (element 0 holds the null, logical index [i] is
    stored at [i + 1]), for any condition and any limit > 0,
    [find<cond, act_Count>] started on a fresh state leaves in [m_state] the
    number of logical indices of the range whose element satisfies
    [c(v, value, v == null, find_null)], or the limit if that is smaller: null
    matches and other matches count alike. *)
Theorem find_Count_nullable :
  forall (C : Type) (pf : Platform) (callback : Z -> C -> bool * C) (cd : Cond) (a : Array)
         (value start end_ baseindex limit akku : Z) (find_null : bool) (w : World C),
    0 <= start <= end_ -> end_ <= m_size a - 1 -> m_size a < 2 ^ 63 ->
    0 < limit < 2 ^ 64 ->
    qs w = QueryState_init act_Count akku limit ->
    m_state (qs (snd (find pf callback act_Count cd a value start end_ baseindex
                           true find_null w)))
    = Z.min (Z.of_nat (length (matches
               (fun i => cond_op cd (get_dyn pf a (i + 1)) value
                                 (get_dyn pf a (i + 1) =? get_dyn pf a 0) find_null)
               start end_)))
            limit.
Proof.
  intros C pf callback cd a value start end_ baseindex limit akku find_null w
         Hse He Hsz Hlim Hq.
  rewrite two_p_63 in Hsz.
  rewrite find_nullable_scan
    by (try lia; change npos with 18446744073709551615; lia).
  cbn [snd]. rewrite scan_report_all.
  pose proof (matches_length (null_pred pf cd a value find_null) start end_ (proj2 Hse)) as Hlen.
  rewrite (report_all_Count_opt callback (fun i => to_size_t (i + baseindex)) (null_value pf a));
    rewrite Hq; cbn [QueryState_init m_state m_limit];
    try (rewrite ?two_p_63; lia).
  reflexivity.
Qed.

Lemma find_Count_nullable_witness :
  0 <= 0 <= 2 /\
  2 <= m_size (mkArray [x05; x05; x05] 0 8 3 (-128) 127) - 1 /\
  m_size (mkArray [x05; x05; x05] 0 8 3 (-128) 127) < 2 ^ 63 /\
  0 < 1 < 2 ^ 64 /\
  m_state (qs (snd (find (mkPlatform true false false false true)
                         (fun (_ : Z) (c : unit) => (true, c)) act_Count Equal
                         (mkArray [x05; x05; x05] 0 8 3 (-128) 127)
                         0 0 2 0 true true
                         (mkWorld (QueryState_init act_Count 0 1) [] tt []))))
  = 1.
Proof.
  assert (H1 : 0 <= 0 <= 2) by lia.
  assert (H2 : 2 <= m_size (mkArray [x05; x05; x05] 0 8 3 (-128) 127) - 1) by (cbn; lia).
  assert (H3 : m_size (mkArray [x05; x05; x05] 0 8 3 (-128) 127) < 2 ^ 63)
    by (rewrite two_p_63; cbn; lia).
  assert (H4 : 0 < 1 < 2 ^ 64) by (rewrite two_p_64; lia).
  repeat (split; [ assumption | ]).
  rewrite (find_Count_nullable unit (mkPlatform true false false false true)
             (fun _ c => (true, c)) Equal
             (mkArray [x05; x05; x05] 0 8 3 (-128) 127)
             0 0 2 0 1 0 true (mkWorld (QueryState_init act_Count 0 1) [] tt [])
             H1 H2 H3 H4 eq_refl).
  reflexivity.
Defined.

(** ** Width 64 under [compare_relation] *)


